(** * The tree model and tree view of OpenGLGUI (src/controls/tree_view.hpp)

    A shallow embedding of [TreeNode], [Tree], [Column] and [TreeView].
    Nodes live in a store indexed by their address, so that parent links,
    child vectors and the references kept by the view alias the same node.
    Undefined behaviour of the C++ code (null or dangling dereference, index
    out of range, failed assertion) is the result [None]. *)

From Stdlib Require Import ZArith Lia List Bool.
From stdpp Require Import base option list gmap sorting.

Local Open Scope Z_scope.

(** ** Machine integers and vectors *)

(** [u64] arithmetic wraps modulo 2^64. *)
Definition u64 (z : Z) : Z := z mod 2 ^ 64.

(** [i32] values are the representatives in [-2^31, 2^31). *)
Definition i32 (z : Z) : Z := (z + 2 ^ 31) mod 2 ^ 32 - 2 ^ 31.

(** An address; [option ptr] is a nullable pointer. *)
Abbreviation ptr := positive.

(** [v.size()] *)
Definition vec_size {A} (v : list A) : Z := Z.of_nat (length v).

(** [v[i]]; an index outside the vector is undefined behaviour. *)
Definition vec_at {A} (v : list A) (i : Z) : option A :=
  if bool_decide (0 ≤ i) then v !! Z.to_nat i else None.

(** [v.insert(v.begin() + i, x)] *)
Definition vec_insert {A} (i : Z) (x : A) (v : list A) : option (list A) :=
  if bool_decide (0 ≤ i ≤ vec_size v)
  then Some (take (Z.to_nat i) v ++ x :: drop (Z.to_nat i) v)
  else None.

(** [v.erase(v.begin() + i)] *)
Definition vec_erase {A} (i : Z) (v : list A) : option (list A) :=
  if bool_decide (0 ≤ i < vec_size v)
  then Some (delete (Z.to_nat i) v)
  else None.

(** [for (i = lo; ...; i++) body], run for [n] rounds. *)
Fixpoint for_range {S} (n : nat) (i : Z) (body : Z → S → option S) (s : S)
  : option S :=
  match n with
  | O => Some s
  | S n' => s' ← body i s; for_range n' (i + 1) body s'
  end.

(** ** Nodes *)

(** Modelled from the spec: the declaration of [BinarySearchData] is not in
    tree_view.hpp; the code builds it as [{position, length}] from two [u64]
    values and reads the fields [position] and [length]. *)
Module BinarySearchData.
Record t := mk { position : Z; length : Z }.
End BinarySearchData.

(** A cell payload, known by its address only. *)
Abbreviation Drawable := positive.

Record TreeNode := mkTreeNode {
  columns : list Drawable;
  hidden : option ptr;
  parent : option ptr;
  parent_index : Z;
  children : list ptr;
  is_collapsed : bool;
  max_cell_height : Z;
  depth : Z;
  bs_data : BinarySearchData.t
}.

Definition bs_position (nd : TreeNode) : Z :=
  BinarySearchData.position (bs_data nd).

Definition bs_length (nd : TreeNode) : Z :=
  BinarySearchData.length (bs_data nd).

(** [TreeNode(columns, hidden)] with the member initialisers. *)
Definition new_TreeNode (cols : list Drawable) (hid : option ptr) : TreeNode :=
  mkTreeNode cols hid None (-1) [] false 0 0 (BinarySearchData.mk 0 0).

Definition set_parent (v : option ptr) (nd : TreeNode) : TreeNode :=
  mkTreeNode (columns nd) (hidden nd) v (parent_index nd) (children nd)
    (is_collapsed nd) (max_cell_height nd) (depth nd) (bs_data nd).

Definition set_parent_index (v : Z) (nd : TreeNode) : TreeNode :=
  mkTreeNode (columns nd) (hidden nd) (parent nd) v (children nd)
    (is_collapsed nd) (max_cell_height nd) (depth nd) (bs_data nd).

Definition set_children (v : list ptr) (nd : TreeNode) : TreeNode :=
  mkTreeNode (columns nd) (hidden nd) (parent nd) (parent_index nd) v
    (is_collapsed nd) (max_cell_height nd) (depth nd) (bs_data nd).

Definition set_is_collapsed (v : bool) (nd : TreeNode) : TreeNode :=
  mkTreeNode (columns nd) (hidden nd) (parent nd) (parent_index nd)
    (children nd) v (max_cell_height nd) (depth nd) (bs_data nd).

Definition set_max_cell_height (v : Z) (nd : TreeNode) : TreeNode :=
  mkTreeNode (columns nd) (hidden nd) (parent nd) (parent_index nd)
    (children nd) (is_collapsed nd) v (depth nd) (bs_data nd).

Definition set_depth (v : Z) (nd : TreeNode) : TreeNode :=
  mkTreeNode (columns nd) (hidden nd) (parent nd) (parent_index nd)
    (children nd) (is_collapsed nd) (max_cell_height nd) v (bs_data nd).

Definition set_bs_data (v : BinarySearchData.t) (nd : TreeNode) : TreeNode :=
  mkTreeNode (columns nd) (hidden nd) (parent nd) (parent_index nd)
    (children nd) (is_collapsed nd) (max_cell_height nd) (depth nd) v.

(** The node store. *)
Abbreviation heap := (gmap positive TreeNode).

(** [p->field = ...]: a write through a pointer. *)
Definition modify (p : ptr) (f : TreeNode → TreeNode) (h : heap)
  : option heap :=
  nd ← h !! p; Some (<[p := f nd]> h).

(** ** Traversal *)

Inductive Traversal := Continue | Next | Break.

Global Instance Traversal_eq_dec : EqDecision Traversal.
Proof. solve_decision. Defined.

Section Traversal.
Context {X : Type}.

(** A visitor closure: [X] holds the variables it captures by reference. *)
Definition visitor : Type :=
  ptr → heap * X → option (Traversal * (heap * X)).

(** The loop [for (child : root->children)] of [descend]; [rec] is the
    recursive call. *)
Fixpoint descend_children
    (rec : Traversal → ptr → heap * X
           → option (option ptr * Traversal * (heap * X)))
    (kids : list ptr) (last : option ptr) (early_exit : Traversal)
    (s : heap * X)
  : option (option ptr * Traversal * (heap * X)) :=
  match kids with
  | [] => Some (last, early_exit, s)
  | child :: kids' =>
      '(last, early_exit, s) ← rec early_exit child s;
      match early_exit with
      | Break => Some (last, early_exit, s)
      | _ => descend_children rec kids' last early_exit s
      end
  end.

(** [Tree::descend]; [fuel] bounds the recursion depth. *)
Fixpoint Tree_descend (fuel : nat) (early_exit : Traversal) (root : ptr)
    (fn : option visitor) (s : heap * X)
  : option (option ptr * Traversal * (heap * X)) :=
  match fuel with
  | O => None
  | S fuel' =>
      '(early_exit, s) ←
        match fn with
        | Some f => f root s
        | None => Some (early_exit, s)
        end;
      match fn, early_exit with
      | Some _, Break | Some _, Next => Some (Some root, early_exit, s)
      | _, _ =>
          nd ← s.1 !! root;
          match children nd with
          | [] => Some (Some root, early_exit, s)
          | kids =>
              descend_children
                (λ ee child s, Tree_descend fuel' ee child fn s)
                kids None early_exit s
          end
      end
  end.

(** The loop of [forEachNode] over the given roots. *)
Fixpoint forEachNode_loop (fuel : nat) (roots : list ptr) (fn : visitor)
    (early_exit : Traversal) (s : heap * X) : option (heap * X) :=
  match roots with
  | [] => Some s
  | root :: rest =>
      '(_, early_exit, s) ← Tree_descend fuel early_exit root (Some fn) s;
      match early_exit with
      | Break => Some s
      | _ => forEachNode_loop fuel rest fn early_exit s
      end
  end.

(** [Tree::forEachNode] *)
Definition Tree_forEachNode (fuel : nat) (roots : list ptr) (fn : visitor)
    (s : heap * X) : option (heap * X) :=
  forEachNode_loop fuel roots fn Continue s.

End Traversal.

Arguments visitor : clear implicits.

(** ** The tree model *)

Record Tree := mkTree { roots : list ptr }.

(** The visitor of [Tree::_updateBSData]; it captures [position]. *)
Definition updateBSData_visitor : visitor Z :=
  λ node '(h, position),
    nd ← h !! node;
    let nd := set_bs_data (BinarySearchData.mk position (bs_length nd)) nd in
    Some (Continue, (<[node := nd]> h, u64 (position + bs_length nd))).

(** [Tree::_updateBSData] *)
Definition Tree__updateBSData (fuel : nat) (h : heap) (t : Tree)
  : option (Z * heap) :=
  '(h, position) ←
    Tree_forEachNode fuel (roots t) updateBSData_visitor (h, 0);
  Some (position, h).

(** The visitor of [Tree::_updateDepth]; it captures the counter [depth]. *)
Definition updateDepth_visitor : visitor Z :=
  λ _node '(h, depth),
    nd ← h !! _node;
    if bool_decide (parent_index nd = 0) then
      let depth := i32 (depth + 1) in
      Some (Continue, (<[_node := set_depth depth nd]> h, depth))
    else
      p ← parent nd;
      pd ← h !! p;
      if bool_decide (parent_index nd = i32 (u64 (vec_size (children pd) - 1)))
      then Some (Continue, (<[_node := set_depth depth nd]> h, i32 (depth - 1)))
      else Some (Continue, (<[_node := set_depth depth nd]> h, depth)).

(** [Tree::_updateDepth] *)
Definition Tree__updateDepth (fuel : nat) (parent_ : option ptr) (node : ptr)
    (h : heap) : option heap :=
  nd ← h !! node;
  match parent_ with
  | None =>
      if bool_decide (depth nd ≠ 1) then
        let h := <[node := set_depth 1 nd]> h in
        nd ← h !! node;
        fst <$> Tree_forEachNode fuel (children nd) updateDepth_visitor (h, 1)
      else Some h
  | Some p =>
      pd ← h !! p;
      if bool_decide (depth nd ≠ i32 (depth pd + 1)) then
        let h := <[node := set_depth (i32 (depth pd + 1)) nd]> h in
        nd ← h !! node;
        fst <$> Tree_forEachNode fuel (children nd) updateDepth_visitor
                  (h, depth nd)
      else Some h
  end.

(** [Tree::append] *)
Definition Tree_append (fuel : nat) (parent_ : option ptr) (node : ptr)
    (h : heap) (t : Tree) : option (ptr * heap * Tree) :=
  match parent_ with
  | None =>
      h ← modify node (set_parent None) h;
      let t := mkTree (roots t ++ [node]) in
      h ← modify node
            (set_parent_index (i32 (u64 (vec_size (roots t) - 1)))) h;
      h ← Tree__updateDepth fuel parent_ node h;
      '(_, h) ← Tree__updateBSData fuel h t;
      Some (node, h, t)
  | Some p =>
      h ← modify p (λ pd, set_children (children pd ++ [node]) pd) h;
      pd ← h !! p;
      h ← modify node
            (set_parent_index (i32 (u64 (vec_size (children pd) - 1)))) h;
      h ← modify node (set_parent (Some p)) h;
      h ← Tree__updateDepth fuel parent_ node h;
      '(_, h) ← Tree__updateBSData fuel h t;
      Some (node, h, t)
  end.

(** The loop [for (i = lo; i < v.size(); i++) v[i]->parent_index = i]. *)
Definition renumber_from (lo : Z) (v : list ptr) (h : heap) : option heap :=
  for_range (Z.to_nat (vec_size v - lo)) lo
    (λ i h, n ← vec_at v i; modify n (set_parent_index (i32 i)) h) h.

(** [Tree::insert] *)
Definition Tree_insert (fuel : nat) (parent_ : option ptr) (index : Z)
    (node : ptr) (h : heap) (t : Tree) : option (ptr * heap * Tree) :=
  match parent_ with
  | None =>
      h ← modify node (set_parent None) h;
      h ← modify node (set_depth 1) h;
      rs ← vec_insert index node (roots t);
      let t := mkTree rs in
      h ← modify node (set_parent_index (i32 index)) h;
      h ← renumber_from (u64 (index + 1)) (roots t) h;
      h ← Tree__updateDepth fuel parent_ node h;
      '(_, h) ← Tree__updateBSData fuel h t;
      Some (node, h, t)
  | Some p =>
      pd ← h !! p;
      kids ← vec_insert index node (children pd);
      let h := <[p := set_children kids pd]> h in
      h ← modify node (set_parent_index (i32 index)) h;
      h ← modify node (set_parent (Some p)) h;
      pd ← h !! p;
      h ← renumber_from (u64 (index + 1)) (children pd) h;
      h ← Tree__updateDepth fuel parent_ node h;
      '(_, h) ← Tree__updateBSData fuel h t;
      Some (node, h, t)
  end.

(** The loop [for (i32 i = lo; i < (i32)v.size(); i++) v[i]->parent_index--]. *)
Definition shift_down_from (lo : Z) (v : list ptr) (h : heap) : option heap :=
  for_range (Z.to_nat (i32 (vec_size v) - lo)) lo
    (λ i h,
       n ← vec_at v i;
       modify n (λ nd, set_parent_index (i32 (parent_index nd - 1)) nd) h) h.

(** [Tree::remove] on a node pointer *)
Definition Tree_remove (fuel : nat) (node : option ptr) (h : heap) (t : Tree)
  : option (option ptr * heap * Tree) :=
  match node with
  | None => Some (None, h, t)
  | Some node =>
      nd ← h !! node;
      '(h, t) ←
        match parent nd with
        | Some p =>
            pd ← h !! p;
            kids ← vec_erase (parent_index nd) (children pd);
            let h := <[p := set_children kids pd]> h in
            nd ← h !! node;
            pd ← h !! p;
            h ← shift_down_from (parent_index nd) (children pd) h;
            h ← modify node (set_parent None) h;
            h ← modify node (set_parent_index (-1)) h;
            Some (h, t)
        | None =>
            rs ← vec_erase (parent_index nd) (roots t);
            let t := mkTree rs in
            h ← shift_down_from (parent_index nd) (roots t) h;
            Some (h, t)
        end;
      '(_, h) ← Tree__updateBSData fuel h t;
      nd ← h !! node;
      h ← Tree__updateDepth fuel (parent nd) node h;
      Some (Some node, h, t)
  end.

(** [Tree::get] *)
Definition Tree_get (fuel : nat) (index : Z) (h : heap) (t : Tree)
  : option (option ptr) :=
  '(_, (_, result)) ←
    Tree_forEachNode fuel (roots t)
      (λ node '(h, (i, result)),
         if bool_decide (i = index) then Some (Break, (h, (i, Some node)))
         else Some (Continue, (h, (u64 (i + 1), result))))
      (h, (0, None));
  Some result.

(** [Tree::remove] on a flat index *)
Definition Tree_remove_at (fuel : nat) (index : Z) (h : heap) (t : Tree)
  : option (option ptr * heap * Tree) :=
  node ← Tree_get fuel index h t;
  Tree_remove fuel node h t.

(** The destructor [~TreeNode]: the children are deleted first, then the
    node's own storage is released.  Deleting a released node is undefined. *)
Fixpoint TreeNode_delete (fuel : nat) (p : ptr) (h : heap) : option heap :=
  match fuel with
  | O => None
  | S fuel' =>
      nd ← h !! p;
      h ← foldl (λ acc child, h ← acc; TreeNode_delete fuel' child h)
            (Some h) (children nd);
      Some (delete p h)
  end.

(** The loop [for (root : roots) delete root] of [~Tree] and [Tree::clear]. *)
Definition delete_roots (fuel : nat) (rs : list ptr) (h : heap) : option heap :=
  foldl (λ acc root, h ← acc; TreeNode_delete fuel root h) (Some h) rs.

(** [Tree::clear] *)
Definition Tree_clear (fuel : nat) (h : heap) (t : Tree)
  : option (heap * Tree) :=
  h ← delete_roots fuel (roots t) h;
  Some (h, mkTree []).

(** ** Sorting *)

(** Modelled from the spec: [std::sort(first, last, comp)] belongs to the C++
    standard library, not to tree_view.hpp.  It is taken as straight
    insertion, which is what libstdc++ runs on short ranges: each element is
    moved left past the elements [comp] puts it in front of.  [calls] counts
    the invocations of [comp].  The sorted prefix is kept reversed. *)
Fixpoint linear_insert (comp : ptr → ptr → bool) (val : ptr)
    (prefix : list ptr) (calls : nat) : list ptr * nat :=
  match prefix with
  | [] => ([val], calls)
  | next :: rest =>
      if comp val next then
        let '(r, c) := linear_insert comp val rest (S calls) in (next :: r, c)
      else (val :: next :: rest, S calls)
  end.

Fixpoint insertion_sort (comp : ptr → ptr → bool) (prefix v : list ptr)
    (calls : nat) : list ptr * nat :=
  match v with
  | [] => (rev prefix, calls)
  | val :: v' =>
      let '(prefix, calls) := linear_insert comp val prefix calls in
      insertion_sort comp prefix v' calls
  end.

(** [std::sort(v.begin(), v.end(), comp)] *)
Definition std_sort (comp : ptr → ptr → bool) (v : list ptr) (calls : nat)
  : list ptr * nat :=
  insertion_sort comp [] v calls.

(** [std::sort(v.rbegin(), v.rend(), comp)]: the same algorithm walking the
    vector from its end. *)
Definition std_sort_reverse (comp : ptr → ptr → bool) (v : list ptr)
    (calls : nat) : list ptr * nat :=
  let '(r, calls) := std_sort comp (rev v) calls in (rev r, calls).

(** ** The view *)

Module Size.
Record t := mk { w : Z; h : Z }.
End Size.

Inductive Sort := Sort_None | Ascending | Descending.

Global Instance Sort_eq_dec : EqDecision Sort.
Proof. solve_decision. Defined.

Inductive Mode := Scroll | Unroll.

Global Instance Mode_eq_dec : EqDecision Mode.
Proof. solve_decision. Defined.

(** [Column]: the header fields that tree_view.hpp reads or writes.  The
    sort icon is the last child widget of the header; its visibility and the
    vertical flip of its image are kept as two flags. *)
Module Column.
Record t := mk {
  sort_fn : option (ptr → ptr → bool);
  m_sort : Sort;
  m_model : option ptr;
  m_dragging : bool;
  m_custom_size : bool;
  m_custom_width : Z;
  m_min_width : Z;
  m_expand : bool;
  m_size : Size.t;
  rect_w : Z;
  icon_visible : bool;
  icon_flipped : bool
}.

Definition set_m_sort (v : Sort) (c : t) : t :=
  mk (sort_fn c) v (m_model c) (m_dragging c) (m_custom_size c)
    (m_custom_width c) (m_min_width c) (m_expand c) (m_size c) (rect_w c)
    (icon_visible c) (icon_flipped c).

Definition set_m_model (v : option ptr) (c : t) : t :=
  mk (sort_fn c) (m_sort c) v (m_dragging c) (m_custom_size c)
    (m_custom_width c) (m_min_width c) (m_expand c) (m_size c) (rect_w c)
    (icon_visible c) (icon_flipped c).

Definition set_m_dragging (v : bool) (c : t) : t :=
  mk (sort_fn c) (m_sort c) (m_model c) v (m_custom_size c)
    (m_custom_width c) (m_min_width c) (m_expand c) (m_size c) (rect_w c)
    (icon_visible c) (icon_flipped c).

Definition set_custom_width (v : Z) (c : t) : t :=
  mk (sort_fn c) (m_sort c) (m_model c) (m_dragging c) true v
    (m_min_width c) (m_expand c) (m_size c) v
    (icon_visible c) (icon_flipped c).

Definition set_icon (visible flipped : bool) (c : t) : t :=
  mk (sort_fn c) (m_sort c) (m_model c) (m_dragging c) (m_custom_size c)
    (m_custom_width c) (m_min_width c) (m_expand c) (m_size c) (rect_w c)
    visible flipped.
End Column.

(** [Column::isSorted] *)
Definition Column_isSorted (c : Column.t) : Sort := Column.m_sort c.

(** [Column::setModel] *)
Definition Column_setModel (model : option ptr) (c : Column.t) : Column.t :=
  Column.set_m_model model c.

(** [Column::width] *)
Definition Column_width (c : Column.t) : Z :=
  if Column.m_custom_size c then Column.m_custom_width c
  else Size.w (Column.m_size c).

(** [Column::setWidth] *)
Definition Column_setWidth (width : Z) (c : Column.t) : Column.t :=
  if bool_decide (width < Column.m_min_width c) then c
  else Column.set_custom_width width c.

(** [Column::sizeHint] once the header has been measured. *)
Definition Column_sizeHint (c : Column.t) : Size.t :=
  if Column.m_custom_size c
  then Size.mk (Column.m_custom_width c) (Size.h (Column.m_size c))
  else Column.m_size c.

Inductive DropType := Root | Child | Above | Below.

Record DropAction := mkDropAction {
  drop_node : option ptr;
  drop_type : DropType
}.

(** What the view tells its listeners and its window. *)
Inductive Event :=
  | NodeHovered (n : ptr)
  | NodeSelected (n : ptr)
  | NodeDeselected (n : ptr)
  | NodeCollapsed (n : ptr)
  | NodeExpanded (n : ptr)
  | Update.

Module TreeView.
Record t := mk {
  m_model : option ptr;
  m_virtual_size : Size.t;
  m_virtual_size_changed : bool;
  m_mode : Mode;
  m_indent : Z;
  m_hovered : option ptr;
  m_cursor : option ptr;
  m_focused : list ptr;
  m_event_node : option ptr;
  m_tree_collapser : option ptr;
  m_grid_line_width : Z;
  m_last_sort : option nat;
  m_children_size : Size.t;
  m_column_widths : list Z;
  m_auto_size_columns : bool;
  m_table : bool;
  drop_action : DropAction;
  drop_allow : Z;
  children : list Column.t;
  m_size_changed : bool;
  parent_size_changed : option bool;
  events : list Event
}.

Definition set_m_model (v : option ptr) (x : t) : t :=
  mk v (m_virtual_size x) (m_virtual_size_changed x) (m_mode x) (m_indent x)
    (m_hovered x) (m_cursor x) (m_focused x) (m_event_node x)
    (m_tree_collapser x) (m_grid_line_width x) (m_last_sort x)
    (m_children_size x) (m_column_widths x) (m_auto_size_columns x)
    (m_table x) (drop_action x) (drop_allow x) (children x) (m_size_changed x)
    (parent_size_changed x) (events x).

Definition set_m_virtual_size (v : Size.t) (x : t) : t :=
  mk (m_model x) v (m_virtual_size_changed x) (m_mode x) (m_indent x)
    (m_hovered x) (m_cursor x) (m_focused x) (m_event_node x)
    (m_tree_collapser x) (m_grid_line_width x) (m_last_sort x)
    (m_children_size x) (m_column_widths x) (m_auto_size_columns x)
    (m_table x) (drop_action x) (drop_allow x) (children x) (m_size_changed x)
    (parent_size_changed x) (events x).

Definition set_m_virtual_size_changed (v : bool) (x : t) : t :=
  mk (m_model x) (m_virtual_size x) v (m_mode x) (m_indent x) (m_hovered x)
    (m_cursor x) (m_focused x) (m_event_node x) (m_tree_collapser x)
    (m_grid_line_width x) (m_last_sort x) (m_children_size x)
    (m_column_widths x) (m_auto_size_columns x) (m_table x) (drop_action x)
    (drop_allow x) (children x) (m_size_changed x) (parent_size_changed x)
    (events x).

Definition set_m_hovered (v : option ptr) (x : t) : t :=
  mk (m_model x) (m_virtual_size x) (m_virtual_size_changed x) (m_mode x)
    (m_indent x) v (m_cursor x) (m_focused x) (m_event_node x)
    (m_tree_collapser x) (m_grid_line_width x) (m_last_sort x)
    (m_children_size x) (m_column_widths x) (m_auto_size_columns x)
    (m_table x) (drop_action x) (drop_allow x) (children x) (m_size_changed x)
    (parent_size_changed x) (events x).

Definition set_m_cursor (v : option ptr) (x : t) : t :=
  mk (m_model x) (m_virtual_size x) (m_virtual_size_changed x) (m_mode x)
    (m_indent x) (m_hovered x) v (m_focused x) (m_event_node x)
    (m_tree_collapser x) (m_grid_line_width x) (m_last_sort x)
    (m_children_size x) (m_column_widths x) (m_auto_size_columns x)
    (m_table x) (drop_action x) (drop_allow x) (children x) (m_size_changed x)
    (parent_size_changed x) (events x).

Definition set_m_focused (v : list ptr) (x : t) : t :=
  mk (m_model x) (m_virtual_size x) (m_virtual_size_changed x) (m_mode x)
    (m_indent x) (m_hovered x) (m_cursor x) v (m_event_node x)
    (m_tree_collapser x) (m_grid_line_width x) (m_last_sort x)
    (m_children_size x) (m_column_widths x) (m_auto_size_columns x)
    (m_table x) (drop_action x) (drop_allow x) (children x) (m_size_changed x)
    (parent_size_changed x) (events x).

Definition set_m_event_node (v : option ptr) (x : t) : t :=
  mk (m_model x) (m_virtual_size x) (m_virtual_size_changed x) (m_mode x)
    (m_indent x) (m_hovered x) (m_cursor x) (m_focused x) v
    (m_tree_collapser x) (m_grid_line_width x) (m_last_sort x)
    (m_children_size x) (m_column_widths x) (m_auto_size_columns x)
    (m_table x) (drop_action x) (drop_allow x) (children x) (m_size_changed x)
    (parent_size_changed x) (events x).

Definition set_m_tree_collapser (v : option ptr) (x : t) : t :=
  mk (m_model x) (m_virtual_size x) (m_virtual_size_changed x) (m_mode x)
    (m_indent x) (m_hovered x) (m_cursor x) (m_focused x) (m_event_node x) v
    (m_grid_line_width x) (m_last_sort x) (m_children_size x)
    (m_column_widths x) (m_auto_size_columns x) (m_table x) (drop_action x)
    (drop_allow x) (children x) (m_size_changed x) (parent_size_changed x)
    (events x).

Definition set_m_last_sort (v : option nat) (x : t) : t :=
  mk (m_model x) (m_virtual_size x) (m_virtual_size_changed x) (m_mode x)
    (m_indent x) (m_hovered x) (m_cursor x) (m_focused x) (m_event_node x)
    (m_tree_collapser x) (m_grid_line_width x) v (m_children_size x)
    (m_column_widths x) (m_auto_size_columns x) (m_table x) (drop_action x)
    (drop_allow x) (children x) (m_size_changed x) (parent_size_changed x)
    (events x).

Definition set_m_children_size (v : Size.t) (x : t) : t :=
  mk (m_model x) (m_virtual_size x) (m_virtual_size_changed x) (m_mode x)
    (m_indent x) (m_hovered x) (m_cursor x) (m_focused x) (m_event_node x)
    (m_tree_collapser x) (m_grid_line_width x) (m_last_sort x) v
    (m_column_widths x) (m_auto_size_columns x) (m_table x) (drop_action x)
    (drop_allow x) (children x) (m_size_changed x) (parent_size_changed x)
    (events x).

Definition set_m_column_widths (v : list Z) (x : t) : t :=
  mk (m_model x) (m_virtual_size x) (m_virtual_size_changed x) (m_mode x)
    (m_indent x) (m_hovered x) (m_cursor x) (m_focused x) (m_event_node x)
    (m_tree_collapser x) (m_grid_line_width x) (m_last_sort x)
    (m_children_size x) v (m_auto_size_columns x) (m_table x) (drop_action x)
    (drop_allow x) (children x) (m_size_changed x) (parent_size_changed x)
    (events x).

Definition set_m_auto_size_columns (v : bool) (x : t) : t :=
  mk (m_model x) (m_virtual_size x) (m_virtual_size_changed x) (m_mode x)
    (m_indent x) (m_hovered x) (m_cursor x) (m_focused x) (m_event_node x)
    (m_tree_collapser x) (m_grid_line_width x) (m_last_sort x)
    (m_children_size x) (m_column_widths x) v (m_table x) (drop_action x)
    (drop_allow x) (children x) (m_size_changed x) (parent_size_changed x)
    (events x).

Definition set_children (v : list Column.t) (x : t) : t :=
  mk (m_model x) (m_virtual_size x) (m_virtual_size_changed x) (m_mode x)
    (m_indent x) (m_hovered x) (m_cursor x) (m_focused x) (m_event_node x)
    (m_tree_collapser x) (m_grid_line_width x) (m_last_sort x)
    (m_children_size x) (m_column_widths x) (m_auto_size_columns x)
    (m_table x) (drop_action x) (drop_allow x) v (m_size_changed x)
    (parent_size_changed x) (events x).

Definition set_m_size_changed (v : bool) (x : t) : t :=
  mk (m_model x) (m_virtual_size x) (m_virtual_size_changed x) (m_mode x)
    (m_indent x) (m_hovered x) (m_cursor x) (m_focused x) (m_event_node x)
    (m_tree_collapser x) (m_grid_line_width x) (m_last_sort x)
    (m_children_size x) (m_column_widths x) (m_auto_size_columns x)
    (m_table x) (drop_action x) (drop_allow x) (children x) v
    (parent_size_changed x) (events x).

Definition set_parent_size_changed (v : option bool) (x : t) : t :=
  mk (m_model x) (m_virtual_size x) (m_virtual_size_changed x) (m_mode x)
    (m_indent x) (m_hovered x) (m_cursor x) (m_focused x) (m_event_node x)
    (m_tree_collapser x) (m_grid_line_width x) (m_last_sort x)
    (m_children_size x) (m_column_widths x) (m_auto_size_columns x)
    (m_table x) (drop_action x) (drop_allow x) (children x) (m_size_changed x)
    v (events x).

Definition set_events (v : list Event) (x : t) : t :=
  mk (m_model x) (m_virtual_size x) (m_virtual_size_changed x) (m_mode x)
    (m_indent x) (m_hovered x) (m_cursor x) (m_focused x) (m_event_node x)
    (m_tree_collapser x) (m_grid_line_width x) (m_last_sort x)
    (m_children_size x) (m_column_widths x) (m_auto_size_columns x)
    (m_table x) (drop_action x) (drop_allow x) (children x) (m_size_changed x)
    (parent_size_changed x) v.
End TreeView.

(** The objects the view points to: the nodes, the tree models, and the
    number of times a column comparator has run. *)
Record World := mkWorld {
  nodes : heap;
  trees : gmap positive Tree;
  sort_fn_calls : nat
}.

Definition set_nodes (v : heap) (w : World) : World :=
  mkWorld v (trees w) (sort_fn_calls w).

Definition set_trees (v : gmap positive Tree) (w : World) : World :=
  mkWorld (nodes w) v (sort_fn_calls w).

Definition set_sort_fn_calls (v : nat) (w : World) : World :=
  mkWorld (nodes w) (trees w) v.

(** [update()], the redraw request of the widget base class, is recorded. *)
Definition notify (e : Event) (tv : TreeView.t) : TreeView.t :=
  TreeView.set_events (TreeView.events tv ++ [e]) tv.

(** [if (m_mode == Mode::Unroll && parent) parent->m_size_changed = true] *)
Definition propagate_size_changed (tv : TreeView.t) : TreeView.t :=
  match TreeView.m_mode tv, TreeView.parent_size_changed tv with
  | Unroll, Some _ => TreeView.set_parent_size_changed (Some true) tv
  | _, _ => tv
  end.

(** [TreeView::model] *)
Definition TreeView_model (tv : TreeView.t) : option ptr := TreeView.m_model tv.

(** [TreeView::collapse] *)
Definition TreeView_collapse (node : option ptr) (tv : TreeView.t) (w : World)
  : option (TreeView.t * World) :=
  match node with
  | None => Some (tv, w)
  | Some n =>
      nd ← nodes w !! n;
      match children nd with
      | [] => Some (tv, w)
      | _ =>
          let w := set_nodes (<[n := set_is_collapsed true nd]> (nodes w)) w in
          let tv := notify (NodeCollapsed n) tv in
          let tv := TreeView.set_m_virtual_size_changed true tv in
          let tv := notify Update tv in
          Some (propagate_size_changed tv, w)
      end
  end.

(** [TreeView::expand] *)
Definition TreeView_expand (node : option ptr) (tv : TreeView.t) (w : World)
  : option (TreeView.t * World) :=
  match node with
  | None => Some (tv, w)
  | Some n =>
      nd ← nodes w !! n;
      match children nd with
      | [] => Some (tv, w)
      | _ =>
          let w := set_nodes (<[n := set_is_collapsed false nd]> (nodes w)) w in
          let tv := notify (NodeExpanded n) tv in
          let tv := TreeView.set_m_virtual_size_changed true tv in
          let tv := notify Update tv in
          Some (propagate_size_changed tv, w)
      end
  end.

(** [TreeView::binarySearch]: the [while] loop.  It returns the last [mid]
    and [point].  Every round that does not leave the loop shrinks the range
    [lower..upper], so [fuel] above the vector's size is never used up. *)
Fixpoint binarySearch_loop (fuel : nat) (h : heap) (rs : list ptr)
    (target lower upper mid : Z) (point : BinarySearchData.t)
  : option (Z * BinarySearchData.t) :=
  match fuel with
  | O => None
  | S fuel' =>
      if bool_decide (lower ≤ upper) then
        let mid := u64 (lower + upper) / 2 in
        r ← vec_at rs mid;
        rd ← h !! r;
        let point := bs_data rd in
        if bool_decide (target < BinarySearchData.position point) then
          binarySearch_loop fuel' h rs target lower (u64 (mid - 1)) mid point
        else
          bound ←
            (if bool_decide (u64 (vec_size rs - 1) > mid) then
               r' ← vec_at rs (mid + 1);
               rd' ← h !! r';
               Some (bs_position rd')
             else
               Some (u64 (BinarySearchData.position point
                          + BinarySearchData.length point)));
          if bool_decide (target > bound) then
            binarySearch_loop fuel' h rs target (u64 (mid + 1)) upper mid point
          else Some (mid, point)
      else Some (mid, point)
  end.

(** [TreeView::binarySearch]; the result is the pair of
    [BinarySearchResult]: an index and an optional node.  [fuel] bounds the
    recursion into children. *)
Fixpoint TreeView_binarySearch (fuel : nat) (h : heap) (rs : list ptr)
    (target : Z) : option (Z * option ptr) :=
  match fuel with
  | O => None
  | S fuel' =>
      match rs with
      | [] => Some (0, None)
      | _ =>
          '(mid, point) ←
            binarySearch_loop (S (length rs)) h rs target
              0 (u64 (vec_size rs - 1)) 0 (BinarySearchData.mk 0 0);
          if bool_decide (BinarySearchData.position point ≤ target)
             && bool_decide (u64 (BinarySearchData.position point
                                  + BinarySearchData.length point) >= target)
          then
            r ← vec_at rs mid; Some (mid, Some r)
          else
            r ← vec_at rs mid;
            rd ← h !! r;
            match children rd with
            | [] => Some (0, None)
            | kids => TreeView_binarySearch fuel' h kids target
            end
      end
  end.

Section View.

(** [Drawable::sizeHint(dc)]: the cell payloads are drawn by code outside
    tree_view.hpp; their size hints are a parameter. *)
Variable Drawable_sizeHint : Drawable → Size.t.

(** One round of the loop over [node->columns] in [calculateVirtualSize];
    the state is the store, the view and the column counter [index].
    [Column::setWidth] also asks the widget base class for a new layout,
    which is not part of this file. *)
Definition calculateVirtualSize_cell (node : ptr)
    (acc : option (heap * TreeView.t * Z)) (drawable : Drawable)
  : option (heap * TreeView.t * Z) :=
  '(h, tv, index) ← acc;
  nd ← h !! node;
  let s := Drawable_sizeHint drawable in
  col ← vec_at (TreeView.children tv) index;
  let sw :=
    if negb (TreeView.m_table tv) && bool_decide (index = 0)
    then i32 (Size.w s + i32 (depth nd * TreeView.m_indent tv))
    else Size.w s in
  tv ←
    (if (TreeView.m_auto_size_columns tv
         || bool_decide (TreeView.m_mode tv = Unroll))
        && bool_decide (sw > Column_width col)
     then
       let sw := i32 (sw + TreeView.m_grid_line_width tv) in
       let tv := TreeView.set_children
                   (<[Z.to_nat index := Column_setWidth sw col]>
                      (TreeView.children tv)) tv in
       old ← vec_at (TreeView.m_column_widths tv) index;
       let cs := TreeView.m_children_size tv in
       let tv := TreeView.set_m_children_size
                   (Size.mk (i32 (Size.w cs + i32 (sw - old))) (Size.h cs)) tv in
       let tv := TreeView.set_m_column_widths
                   (<[Z.to_nat index := sw]> (TreeView.m_column_widths tv)) tv in
       Some (TreeView.set_m_size_changed false tv)
     else Some tv);
  let hgt := i32 (Size.h s + TreeView.m_grid_line_width tv) in
  let h := if bool_decide (hgt > max_cell_height nd)
           then <[node := set_max_cell_height hgt nd]> h else h in
  Some (h, tv, i32 (index + 1)).

(** The visitor of [calculateVirtualSize].  It captures the view and the
    locals [collapsed], [collapsed_depth], [parent_index], [scroll_offset]. *)
Definition calculateVirtualSize_visitor
  : visitor (TreeView.t * (bool * Z * Z * Z)) :=
  λ node '(h, (tv, (collapsed, collapsed_depth, parent_index_, scroll_offset))),
    nd ← h !! node;
    let '(h, parent_index_) :=
      if bool_decide (depth nd = 1)
      then (<[node := set_parent_index parent_index_ nd]> h,
            i32 (parent_index_ + 1))
      else (h, parent_index_) in
    let '(collapsed, collapsed_depth) :=
      if bool_decide (depth nd ≤ collapsed_depth) then (false, -1)
      else (collapsed, collapsed_depth) in
    '(h, tv, scroll_offset) ←
      (if negb collapsed then
         nd ← h !! node;
         let h := <[node := set_max_cell_height
                              (TreeView.m_grid_line_width tv) nd]> h in
         if bool_decide (vec_size (columns nd)
                         = vec_size (TreeView.children tv)) then
           '(h, tv, _) ←
             foldl (calculateVirtualSize_cell node) (Some (h, tv, 0))
               (columns nd);
           nd ← h !! node;
           let len := u64 (max_cell_height nd) in
           let h := <[node := set_bs_data
                                (BinarySearchData.mk scroll_offset len) nd]> h in
           let vs := TreeView.m_virtual_size tv in
           let tv := TreeView.set_m_virtual_size
                       (Size.mk (Size.w vs)
                          (i32 (Size.h vs + max_cell_height nd))) tv in
           Some (h, tv, u64 (scroll_offset + len))
         else None
       else
         nd ← h !! node;
         Some (<[node := set_bs_data
                           (BinarySearchData.mk scroll_offset 0) nd]> h,
               tv, scroll_offset));
    nd ← h !! node;
    let '(collapsed, collapsed_depth) :=
      if is_collapsed nd && negb collapsed then (true, depth nd)
      else (collapsed, collapsed_depth) in
    Some (Continue,
          (h, (tv, (collapsed, collapsed_depth, parent_index_, scroll_offset)))).

(** [TreeView::calculateVirtualSize] *)
Definition TreeView_calculateVirtualSize (fuel : nat) (tv : TreeView.t)
    (w : World) : option (TreeView.t * World) :=
  let tv := TreeView.set_m_virtual_size (TreeView.m_children_size tv) tv in
  m ← TreeView.m_model tv;
  t ← trees w !! m;
  '(h, (tv, _)) ←
    Tree_forEachNode fuel (roots t) calculateVirtualSize_visitor
      (nodes w, (tv, (false, -1, 0, 0)));
  let vs := TreeView.m_virtual_size tv in
  let tv := TreeView.set_m_virtual_size
              (Size.mk (Size.w (TreeView.m_children_size tv)) (Size.h vs)) tv in
  let tv := TreeView.set_m_virtual_size_changed false tv in
  let tv := TreeView.set_m_auto_size_columns false tv in
  Some (tv, set_nodes h w).

(** [TreeView::sizeHint], as far as it touches the model: the header is
    measured again when [m_size_changed], and the index is rebuilt when
    [m_virtual_size_changed].  The returned size (viewport plus style) and
    the scroll bars belong to the widget base classes. *)
Definition TreeView_sizeHint (fuel : nat) (tv : TreeView.t) (w : World)
  : option (TreeView.t * World) :=
  let tv :=
    if TreeView.m_size_changed tv then
      let sizes := map Column_sizeHint (TreeView.children tv) in
      let size :=
        foldl (λ acc s,
                 Size.mk (i32 (Size.w acc + Size.w s))
                   (if bool_decide (Size.h s > Size.h acc)
                    then Size.h s else Size.h acc))
          (Size.mk 0 0) sizes in
      let tv := TreeView.set_m_column_widths (map Size.w sizes) tv in
      let tv := TreeView.set_m_children_size size tv in
      let tv := TreeView.set_m_virtual_size
                  (Size.mk (Size.w size)
                     (Size.h (TreeView.m_virtual_size tv))) tv in
      TreeView.set_m_size_changed false tv
    else tv in
  if TreeView.m_virtual_size_changed tv
  then TreeView_calculateVirtualSize fuel tv w
  else Some (tv, w).

(** The visitor of [Column::sort]: a node without children is skipped, the
    children of any other node are sorted and renumbered. *)
Definition sort_visitor (sorter : list ptr → nat → list ptr * nat)
  : visitor nat :=
  λ node '(h, calls),
    nd ← h !! node;
    match children nd with
    | [] => Some (Next, (h, calls))
    | kids =>
        let '(kids, calls) := sorter kids calls in
        let h := <[node := set_children kids nd]> h in
        h ← renumber_from 0 kids h;
        Some (Continue, (h, calls))
    end.

(** The reordering of [Column::sort]: the roots, then every sibling group. *)
Definition sort_model (fuel : nat) (sorter : list ptr → nat → list ptr * nat)
    (m : ptr) (w : World) : option World :=
  t ← trees w !! m;
  let '(rs, calls) := sorter (roots t) (sort_fn_calls w) in
  let w := set_trees (<[m := mkTree rs]> (trees w)) w in
  '(h, calls) ←
    Tree_forEachNode fuel rs (sort_visitor sorter) (nodes w, calls);
  Some (set_sort_fn_calls calls (set_nodes h w)).

(** [Column::sort], called on the column at position [ci] of the view. *)
Definition Column_sort (fuel : nat) (ci : nat) (sort : Sort)
    (tv : TreeView.t) (w : World) : option (TreeView.t * World) :=
  col ← TreeView.children tv !! ci;
  match Column.sort_fn col with
  | None => Some (tv, w)
  | Some comp =>
      match sort with
      | Sort_None =>
          let flipped :=
            if bool_decide (Column.m_sort col = Descending)
            then negb (Column.icon_flipped col) else Column.icon_flipped col in
          let col := Column.set_icon false flipped col in
          let col := Column.set_m_sort sort col in
          Some (TreeView.set_children
                  (<[ci := col]> (TreeView.children tv)) tv, w)
      | _ =>
          m ← Column.m_model col;
          w ←
            (if bool_decide (Column_isSorted col = Ascending)
             then sort_model fuel (std_sort_reverse comp) m w
             else sort_model fuel (std_sort comp) m w);
          let tv := TreeView.set_m_virtual_size_changed true tv in
          '(tv, w) ← TreeView_sizeHint fuel tv w;
          Some (notify Update tv, w)
      end
  end.

(** The click listener that the [Column] constructor installs. *)
Definition Column_onMouseClick (fuel : nat) (ci : nat) (tv : TreeView.t)
    (w : World) : option (TreeView.t * World) :=
  col ← TreeView.children tv !! ci;
  if negb (Column.m_dragging col)
     && bool_decide (is_Some (Column.sort_fn col)) then
    let col :=
      match Column.m_sort col with
      | Sort_None =>
          Column.set_m_sort Ascending
            (Column.set_icon true (Column.icon_flipped col) col)
      | Ascending =>
          Column.set_m_sort Descending
            (Column.set_icon (Column.icon_visible col)
               (negb (Column.icon_flipped col)) col)
      | Descending =>
          Column.set_m_sort Ascending
            (Column.set_icon (Column.icon_visible col)
               (negb (Column.icon_flipped col)) col)
      end in
    let tv := TreeView.set_children
                (<[ci := col]> (TreeView.children tv)) tv in
    Column_sort fuel ci (Column.m_sort col) tv w
  else
    Some (TreeView.set_children
            (<[ci := Column.set_m_dragging false col]> (TreeView.children tv))
            tv, w).

(** The click listener that [TreeView::append] installs on a column. *)
Definition TreeView_onColumnClick (fuel : nat) (ci : nat) (tv : TreeView.t)
    (w : World) : option (TreeView.t * World) :=
  col ← TreeView.children tv !! ci;
  match Column.sort_fn col with
  | None => Some (tv, w)
  | Some _ =>
      '(tv, w) ←
        match TreeView.m_last_sort tv with
        | Some l =>
            if bool_decide (l ≠ ci) then Column_sort fuel l Sort_None tv w
            else Column_sort fuel ci (Column_isSorted col) tv w
        | None => Column_sort fuel ci (Column_isSorted col) tv w
        end;
      Some (TreeView.set_m_last_sort (Some ci) tv, w)
  end.

(** The resets shared by [TreeView::setModel] and [TreeView::clear]. *)
Definition reset_transient (fuel : nat) (tv : TreeView.t) (w : World)
  : option (TreeView.t * World) :=
  let tv := TreeView.set_m_hovered None tv in
  let tv := TreeView.set_m_cursor None tv in
  let tv := TreeView.set_m_focused [] tv in
  let tv := TreeView.set_m_event_node None tv in
  let tv := TreeView.set_m_tree_collapser None tv in
  '(tv, w) ←
    match TreeView.m_last_sort tv with
    | Some l =>
        '(tv, w) ← Column_sort fuel l Sort_None tv w;
        Some (TreeView.set_m_last_sort None tv, w)
    | None => Some (tv, w)
    end;
  Some (notify Update tv, w).

(** [TreeView::setModel].  [delete m_model] runs the destructor of the old
    tree.  The column styles set here belong to the widget base class. *)
Definition TreeView_setModel (fuel : nat) (model : option ptr)
    (tv : TreeView.t) (w : World) : option (TreeView.t * World) :=
  w ←
    match TreeView.m_model tv with
    | None => Some w
    | Some m =>
        t ← trees w !! m;
        h ← delete_roots fuel (roots t) (nodes w);
        Some (set_trees (delete m (trees w)) (set_nodes h w))
    end;
  let tv := TreeView.set_m_model model tv in
  let tv := TreeView.set_children
              (map (Column_setModel model) (TreeView.children tv)) tv in
  let tv := TreeView.set_m_virtual_size_changed true tv in
  let tv := TreeView.set_m_auto_size_columns true tv in
  reset_transient fuel tv w.

(** [TreeView::clear] *)
Definition TreeView_clear (fuel : nat) (tv : TreeView.t) (w : World)
  : option (TreeView.t * World) :=
  match TreeView.m_model tv with
  | None => Some (tv, w)
  | Some m =>
      t ← trees w !! m;
      '(h, t) ← Tree_clear fuel (nodes w) t;
      let w := set_trees (<[m := t]> (trees w)) (set_nodes h w) in
      let tv := TreeView.set_m_virtual_size_changed true tv in
      reset_transient fuel tv w
  end.

(** [tv->model()->remove(node)]: the only way the code detaches a node. *)
Definition TreeView_model_remove (fuel : nat) (node : option ptr)
    (tv : TreeView.t) (w : World)
  : option (option ptr * TreeView.t * World) :=
  m ← TreeView_model tv;
  t ← trees w !! m;
  '(r, h, t) ← Tree_remove fuel node (nodes w) t;
  Some (r, tv, set_trees (<[m := t]> (trees w)) (set_nodes h w)).

End View.

(** ** Shapes: children function, height bound, pre-order *)

(** The child vector of [p] in the store ([[]] for a dangling pointer). *)
Definition kids_of (h : heap) (p : ptr) : list ptr :=
  from_option children [] (h !! p).

(** [ranked K n p]: below [p], the child relation [K] is at most [n] deep. *)
Fixpoint ranked (K : ptr → list ptr) (n : nat) (p : ptr) : Prop :=
  match n with
  | O => False
  | S n' => Forall (ranked K n') (K p)
  end.

(** Depth-first pre-order of the subtree of [p], children in vector order. *)
Fixpoint preorder (K : ptr → list ptr) (n : nat) (p : ptr) : list ptr :=
  match n with
  | O => []
  | S n' => p :: flat_map (preorder K n') (K p)
  end.

(** Calling a visitor on every node of a list, in order. *)
Fixpoint visit_all {X} (fn : visitor X) (l : list ptr) (s : heap * X)
  : option (heap * X) :=
  match l with
  | [] => Some s
  | p :: l' => '(_, s) ← fn p s; visit_all fn l' s
  end.

(** The traversal as the specification words it: a list of pending nodes,
    the first of which is visited next.  On [Continue] the children of the
    visited node are put in front of the pending ones; on [Next] they are
    left out, so that the walk resumes at the next sibling or, when there is
    none, further up; on [Break] nothing more is visited. *)
Fixpoint walk {X} (steps : nat) (fn : visitor X) (pending : list ptr)
    (s : heap * X) : option (heap * X) :=
  match steps with
  | O => None
  | S steps' =>
      match pending with
      | [] => Some s
      | p :: rest =>
          '(t, s) ← fn p s;
          match t with
          | Break => Some s
          | Next => walk steps' fn rest s
          | Continue =>
              nd ← s.1 !! p;
              walk steps' fn (children nd ++ rest) s
          end
      end
  end.

(** ** Auxiliary notions for the traversal proofs *)

(** What one call of [descend] amounts to in the walk. *)
Definition descend_in_walk {X} (fn : visitor X) (p : ptr) (s : heap * X)
    (t : Traversal) (s' : heap * X) : Prop :=
  match t with
  | Break => ∀ rest, ∃ k, walk k fn (p :: rest) s = Some s'
  | _ => ∀ rest k r, walk k fn rest s' = Some r →
                     ∃ k', walk k' fn (p :: rest) s = Some r
  end.

(** The same for the loop over the children of a node. *)
Definition children_in_walk {X} (fn : visitor X) (l : list ptr)
    (s : heap * X) (t : Traversal) (s' : heap * X) : Prop :=
  match t with
  | Break => ∀ rest, ∃ k, walk k fn (l ++ rest) s = Some s'
  | _ => ∀ rest k r, walk k fn rest s' = Some r →
                     ∃ k', walk k' fn (l ++ rest) s = Some r
  end.

(** The other direction: a walk that ends is a [descend] that returns. *)
Definition walk_in_descend {X} (fn : visitor X) (k : nat) (rest : list ptr)
    (r : heap * X) (t : Traversal) (s' : heap * X) : Prop :=
  match t with
  | Break => r = s'
  | _ => ∃ k', (k' ≤ k)%nat ∧ walk k' fn rest s' = Some r
  end.

(** [res], a result of [descend], agrees with [spec], a result of a fold. *)
Definition folds_to {X} (I : heap * X → Prop)
    (res : option (option ptr * Traversal * (heap * X)))
    (spec : option (heap * X)) : Prop :=
  match spec with
  | Some s' => ∃ last t, res = Some (last, t, s') ∧ t ≠ Break ∧ I s'
  | None => res = None
  end.

(** ** Trees in the store *)

(** All nodes below the roots [rs], depth-first and pre-order. *)
Definition dfs (h : heap) (n : nat) (rs : list ptr) : list ptr :=
  flat_map (preorder (kids_of h) n) rs.

(** Below the roots [rs] the store is a tree of height at most [n]: no
    chain of children is longer than [n], no node is reached twice, and no
    pointer dangles. *)
Definition is_tree (h : heap) (n : nat) (rs : list ptr) : Prop :=
  Forall (ranked (kids_of h) n) rs
  ∧ NoDup (dfs h n rs)
  ∧ Forall (λ p, is_Some (h !! p)) (dfs h n rs).

(** Two stores with the same child vectors. *)
Definition same_shape (h0 h : heap) : Prop :=
  ∀ p, kids_of h p = kids_of h0 p.

(** The sum of the lengths of the nodes of [l]. *)
Definition extent (h : heap) (l : list ptr) : Z :=
  foldr (λ p acc, from_option bs_length 0 (h !! p) + acc) 0 l.

(** ** Example stores *)

(** A node with the given children and length, other fields as built. *)
Definition node_with (kids : list ptr) (len : Z) : TreeNode :=
  mkTreeNode [] None None (-1) kids false 0 0 (BinarySearchData.mk 0 len).

(** Roots 1 and 2; node 3 is the child of 1; every length is 10. *)
Definition index_store : heap :=
  <[1%positive := node_with [3%positive] 10]>
    (<[2%positive := node_with [] 10]>
       (<[3%positive := node_with [] 10]> ∅)).

(** Three roots of length 2^64 - 1, the length [(u64)node->max_cell_height]
    that [calculateVirtualSize] gives a node whose [max_cell_height]
    is -1. *)
Definition overflow_store : heap :=
  <[1%positive := node_with [] (2 ^ 64 - 1)]>
    (<[2%positive := node_with [] (2 ^ 64 - 1)]>
       (<[3%positive := node_with [] (2 ^ 64 - 1)]> ∅)).

(** Five nodes as [new TreeNode] leaves them. *)
Definition fresh_store : heap :=
  <[1%positive := new_TreeNode [] None]>
    (<[2%positive := new_TreeNode [] None]>
       (<[3%positive := new_TreeNode [] None]>
          (<[4%positive := new_TreeNode [] None]>
             (<[5%positive := new_TreeNode [] None]> ∅)))).

(** Roots 1 and 2 are appended; 3 and 5 become children of 2, and 4 the
    child of 3.  Then the subtree of 2 is taken out of the tree. *)
Definition before_move : option (heap * Tree) :=
  '(_, h, t) ← Tree_append 5 None 1%positive fresh_store (mkTree []);
  '(_, h, t) ← Tree_append 5 None 2%positive h t;
  '(_, h, t) ← Tree_append 5 (Some 2%positive) 3%positive h t;
  '(_, h, t) ← Tree_append 5 (Some 3%positive) 4%positive h t;
  '(_, h, t) ← Tree_append 5 (Some 2%positive) 5%positive h t;
  '(_, h, t) ← Tree_remove 5 (Some 2%positive) h t;
  Some (h, t).

(** The subtree of 2 is put back as a child of root 1. *)
Definition after_move : option (heap * Tree) :=
  '(h, t) ← before_move;
  '(_, h, t) ← Tree_append 5 (Some 1%positive) 2%positive h t;
  Some (h, t).

(** The depths of the five nodes, and the parent of node 5. *)
Definition depths (s : option (heap * Tree)) : option (list Z * option ptr) :=
  '(h, _) ← s;
  ds ← mapM (λ p, depth <$> h !! p) [1; 2; 3; 4; 5]%positive;
  n5 ← h !! 5%positive;
  Some (ds, parent n5).

(** ** Consistent links *)

(** The invariant of the mutations.  The first two fields are what the
    specification asks of [parent_index]; the others say that the parent
    link of a node leads back to the vector that holds it, that no chain of
    children is endless, and that every index fits the type [i32] of
    [parent_index]. *)
Record links_ok (h : heap) (t : Tree) : Prop := mk_links_ok {
  roots_ok : ∀ i r, roots t !! i = Some r →
    ∃ nd, h !! r = Some nd ∧ parent nd = None
          ∧ parent_index nd = Z.of_nat i;
  children_ok : ∀ p pd i c, h !! p = Some pd → children pd !! i = Some c →
    ∃ cd, h !! c = Some cd ∧ parent cd = Some p
          ∧ parent_index cd = Z.of_nat i;
  parents_ok : ∀ c cd p, h !! c = Some cd → parent cd = Some p →
    ∃ pd, h !! p = Some pd ∧ c ∈ children pd;
  height_ok : ∃ n, ∀ p, is_Some (h !! p) → ranked (kids_of h) n p;
  roots_size_ok : vec_size (roots t) < 2 ^ 31;
  children_size_ok : ∀ p pd, h !! p = Some pd →
    vec_size (children pd) < 2 ^ 31
}.

(** The vector a node is attached to: the roots for the owner [None], the
    children of [p] for the owner [Some p]. *)
Definition vec_of (h : heap) (t : Tree) (owner : option ptr)
  : option (list ptr) :=
  match owner with
  | None => Some (roots t)
  | Some p => children <$> h !! p
  end.

(** [node] is in no vector. *)
Definition detached (h : heap) (t : Tree) (node : ptr) : Prop :=
  ∀ owner v, vec_of h t owner = Some v → node ∉ v.

(** [node] may be attached below [parent_]: it exists and is detached, the
    vector it goes to has room for one more index, and the new parent is
    not in the subtree of [node]. *)
Definition can_attach (h : heap) (t : Tree) (parent_ : option ptr)
    (node : ptr) : Prop :=
  is_Some (h !! node)
  ∧ detached h t node
  ∧ (∃ v, vec_of h t parent_ = Some v ∧ vec_size v + 1 < 2 ^ 31)
  ∧ (∀ p n, parent_ = Some p → p ∉ preorder (kids_of h) n node).

Inductive mutation :=
  | Append (parent_ : option ptr) (node : ptr)
  | Insert (parent_ : option ptr) (index : Z) (node : ptr)
  | Remove (node : ptr).

(** What a call asks of its arguments. *)
Definition mutation_pre (m : mutation) (h : heap) (t : Tree) : Prop :=
  match m with
  | Append parent_ node => can_attach h t parent_ node
  | Insert parent_ index node =>
      can_attach h t parent_ node
      ∧ ∃ v, vec_of h t parent_ = Some v ∧ 0 ≤ index ≤ vec_size v
  | Remove node =>
      ∃ nd, h !! node = Some nd ∧ (parent nd = None → node ∈ roots t)
  end.

(** The call, and the store and tree it leaves. *)
Definition mutate (fuel : nat) (m : mutation) (h : heap) (t : Tree)
  : option (heap * Tree) :=
  match m with
  | Append parent_ node =>
      '(_, h, t) ← Tree_append fuel parent_ node h t; Some (h, t)
  | Insert parent_ index node =>
      '(_, h, t) ← Tree_insert fuel parent_ index node h t; Some (h, t)
  | Remove node =>
      '(_, h, t) ← Tree_remove fuel (Some node) h t; Some (h, t)
  end.

(** What attaching [node] at index [i] of the vector [v] of [owner] does to
    the links: [h1] and [t1] are the store and the tree afterwards. *)
Record attach_spec (h : heap) (t : Tree) (owner : option ptr) (node : ptr)
    (i : nat) (v : list ptr) (h1 : heap) (t1 : Tree) : Prop := mk_attach_spec {
  attach_vec : vec_of h1 t1 owner = Some (take i v ++ node :: drop i v);
  attach_others : ∀ o, o ≠ owner → vec_of h1 t1 o = vec_of h t o;
  attach_node : ∃ nd1, h1 !! node = Some nd1 ∧ parent nd1 = owner
                       ∧ parent_index nd1 = Z.of_nat i;
  attach_siblings : ∀ j c, v !! j = Some c →
    ∃ cd cd1, h !! c = Some cd ∧ h1 !! c = Some cd1
      ∧ parent cd1 = parent cd
      ∧ parent_index cd1 = Z.of_nat (if decide (j < i)%nat then j else S j);
  attach_frame : ∀ q qd, q ≠ node → q ∉ v → h !! q = Some qd →
    ∃ qd1, h1 !! q = Some qd1 ∧ parent qd1 = parent qd
           ∧ parent_index qd1 = parent_index qd;
  attach_dom : ∀ q, is_Some (h1 !! q) → is_Some (h !! q)
}.

(** What detaching the node at index [i] of the vector [v] of [owner]
    does to the links. *)
Record detach_spec (h : heap) (t : Tree) (owner : option ptr) (node : ptr)
    (i : nat) (v : list ptr) (h1 : heap) (t1 : Tree) : Prop := mk_detach_spec {
  detach_vec : vec_of h1 t1 owner = Some (delete i v);
  detach_others : ∀ o, o ≠ owner → vec_of h1 t1 o = vec_of h t o;
  detach_node : ∃ nd1, h1 !! node = Some nd1 ∧ parent nd1 = None;
  detach_siblings : ∀ j c, v !! j = Some c → j ≠ i →
    ∃ cd cd1, h !! c = Some cd ∧ h1 !! c = Some cd1
      ∧ parent cd1 = parent cd
      ∧ parent_index cd1 = Z.of_nat (if decide (j < i)%nat then j else pred j);
  detach_frame : ∀ q qd, q ∉ v → h !! q = Some qd →
    ∃ qd1, h1 !! q = Some qd1 ∧ parent qd1 = parent qd
           ∧ parent_index qd1 = parent_index qd;
  detach_dom : ∀ q, is_Some (h1 !! q) → is_Some (h !! q)
}.

(** The fields of [links_ok] other than the height. *)
Definition links_flat (h : heap) (t : Tree) : Prop :=
  (∀ owner v i c, vec_of h t owner = Some v → v !! i = Some c →
     ∃ cd, h !! c = Some cd ∧ parent cd = owner
           ∧ parent_index cd = Z.of_nat i)
  ∧ (∀ c cd p, h !! c = Some cd → parent cd = Some p →
       ∃ v, vec_of h t (Some p) = Some v ∧ c ∈ v)
  ∧ (∀ owner v, vec_of h t owner = Some v → vec_size v < 2 ^ 31).

(** The link fields of a node. *)
Definition links (nd : TreeNode) : option ptr * Z * list ptr :=
  (parent nd, parent_index nd, children nd).

(** Two stores with the same nodes and the same links. *)
Definition same_links (h h' : heap) : Prop :=
  ∀ q, links <$> h' !! q = links <$> h !! q.

(** The nodes [_updateDepth] walks over are children of a node. *)
Definition has_parent (h : heap) (q : ptr) : Prop :=
  ∃ cd p pd, h !! q = Some cd ∧ parent cd = Some p ∧ h !! p = Some pd.

(** Every chain of children in the store has at most [n] nodes. *)
Definition height_le (h : heap) (n : nat) : Prop :=
  ∀ p, is_Some (h !! p) → ranked (kids_of h) n p.

(** ** A well-formed position index *)

(** The index [_updateBSData] leaves when it does not wrap around: the store
    below [rs] is a tree, no length is negative, the lengths add up to less
    than 2^64, the first node in pre-order has position 0 and every next
    node the position of the one before plus its length.  No vector is so
    long that the [u64] index arithmetic of the search wraps around. *)
Definition well_indexed (h : heap) (n : nat) (rs : list ptr) : Prop :=
  is_tree h n rs
  ∧ Forall (λ p, 0 ≤ from_option bs_length 0 (h !! p)) (dfs h n rs)
  ∧ extent h (dfs h n rs) < 2 ^ 64
  ∧ (∀ p nd, dfs h n rs !! 0%nat = Some p → h !! p = Some nd →
       bs_position nd = 0)
  ∧ (∀ i p q ndp ndq,
       dfs h n rs !! i = Some p → dfs h n rs !! S i = Some q →
       h !! p = Some ndp → h !! q = Some ndq →
       bs_position ndq = bs_position ndp + bs_length ndp)
  ∧ vec_size rs < 2 ^ 63
  ∧ Forall (λ p, vec_size (kids_of h p) < 2 ^ 63) (dfs h n rs).

(** The same index along a list of nodes: the first node of [l] has
    position [base], and every node the position of the one before plus its
    length; no length is negative. *)
Fixpoint indexed_from (h : heap) (l : list ptr) (base : Z) : Prop :=
  match l with
  | [] => True
  | p :: l' =>
      ∃ nd, h !! p = Some nd ∧ bs_position nd = base ∧ 0 ≤ bs_length nd
            ∧ indexed_from h l' (base + bs_length nd)
  end.

(** The upper end of the window of the sibling at index [m]: the position
    of the next sibling, or the end of the last sibling's own length. *)
Definition window_end (P L : nat → Z) (k m : nat) : Z :=
  if decide (S m < k)%nat then P (S m) else P m + L m.

(** What the loop of the search returns: either a sibling whose window
    holds the target, or the last sibling with the target beyond its own
    length. *)
Definition loop_post (P L : nat → Z) (k : nat) (target : Z) (mid : nat)
  : Prop :=
  (mid < k)%nat ∧ P mid ≤ target
  ∧ (target ≤ window_end P L k mid
     ∨ (S mid = k ∧ P mid + L mid < target)).

(** ** An example model and its views *)

(** Roots 1 and 2, node 3 the child of 1, one cell in every node and
    consistent links, with the index [_updateBSData] builds from the
    length 10 of every node: positions 0, 10 and 20 along the pre-order
    1, 3, 2. *)
Definition searched_store : heap :=
  <[1%positive := mkTreeNode [1%positive] None None 0 [3%positive] false 0 1
                    (BinarySearchData.mk 0 10)]>
    (<[2%positive := mkTreeNode [1%positive] None None 1 [] false 0 1
                       (BinarySearchData.mk 20 10)]>
       (<[3%positive := mkTreeNode [1%positive] None (Some 1%positive) 0 []
                          false 0 2 (BinarySearchData.mk 10 10)]> ∅)).

(** The same store with one node more, node 4 as [new TreeNode] leaves it,
    which is in no vector yet. *)
Definition spare_store : heap :=
  <[4%positive := new_TreeNode [] None]> searched_store.

(** A view as the field initialisers of [TreeView] leave it. *)
Definition new_TreeView : TreeView.t :=
  TreeView.mk None (Size.mk 0 0) false Scroll 24 None None [] None None 1
    None (Size.mk 0 0) [] false false (mkDropAction None Root) 15 [] true
    None [].

(** A column header as the field initialisers of [Column] leave it, with
    the comparator [fn] and the measured size [size]. *)
Definition new_Column (fn : option (ptr → ptr → bool)) (size : Size.t)
  : Column.t :=
  Column.mk fn Sort_None None false false 0 16 false size (Size.w size)
    false false.

(** Every cell payload is 10 wide and 10 high. *)
Definition flat_sizeHint : Drawable → Size.t := λ _, Size.mk 10 10.

(** The indexed tree of [searched_store] as the model at address 1. *)
Definition searched_world : World :=
  mkWorld searched_store (<[1%positive := mkTree [1; 2]%positive]> ∅) 0.

(** A view of that model with one column header, sorted ascending by node
    address.  The pointer hovers over node 3, which is also the cursor and
    the selection, and the last draw of a drag left [drop_action] at below
    node 3. *)
Definition shown_view : TreeView.t :=
  TreeView.mk (Some 1%positive) (Size.mk 0 0) false Scroll 24
    (Some 3%positive) (Some 3%positive) [3%positive] None None 1 (Some 0%nat)
    (Size.mk 0 0) [10] false false (mkDropAction (Some 3%positive) Below) 15
    [Column.mk (Some Pos.ltb) Ascending (Some 1%positive) false false 0 16
       false (Size.mk 10 10) 10 true false]
    false None [].

(** The same model with root 1 collapsed. *)
Definition collapsed_world : World :=
  mkWorld (alter (set_is_collapsed true) 1%positive searched_store)
    (<[1%positive := mkTree [1; 2]%positive]> ∅) 0.

(** The view of the example model before any header was clicked: the
    column is not sorted and its sort icon is hidden. *)
Definition unsorted_view : TreeView.t :=
  TreeView.mk (Some 1%positive) (Size.mk 0 0) false Scroll 24 None None []
    None None 1 None (Size.mk 0 0) [10] false false (mkDropAction None Root)
    15
    [Column.mk (Some Pos.ltb) Sort_None (Some 1%positive) false false 0 16
       false (Size.mk 10 10) 10 false false]
    false None [].

(** The same view with a comparator under which all nodes are equivalent. *)
Definition tied_view : TreeView.t :=
  TreeView.set_children
    [Column.mk (Some (λ _ _, false)) Sort_None (Some 1%positive) false false
       0 16 false (Size.mk 10 10) 10 false false]
    unsorted_view.

(** ** What the index of the view depends on *)

(** The fields of a node that [calculateVirtualSize] reads but never
    writes. *)
Definition row (nd : TreeNode) : list ptr * Z * bool * list Drawable :=
  (children nd, depth nd, is_collapsed nd, columns nd).

(** Two stores with the same nodes and the same rows. *)
Definition same_rows (h h' : heap) : Prop :=
  ∀ q, row <$> h' !! q = row <$> h !! q.

(** The fields of a column header that sorting reads. *)
Definition header (c : Column.t)
  : option (ptr → ptr → bool) * Sort * option ptr * bool :=
  (Column.sort_fn c, Column.m_sort c, Column.m_model c, Column.m_dragging c).

(** The fields of the view that decide whether the loop over the cells of a
    node runs through, and how high a row is; and the sort state of the
    column headers. *)
Definition view_frame (tv tv' : TreeView.t) : Prop :=
  TreeView.m_grid_line_width tv' = TreeView.m_grid_line_width tv
  ∧ length (TreeView.children tv') = length (TreeView.children tv)
  ∧ length (TreeView.m_column_widths tv')
    = length (TreeView.m_column_widths tv)
  ∧ TreeView.m_model tv' = TreeView.m_model tv
  ∧ (∀ i, header <$> TreeView.children tv' !! i
          = header <$> TreeView.children tv !! i).

(** Every node has one cell for each column header, as the [assert] of
    [calculateVirtualSize] asks, there is a width for each header, and the
    [i32] counter of the cells does not wrap around. *)
Definition cells_ok (h : heap) (tv : TreeView.t) : Prop :=
  (∀ p nd, h !! p = Some nd →
     length (columns nd) = length (TreeView.children tv))
  ∧ length (TreeView.m_column_widths tv) = length (TreeView.children tv)
  ∧ Z.of_nat (length (TreeView.children tv)) < 2 ^ 31.

(** One round of the loop over the cells, as far as [max_cell_height] goes. *)
Definition cell_height (sh : Drawable → Size.t) (g m : Z) (d : Drawable) : Z :=
  let hgt := i32 (Size.h (sh d) + g) in
  if bool_decide (hgt > m) then hgt else m.

(** The [max_cell_height] the loop leaves, with grid lines [g] wide. *)
Definition row_height (sh : Drawable → Size.t) (g : Z) (ds : list Drawable)
  : Z :=
  foldl (cell_height sh g) g ds.

(** The visitor of [calculateVirtualSize], as far as the index goes: the
    [bs_data] it gives a node, and the locals [collapsed],
    [collapsed_depth] and [scroll_offset] it leaves. *)
Definition index_step (sh : Drawable → Size.t) (g : Z) (nd : TreeNode)
    (collapsed : bool) (collapsed_depth scroll_offset : Z)
  : BinarySearchData.t * (bool * Z * Z) :=
  let '(collapsed, collapsed_depth) :=
    if bool_decide (depth nd ≤ collapsed_depth) then (false, -1)
    else (collapsed, collapsed_depth) in
  let '(bs, scroll_offset') :=
    if collapsed then (BinarySearchData.mk scroll_offset 0, scroll_offset)
    else
      let len := u64 (row_height sh g (columns nd)) in
      (BinarySearchData.mk scroll_offset len, u64 (scroll_offset + len)) in
  let '(collapsed, collapsed_depth) :=
    if is_collapsed nd && negb collapsed then (true, depth nd)
    else (collapsed, collapsed_depth) in
  (bs, (collapsed, collapsed_depth, scroll_offset')).

(** ** Comparators *)

(** [comp] is a strict total order on the nodes: it is a strict weak
    ordering, as [std::sort] asks, and no two different nodes are
    equivalent. *)
Definition strict_total (comp : ptr → ptr → bool) : Prop :=
  (∀ x, comp x x = false)
  ∧ (∀ x y z, comp x y = true → comp y z = true → comp x z = true)
  ∧ (∀ x y, x ≠ y → comp x y = true ∨ comp y x = true).

(** [comp] does not put [y] before [x]. *)
Definition sort_le (comp : ptr → ptr → bool) (x y : ptr) : Prop :=
  comp y x = false.

Global Instance sort_le_dec comp x y : Decision (sort_le comp x y).
Proof. unfold sort_le. apply _. Defined.

(** A vector in the order [std::sort(begin, end, comp)] leaves. *)
Definition sorted_forwards (comp : ptr → ptr → bool) (v : list ptr) : Prop :=
  StronglySorted (sort_le comp) v.

(** A vector in the order [std::sort(rbegin, rend, comp)] leaves. *)
Definition sorted_backwards (comp : ptr → ptr → bool) (v : list ptr) : Prop :=
  StronglySorted (sort_le comp) (rev v).

(** ** The sorting pass *)

(** No child pointer of the store dangles. *)
Definition closed (h : heap) : Prop :=
  ∀ p nd c, h !! p = Some nd → c ∈ children nd → is_Some (h !! c).

(** What a pass of [Column::sort] with the sort [sortf] has done to the store
    [h0] when it has reached the store [h]: the cells are untouched, and
    the children of a node are as they were or sorted. *)
Definition sort_progress (sortf : list ptr → list ptr) (h0 h : heap) : Prop :=
  ∀ q, columns <$> h !! q = columns <$> h0 !! q
       ∧ (children <$> h !! q = children <$> h0 !! q
          ∨ children <$> h !! q = sortf <$> (children <$> h0 !! q)).

(** ** Looking nodes up *)

(** [Tree::find]; the predicate reads the node it is given in the store. *)
Definition Tree_find (fuel : nat) (predicate : heap → ptr → bool) (h : heap)
    (t : Tree) : option (option ptr) :=
  '(_, result) ←
    Tree_forEachNode fuel (roots t)
      (λ node '(h, result),
         if predicate h node then Some (Break, (h, Some node))
         else Some (Continue, (h, result)))
      (h, None);
  Some result.

(** The traversal at the end of [TreeView::forEachDrawable]: the action,
    which captures a state [A], is called on the cells of the nodes.  The
    calls on the view itself and on its column widgets come before it. *)
Definition forEachDrawable_visitor {A} (action : Drawable → A → A)
  : visitor A :=
  λ node '(h, a),
    nd ← h !! node;
    if is_collapsed nd then Some (Break, (h, a))
    else Some (Continue, (h, foldl (λ a cell, action cell a) a (columns nd))).

Definition TreeView_forEachDrawable_cells {A} (fuel : nat)
    (action : Drawable → A → A) (a : A) (h : heap) (t : Tree) : option A :=
  '(_, a) ← Tree_forEachNode fuel (roots t) (forEachDrawable_visitor action)
              (h, a);
  Some a.

(** Calling a visitor on the nodes of a list, in order, up to and including
    the first node on which it answers [Break]; the flag tells whether it
    did. *)
Fixpoint visit_until {X} (fn : visitor X) (l : list ptr) (s : heap * X)
  : option (bool * (heap * X)) :=
  match l with
  | [] => Some (false, s)
  | p :: l' =>
      '(t, s) ← fn p s;
      match t with
      | Break => Some (true, s)
      | _ => visit_until fn l' s
      end
  end.

(** [res], a result of [descend], agrees with [spec], a result of
    [visit_until]. *)
Definition stops_like {X} (I : heap * X → Prop)
    (res : option (option ptr * Traversal * (heap * X)))
    (spec : option (bool * (heap * X))) : Prop :=
  match spec with
  | Some (b, s') =>
      ∃ last t, res = Some (last, t, s') ∧ (t = Break ↔ b = true) ∧ I s'
  | None => res = None
  end.

(** The nodes of [l] before the first collapsed one. *)
Fixpoint before_collapsed (h : heap) (l : list ptr) : list ptr :=
  match l with
  | [] => []
  | p :: l' =>
      match h !! p with
      | Some nd => if is_collapsed nd then [] else p :: before_collapsed h l'
      | None => []
      end
  end.

(** The cells of the nodes of [l], row by row. *)
Definition cells_of (h : heap) (l : list ptr) : list Drawable :=
  flat_map (λ p, from_option columns [] (h !! p)) l.

(** ** Collapsing and expanding whole subtrees *)

(** The visitor of [collapseOrExpandRecursively] and of
    [collapseOrExpandAll]; it captures the flag only. *)
Definition collapseOrExpand_visitor (is_collapsed_ : bool) : visitor unit :=
  λ _node '(h, u),
    nd ← h !! _node;
    match children nd with
    | [] => Some (Continue, (h, u))
    | _ => Some (Continue,
                 (<[_node := set_is_collapsed is_collapsed_ nd]> h, u))
    end.

(** [TreeView::collapseOrExpandRecursively] *)
Definition TreeView_collapseOrExpandRecursively (fuel : nat)
    (node : option ptr) (is_collapsed_ : bool) (tv : TreeView.t) (w : World)
  : option (TreeView.t * World) :=
  match node with
  | None => Some (tv, w)
  | Some n =>
      m ← TreeView.m_model tv;
      _ ← trees w !! m;
      '(_, _, (h, _)) ←
        Tree_descend fuel Continue n
          (Some (collapseOrExpand_visitor is_collapsed_)) (nodes w, tt);
      let w := set_nodes h w in
      let tv := TreeView.set_m_virtual_size_changed true tv in
      let tv := notify Update tv in
      Some (propagate_size_changed tv, w)
  end.

(** The loop [for (root : m_model->roots) descend(_unused, root, ...)] of
    [collapseOrExpandAll]; [_unused] is handed from one call to the next
    and never tested. *)
Fixpoint collapseOrExpandAll_loop (fuel : nat) (is_collapsed_ : bool)
    (roots : list ptr) (_unused : Traversal) (s : heap * unit)
  : option (heap * unit) :=
  match roots with
  | [] => Some s
  | root :: rest =>
      '(_, _unused, s) ←
        Tree_descend fuel _unused root
          (Some (collapseOrExpand_visitor is_collapsed_)) s;
      collapseOrExpandAll_loop fuel is_collapsed_ rest _unused s
  end.

(** [TreeView::collapseOrExpandAll] *)
Definition TreeView_collapseOrExpandAll (fuel : nat) (is_collapsed_ : bool)
    (tv : TreeView.t) (w : World) : option (TreeView.t * World) :=
  m ← TreeView.m_model tv;
  t ← trees w !! m;
  '(h, _) ←
    collapseOrExpandAll_loop fuel is_collapsed_ (roots t) Continue
      (nodes w, tt);
  let w := set_nodes h w in
  let tv := TreeView.set_m_virtual_size_changed true tv in
  let tv := notify Update tv in
  Some (propagate_size_changed tv, w).

(** [TreeView::collapseRecursively] *)
Definition TreeView_collapseRecursively (fuel : nat) (node : option ptr) :=
  TreeView_collapseOrExpandRecursively fuel node true.

(** [TreeView::expandRecursively] *)
Definition TreeView_expandRecursively (fuel : nat) (node : option ptr) :=
  TreeView_collapseOrExpandRecursively fuel node false.

(** [TreeView::collapseAll] *)
Definition TreeView_collapseAll (fuel : nat) :=
  TreeView_collapseOrExpandAll fuel true.

(** [TreeView::expandAll] *)
Definition TreeView_expandAll (fuel : nat) :=
  TreeView_collapseOrExpandAll fuel false.

(** A node with its collapse flag set to [b] when it has children. *)
Definition flagged (b : bool) (nd : TreeNode) : TreeNode :=
  match children nd with
  | [] => nd
  | _ => set_is_collapsed b nd
  end.

(** ** The node after a subtree *)

(** [TreeView::findNextNode]; [fuel] bounds the climb to the roots. *)
Fixpoint TreeView_findNextNode (fuel : nat) (h : heap) (t : Tree)
    (node : ptr) : option (option ptr) :=
  match fuel with
  | O => None
  | S fuel' =>
      nd ← h !! node;
      match parent nd with
      | Some p =>
          pd ← h !! p;
          if bool_decide (i32 (vec_size (children pd)) - 1 > parent_index nd)
          then Some <$> vec_at (children pd) (parent_index nd + 1)
          else TreeView_findNextNode fuel' h t p
      | None =>
          if bool_decide (depth nd = 1) then
            if bool_decide (i32 (vec_size (roots t)) - 1 > parent_index nd)
            then Some <$> vec_at (roots t) (parent_index nd + 1)
            else Some None
          else Some None
      end
  end.

(** [node] is in the tree, [k] levels below the roots. *)
Fixpoint below_roots (h : heap) (t : Tree) (k : nat) (node : ptr) : Prop :=
  match k with
  | O => node ∈ roots t
  | S k' => ∃ nd p, h !! node = Some nd ∧ parent nd = Some p
                    ∧ below_roots h t k' p
  end.

(** ** The selection *)

(** Modelled from the spec: [ArrayList], the type of [m_focused], is
    declared outside tree_view.hpp.  The selection is kept in insertion
    order: [append] adds at the end, [find] gives the index of the first
    occurrence, if any, [erase] removes the element at an index, and
    [contains] tells whether [find] has a result. *)
Fixpoint ArrayList_find (l : list ptr) (x : ptr) : option nat :=
  match l with
  | [] => None
  | y :: l' => if decide (y = x) then Some 0%nat
               else S <$> ArrayList_find l' x
  end.

Definition ArrayList_contains (l : list ptr) (x : ptr) : bool :=
  bool_decide (is_Some (ArrayList_find l x)).

Definition ArrayList_erase (l : list ptr) (i : nat) : list ptr := delete i l.

Definition ArrayList_append (l : list ptr) (x : ptr) : list ptr := l ++ [x].

(** [TreeView::notifyOnDeselected] *)
Definition TreeView_notifyOnDeselected (tv : TreeView.t) : TreeView.t :=
  let tv := foldl (λ tv node, notify (NodeDeselected node) tv) tv
              (TreeView.m_focused tv) in
  notify Update tv.

(** [TreeView::deselectAll] *)
Definition TreeView_deselectAll (tv : TreeView.t) : TreeView.t :=
  match TreeView.m_focused tv with
  | [] => tv
  | _ =>
      let tv := TreeView_notifyOnDeselected tv in
      let tv := TreeView.set_m_focused [] tv in
      notify Update tv
  end.

(** [TreeView::select] on a node pointer that is not null.  [unwrap] on an
    absent index is undefined. *)
Definition TreeView_select (node : ptr) (tv : TreeView.t)
  : option TreeView.t :=
  tv ←
    (if negb (ArrayList_contains (TreeView.m_focused tv) node) then
       Some (TreeView_deselectAll tv)
     else
       i ← ArrayList_find (TreeView.m_focused tv) node;
       let tv := TreeView.set_m_focused
                   (ArrayList_erase (TreeView.m_focused tv) i) tv in
       Some (TreeView_deselectAll tv));
  let tv := TreeView.set_m_focused
              (ArrayList_append (TreeView.m_focused tv) node) tv in
  let tv := TreeView.set_m_cursor (Some node) tv in
  let tv := notify (NodeSelected node) tv in
  Some (notify Update tv).

(** [TreeView::multiselect] on a node pointer that is not null *)
Definition TreeView_multiselect (node : ptr) (tv : TreeView.t) : TreeView.t :=
  let tv :=
    match ArrayList_find (TreeView.m_focused tv) node with
    | Some index =>
        let tv := TreeView.set_m_focused
                    (ArrayList_erase (TreeView.m_focused tv) index) tv in
        notify (NodeDeselected node) tv
    | None =>
        let tv := TreeView.set_m_focused
                    (ArrayList_append (TreeView.m_focused tv) node) tv in
        let tv := TreeView.set_m_cursor (Some node) tv in
        notify (NodeSelected node) tv
    end in
  notify Update tv.

(** [TreeView::forceMultiselect] on a node pointer that is not null *)
Definition TreeView_forceMultiselect (node : ptr) (tv : TreeView.t)
  : TreeView.t :=
  match ArrayList_find (TreeView.m_focused tv) node with
  | Some _ => tv
  | None =>
      let tv := TreeView.set_m_focused
                  (ArrayList_append (TreeView.m_focused tv) node) tv in
      let tv := TreeView.set_m_cursor (Some node) tv in
      let tv := notify (NodeSelected node) tv in
      notify Update tv
  end.

(** [TreeView::deselect] on a node pointer that is not null *)
Definition TreeView_deselect (node : ptr) (tv : TreeView.t) : TreeView.t :=
  match ArrayList_find (TreeView.m_focused tv) node with
  | Some index =>
      let tv := notify (NodeDeselected node) tv in
      let tv := TreeView.set_m_focused
                  (ArrayList_erase (TreeView.m_focused tv) index) tv in
      notify Update tv
  | None => tv
  end.

(** A call that changes the selection. *)
Inductive selection_call :=
  | Select (node : ptr)
  | Multiselect (node : ptr)
  | ForceMultiselect (node : ptr)
  | Deselect (node : ptr)
  | DeselectAll.

Definition selection_run (c : selection_call) (tv : TreeView.t)
  : option TreeView.t :=
  match c with
  | Select node => TreeView_select node tv
  | Multiselect node => Some (TreeView_multiselect node tv)
  | ForceMultiselect node => Some (TreeView_forceMultiselect node tv)
  | Deselect node => Some (TreeView_deselect node tv)
  | DeselectAll => Some (TreeView_deselectAll tv)
  end.

(** ** Selecting a range *)

(** The visitor of the shift-click branch of the [onMouseDown] listener; it
    captures the view and the locals [begin] and [end], and it reads
    [focused], the first selected node, and the event node. *)
Definition rangeSelect_visitor (focused event_node : ptr)
  : visitor (TreeView.t * option ptr * option ptr) :=
  λ n '(h, (tv, begin_, end_)),
    match begin_ with
    | None =>
        if bool_decide (n = event_node) then
          Some (Continue,
                (h, (TreeView_forceMultiselect n tv,
                     Some event_node, Some focused)))
        else if bool_decide (n = focused) then
          Some (Continue,
                (h, (TreeView_forceMultiselect n tv,
                     Some focused, Some event_node)))
        else Some (Continue, (h, (tv, begin_, end_)))
    | Some _ =>
        let tv := TreeView_forceMultiselect n tv in
        if bool_decide (Some n = end_) then Some (Break, (h, (tv, begin_, end_)))
        else Some (Continue, (h, (tv, begin_, end_)))
    end.

(** The shift-click branch of the [onMouseDown] listener, taken with a
    selection that is not empty; the code is the same with and without the
    control key.  Reading [m_focused[0]] of an empty selection and calling
    the listener without an event node do not happen on this branch. *)
Definition TreeView_rangeSelect (fuel : nat) (h : heap) (t : Tree)
    (tv : TreeView.t) : option TreeView.t :=
  event_node ← TreeView.m_event_node tv;
  focused ← head (TreeView.m_focused tv);
  if bool_decide (focused = event_node) then
    Some (TreeView_forceMultiselect event_node tv)
  else
    '(_, (tv, _, _)) ←
      Tree_forEachNode fuel (roots t)
        (rangeSelect_visitor focused event_node) (h, (tv, None, None));
    Some tv.

(** ** What [descend] returns *)

(** The visitor that the binding of the UP key hands to [descend]: it stops
    at a collapsed node. *)
Definition focus_visitor : visitor unit :=
  λ node '(h, u),
    nd ← h !! node;
    if is_collapsed nd then Some (Break, (h, u))
    else Some (Continue, (h, u)).

(** Going along [l] up to the first node on which [f] holds: the last node
    reached ([last] when [l] is empty), and whether [f] held on it. *)
Fixpoint scan (f : ptr → bool) (l : list ptr) (last : option ptr)
  : option ptr * bool :=
  match l with
  | [] => (last, false)
  | x :: l' => if f x then (Some x, true) else scan f l' (Some x)
  end.

(** Whether [p] is a collapsed node of the store. *)
Definition collapsed_in (h : heap) (p : ptr) : bool :=
  from_option is_collapsed false (h !! p).

(** ** The fallback vector of core/intrinsics.hpp *)

(** [u8] arithmetic wraps modulo 2^8. *)
Definition u8 (z : Z) : Z := z mod 2 ^ 8.

(** [simd::Vector<u8, 8>], the code path without vector instructions: the
    eight lanes of [_data], from lane 0 on. *)
Abbreviation Vector := (list Z).

(** [Vector(u8 data)]: [memset] writes the byte into every lane. *)
Definition Vector_broadcast (data : Z) : Vector := replicate 8 data.

(** [Vector(const u8 *data)] and [load]: [memcpy] reads eight bytes; a
    shorter buffer is undefined behaviour. *)
Definition Vector_load (data : list Z) : option Vector :=
  if bool_decide (8 ≤ length data)%nat then Some (take 8 data) else None.

(** [Vector::mask] *)
Definition Vector_mask (v : Vector) : Z :=
  foldl (λ m d, u8 (Z.shiftr m 1 + Z.land d 128)) 0 v.

(** [Vector::equal] *)
Definition Vector_equal (lhs rhs : Vector) : Vector :=
  zip_with (λ x y, if bool_decide (x = y) then 255 else 0) lhs rhs.

(** [Vector::notEqual] *)
Definition Vector_notEqual (lhs rhs : Vector) : Vector :=
  zip_with (λ x y, if bool_decide (x ≠ y) then 255 else 0) lhs rhs.

(** [Vector::lessThan] *)
Definition Vector_lessThan (lhs rhs : Vector) : Vector :=
  zip_with (λ x y, if bool_decide (x < y) then 255 else 0) lhs rhs.

(** [Vector::greaterThan] *)
Definition Vector_greaterThan (lhs rhs : Vector) : Vector :=
  zip_with (λ x y, if bool_decide (x > y) then 255 else 0) lhs rhs.

(** [operator==], [operator!=], [operator<] and [operator>] *)
Definition Vector_eq (lhs rhs : Vector) : Z :=
  Vector_mask (Vector_equal lhs rhs).

Definition Vector_ne (lhs rhs : Vector) : Z :=
  Vector_mask (Vector_notEqual lhs rhs).

Definition Vector_lt (lhs rhs : Vector) : Z :=
  Vector_mask (Vector_lessThan lhs rhs).

Definition Vector_gt (lhs rhs : Vector) : Z :=
  Vector_mask (Vector_greaterThan lhs rhs).

(** The mask with bit [i] set when [f] holds on lane [i] of the two
    vectors. *)
Definition lanes_where (f : Z → Z → bool) (lhs rhs : Vector) : Z :=
  foldr (λ b acc, Z.b2z b + 2 * acc) 0 (zip_with f lhs rhs).

(** ** Rows below a collapsed node *)

(** For every node of the subtree of [p], in pre-order, whether it lies
    below a collapsed node; [hid] tells it for [p] itself. *)
Fixpoint hidden_in (h : heap) (n : nat) (hid : bool) (p : ptr) : list bool :=
  match n with
  | O => []
  | S n' =>
      hid :: flat_map (hidden_in h n' (hid || collapsed_in h p)) (kids_of h p)
  end.

(** The depths below [p], a node at depth [d], are consistent: every child
    is one level below its parent. *)
Fixpoint depths_from (h : heap) (n : nat) (d : Z) (p : ptr) : Prop :=
  match n with
  | O => True
  | S n' =>
      (∃ nd, h !! p = Some nd ∧ depth nd = d)
      ∧ Forall (depths_from h n' (d + 1)) (kids_of h p)
  end.

(** The length the node [p] of the store [h0] has in the store [h]: none
    when [hid], and the height of its row else. *)
Definition row_length_ok (sh : Drawable → Size.t) (g : Z) (h0 h : heap)
    (p : ptr) (hid : bool) : Prop :=
  ∃ nd nd', h0 !! p = Some nd ∧ h !! p = Some nd'
    ∧ bs_length nd' = if hid then 0 else u64 (row_height sh g (columns nd)).

(** The locals [collapsed] and [collapsed_depth] of [calculateVirtualSize]
    on reaching a node at depth [d]: below a collapsed node they name a
    level above [d]; else they are idle or left over from a subtree at
    level [d] or below. *)
Definition collapse_state (hid : bool) (d : Z) (c : bool) (cd : Z) : Prop :=
  if hid then c = true ∧ cd < d
  else (c = false ∧ cd = -1) ∨ (c = true ∧ d ≤ cd).

(** * Properties *)

(** ** The traversal *)

Section TraversalFacts.
Context {X : Type}.
Implicit Types (fn : visitor X) (s : heap * X) (l : list ptr).

Lemma descend_children_mono
    (rec rec' : Traversal → ptr → heap * X
                → option (option ptr * Traversal * (heap * X)))
    l last ee s r :
  (∀ ee c s r, rec ee c s = Some r → rec' ee c s = Some r) →
  descend_children rec l last ee s = Some r →
  descend_children rec' l last ee s = Some r.
Proof.
  intros Hrec. revert last ee s.
  induction l as [|c l IH]; intros last ee s; simpl; [done|].
  destruct (rec ee c s) as [[[last1 ee1] s1]|] eqn:E; simpl; [|done].
  rewrite (Hrec _ _ _ _ E). simpl.
  destruct ee1; auto.
Qed.

Lemma Tree_descend_mono fuel fuel' ee p (fn : option (visitor X)) s r :
  (fuel ≤ fuel')%nat →
  Tree_descend fuel ee p fn s = Some r →
  Tree_descend fuel' ee p fn s = Some r.
Proof.
  revert fuel' ee p s r.
  induction fuel as [|fuel IH]; intros fuel' ee p s r Hle; [done|].
  destruct fuel' as [|fuel']; [lia|].
  simpl.
  destruct (match fn with Some f => f p s | None => Some (ee, s) end)
    as [[ee1 s1]|]; simpl; [|done].
  assert (Hkids : ∀ nd,
    descend_children (λ ee child s, Tree_descend fuel ee child fn s)
      (children nd) None ee1 s1 = Some r →
    descend_children (λ ee child s, Tree_descend fuel' ee child fn s)
      (children nd) None ee1 s1 = Some r).
  { intros nd. apply descend_children_mono.
    intros ????. apply IH. lia. }
  destruct fn as [f|]; destruct ee1; try done;
    (destruct (s1.1 !! p) as [nd|]; simpl; [|done];
     specialize (Hkids nd); destruct (children nd); [done|exact Hkids]).
Qed.

Lemma forEachNode_loop_mono fuel fuel' l fn ee s r :
  (fuel ≤ fuel')%nat →
  forEachNode_loop fuel l fn ee s = Some r →
  forEachNode_loop fuel' l fn ee s = Some r.
Proof.
  intros Hle. revert ee s.
  induction l as [|c l IH]; intros ee s; simpl; [done|].
  destruct (Tree_descend fuel ee c (Some fn) s) as [[[last1 ee1] s1]|] eqn:E;
    simpl; [|done].
  rewrite (Tree_descend_mono _ _ _ _ _ _ _ Hle E). simpl.
  destruct ee1; auto.
Qed.

End TraversalFacts.

Section WalkRefinement.
Context {X : Type}.
Implicit Types (fn : visitor X) (s : heap * X) (l : list ptr).

Lemma Tree_descend_unfold fn fuel ee p s :
  Tree_descend (S fuel) ee p (Some fn) s =
  '(t1, s1) ← fn p s;
  match t1 with
  | Continue =>
      nd ← s1.1 !! p;
      if decide (children nd = []) then Some (Some p, Continue, s1)
      else descend_children (λ ee c s, Tree_descend fuel ee c (Some fn) s)
             (children nd) None Continue s1
  | _ => Some (Some p, t1, s1)
  end.
Proof.
  simpl. destruct (fn p s) as [[t1 s1]|]; simpl; [|done].
  destruct t1; try done.
  destruct (s1.1 !! p) as [nd|]; simpl; [|done].
  destruct (children nd); done.
Qed.

Lemma walk_mono fn k k' l s r :
  (k ≤ k')%nat → walk k fn l s = Some r → walk k' fn l s = Some r.
Proof.
  revert k' l s. induction k as [|k IH]; intros k' l s Hle; [done|].
  destruct k' as [|k']; [lia|]. simpl.
  destruct l as [|p rest]; [done|].
  destruct (fn p s) as [[t s1]|]; simpl; [|done].
  destruct t; try done.
  - destruct (s1.1 !! p) as [nd|]; simpl; [|done]. apply IH. lia.
  - apply IH. lia.
Qed.

Lemma descend_children_walk fn rec l last ee s last' t s' :
  (∀ ee c s last t s', rec ee c s = Some (last, t, s') →
                       descend_in_walk fn c s t s') →
  ee ≠ Break →
  descend_children rec l last ee s = Some (last', t, s') →
  children_in_walk fn l s t s'.
Proof.
  intros Hrec. revert last ee s.
  induction l as [|c l IH]; intros last ee s Hee; simpl.
  - intros [= -> -> ->]. destruct t; try done; simpl; eauto.
  - destruct (rec ee c s) as [[[last1 ee1] s1]|] eqn:E; simpl; [|done].
    specialize (Hrec _ _ _ _ _ _ E).
    destruct ee1.
    + intros H. apply IH in H; [|done]. rename H into IH'.
      destruct t; simpl in *.
      * intros rest k r Hk. destruct (IH' rest k r Hk) as [k1 Hk1]. eauto.
      * intros rest k r Hk. destruct (IH' rest k r Hk) as [k1 Hk1]. eauto.
      * intros rest. destruct (IH' rest) as [k1 Hk1]. eauto.
    + intros H. apply IH in H; [|done]. rename H into IH'.
      destruct t; simpl in *.
      * intros rest k r Hk. destruct (IH' rest k r Hk) as [k1 Hk1]. eauto.
      * intros rest k r Hk. destruct (IH' rest k r Hk) as [k1 Hk1]. eauto.
      * intros rest. destruct (IH' rest) as [k1 Hk1]. eauto.
    + intros [= -> <- <-]. simpl in *. intros rest. apply Hrec.
Qed.

Lemma Tree_descend_walk fn fuel ee p s last t s' :
  Tree_descend fuel ee p (Some fn) s = Some (last, t, s') →
  descend_in_walk fn p s t s'.
Proof.
  revert ee p s last t s'.
  induction fuel as [|fuel IH]; intros ee p s last t s'; [done|].
  rewrite Tree_descend_unfold.
  destruct (fn p s) as [[t1 s1]|] eqn:Efn; simpl; [|done].
  destruct t1.
  - destruct (s1.1 !! p) as [nd|] eqn:End; simpl; [|done].
    assert (Hstep : ∀ rest k r, walk k fn (children nd ++ rest) s1 = Some r →
              walk (S k) fn (p :: rest) s = Some r).
    { intros rest k r Hk. simpl. rewrite Efn. simpl. rewrite End. done. }
    destruct (decide (children nd = [])) as [Ekids|Ekids].
    + intros [= <- <- <-]. simpl. intros rest k r Hk.
      exists (S k). apply Hstep. by rewrite Ekids.
    + intros H.
      apply descend_children_walk with (fn := fn) in H; [|eauto|done].
      destruct t; simpl in H |- *.
      * intros rest k r Hk. destruct (H rest k r Hk) as [k1 Hk1]. eauto.
      * intros rest k r Hk. destruct (H rest k r Hk) as [k1 Hk1]. eauto.
      * intros rest. destruct (H rest) as [k1 Hk1]. eauto.
  - intros [= <- <- <-]. simpl. intros rest k r Hk.
    exists (S k). simpl. by rewrite Efn.
  - intros [= <- <- <-]. simpl. intros rest.
    exists 1%nat. simpl. by rewrite Efn.
Qed.

Lemma forEachNode_loop_walk fn fuel l ee s r :
  forEachNode_loop fuel l fn ee s = Some r →
  ∃ k, walk k fn l s = Some r.
Proof.
  revert ee s. induction l as [|c l IH]; intros ee s; simpl.
  - intros [= ->]. by exists 1%nat.
  - destruct (Tree_descend fuel ee c (Some fn) s) as [[[last1 ee1] s1]|] eqn:E;
      simpl; [|done].
    apply Tree_descend_walk in E.
    destruct ee1; simpl in E.
    + intros H. destruct (IH _ _ H) as [k Hk]. eauto.
    + intros H. destruct (IH _ _ H) as [k Hk]. eauto.
    + intros [= <-]. apply E.
Qed.

Lemma walk_children_descend fn (k : nat) :
  (∀ k0 ee p rest s r, (k0 ≤ k)%nat →
     walk (S k0) fn (p :: rest) s = Some r →
     ∃ fuel last t s', Tree_descend fuel ee p (Some fn) s = Some (last, t, s')
                       ∧ walk_in_descend fn k0 rest r t s') →
  ∀ l k0 rest s r last ee, (k0 ≤ S k)%nat → ee ≠ Break →
     walk k0 fn (l ++ rest) s = Some r →
     ∃ fuel last' t s',
       descend_children (λ ee c s, Tree_descend fuel ee c (Some fn) s)
         l last ee s = Some (last', t, s')
       ∧ walk_in_descend fn k0 rest r t s'.
Proof.
  intros Hout. induction l as [|c l IH]; intros k0 rest s r last ee Hk0 Hee Hw.
  - exists 0%nat, last, ee, s. split; [done|].
    destruct ee; simpl; try done; eauto.
  - destruct k0 as [|k0]; [done|].
    destruct (Hout k0 ee c (l ++ rest) s r ltac:(lia) Hw)
      as (fuel1 & last1 & t1 & s1 & Hd & Hin).
    destruct (decide (t1 = Break)) as [->|Hnb].
    + simpl in Hin. subst r.
      exists fuel1, last1, Break, s1. simpl. rewrite Hd. done.
    + assert (∃ k', (k' ≤ k0)%nat ∧ walk k' fn (l ++ rest) s1 = Some r)
        as (k' & Hk' & Hw') by (destruct t1; done).
      destruct (IH k' rest s1 r last1 t1 ltac:(lia) Hnb Hw')
        as (fuel2 & last2 & t2 & s2 & Hd2 & Hin2).
      exists (fuel1 `max` fuel2)%nat, last2, t2, s2. split.
      * simpl.
        rewrite (Tree_descend_mono fuel1 (fuel1 `max` fuel2)%nat
                   _ _ _ _ _ ltac:(lia) Hd). simpl.
        assert (descend_children
                  (λ ee c s, Tree_descend (fuel1 `max` fuel2) ee c (Some fn) s)
                  l last1 t1 s1 = Some (last2, t2, s2)) as ->.
        { eapply descend_children_mono; [|exact Hd2].
          intros ????. apply Tree_descend_mono. lia. }
        by destruct t1.
      * destruct t2; simpl in Hin2 |- *; try done;
          destruct Hin2 as (k2 & ? & ?); exists k2; (split; [lia|done]).
Qed.

Lemma walk_Tree_descend fn k :
  ∀ k0 ee p rest s r, (k0 ≤ k)%nat →
    walk (S k0) fn (p :: rest) s = Some r →
    ∃ fuel last t s', Tree_descend fuel ee p (Some fn) s = Some (last, t, s')
                      ∧ walk_in_descend fn k0 rest r t s'.
Proof.
  induction k as [|k IH]; intros k0 ee p rest s r Hk0; simpl.
  - destruct (fn p s) as [[t1 s1]|] eqn:Efn; simpl; [|done].
    assert (k0 = 0)%nat as -> by lia.
    destruct t1; simpl.
    + destruct (s1.1 !! p); done.
    + done.
    + intros [= <-]. exists 1%nat, (Some p), Break, s1. simpl.
      rewrite Efn. done.
  - destruct (fn p s) as [[t1 s1]|] eqn:Efn; simpl; [|done].
    destruct t1.
    + destruct (s1.1 !! p) as [nd|] eqn:End; simpl; [|done].
      intros Hw.
      destruct (walk_children_descend fn k IH (children nd) k0 rest s1 r
                  None Continue ltac:(lia) ltac:(done) Hw)
        as (fuel & last' & t & s' & Hd & Hin).
      destruct (decide (children nd = [])) as [Ekids|Ekids].
      * rewrite Ekids in Hd. simpl in Hd. injection Hd as <- <- <-.
        exists 1%nat, (Some p), Continue, s1.
        rewrite Tree_descend_unfold, Efn. simpl. rewrite End. simpl.
        rewrite decide_True by done. done.
      * exists (S fuel), last', t, s'. split; [|done].
        rewrite Tree_descend_unfold, Efn. simpl. rewrite End. simpl.
        rewrite decide_False by done. exact Hd.
    + intros Hw. exists 1%nat, (Some p), Next, s1. simpl. rewrite Efn.
      split; [done|]. exists k0. done.
    + intros [= <-]. exists 1%nat, (Some p), Break, s1. simpl.
      rewrite Efn. done.
Qed.

Lemma walk_forEachNode_loop fn l :
  ∀ k s r ee, walk k fn l s = Some r →
    ∃ fuel, forEachNode_loop fuel l fn ee s = Some r.
Proof.
  induction l as [|c l IH]; intros k s r ee Hw.
  - destruct k; [done|]. simpl in Hw. exists 0%nat. done.
  - destruct k as [|k]; [done|].
    destruct (walk_Tree_descend fn k k ee c l s r ltac:(lia) Hw)
      as (fuel1 & last1 & t1 & s1 & Hd & Hin).
    destruct (decide (t1 = Break)) as [->|Hnb].
    + simpl in Hin. subst. exists fuel1. simpl. by rewrite Hd.
    + assert (∃ k', (k' ≤ k)%nat ∧ walk k' fn l s1 = Some r)
        as (k' & Hk' & Hw') by (destruct t1; done).
      destruct (IH k' s1 r t1 Hw') as [fuel2 Hl].
      exists (fuel1 `max` fuel2)%nat. simpl.
      rewrite (Tree_descend_mono fuel1 (fuel1 `max` fuel2)%nat
                 _ _ _ _ _ ltac:(lia) Hd). simpl.
      rewrite (forEachNode_loop_mono fuel2 (fuel1 `max` fuel2)%nat
                 _ _ _ _ _ ltac:(lia) Hl).
      by destruct t1.
Qed.


End WalkRefinement.

Section Fold.
Context {X : Type}.
Implicit Types (fn : visitor X) (s : heap * X) (l : list ptr).

Lemma visit_all_app fn l1 l2 s :
  visit_all fn (l1 ++ l2) s = s' ← visit_all fn l1 s; visit_all fn l2 s'.
Proof.
  revert s. induction l1 as [|p l1 IH]; intros s; simpl; [done|].
  destruct (fn p s) as [[t s1]|]; simpl; [|done]. apply IH.
Qed.

Lemma visit_all_invariant fn (I : heap * X → Prop) l s s' :
  (∀ p s t s', I s → fn p s = Some (t, s') → I s') →
  I s → visit_all fn l s = Some s' → I s'.
Proof.
  intros Hfn. revert s. induction l as [|p l IH]; intros s HI; simpl.
  - by intros [= <-].
  - destruct (fn p s) as [[t s1]|] eqn:E; simpl; [|done]. eauto.
Qed.

Variable fn : visitor X.
Variable K : ptr → list ptr.
Variable I : heap * X → Prop.

(** The visitor keeps [I], never breaks, leaves the visited node with the
    children [K] says, and answers [Next] on childless nodes only. *)
Hypothesis fn_shape : ∀ p s t s',
  I s → fn p s = Some (t, s') →
  I s' ∧ t ≠ Break ∧ (∃ nd, s'.1 !! p = Some nd ∧ children nd = K p)
  ∧ (t = Next → K p = []).

Lemma descend_children_fold rec n l :
  (∀ ee c s, ranked K n c → I s →
     folds_to I (rec ee c s) (visit_all fn (preorder K n c) s)) →
  ∀ last ee s, Forall (ranked K n) l → ee ≠ Break → I s →
    folds_to I (descend_children rec l last ee s)
             (visit_all fn (flat_map (preorder K n) l) s).
Proof.
  intros Hrec. induction l as [|c l IH]; intros last ee s Hl Hee HI.
  - simpl. eauto.
  - apply Forall_cons in Hl as [Hc Hl]. simpl.
    rewrite visit_all_app.
    specialize (Hrec ee c s Hc HI). unfold folds_to in Hrec.
    destruct (visit_all fn (preorder K n c) s) as [s1|]; simpl.
    + destruct Hrec as (last1 & t1 & -> & Ht1 & HI1). simpl.
      specialize (IH last1 t1 s1 Hl Ht1 HI1).
      by destruct t1.
    + by rewrite Hrec.
Qed.

Lemma Tree_descend_fold n : ∀ fuel ee p s,
  (n ≤ fuel)%nat → ranked K n p → I s →
  folds_to I (Tree_descend fuel ee p (Some fn) s)
           (visit_all fn (preorder K n p) s).
Proof.
  induction n as [|n IH]; intros fuel ee p s Hfuel Hr HI; [done|].
  destruct fuel as [|fuel]; [lia|].
  rewrite Tree_descend_unfold. simpl in Hr. cbn [preorder visit_all].
  destruct (fn p s) as [[t1 s1]|] eqn:Efn; simpl; [|done].
  destruct (fn_shape _ _ _ _ HI Efn) as (HI1 & Ht1 & (nd & Hnd & Hkids) & Hnext).
  destruct t1; [| |done].
  - rewrite Hnd. simpl. rewrite Hkids.
    destruct (decide (K p = [])) as [E|E].
    + rewrite E. simpl. eauto.
    + apply descend_children_fold; [|done..].
      intros ee' c s' Hc Hs'. apply IH; [lia|done..].
  - rewrite Hnext by done. simpl. eauto.
Qed.

Lemma forEachNode_loop_fold n fuel l : ∀ ee s,
  (n ≤ fuel)%nat → Forall (ranked K n) l → I s →
  forEachNode_loop fuel l fn ee s
  = visit_all fn (flat_map (preorder K n) l) s.
Proof.
  induction l as [|c l IH]; intros ee s Hfuel Hl HI; [done|].
  apply Forall_cons in Hl as [Hc Hl]. simpl. rewrite visit_all_app.
  pose proof (Tree_descend_fold n fuel ee c s Hfuel Hc HI) as Hd.
  unfold folds_to in Hd.
  destruct (visit_all fn (preorder K n c) s) as [s1|]; simpl.
  - destruct Hd as (last1 & t1 & -> & Ht1 & HI1). simpl.
    rewrite <- (IH t1 s1) by done. by destruct t1.
  - by rewrite Hd.
Qed.

(** On a store of bounded height, a visitor that never breaks and keeps the
    shape makes [forEachNode] a fold over the pre-order of the nodes. *)
Lemma Tree_forEachNode_fold n fuel l s :
  (n ≤ fuel)%nat → Forall (ranked K n) l → I s →
  Tree_forEachNode fuel l fn s = visit_all fn (flat_map (preorder K n) l) s.
Proof. apply forEachNode_loop_fold. Qed.

End Fold.

(** ** The position index: [_updateBSData] *)

Lemma u64_range z : 0 ≤ u64 z < 2 ^ 64.
Proof. unfold u64. apply Z.mod_pos_bound. lia. Qed.

Lemma u64_small z : 0 ≤ z < 2 ^ 64 → u64 z = z.
Proof. intros. unfold u64. by apply Z.mod_small. Qed.

Lemma u64_add_l a b : u64 (u64 a + b) = u64 (a + b).
Proof. unfold u64. by rewrite Zplus_mod_idemp_l. Qed.

Lemma u64_add_r a b : u64 (a + u64 b) = u64 (a + b).
Proof. unfold u64. by rewrite Zplus_mod_idemp_r. Qed.

Lemma kids_of_lookup (h : heap) p nd :
  h !! p = Some nd → kids_of h p = children nd.
Proof. unfold kids_of. by intros ->. Qed.

Lemma kids_of_insert_same (h : heap) p nd nd' q :
  h !! p = Some nd → children nd' = children nd →
  kids_of (<[p := nd']> h) q = kids_of h q.
Proof.
  intros Hp Hc. unfold kids_of.
  destruct (decide (p = q)) as [<-|Hne].
  - by rewrite lookup_insert_eq, Hp.
  - by rewrite lookup_insert_ne.
Qed.

Lemma same_shape_refl h : same_shape h h.
Proof. done. Qed.

Lemma same_shape_insert (h0 h : heap) p nd nd' :
  same_shape h0 h → h !! p = Some nd → children nd' = children nd →
  same_shape h0 (<[p := nd']> h).
Proof.
  intros Hs Hp Hc q. rewrite <- Hs. by eapply kids_of_insert_same.
Qed.

Lemma same_shape_trans h0 h1 h2 :
  same_shape h0 h1 → same_shape h1 h2 → same_shape h0 h2.
Proof. intros H1 H2 p. by rewrite H2, H1. Qed.

Lemma preorder_ext K K' n p :
  (∀ q, K q = K' q) → preorder K n p = preorder K' n p.
Proof.
  intros HK. revert p. induction n as [|n IH]; intros p; simpl; [done|].
  rewrite HK. f_equal. induction (K' p) as [|c l IHl]; simpl; [done|].
  by rewrite IH, IHl.
Qed.

Lemma ranked_ext K K' n p :
  (∀ q, K q = K' q) → ranked K n p → ranked K' n p.
Proof.
  intros HK. revert p. induction n as [|n IH]; intros p; simpl; [done|].
  rewrite HK. intros H. eapply Forall_impl; [exact H|]. exact IH.
Qed.

Lemma same_shape_dfs h0 h n rs : same_shape h0 h → dfs h n rs = dfs h0 n rs.
Proof.
  intros Hs. unfold dfs. induction rs as [|r rs IH]; simpl; [done|].
  by rewrite IH, (preorder_ext _ (kids_of h0)).
Qed.

Lemma extent_app h l1 l2 : extent h (l1 ++ l2) = extent h l1 + extent h l2.
Proof.
  unfold extent. induction l1 as [|p l1 IH]; simpl; [done|]. rewrite IH. lia.
Qed.

Lemma extent_insert (h : heap) p nd nd' l :
  h !! p = Some nd → bs_length nd' = bs_length nd →
  extent (<[p := nd']> h) l = extent h l.
Proof.
  intros Hp Hl. unfold extent. induction l as [|q l IH]; simpl; [done|].
  rewrite IH. f_equal.
  destruct (decide (p = q)) as [<-|Hne].
  - by rewrite lookup_insert_eq, Hp.
  - by rewrite lookup_insert_ne.
Qed.

Lemma updateBSData_visitor_shape h0 p s t s' :
  same_shape h0 s.1 → updateBSData_visitor p s = Some (t, s') →
  same_shape h0 s'.1 ∧ t ≠ Break
  ∧ (∃ nd, s'.1 !! p = Some nd ∧ children nd = kids_of h0 p)
  ∧ (t = Next → kids_of h0 p = []).
Proof.
  destruct s as [h pos]. unfold updateBSData_visitor. simpl. intros Hs.
  destruct (h !! p) as [nd|] eqn:Hp; simpl; [|done].
  intros [= <- <-]. simpl. split_and!; try done.
  - by eapply same_shape_insert.
  - eexists. rewrite lookup_insert_eq. split; [done|]. simpl.
    rewrite <- Hs. symmetry. by apply kids_of_lookup.
Qed.

Lemma updateBSData_visitor_eq (h : heap) pos p nd :
  h !! p = Some nd →
  updateBSData_visitor p (h, pos)
  = Some (Continue,
          (<[p := set_bs_data (BinarySearchData.mk pos (bs_length nd)) nd]> h,
           u64 (pos + bs_length nd))).
Proof. intros Hp. unfold updateBSData_visitor. by rewrite Hp. Qed.

(** The fold of the visitor over a list without repetition. *)
Lemma visit_all_updateBSData l : ∀ (h : heap) pos,
  NoDup l → Forall (λ p, is_Some (h !! p)) l → 0 ≤ pos < 2 ^ 64 →
  ∃ h', visit_all updateBSData_visitor l (h, pos)
        = Some (h', u64 (pos + extent h l))
    ∧ (∀ q, q ∉ l → h' !! q = h !! q)
    ∧ (∀ i p, l !! i = Some p →
         ∃ nd, h !! p = Some nd
           ∧ h' !! p = Some (set_bs_data
                               (BinarySearchData.mk
                                  (u64 (pos + extent h (take i l)))
                                  (bs_length nd)) nd)).
Proof.
  induction l as [|p l IH]; intros h pos Hnd Hall Hpos.
  - exists h. simpl. rewrite Z.add_0_r, u64_small by done.
    split_and!; [done|done|]. intros i p. by rewrite lookup_nil.
  - apply NoDup_cons in Hnd as [Hp Hnd].
    apply Forall_cons in Hall as [[nd Hnd0] Hall].
    set (nd1 := set_bs_data (BinarySearchData.mk pos (bs_length nd)) nd).
    destruct (IH (<[p := nd1]> h) (u64 (pos + bs_length nd)) Hnd)
      as (h' & Hrun & Hframe & Hidx).
    { eapply Forall_impl; [exact Hall|]. intros q [x Hx]. simpl.
      destruct (decide (p = q)) as [<-|Hne].
      - rewrite lookup_insert_eq. eauto.
      - rewrite lookup_insert_ne by done. eauto. }
    { apply u64_range. }
    exists h'. split_and!.
    + cbn [visit_all]. rewrite (updateBSData_visitor_eq h pos p nd Hnd0).
      simpl. fold nd1. rewrite Hrun. f_equal. f_equal.
      rewrite (extent_insert h p nd nd1) by done.
      rewrite u64_add_l. unfold extent at 2. simpl. rewrite Hnd0. simpl.
      fold (extent h l). f_equal. lia.
    + intros q Hq. apply not_elem_of_cons in Hq as [Hq1 Hq2].
      rewrite Hframe by done. by rewrite lookup_insert_ne.
    + intros [|i] q Hq; simpl in Hq.
      * injection Hq as <-. exists nd. split; [done|].
        rewrite Hframe by done. rewrite lookup_insert_eq.
        simpl. unfold extent. simpl. by rewrite Z.add_0_r, u64_small.
      * destruct (Hidx i q Hq) as (ndq & Hq1 & Hq2).
        assert (p ≠ q) by (intros ->; apply Hp; by eapply list_elem_of_lookup_2).
        rewrite lookup_insert_ne in Hq1 by done.
        exists ndq. split; [done|]. rewrite Hq2. do 3 f_equal.
        rewrite (extent_insert h p nd nd1) by done.
        rewrite u64_add_l. cbn [take]. unfold extent at 2. simpl.
        rewrite Hnd0. simpl. fold (extent h (take i l)).
        f_equal. lia.
Qed.

Lemma extent_nonneg (h : heap) l :
  Forall (λ p, 0 ≤ from_option bs_length 0 (h !! p)) l → 0 ≤ extent h l.
Proof.
  unfold extent. induction 1 as [|p l Hp Hl IH]; simpl; lia.
Qed.

Lemma extent_take_le (h : heap) l i j :
  Forall (λ p, 0 ≤ from_option bs_length 0 (h !! p)) l → (i ≤ j)%nat →
  extent h (take i l) ≤ extent h (take j l).
Proof.
  intros Hl Hij.
  rewrite <- (take_drop i (take j l)), extent_app, take_take.
  replace (i `min` j)%nat with i by lia.
  assert (0 ≤ extent h (drop i (take j l))); [|lia].
  apply extent_nonneg. apply Forall_drop, Forall_take. done.
Qed.

Lemma extent_take_total (h : heap) l i :
  Forall (λ p, 0 ≤ from_option bs_length 0 (h !! p)) l →
  extent h (take i l) ≤ extent h l.
Proof.
  intros Hl. rewrite <- (take_drop i l) at 2. rewrite extent_app.
  assert (0 ≤ extent h (drop i l)); [|lia].
  apply extent_nonneg. by apply Forall_drop.
Qed.

Lemma extent_ext (h h' : heap) l :
  (∀ p, from_option bs_length 0 (h' !! p) = from_option bs_length 0 (h !! p)) →
  extent h' l = extent h l.
Proof.
  intros H. unfold extent. induction l as [|p l IH]; simpl; [done|].
  by rewrite IH, H.
Qed.

(** C3, amended: on a tree, [_updateBSData] returns, keeps every length and
    leaves this index, [dfs] being the depth-first pre-order over all nodes,
    collapsed or not: the first node has position 0; the position of the
    next node is the position of the current one plus its length, computed
    modulo 2^64 as the [u64] addition of the code does; the returned value is
    the sum of all lengths modulo 2^64.  When no length is negative and the
    sum of the lengths is below 2^64, the modulus disappears: positions of
    consecutive nodes differ by the length exactly, they never decrease along
    the order, and the returned value is the total extent. *)
Theorem updateBSData_position_index n fuel h t :
  is_tree h n (roots t) → (n ≤ fuel)%nat →
  ∃ h' total,
    Tree__updateBSData fuel h t = Some (total, h')
    ∧ (∀ p, from_option bs_length 0 (h' !! p)
            = from_option bs_length 0 (h !! p))
    ∧ (∀ p nd, dfs h n (roots t) !! 0%nat = Some p → h' !! p = Some nd →
         bs_position nd = 0)
    ∧ (∀ i p q ndp ndq,
         dfs h n (roots t) !! i = Some p → dfs h n (roots t) !! S i = Some q →
         h' !! p = Some ndp → h' !! q = Some ndq →
         bs_position ndq = u64 (bs_position ndp + bs_length ndp))
    ∧ total = u64 (extent h' (dfs h n (roots t)))
    ∧ (Forall (λ p, 0 ≤ from_option bs_length 0 (h !! p)) (dfs h n (roots t)) →
       extent h (dfs h n (roots t)) < 2 ^ 64 →
       (∀ i p q ndp ndq,
          dfs h n (roots t) !! i = Some p → dfs h n (roots t) !! S i = Some q →
          h' !! p = Some ndp → h' !! q = Some ndq →
          bs_position ndq = bs_position ndp + bs_length ndp)
       ∧ (∀ i j p q ndp ndq, (i ≤ j)%nat →
          dfs h n (roots t) !! i = Some p → dfs h n (roots t) !! j = Some q →
          h' !! p = Some ndp → h' !! q = Some ndq →
          bs_position ndp ≤ bs_position ndq)
       ∧ total = extent h' (dfs h n (roots t))).
Proof.
  intros (Hrank & Hnodup & Halloc) Hfuel.
  set (l := dfs h n (roots t)) in *.
  destruct (visit_all_updateBSData l h 0 Hnodup Halloc ltac:(done))
    as (h' & Hrun & Hframe & Hidx).
  exists h', (u64 (extent h l)).
  assert (Hlen : ∀ p, from_option bs_length 0 (h' !! p)
                      = from_option bs_length 0 (h !! p)).
  { intros p. destruct (decide (p ∈ l)) as [Hin|Hout].
    - apply list_elem_of_lookup_1 in Hin as [i Hi].
      destruct (Hidx i p Hi) as (nd & -> & ->). done.
    - by rewrite Hframe. }
  assert (Hext : ∀ l', extent h' l' = extent h l')
    by (intros; by apply extent_ext).
  assert (Hpos : ∀ i p nd, l !! i = Some p → h' !! p = Some nd →
            bs_position nd = u64 (extent h (take i l))
            ∧ bs_length nd = from_option bs_length 0 (h !! p)).
  { intros i p nd Hi Hp. destruct (Hidx i p Hi) as (nd0 & Hp0 & Hp').
    rewrite Hp' in Hp. injection Hp as <-. by rewrite Hp0. }
  assert (Hstep : ∀ i p, l !! i = Some p →
            extent h (take (S i) l)
            = extent h (take i l) + from_option bs_length 0 (h !! p)).
  { intros i p Hi. rewrite (take_S_r _ _ _ Hi), extent_app.
    f_equal. unfold extent. simpl. lia. }
  split_and!.
  - unfold Tree__updateBSData.
    rewrite (Tree_forEachNode_fold updateBSData_visitor (kids_of h)
               (λ s, same_shape h s.1) (updateBSData_visitor_shape h)
               n fuel (roots t) (h, 0) Hfuel Hrank (same_shape_refl h)).
    fold (dfs h n (roots t)). fold l. rewrite Hrun. done.
  - exact Hlen.
  - intros p nd Hi Hp. destruct (Hpos 0%nat p nd Hi Hp) as [-> _]. done.
  - intros i p q ndp ndq Hi Hj Hp Hq.
    destruct (Hpos _ _ _ Hi Hp) as [-> ->].
    destruct (Hpos _ _ _ Hj Hq) as [-> _].
    by rewrite (Hstep i p Hi), u64_add_l.
  - by rewrite Hext.
  - intros Hnn Hsmall.
    assert (Hin : ∀ i, 0 ≤ extent h (take i l) < 2 ^ 64).
    { intros i. split.
      - apply extent_nonneg. by apply Forall_take.
      - pose proof (extent_take_total h l i Hnn). lia. }
    split_and!.
    + intros i p q ndp ndq Hi Hj Hp Hq.
      destruct (Hpos _ _ _ Hi Hp) as [-> ->].
      destruct (Hpos _ _ _ Hj Hq) as [-> _].
      rewrite !u64_small by apply Hin. by apply Hstep.
    + intros i j p q ndp ndq Hij Hi Hj Hp Hq.
      destruct (Hpos _ _ _ Hi Hp) as [-> _].
      destruct (Hpos _ _ _ Hj Hq) as [-> _].
      rewrite !u64_small by apply Hin. by apply extent_take_le.
    + rewrite Hext. apply u64_small. split; [|done].
      by apply extent_nonneg.
Qed.

(** Goals about a concrete store: the shape of a tree, lookups, runs. *)
Ltac concrete :=
  repeat match goal with
    | |- _ ∧ _ => split
    | |- is_tree _ _ _ => unfold is_tree
    | |- Forall _ _ =>
        vm_compute; repeat econstructor; try (eexists; reflexivity)
    | |- NoDup _ => apply (bool_decide_unpack _); vm_compute; exact I
    | |- is_Some _ => vm_compute; eexists; reflexivity
    | |- (_ ≤ _)%nat => lia
    | |- (_ < _)%nat => lia
    | |- @eq (option _) _ _ => vm_compute; reflexivity
    end.

Lemma updateBSData_position_index_witness :
  is_tree index_store 2 [1; 2]%positive
  ∧ ∃ h' total,
      Tree__updateBSData 2 index_store (mkTree [1; 2]%positive)
      = Some (total, h').
Proof.
  assert (Htree : is_tree index_store 2 [1; 2]%positive) by concrete.
  split; [exact Htree|].
  destruct (updateBSData_position_index 2 2 index_store
              (mkTree [1; 2]%positive) Htree ltac:(lia))
    as (h' & total & Hrun & _).
  exists h', total. exact Hrun.
Defined.

(** C3 as stated fails when the lengths wrap around: with three roots of
    length 2^64 - 1 the third root gets position 2^64 - 2, below the
    position 2^64 - 1 of the second and not the sum of its position and
    length; the returned value is 2^64 - 3, not the total extent. *)
Lemma updateBSData_counterexample :
  is_tree overflow_store 1 [1; 2; 3]%positive
  ∧ ∃ h' total nd2 nd3,
      Tree__updateBSData 1 overflow_store (mkTree [1; 2; 3]%positive)
      = Some (total, h')
      ∧ h' !! 2%positive = Some nd2 ∧ h' !! 3%positive = Some nd3
      ∧ bs_position nd3 ≠ bs_position nd2 + bs_length nd2
      ∧ bs_position nd3 < bs_position nd2
      ∧ bs_position nd3 = 2 ^ 64 - 2 ∧ total = 2 ^ 64 - 3
      ∧ total ≠ extent h' [1; 2; 3]%positive.
Proof.
  split; [concrete|].
  eexists _, _, _, _. split; [vm_compute; reflexivity|].
  split; [vm_compute; reflexivity|]. split; [vm_compute; reflexivity|].
  split_and!; vm_compute; congruence.
Qed.

(** ** Removing nothing *)

(** C10: [Tree::remove] called with a null node returns null and changes
    neither the roots nor any node of the store. *)
Theorem remove_null fuel (h : heap) (t : Tree) :
  Tree_remove fuel None h t = Some (None, h, t).
Proof. reflexivity. Qed.

(** ** Depths after a move *)

(** C2 does not hold of the code.  Before the move every depth is right:
    the root 1 and the detached node 2 have depth 1, the children 3 and 5
    of 2 have depth 2, the child 4 of 3 has depth 3.  Appending 2 below the
    root 1 gives 2 the depth 2, and walks its subtree with one counter: the
    counter goes up at 3 and again at 4, both first children, and 4, an only
    child, does not bring it down.  Node 5, a child of 2, ends at depth 4. *)
Theorem updateDepth_after_move :
  depths before_move = Some ([1; 1; 2; 3; 2], Some 2%positive)
  ∧ depths after_move = Some ([1; 2; 3; 4; 4], Some 2%positive).
Proof. split; vm_compute; reflexivity. Qed.

(** ** Mutations keep the links consistent *)

Lemma i32_small z : - 2 ^ 31 ≤ z < 2 ^ 31 → i32 z = z.
Proof. intros. unfold i32. rewrite Z.mod_small; lia. Qed.

Lemma vec_at_lookup {A} (v : list A) (j : nat) :
  vec_at v (Z.of_nat j) = v !! j.
Proof.
  unfold vec_at. rewrite bool_decide_true by lia. by rewrite Nat2Z.id.
Qed.

Lemma modify_Some p f (h : heap) nd :
  h !! p = Some nd → modify p f h = Some (<[p := f nd]> h).
Proof. intros Hp. unfold modify. by rewrite Hp. Qed.

Lemma allocated_insert (h : heap) p nd (v : list ptr) :
  Forall (λ q, is_Some (h !! q)) v →
  Forall (λ q, is_Some (<[p := nd]> h !! q)) v.
Proof.
  intros H. eapply Forall_impl; [exact H|]. intros q Hq. simpl in *.
  destruct (decide (p = q)) as [<-|Hne].
  - rewrite lookup_insert_eq. eauto.
  - by rewrite lookup_insert_ne.
Qed.

(** A loop that rewrites the nodes of a vector from index [lo] on. *)
Lemma for_range_modify (g : Z → TreeNode → TreeNode) (v : list ptr) n :
  ∀ lo (h : heap),
    Z.of_nat n = vec_size v - lo → 0 ≤ lo → NoDup v →
    Forall (λ q, is_Some (h !! q)) v →
    ∃ h', for_range n lo (λ i h, c ← vec_at v i; modify c (g i) h) h = Some h'
      ∧ (∀ q, q ∉ drop (Z.to_nat lo) v → h' !! q = h !! q)
      ∧ (∀ j c, v !! j = Some c → lo ≤ Z.of_nat j →
           ∃ cd, h !! c = Some cd ∧ h' !! c = Some (g (Z.of_nat j) cd)).
Proof.
  unfold vec_size.
  induction n as [|n IH]; intros lo h Hn Hlo Hnd Hall.
  - exists h. split_and!; [done|done|].
    intros j c Hj Hle. apply lookup_lt_Some in Hj. lia.
  - assert (Hlt : (Z.to_nat lo < length v)%nat) by lia.
    destruct (lookup_lt_is_Some_2 v _ Hlt) as [c Hc].
    assert (Hcal : is_Some (h !! c)).
    { rewrite Forall_forall in Hall. apply Hall.
      by eapply list_elem_of_lookup_2. }
    destruct Hcal as [cd Hcd].
    destruct (IH (lo + 1) (<[c := g lo cd]> h)) as (h' & Hrun & Hfr & Hidx);
      [lia|lia|done|by apply allocated_insert|].
    assert (Hdrop : drop (Z.to_nat lo) v = c :: drop (Z.to_nat (lo + 1)) v).
    { replace (Z.to_nat (lo + 1)) with (S (Z.to_nat lo)) by lia.
      by apply drop_S. }
    assert (Hc' : c ∉ drop (Z.to_nat (lo + 1)) v).
    { intros Hin. apply list_elem_of_lookup_1 in Hin as [k Hk].
      rewrite lookup_drop in Hk.
      pose proof (NoDup_lookup _ _ _ _ Hnd Hc Hk). lia. }
    exists h'. split_and!.
    + cbn [for_range]. rewrite <- (Z2Nat.id lo) at 1 by done.
      rewrite vec_at_lookup, Hc. simpl.
      rewrite (modify_Some _ _ _ _ Hcd). simpl. exact Hrun.
    + intros q Hq. rewrite Hdrop in Hq.
      apply not_elem_of_cons in Hq as [Hq1 Hq2].
      rewrite Hfr by done. by rewrite lookup_insert_ne.
    + intros j c' Hj Hle.
      destruct (decide (Z.of_nat j = lo)) as [Heq|Hne].
      * assert (j = Z.to_nat lo) as -> by lia.
        rewrite Hc in Hj. injection Hj as <-.
        exists cd. split; [done|]. rewrite Hfr by done.
        rewrite lookup_insert_eq. by rewrite Z2Nat.id.
      * destruct (Hidx j c' Hj ltac:(lia)) as (cd' & Hcd' & Hh').
        assert (c ≠ c').
        { intros ->. pose proof (NoDup_lookup _ _ _ _ Hnd Hc Hj). lia. }
        rewrite lookup_insert_ne in Hcd' by done. eauto.
Qed.

Lemma renumber_from_spec (v : list ptr) lo (h : heap) :
  0 ≤ lo ≤ vec_size v → vec_size v < 2 ^ 31 → NoDup v →
  Forall (λ q, is_Some (h !! q)) v →
  ∃ h', renumber_from lo v h = Some h'
    ∧ (∀ q, q ∉ drop (Z.to_nat lo) v → h' !! q = h !! q)
    ∧ (∀ j c, v !! j = Some c → lo ≤ Z.of_nat j →
         ∃ cd, h !! c = Some cd
           ∧ h' !! c = Some (set_parent_index (Z.of_nat j) cd)).
Proof.
  intros Hlo Hsz Hnd Hall. unfold renumber_from.
  destruct (for_range_modify (λ i, set_parent_index (i32 i)) v
              (Z.to_nat (vec_size v - lo)) lo h) as (h' & Hrun & Hfr & Hidx);
    [lia|lia|done|done|].
  exists h'. split_and!; [done|done|].
  intros j c Hj Hle. destruct (Hidx j c Hj Hle) as (cd & Hcd & Hh').
  exists cd. split; [done|]. rewrite Hh'. do 2 f_equal.
  apply i32_small. apply lookup_lt_Some in Hj. unfold vec_size in Hsz. lia.
Qed.

Lemma shift_down_from_spec (v : list ptr) lo (h : heap) :
  0 ≤ lo ≤ vec_size v → vec_size v < 2 ^ 31 → NoDup v →
  Forall (λ q, is_Some (h !! q)) v →
  ∃ h', shift_down_from lo v h = Some h'
    ∧ (∀ q, q ∉ drop (Z.to_nat lo) v → h' !! q = h !! q)
    ∧ (∀ j c, v !! j = Some c → lo ≤ Z.of_nat j →
         ∃ cd, h !! c = Some cd
           ∧ h' !! c = Some (set_parent_index (i32 (parent_index cd - 1)) cd)).
Proof.
  intros Hlo Hsz Hnd Hall. unfold shift_down_from.
  rewrite (i32_small (vec_size v)) by (unfold vec_size in *; lia).
  destruct (for_range_modify
              (λ _ nd, set_parent_index (i32 (parent_index nd - 1)) nd) v
              (Z.to_nat (vec_size v - lo)) lo h) as (h' & Hrun & Hfr & Hidx);
    [lia|lia|done|done|].
  exists h'. split_and!; done.
Qed.

Lemma links_ok_flat h t : links_ok h t → links_flat h t.
Proof.
  intros [Hr Hc Hp _ Hrs Hcs]. split_and!.
  - intros [p|] v i c Hv Hi; simpl in Hv.
    + destruct (h !! p) as [pd|] eqn:Hpd; simplify_eq/=. eauto.
    + simplify_eq. eauto.
  - intros c cd p Hcd Hpar. destruct (Hp c cd p Hcd Hpar) as (pd & Hpd & Hin).
    exists (children pd). simpl. by rewrite Hpd.
  - intros [p|] v Hv; simpl in Hv.
    + destruct (h !! p) as [pd|] eqn:Hpd; simplify_eq/=. eauto.
    + by simplify_eq.
Qed.

Lemma links_flat_ok h t :
  links_flat h t →
  (∃ n, ∀ p, is_Some (h !! p) → ranked (kids_of h) n p) →
  links_ok h t.
Proof.
  intros (Hv & Hp & Hs) Hh. split.
  - intros i r Hi. by apply (Hv None (roots t)).
  - intros p pd i c Hpd Hi. apply (Hv (Some p) (children pd)); [|done].
    simpl. by rewrite Hpd.
  - intros c cd p Hcd Hpar. destruct (Hp c cd p Hcd Hpar) as (v & Hv' & Hin).
    simpl in Hv'. destruct (h !! p) as [pd|]; simplify_eq/=. eauto.
  - done.
  - by apply (Hs None).
  - intros p pd Hpd. apply (Hs (Some p)). simpl. by rewrite Hpd.
Qed.

Lemma links_flat_NoDup h t owner v :
  links_flat h t → vec_of h t owner = Some v → NoDup v.
Proof.
  intros (Hv & _) Hvec. apply NoDup_alt. intros i j c Hi Hj.
  destruct (Hv _ _ _ _ Hvec Hi) as (cd & Hcd & _ & Hpi).
  destruct (Hv _ _ _ _ Hvec Hj) as (cd' & Hcd' & _ & Hpj).
  simplify_eq. lia.
Qed.

Lemma links_flat_allocated h t owner v :
  links_flat h t → vec_of h t owner = Some v →
  Forall (λ q, is_Some (h !! q)) v.
Proof.
  intros (Hv & _) Hvec. apply Forall_lookup. intros i c Hi.
  destruct (Hv _ _ _ _ Hvec Hi) as (cd & Hcd & _). eauto.
Qed.

Lemma links_flat_owner h t owner v c cd :
  links_flat h t → vec_of h t owner = Some v → c ∈ v → h !! c = Some cd →
  parent cd = owner.
Proof.
  intros (Hv & _) Hvec Hin Hcd.
  apply list_elem_of_lookup_1 in Hin as [i Hi].
  destruct (Hv _ _ _ _ Hvec Hi) as (cd' & Hcd' & Hpar & _). by simplify_eq.
Qed.

Lemma links_flat_owner_lookup h t owner v j c cd :
  links_flat h t → vec_of h t owner = Some v → v !! j = Some c →
  h !! c = Some cd → parent cd = owner.
Proof.
  intros Hf Hvec Hj Hcd. eapply links_flat_owner; [done..| |done].
  by eapply list_elem_of_lookup_2.
Qed.

Lemma lookup_insert_middle {A} (v : list A) (i j : nat) x y :
  (i ≤ length v)%nat →
  (take i v ++ x :: drop i v) !! j = Some y →
  (j < i ∧ v !! j = Some y)%nat ∨ (j = i ∧ y = x)
  ∨ (i < j ∧ v !! pred j = Some y)%nat.
Proof.
  intros Hi Hj.
  destruct (decide (j < i)%nat) as [Hlt|Hge].
  - left. split; [done|]. rewrite lookup_app_l in Hj by (rewrite length_take; lia).
    by rewrite lookup_take_lt in Hj.
  - rewrite lookup_app_r in Hj by (rewrite length_take; lia).
    rewrite length_take in Hj. replace (i `min` length v)%nat with i in Hj by lia.
    destruct (j - i)%nat as [|k] eqn:Hk; simpl in Hj.
    + right; left. split; [lia|congruence].
    + right; right. split; [lia|]. rewrite lookup_drop in Hj.
      by replace (pred j) with (i + k)%nat by lia.
Qed.

Lemma attach_links_flat h t owner node i v h1 t1 :
  links_flat h t → detached h t node → vec_of h t owner = Some v →
  (i ≤ length v)%nat → vec_size v + 1 < 2 ^ 31 →
  attach_spec h t owner node i v h1 t1 →
  links_flat h1 t1.
Proof.
  intros Hflat Hdet Hvec Hi Hsz [A1 A2 A3 A4 A5 A6].
  pose proof Hflat as (Hv & Hp & Hs).
  split_and!.
  - intros o v2 j c Hv2 Hj.
    destruct (decide (o = owner)) as [->|Hne].
    + rewrite A1 in Hv2. injection Hv2 as <-.
      apply lookup_insert_middle in Hj as [[Hlt Hj]|[[-> ->]|[Hlt Hj]]];
        [| |  |done].
      * destruct (A4 _ _ Hj) as (cd & cd1 & Hcd & Hcd1 & Hpar & Hidx).
        exists cd1. split; [done|]. rewrite Hpar, Hidx.
        rewrite decide_True by done. split; [|done].
        by eapply links_flat_owner_lookup.
      * destruct A3 as (nd1 & ? & ? & ?). eauto.
      * destruct (A4 _ _ Hj) as (cd & cd1 & Hcd & Hcd1 & Hpar & Hidx).
        exists cd1. split; [done|]. rewrite Hpar, Hidx.
        rewrite decide_False by lia. split; [|f_equal; lia].
        by eapply links_flat_owner_lookup.
    + rewrite A2 in Hv2 by done.
      destruct (Hv _ _ _ _ Hv2 Hj) as (cd & Hcd & Hpar & Hidx).
      assert (c ∈ v2) by by eapply list_elem_of_lookup_2.
      destruct (A5 c cd) as (cd1 & Hcd1 & Hpar1 & Hidx1); [| |done|].
      * intros ->. by eapply Hdet.
      * intros Hin. apply Hne. rewrite <- Hpar.
        by eapply links_flat_owner.
      * exists cd1. split; [done|]. by rewrite Hpar1, Hidx1.
  - intros c cd1 p Hcd1 Hpar.
    destruct (decide (c = node)) as [->|Hne].
    { destruct A3 as (nd1 & Hnd1 & Hpar1 & _). simplify_eq.
      rewrite <- Hpar. eexists. split; [exact A1|]. set_solver. }
    destruct (decide (c ∈ v)) as [Hin|Hout].
    { apply list_elem_of_lookup_1 in Hin as [j Hj].
      destruct (A4 _ _ Hj) as (cd & cd1' & Hcd & Hcd1' & Hpar' & _).
      simplify_eq.
      assert (parent cd = owner) by by eapply links_flat_owner_lookup.
      rewrite <- Hpar, Hpar', H. eexists. split; [exact A1|].
      apply list_elem_of_lookup_2 in Hj.
      rewrite <- (take_drop i v) in Hj.
      apply elem_of_app in Hj as [Hj|Hj]; apply elem_of_app; [by left|].
      right. by right. }
    destruct (A6 c ltac:(eauto)) as [cd Hcd].
    destruct (A5 c cd Hne Hout Hcd) as (cd1' & Hcd1' & Hpar' & _).
    simplify_eq. rewrite Hpar' in Hpar.
    destruct (Hp c cd p Hcd Hpar) as (v2 & Hv2 & Hin2).
    exists v2. split; [|done]. rewrite A2; [done|].
    intros <-. by simplify_eq.
  - intros o v2 Hv2.
    destruct (decide (o = owner)) as [->|Hne].
    + rewrite A1 in Hv2. injection Hv2 as <-. unfold vec_size in *.
      rewrite length_app, length_take, length_cons, length_drop. lia.
    + rewrite A2 in Hv2 by done. eauto.
Qed.

Lemma detach_links_flat h t owner node i v h1 t1 :
  links_flat h t → vec_of h t owner = Some v → v !! i = Some node →
  detach_spec h t owner node i v h1 t1 →
  links_flat h1 t1.
Proof.
  intros Hflat Hvec Hi [D1 D2 D3 D4 D5 D6].
  pose proof Hflat as (Hv & Hp & Hs).
  assert (Hnd : NoDup v) by by eapply links_flat_NoDup.
  assert (Hdel : ∀ j c, v !! j = Some c → j ≠ i → c ∈ delete i v).
  { intros j c Hj Hne. destruct (decide (j < i)%nat).
    - apply (list_elem_of_lookup_2 _ j). by rewrite list_lookup_delete_lt.
    - apply (list_elem_of_lookup_2 _ (pred j)).
      rewrite list_lookup_delete_ge by lia. by replace (S (pred j)) with j by lia. }
  split_and!.
  - intros o v2 j c Hv2 Hj.
    destruct (decide (o = owner)) as [->|Hne].
    + rewrite D1 in Hv2. injection Hv2 as <-.
      destruct (decide (j < i)%nat) as [Hlt|Hge].
      * rewrite list_lookup_delete_lt in Hj by done.
        destruct (D4 _ _ Hj ltac:(lia)) as (cd & cd1 & Hcd & Hcd1 & Hpar & Hidx).
        exists cd1. split; [done|]. rewrite Hpar, Hidx.
        rewrite decide_True by done. split; [|done].
        by eapply links_flat_owner_lookup.
      * rewrite list_lookup_delete_ge in Hj by lia.
        destruct (D4 _ _ Hj ltac:(lia)) as (cd & cd1 & Hcd & Hcd1 & Hpar & Hidx).
        exists cd1. split; [done|]. rewrite Hpar, Hidx.
        rewrite decide_False by lia. split; [|done].
        by eapply links_flat_owner_lookup.
    + rewrite D2 in Hv2 by done.
      destruct (Hv _ _ _ _ Hv2 Hj) as (cd & Hcd & Hpar & Hidx).
      destruct (D5 c cd) as (cd1 & Hcd1 & Hpar1 & Hidx1); [|done|].
      * intros Hin. apply Hne. rewrite <- Hpar.
        by eapply links_flat_owner.
      * exists cd1. split; [done|]. by rewrite Hpar1, Hidx1.
  - intros c cd1 p Hcd1 Hpar.
    destruct (decide (c ∈ v)) as [Hin|Hout].
    { apply list_elem_of_lookup_1 in Hin as [j Hj].
      destruct (decide (j = i)) as [->|Hji].
      { rewrite Hi in Hj. injection Hj as <-.
        destruct D3 as (nd1 & Hnd1 & Hpar1). congruence. }
      destruct (D4 _ _ Hj Hji) as (cd & cd1' & Hcd & Hcd1' & Hpar' & _).
      simplify_eq.
      assert (parent cd = owner) by by eapply links_flat_owner_lookup.
      rewrite <- Hpar, Hpar', H. eexists. split; [exact D1|]. eauto. }
    destruct (D6 c ltac:(eauto)) as [cd Hcd].
    destruct (D5 c cd Hout Hcd) as (cd1' & Hcd1' & Hpar' & _).
    simplify_eq. rewrite Hpar' in Hpar.
    destruct (Hp c cd p Hcd Hpar) as (v2 & Hv2 & Hin2).
    exists v2. split; [|done]. rewrite D2; [done|].
    intros <-. by simplify_eq.
  - intros o v2 Hv2.
    destruct (decide (o = owner)) as [->|Hne].
    + rewrite D1 in Hv2. injection Hv2 as <-.
      pose proof (Hs _ _ Hvec). unfold vec_size in *.
      rewrite length_delete by eauto. lia.
    + rewrite D2 in Hv2 by done. eauto.
Qed.

Lemma ranked_mono K n m p : (n ≤ m)%nat → ranked K n p → ranked K m p.
Proof.
  revert m p. induction n as [|n IH]; intros m p Hle; [done|].
  destruct m as [|m]; [lia|]. simpl. intros H.
  eapply Forall_impl; [exact H|]. intros c. apply IH. lia.
Qed.

Lemma ranked_sub K K1 n p :
  (∀ q c, c ∈ K1 q → c ∈ K q) → ranked K n p → ranked K1 n p.
Proof.
  intros Hsub. revert p. induction n as [|n IH]; intros p; [done|].
  simpl. rewrite !Forall_forall. intros H c Hc. apply IH, H. by apply Hsub.
Qed.

Lemma elem_of_flat_map {A B} (f : A → list B) (l : list A) (x : B) :
  x ∈ flat_map f l ↔ ∃ y, y ∈ l ∧ x ∈ f y.
Proof.
  rewrite list_elem_of_In, in_flat_map. split.
  - intros (y & Hy & Hx). exists y. by rewrite !list_elem_of_In.
  - intros (y & Hy & Hx). exists y. by rewrite <- !list_elem_of_In.
Qed.

Lemma preorder_head K n p : (0 < n)%nat → p ∈ preorder K n p.
Proof. destruct n; [lia|]. intros _. simpl. apply elem_of_cons. by left. Qed.

Lemma preorder_child K n p c q :
  c ∈ K p → q ∈ preorder K n c → q ∈ preorder K (S n) p.
Proof.
  intros Hc Hq. simpl. apply elem_of_cons. right.
  apply elem_of_flat_map. eauto.
Qed.

(** Elements of a pre-order other than its head are children of a node. *)
Lemma preorder_elem K n p q :
  q ∈ preorder K n p → q = p ∨ ∃ p', q ∈ K p'.
Proof.
  revert p. induction n as [|n IH]; intros p; simpl; [by intros ?%elem_of_nil|].
  intros [->|Hin]%elem_of_cons; [by left|]. right.
  apply elem_of_flat_map in Hin as (c & Hc & Hq).
  destruct (IH c Hq) as [->|?]; eauto.
Qed.

Lemma dfs_elem K n rs q :
  q ∈ flat_map (preorder K n) rs → q ∈ rs ∨ ∃ p', q ∈ K p'.
Proof.
  intros Hin. apply elem_of_flat_map in Hin as (c & Hc & Hq).
  destruct (preorder_elem _ _ _ _ Hq) as [->|?]; eauto.
Qed.

(** Adding [node] to the children of [p] keeps the heights bounded when
    [p] is not below [node]. *)
Lemma ranked_attach K K1 p node n :
  (∀ q, q ≠ p → K1 q = K q) →
  (∀ c, c ∈ K1 p → c ∈ K p ∨ c = node) →
  ranked K n node → (∀ m, p ∉ preorder K m node) →
  ∀ k q, ranked K k q → ranked K1 (k + n) q.
Proof.
  intros Hother Hp Hnode Hnot.
  assert (Hfree : ∀ m q, p ∉ preorder K m q → ranked K m q → ranked K1 m q).
  { induction m as [|m IH]; intros q Hq; [done|]. simpl.
    assert (Hqp : q ≠ p).
    { intros ->. apply Hq. apply preorder_head. lia. }
    rewrite Hother by done. rewrite !Forall_forall. intros Hall c Hc.
    apply IH; [|by apply Hall]. intros Hin. apply Hq.
    by eapply preorder_child. }
  assert (Hnode1 : ranked K1 n node) by (apply Hfree; [apply Hnot|done]).
  induction k as [|k IH]; intros q; [done|]. simpl.
  rewrite !Forall_forall. intros H c Hc.
  destruct (decide (q = p)) as [->|Hne].
  - destruct (Hp c Hc) as [Hc'| ->].
    + by apply IH, H.
    + eapply ranked_mono; [|exact Hnode1]. lia.
  - rewrite Hother in Hc by done. by apply IH, H.
Qed.

Lemma same_links_refl h : same_links h h.
Proof. done. Qed.

Lemma same_links_trans h1 h2 h3 :
  same_links h1 h2 → same_links h2 h3 → same_links h1 h3.
Proof. intros H1 H2 q. by rewrite H2, H1. Qed.

Lemma same_links_insert (h0 h : heap) p nd nd' :
  same_links h0 h → h !! p = Some nd → links nd' = links nd →
  same_links h0 (<[p := nd']> h).
Proof.
  intros Hs Hp Hl q. rewrite <- Hs.
  destruct (decide (p = q)) as [<-|Hne].
  - rewrite lookup_insert_eq, Hp. simpl. by rewrite Hl.
  - by rewrite lookup_insert_ne.
Qed.

Lemma same_links_lookup (h h' : heap) q nd :
  same_links h h' → h !! q = Some nd →
  ∃ nd', h' !! q = Some nd' ∧ links nd' = links nd.
Proof.
  intros Hs Hq. specialize (Hs q). rewrite Hq in Hs.
  destruct (h' !! q) as [nd'|]; simpl in Hs; [|done].
  exists nd'. split; [done|]. congruence.
Qed.

Lemma same_links_sym h h' : same_links h h' → same_links h' h.
Proof. intros Hs q. by rewrite Hs. Qed.

Lemma same_links_kids h h' q :
  same_links h h' → kids_of h' q = kids_of h q.
Proof.
  intros Hs. unfold kids_of. specialize (Hs q).
  destruct (h !! q) as [nd|], (h' !! q) as [nd'|]; simpl in *; try done.
  unfold links in Hs. congruence.
Qed.

Lemma same_links_shape h h' : same_links h h' → same_shape h h'.
Proof. intros Hs q. by apply same_links_kids. Qed.

Lemma same_links_vec h h' t owner :
  same_links h h' → vec_of h' t owner = vec_of h t owner.
Proof.
  intros Hs. destruct owner as [p|]; simpl; [|done].
  specialize (Hs p).
  destruct (h !! p) as [nd|], (h' !! p) as [nd'|]; simpl in *; try done.
  unfold links in Hs. congruence.
Qed.

Lemma links_flat_same_links h h' t :
  same_links h h' → links_flat h t → links_flat h' t.
Proof.
  intros Hs (Hv & Hp & Hsz). split_and!.
  - intros owner v i c Hvec Hi. rewrite (same_links_vec h h') in Hvec by done.
    destruct (Hv _ _ _ _ Hvec Hi) as (cd & Hcd & Hpar & Hidx).
    destruct (same_links_lookup _ _ _ _ Hs Hcd) as (cd' & Hcd' & Hl).
    unfold links in Hl. exists cd'. split_and!; congruence.
  - intros c cd' p Hcd' Hpar.
    destruct (same_links_lookup _ _ _ _ (same_links_sym _ _ Hs) Hcd')
      as (cd & Hcd & Hl).
    unfold links in Hl.
    rewrite (same_links_vec h h') by done. eapply Hp; [done|congruence].
  - intros owner v Hvec. rewrite (same_links_vec h h') in Hvec by done. eauto.
Qed.

Lemma height_same_links h h' n :
  same_links h h' →
  (∀ p, is_Some (h !! p) → ranked (kids_of h) n p) →
  (∀ p, is_Some (h' !! p) → ranked (kids_of h') n p).
Proof.
  intros Hs Hh p [nd' Hp].
  destruct (same_links_lookup _ _ _ _ (same_links_sym _ _ Hs) Hp)
    as (nd & Hnd & _).
  eapply ranked_ext; [|apply Hh; eauto].
  intros q. symmetry. by apply same_links_kids.
Qed.

(** A visitor that keeps the links and succeeds on the nodes of [l]. *)
Lemma visit_all_same_links {X} (fn : visitor X) (P : ptr → Prop)
    (h0 : heap) l :
  (∀ p s, P p → same_links h0 s.1 →
          ∃ t s', fn p s = Some (t, s') ∧ same_links h0 s'.1) →
  Forall P l → ∀ s, same_links h0 s.1 →
  ∃ s', visit_all fn l s = Some s' ∧ same_links h0 s'.1.
Proof.
  intros Hfn. induction 1 as [|p l Hp Hl IH]; intros s Hs; simpl; [eauto|].
  destruct (Hfn p s Hp Hs) as (t & s1 & -> & Hs1). simpl. by apply IH.
Qed.

(** [forEachNode] with a visitor that keeps the links and succeeds on the
    nodes it meets. *)
Lemma forEachNode_same_links {X} (fn : visitor X) (P : ptr → Prop)
    (h0 : heap) n fuel l s :
  (∀ p s t s', same_links h0 s.1 → fn p s = Some (t, s') →
     same_links h0 s'.1 ∧ t ≠ Break ∧ is_Some (s'.1 !! p)
     ∧ (t = Next → kids_of h0 p = [])) →
  (∀ p s, P p → same_links h0 s.1 → is_Some (fn p s)) →
  Forall (ranked (kids_of h0) n) l → (n ≤ fuel)%nat →
  Forall P (flat_map (preorder (kids_of h0) n) l) →
  same_links h0 s.1 →
  ∃ s', Tree_forEachNode fuel l fn s = Some s' ∧ same_links h0 s'.1.
Proof.
  intros Hshape Hsucc Hrank Hfuel HP Hs.
  assert (Hsh : ∀ p s t s', same_links h0 s.1 → fn p s = Some (t, s') →
    same_links h0 s'.1 ∧ t ≠ Break
    ∧ (∃ nd, s'.1 !! p = Some nd ∧ children nd = kids_of h0 p)
    ∧ (t = Next → kids_of h0 p = [])).
  { intros p s0 t s1 Hs0 Hfn.
    destruct (Hshape _ _ _ _ Hs0 Hfn) as (Hs1 & Ht & [nd Hnd] & Hnext).
    split_and!; [done|done| |done].
    exists nd. split; [done|].
    rewrite <- (same_links_kids h0 s1.1) by done.
    symmetry. by apply kids_of_lookup. }
  rewrite (Tree_forEachNode_fold fn (kids_of h0) (λ s, same_links h0 s.1)
             Hsh n fuel l s Hfuel Hrank Hs).
  eapply visit_all_same_links; [|exact HP|done].
  intros p s0 Hp Hs0. destruct (Hsucc p s0 Hp Hs0) as [[t s1] Hfn].
  exists t, s1. split; [done|]. by eapply Hshape.
Qed.

Lemma kids_of_elem (h : heap) p c :
  c ∈ kids_of h p → ∃ pd, h !! p = Some pd ∧ c ∈ children pd.
Proof.
  unfold kids_of. destruct (h !! p) as [pd|]; simpl; [eauto|].
  by intros ?%elem_of_nil.
Qed.

Lemma links_flat_child h t p c :
  links_flat h t → c ∈ kids_of h p →
  ∃ pd cd, h !! p = Some pd ∧ h !! c = Some cd ∧ parent cd = Some p.
Proof.
  intros (Hv & _) Hc. apply kids_of_elem in Hc as (pd & Hpd & Hc).
  apply list_elem_of_lookup_1 in Hc as [i Hi].
  destruct (Hv (Some p) (children pd) i c) as (cd & Hcd & Hpar & _);
    [simpl; by rewrite Hpd|done|]. eauto.
Qed.

Lemma updateBSData_same_links h t n fuel :
  links_flat h t →
  (∀ p, is_Some (h !! p) → ranked (kids_of h) n p) → (n ≤ fuel)%nat →
  ∃ total h', Tree__updateBSData fuel h t = Some (total, h')
              ∧ same_links h h'.
Proof.
  intros Hflat Hh Hfuel. unfold Tree__updateBSData.
  assert (Hroots : Forall (λ q, is_Some (h !! q)) (roots t))
    by by eapply (links_flat_allocated h t None).
  destruct (forEachNode_same_links updateBSData_visitor
              (λ p, is_Some (h !! p)) h n fuel (roots t) (h, 0))
    as ([h' total] & -> & Hs); simpl; [| | | done | |done|eauto].
  - intros p [h1 pos] t1 [h2 pos2] Hs1. unfold updateBSData_visitor. simpl.
    destruct (h1 !! p) as [nd|] eqn:Hp; simpl; [|done].
    intros [= <- <- <-]. split_and!; [|done| |done].
    + by eapply same_links_insert.
    + rewrite lookup_insert_eq. eauto.
  - intros p [h1 pos] [nd Hp] Hs1. simpl in *.
    destruct (same_links_lookup _ _ _ _ Hs1 Hp) as (nd' & Hp' & _).
    unfold updateBSData_visitor. rewrite Hp'. simpl. eauto.
  - eapply Forall_impl; [exact Hroots|]. eauto.
  - apply Forall_forall. intros q Hq.
    apply dfs_elem in Hq as [Hq|[p' Hq]].
    + rewrite Forall_forall in Hroots. eauto.
    + destruct (links_flat_child _ _ _ _ Hflat Hq) as (? & ? & ? & ? & ?).
      eauto.
Qed.

Lemma updateDepth_visitor_links h0 p s t s' :
  same_links h0 s.1 → updateDepth_visitor p s = Some (t, s') →
  same_links h0 s'.1 ∧ t ≠ Break ∧ is_Some (s'.1 !! p)
  ∧ (t = Next → kids_of h0 p = []).
Proof.
  destruct s as [h d], s' as [h' d']. unfold updateDepth_visitor. simpl.
  intros Hs. destruct (h !! p) as [nd|] eqn:Hp; simpl; [|done].
  assert (Hgoal : ∀ v d2,
    Some (Continue, (<[p := set_depth v nd]> h, d2)) = Some (t, (h', d')) →
    same_links h0 h' ∧ t ≠ Break ∧ is_Some (h' !! p)
    ∧ (t = Next → kids_of h0 p = [])).
  { intros v d2 [= <- <- <-]. split_and!; [|done| |done].
    - by eapply same_links_insert.
    - rewrite lookup_insert_eq. eauto. }
  case_bool_decide; [by apply Hgoal|].
  destruct (parent nd) as [q|]; simpl; [|done].
  destruct (h !! q) as [qd|]; simpl; [|done].
  case_bool_decide; by apply Hgoal.
Qed.

Lemma updateDepth_visitor_succeeds h0 p s :
  has_parent h0 p → same_links h0 s.1 → is_Some (updateDepth_visitor p s).
Proof.
  destruct s as [h d]. simpl.
  intros (cd & q & qd & Hcd & Hpar & Hqd) Hs.
  destruct (same_links_lookup _ _ _ _ Hs Hcd) as (cd' & Hcd' & Hl).
  destruct (same_links_lookup _ _ _ _ Hs Hqd) as (qd' & Hqd' & _).
  unfold links in Hl. unfold updateDepth_visitor. rewrite Hcd'. simpl.
  case_bool_decide; [eauto|].
  replace (parent cd') with (Some q) by congruence. simpl.
  rewrite Hqd'. simpl. case_bool_decide; eauto.
Qed.

Lemma updateDepth_same_links h t n fuel parent_ node :
  links_flat h t →
  (∀ p, is_Some (h !! p) → ranked (kids_of h) n p) → (n ≤ fuel)%nat →
  is_Some (h !! node) → (∀ p, parent_ = Some p → is_Some (h !! p)) →
  ∃ h', Tree__updateDepth fuel parent_ node h = Some h' ∧ same_links h h'.
Proof.
  intros Hflat Hh Hfuel [nd Hnd] Hpar. unfold Tree__updateDepth.
  rewrite Hnd. simpl.
  assert (Hwalk : ∀ v (d : TreeNode → Z),
    ∃ h', (nd' ← <[node := set_depth v nd]> h !! node;
           fst <$> Tree_forEachNode fuel (children nd') updateDepth_visitor
                     (<[node := set_depth v nd]> h, d nd')) = Some h'
          ∧ same_links h h').
  { intros v d. rewrite lookup_insert_eq. simpl.
    destruct (forEachNode_same_links updateDepth_visitor (has_parent h) h n
                fuel (children nd)
                (<[node := set_depth v nd]> h, d (set_depth v nd)))
      as ([h' d'] & -> & Hs); simpl.
    - intros. by eapply updateDepth_visitor_links.
    - intros. by eapply updateDepth_visitor_succeeds.
    - assert (Hr : ranked (kids_of h) n node) by (apply Hh; eauto).
      destruct n as [|n]; [done|]. simpl in Hr.
      rewrite (kids_of_lookup _ _ _ Hnd) in Hr.
      eapply Forall_impl; [exact Hr|]. intros c. apply ranked_mono. lia.
    - done.
    - apply Forall_forall. intros q Hq.
      assert (∃ p', q ∈ kids_of h p') as [p' Hq'].
      { apply dfs_elem in Hq as [Hq|Hq]; [|done].
        exists node. by rewrite (kids_of_lookup _ _ _ Hnd). }
      destruct (links_flat_child _ _ _ _ Hflat Hq') as (pd & cd & ? & ? & ?).
      by exists cd, p', pd.
    - by eapply same_links_insert.
    - eauto. }
  destruct parent_ as [p|].
  - destruct (Hpar p eq_refl) as [pd Hpd]. rewrite Hpd. simpl.
    case_bool_decide; [apply (Hwalk _ depth)|]. eauto using same_links_refl.
  - case_bool_decide; [apply (Hwalk _ (λ _, 1))|].
    eauto using same_links_refl.
Qed.

Lemma elem_of_take_1 {A} (x : A) n l : x ∈ take n l → x ∈ l.
Proof.
  intros (i & Hi & _)%elem_of_take. by eapply list_elem_of_lookup_2.
Qed.

Lemma elem_of_drop_1 {A} (x : A) n l : x ∈ drop n l → x ∈ l.
Proof.
  intros [i Hi]%list_elem_of_lookup_1. rewrite lookup_drop in Hi.
  by eapply list_elem_of_lookup_2.
Qed.

(** The direct writes of an attachment lead from [h] to [hm]; the loop that
    renumbers the later siblings leads from [hm] to [h1]. *)
Lemma attach_struct h t owner node i v hm h1 t1 :
  links_flat h t → detached h t node → vec_of h t owner = Some v →
  (i ≤ length v)%nat →
  (∀ q qd, h !! q = Some qd →
     ∃ qm, hm !! q = Some qm
       ∧ (q ≠ node → parent qm = parent qd
                     ∧ parent_index qm = parent_index qd)
       ∧ (owner ≠ Some q → children qm = children qd)) →
  (∀ q, is_Some (hm !! q) → is_Some (h !! q)) →
  (∃ nm, hm !! node = Some nm ∧ parent nm = owner
         ∧ parent_index nm = Z.of_nat i) →
  vec_of hm t1 owner = Some (take i v ++ node :: drop i v) →
  (owner ≠ None → roots t1 = roots t) →
  (∀ q, q ∉ drop (S i) (take i v ++ node :: drop i v) → h1 !! q = hm !! q) →
  (∀ j c, (take i v ++ node :: drop i v) !! j = Some c → (S i ≤ j)%nat →
     ∃ cd, hm !! c = Some cd
       ∧ h1 !! c = Some (set_parent_index (Z.of_nat j) cd)) →
  attach_spec h t owner node i v h1 t1.
Proof.
  intros Hflat Hdet Hvec Hi M1 M2 (nm & Hnm & Hnmp & Hnmi) M4 M5 Hfr Hidx.
  set (v' := take i v ++ node :: drop i v) in *.
  assert (Hnd : NoDup v) by by eapply links_flat_NoDup.
  assert (Hnode : node ∉ v) by by eapply Hdet.
  assert (Hv'i : v' !! i = Some node).
  { unfold v'. rewrite lookup_app_r by (rewrite length_take; lia).
    rewrite length_take. by replace (i - i `min` length v)%nat with 0%nat by lia. }
  assert (Hv'lt : ∀ j, (j < i)%nat → v' !! j = v !! j).
  { intros j Hj. unfold v'.
    rewrite lookup_app_l by (rewrite length_take; lia).
    by rewrite lookup_take_lt. }
  assert (Hv'gt : ∀ j, (i ≤ j)%nat → v' !! S j = v !! j).
  { intros j Hj. unfold v'.
    rewrite lookup_app_r by (rewrite length_take; lia).
    rewrite length_take. replace (S j - i `min` length v)%nat with (S (j - i)) by lia.
    simpl. rewrite lookup_drop. f_equal. lia. }
  assert (Hnd' : NoDup v').
  { unfold v'. rewrite <- Permutation_middle, take_drop.
    by apply NoDup_cons. }
  assert (Hdrop : ∀ q j, v' !! j = Some q → (j ≤ i)%nat →
            q ∉ drop (S i) v').
  { intros q j Hj Hle Hin. apply list_elem_of_lookup_1 in Hin as [k Hk].
    rewrite lookup_drop in Hk.
    pose proof (NoDup_lookup _ _ _ _ Hnd' Hj Hk). lia. }
  assert (Hkids : ∀ q, children <$> h1 !! q = children <$> hm !! q).
  { intros q. destruct (decide (q ∈ drop (S i) v')) as [Hin|Hout].
    - apply list_elem_of_lookup_1 in Hin as [k Hk].
      rewrite lookup_drop in Hk.
      destruct (Hidx _ _ Hk ltac:(lia)) as (cd & -> & ->). done.
    - by rewrite Hfr. }
  assert (Hvec1 : ∀ o, vec_of h1 t1 o = vec_of hm t1 o).
  { intros [q|]; simpl; [|done].
    specialize (Hkids q). by destruct (h1 !! q), (hm !! q). }
  split.
  - by rewrite Hvec1.
  - intros o Hne. rewrite Hvec1. destruct o as [q|]; simpl.
    + destruct (h !! q) as [qd|] eqn:Hq.
      * destruct (M1 q qd Hq) as (qm & -> & _ & Hc). simpl.
        rewrite Hc; [done|]. congruence.
      * destruct (hm !! q) eqn:Hqm; [|done].
        destruct (M2 q ltac:(eauto)) as [? ?]. congruence.
    + f_equal. apply M5. congruence.
  - exists nm. rewrite Hfr; [done|]. by eapply Hdrop.
  - intros j c Hj.
    pose proof (Hflat) as (Hv & _).
    destruct (Hv _ _ _ _ Hvec Hj) as (cd & Hcd & Hpar & Hpi).
    destruct (M1 c cd Hcd) as (cm & Hcm & Hlink & _).
    assert (c ≠ node).
    { intros ->. apply Hnode. by eapply list_elem_of_lookup_2. }
    destruct (Hlink ltac:(done)) as [Hp1 Hp2].
    destruct (decide (j < i)%nat) as [Hlt|Hge].
    + exists cd, cm. rewrite Hfr.
      * split_and!; [done|done|done|congruence].
      * eapply (Hdrop _ j); [|lia]. by rewrite Hv'lt.
    + destruct (Hidx (S j) c) as (cm' & Hcm' & Hh1); [|lia|].
      { rewrite Hv'gt by lia. done. }
      rewrite Hcm in Hcm'. injection Hcm' as <-.
      exists cd, (set_parent_index (Z.of_nat (S j)) cm).
      split_and!; [done|done|done|done].
  - intros q qd Hqn Hqv Hq.
    destruct (M1 q qd Hq) as (qm & Hqm & Hlink & _).
    destruct (Hlink Hqn) as [Hp1 Hp2].
    exists qm. rewrite Hfr; [done|].
    intros Hin. apply elem_of_drop_1 in Hin. unfold v' in Hin.
    apply elem_of_app in Hin as [Hin|Hin].
    + apply Hqv. by eapply elem_of_take_1.
    + apply elem_of_cons in Hin as [->|Hin]; [done|].
      apply Hqv. by eapply elem_of_drop_1.
  - intros q [q1 Hq1]. apply M2.
    specialize (Hkids q). rewrite Hq1 in Hkids.
    destruct (hm !! q); [eauto|done].
Qed.

(** The erasure leads from [h] to [he], the loop that shifts the later
    siblings down from [he] to [hs], the writes to the node from [hs] to
    [h1]. *)
Lemma detach_struct h t owner node i v (he hs h1 : heap) t1 :
  links_flat h t → vec_of h t owner = Some v → v !! i = Some node →
  (∀ q qd, h !! q = Some qd →
     ∃ qe, he !! q = Some qe ∧ parent qe = parent qd
       ∧ parent_index qe = parent_index qd
       ∧ (owner ≠ Some q → children qe = children qd)) →
  (∀ q, is_Some (he !! q) → is_Some (h !! q)) →
  vec_of he t1 owner = Some (delete i v) →
  (owner ≠ None → roots t1 = roots t) →
  (∀ q, q ∉ drop i (delete i v) → hs !! q = he !! q) →
  (∀ j c, delete i v !! j = Some c → (i ≤ j)%nat →
     ∃ cd, he !! c = Some cd
       ∧ hs !! c = Some (set_parent_index (i32 (parent_index cd - 1)) cd)) →
  (∀ q, q ≠ node → h1 !! q = hs !! q) →
  (∃ ns n1, hs !! node = Some ns ∧ h1 !! node = Some n1
            ∧ parent n1 = None ∧ children n1 = children ns) →
  detach_spec h t owner node i v h1 t1.
Proof.
  intros Hflat Hvec Hi E1 E2 E3 E4 S1 S2 N1 (ns & n1 & Hns & Hn1 & Hn1p & Hn1c).
  set (v' := delete i v) in *.
  pose proof Hflat as (Hv & _ & Hsz).
  assert (Hnd : NoDup v) by by eapply links_flat_NoDup.
  assert (Hnd' : NoDup v').
  { eapply sublist_NoDup; [exact Hnd|]. apply sublist_delete. }
  assert (Hnode : node ∉ v').
  { intros Hin. apply list_elem_of_lookup_1 in Hin as [j Hj]. unfold v' in Hj.
    destruct (decide (j < i)%nat).
    - rewrite list_lookup_delete_lt in Hj by done.
      pose proof (NoDup_lookup _ _ _ _ Hnd Hi Hj). lia.
    - rewrite list_lookup_delete_ge in Hj by lia.
      pose proof (NoDup_lookup _ _ _ _ Hnd Hi Hj). lia. }
  assert (Hkids_s : ∀ q, children <$> hs !! q = children <$> he !! q).
  { intros q. destruct (decide (q ∈ drop i v')) as [Hin|Hout].
    - apply list_elem_of_lookup_1 in Hin as [k Hk].
      rewrite lookup_drop in Hk.
      destruct (S2 _ _ Hk ltac:(lia)) as (cd & -> & ->). done.
    - by rewrite S1. }
  assert (Hkids : ∀ q, children <$> h1 !! q = children <$> he !! q).
  { intros q. rewrite <- Hkids_s. destruct (decide (q = node)) as [->|Hne].
    - rewrite Hn1, Hns. simpl. by rewrite Hn1c.
    - by rewrite N1. }
  assert (Hvec1 : ∀ o, vec_of h1 t1 o = vec_of he t1 o).
  { intros [q|]; simpl; [|done].
    specialize (Hkids q). by destruct (h1 !! q), (he !! q). }
  split.
  - by rewrite Hvec1.
  - intros o Hne. rewrite Hvec1. destruct o as [q|]; simpl.
    + destruct (h !! q) as [qd|] eqn:Hq.
      * destruct (E1 q qd Hq) as (qe & -> & _ & _ & Hc). simpl.
        rewrite Hc; [done|]. congruence.
      * destruct (he !! q) eqn:Hqe; [|done].
        destruct (E2 q ltac:(eauto)) as [? ?]. congruence.
    + f_equal. apply E4. congruence.
  - eauto.
  - intros j c Hj Hji.
    destruct (Hv _ _ _ _ Hvec Hj) as (cd & Hcd & Hpar & Hpi).
    destruct (E1 c cd Hcd) as (ce & Hce & Hp1 & Hp2 & _).
    assert (c ≠ node).
    { intros ->. pose proof (NoDup_lookup _ _ _ _ Hnd Hi Hj). lia. }
    rewrite N1 by done.
    destruct (decide (j < i)%nat) as [Hlt|Hge].
    + exists cd, ce. rewrite S1.
      * split_and!; [done|done|done|congruence].
      * intros Hin. apply list_elem_of_lookup_1 in Hin as [k Hk].
        rewrite lookup_drop in Hk. unfold v' in Hk.
        rewrite list_lookup_delete_ge in Hk by lia.
        pose proof (NoDup_lookup _ _ _ _ Hnd Hj Hk). lia.
    + destruct (S2 (pred j) c) as (ce' & Hce' & Hhs); [|lia|].
      { unfold v'. rewrite list_lookup_delete_ge by lia.
        by replace (S (pred j)) with j by lia. }
      rewrite Hce in Hce'. injection Hce' as <-.
      exists cd, (set_parent_index (i32 (parent_index ce - 1)) ce).
      split_and!; [done|done|done|]. simpl. rewrite Hp2, Hpi.
      apply lookup_lt_Some in Hj. specialize (Hsz _ _ Hvec).
      unfold vec_size in Hsz. rewrite i32_small by lia. lia.
  - intros q qd Hqv Hq.
    destruct (E1 q qd Hq) as (qe & Hqe & Hp1 & Hp2 & _).
    assert (q ≠ node).
    { intros ->. apply Hqv. by eapply list_elem_of_lookup_2. }
    exists qe. rewrite N1 by done. rewrite S1; [done|].
    intros Hin. apply elem_of_drop_1 in Hin. apply Hqv.
    by eapply list_elem_of_delete_inv.
  - intros q [q1 Hq1]. apply E2.
    specialize (Hkids q). rewrite Hq1 in Hkids.
    destruct (he !! q); [eauto|done].
Qed.

Lemma u64_of_nat (n : nat) : Z.of_nat n < 2 ^ 31 → u64 (Z.of_nat n) = Z.of_nat n.
Proof. intros. apply u64_small. lia. Qed.

(** After the links are set, the two recomputations return and leave the
    links alone: first the depths, then the index. *)
Lemma finish_attach h1 t1 n fuel parent_ node :
  links_flat h1 t1 → height_le h1 n → (n ≤ fuel)%nat →
  is_Some (h1 !! node) → (∀ p, parent_ = Some p → is_Some (h1 !! p)) →
  ∃ h', (h ← Tree__updateDepth fuel parent_ node h1;
         '(_, h) ← Tree__updateBSData fuel h t1;
         Some (node, h, t1)) = Some (node, h', t1)
        ∧ links_ok h' t1.
Proof.
  intros Hflat Hh Hfuel Hnode Hpar.
  destruct (updateDepth_same_links h1 t1 n fuel parent_ node)
    as (h2 & -> & Hs2); [done..|]. simpl.
  destruct (updateBSData_same_links h2 t1 n fuel) as (total & h3 & -> & Hs3);
    [by eapply links_flat_same_links|by eapply height_same_links|done|].
  simpl. exists h3. split; [done|].
  apply links_flat_ok.
  - eapply links_flat_same_links; [|exact Hflat]. by eapply same_links_trans.
  - exists n. eapply height_same_links; [|exact Hh]. by eapply same_links_trans.
Qed.

(** The same for [remove]: first the index, then the depths. *)
Lemma finish_detach h1 t1 n fuel node :
  links_flat h1 t1 → height_le h1 n → (n ≤ fuel)%nat →
  (∃ nd, h1 !! node = Some nd ∧ parent nd = None) →
  ∃ h', ('(_, h) ← Tree__updateBSData fuel h1 t1;
         nd ← h !! node;
         h ← Tree__updateDepth fuel (parent nd) node h;
         Some (Some node, h, t1)) = Some (Some node, h', t1)
        ∧ links_ok h' t1
        ∧ ∃ nd', h' !! node = Some nd' ∧ parent nd' = None.
Proof.
  intros Hflat Hh Hfuel (nd & Hnd & Hpar).
  destruct (updateBSData_same_links h1 t1 n fuel) as (total & h2 & -> & Hs2);
    [done..|]. simpl.
  destruct (same_links_lookup _ _ _ _ Hs2 Hnd) as (nd2 & Hnd2 & Hl).
  rewrite Hnd2. simpl. unfold links in Hl.
  replace (parent nd2) with (@None ptr) by congruence.
  destruct (updateDepth_same_links h2 t1 n fuel None node)
    as (h3 & -> & Hs3);
    [by eapply links_flat_same_links|by eapply height_same_links|done
    |eauto|done|].
  simpl. exists h3. split; [done|]. split.
  - apply links_flat_ok.
    + eapply links_flat_same_links; [|exact Hflat].
      by eapply same_links_trans.
    + exists n. eapply height_same_links; [|exact Hh].
      by eapply same_links_trans.
  - destruct (same_links_lookup _ _ _ _ Hs3 Hnd2) as (nd3 & Hnd3 & Hl3).
    exists nd3. split; [done|]. unfold links in Hl3. congruence.
Qed.

Lemma height_le_kids (h h1 : heap) n :
  (∀ q, kids_of h1 q = kids_of h q) →
  (∀ q, is_Some (h1 !! q) → is_Some (h !! q)) →
  height_le h n → height_le h1 n.
Proof.
  intros Hk Hd Hh p Hp. eapply ranked_ext; [|apply Hh, Hd, Hp].
  intros q. by rewrite Hk.
Qed.

Lemma height_le_sub (h h1 : heap) n :
  (∀ q c, c ∈ kids_of h1 q → c ∈ kids_of h q) →
  (∀ q, is_Some (h1 !! q) → is_Some (h !! q)) →
  height_le h n → height_le h1 n.
Proof.
  intros Hk Hd Hh p Hp. eapply ranked_sub; [exact Hk|]. apply Hh, Hd, Hp.
Qed.

Lemma attach_spec_kids h t owner node i v h1 t1 q :
  attach_spec h t owner node i v h1 t1 → owner ≠ Some q →
  kids_of h1 q = kids_of h q.
Proof.
  intros [_ A2 _ _ _ _] Hne. specialize (A2 (Some q) ltac:(congruence)).
  simpl in A2. unfold kids_of.
  by destruct (h1 !! q), (h !! q); simplify_eq/=.
Qed.

Lemma attach_spec_kids_owner h t p node i v h1 t1 :
  attach_spec h t (Some p) node i v h1 t1 →
  kids_of h1 p = take i v ++ node :: drop i v.
Proof.
  intros [A1 _ _ _ _ _]. simpl in A1. unfold kids_of.
  by destruct (h1 !! p); simplify_eq/=.
Qed.

Lemma attach_height h t owner node i v h1 t1 n :
  attach_spec h t owner node i v h1 t1 → vec_of h t owner = Some v →
  is_Some (h !! node) →
  (∀ p m, owner = Some p → p ∉ preorder (kids_of h) m node) →
  height_le h n → height_le h1 (n + n).
Proof.
  intros Hspec Hvec Hnode Hnot Hh q Hq.
  pose proof (attach_dom _ _ _ _ _ _ _ _ Hspec q Hq) as Hq0.
  destruct owner as [p|].
  - eapply (ranked_attach (kids_of h) (kids_of h1) p node n).
    + intros q' Hq'. eapply attach_spec_kids; [done|congruence].
    + intros c. rewrite (attach_spec_kids_owner _ _ _ _ _ _ _ _ Hspec).
      simpl in Hvec. unfold kids_of.
      destruct (h !! p) as [pd|]; simplify_eq/=.
      rewrite <- (take_drop i (children pd)) at 3.
      rewrite !elem_of_app, elem_of_cons. tauto.
    + by apply Hh.
    + intros m. by eapply Hnot.
    + by apply Hh.
  - eapply ranked_mono; [|eapply ranked_ext; [|apply Hh, Hq0]];
      [lia|].
    intros q'. symmetry. by eapply attach_spec_kids.
Qed.

Lemma detach_height h t owner node i v h1 t1 n :
  detach_spec h t owner node i v h1 t1 → vec_of h t owner = Some v →
  height_le h n → height_le h1 n.
Proof.
  intros [D1 D2 _ _ _ D6] Hvec Hh. eapply height_le_sub; [|exact D6|exact Hh].
  intros q c. destruct (decide (owner = Some q)) as [->|Hne].
  - simpl in *. unfold kids_of.
    destruct (h1 !! q) as [q1|], (h !! q) as [q0|]; simpl in *;
      try done; try by intros ?%elem_of_nil.
    injection D1 as ->. injection Hvec as ->.
    apply list_elem_of_delete_inv.
  - specialize (D2 (Some q) ltac:(congruence)). simpl in D2.
    unfold kids_of.
    destruct (h1 !! q), (h !! q); simpl in *; try done; congruence.
Qed.

(** The writes of an attachment that go to the node and to the owner only:
    [upd] is the new record of the node. *)
Lemma attach_writes h t owner node nd i v upd t1 :
  links_flat h t → detached h t node → vec_of h t owner = Some v →
  (i ≤ length v)%nat → h !! node = Some nd →
  parent upd = owner → parent_index upd = Z.of_nat i →
  children upd = children nd →
  (match owner with
   | None => t1 = mkTree (take i v ++ node :: drop i v)
   | Some _ => t1 = t
   end) →
  let hm := <[node := upd]>
              (match owner with
               | None => h
               | Some p =>
                   alter (set_children (take i v ++ node :: drop i v)) p h
               end) in
  (∀ p, owner = Some p → p ≠ node) →
  (∀ q qd, h !! q = Some qd →
     ∃ qm, hm !! q = Some qm
       ∧ (q ≠ node → parent qm = parent qd
                     ∧ parent_index qm = parent_index qd)
       ∧ (owner ≠ Some q → children qm = children qd))
  ∧ (∀ q, is_Some (hm !! q) → is_Some (h !! q))
  ∧ (∃ nm, hm !! node = Some nm ∧ parent nm = owner
           ∧ parent_index nm = Z.of_nat i)
  ∧ vec_of hm t1 owner = Some (take i v ++ node :: drop i v)
  ∧ (owner ≠ None → roots t1 = roots t).
Proof.
  intros Hflat Hdet Hvec Hi Hnd Hup1 Hup2 Hup3 Ht1 hm Hpn.
  split_and!.
  - intros q qd Hq. destruct (decide (q = node)) as [->|Hne].
    + exists upd. unfold hm. rewrite lookup_insert_eq.
      split_and!; [done|done|]. intros _. congruence.
    + unfold hm. rewrite lookup_insert_ne by done.
      destruct owner as [p|]; [|eauto].
      destruct (decide (p = q)) as [->|Hpq].
      * rewrite lookup_alter_eq, Hq. simpl. eexists. split_and!; done.
      * rewrite lookup_alter_ne by done. eauto.
  - intros q. unfold hm. destruct (decide (q = node)) as [->|Hne]; [eauto|].
    rewrite lookup_insert_ne by done. destruct owner as [p|]; [|done].
    destruct (decide (p = q)) as [->|Hpq].
    + rewrite lookup_alter_eq. destruct (h !! q); [eauto|].
      by intros [? ?].
    + by rewrite lookup_alter_ne.
  - exists upd. unfold hm. by rewrite lookup_insert_eq.
  - destruct owner as [p|]; simpl.
    + unfold hm. rewrite lookup_insert_ne by (by apply not_eq_sym, Hpn).
      rewrite lookup_alter_eq. simpl in Hvec.
      destruct (h !! p); simplify_eq/=. done.
    + by subst t1.
  - destruct owner; [by subst|done].
Qed.

Lemma insert_alter (h : heap) p pd f :
  h !! p = Some pd → <[p := f pd]> h = alter f p h.
Proof.
  intros Hp. apply map_eq. intros q. destruct (decide (p = q)) as [<-|Hne].
  - by rewrite lookup_insert_eq, lookup_alter_eq, Hp.
  - by rewrite lookup_insert_ne, lookup_alter_ne.
Qed.

(** An attachment whose writes are followed by the renumbering [hm] to
    [h1] and by the two recomputations returns with consistent links. *)
Lemma attach_finish h t owner node nd i v upd t1 h1 n fuel :
  links_flat h t → height_le h n → (n + n ≤ fuel)%nat →
  detached h t node → vec_of h t owner = Some v →
  (i ≤ length v)%nat → vec_size v + 1 < 2 ^ 31 → h !! node = Some nd →
  (∀ p m, owner = Some p → p ∉ preorder (kids_of h) m node) →
  (∀ p, owner = Some p → is_Some (h !! p)) →
  parent upd = owner → parent_index upd = Z.of_nat i →
  children upd = children nd →
  (match owner with
   | None => t1 = mkTree (take i v ++ node :: drop i v)
   | Some _ => t1 = t
   end) →
  let hm := <[node := upd]>
              (match owner with
               | None => h
               | Some p =>
                   alter (set_children (take i v ++ node :: drop i v)) p h
               end) in
  (∀ q, q ∉ drop (S i) (take i v ++ node :: drop i v) → h1 !! q = hm !! q) →
  (∀ j c, (take i v ++ node :: drop i v) !! j = Some c → (S i ≤ j)%nat →
     ∃ cd, hm !! c = Some cd
       ∧ h1 !! c = Some (set_parent_index (Z.of_nat j) cd)) →
  ∃ h', (h ← Tree__updateDepth fuel owner node h1;
         '(_, h) ← Tree__updateBSData fuel h t1;
         Some (node, h, t1)) = Some (node, h', t1)
        ∧ links_ok h' t1.
Proof.
  intros Hflat Hh Hfuel Hdet Hvec Hi Hsz Hnd Hnot Hown Hu1 Hu2 Hu3 Ht1 hm
    Hfr Hidx.
  assert (Hpn : ∀ p, owner = Some p → p ≠ node).
  { intros p Hp ->. apply (Hnot node 1%nat Hp). simpl.
    apply elem_of_cons. by left. }
  destruct (attach_writes h t owner node nd i v upd t1)
    as (M1 & M2 & M3 & M4 & M5); [done..|]. fold hm in M1, M2, M3, M4.
  assert (Hspec : attach_spec h t owner node i v h1 t1)
    by by eapply (attach_struct h t owner node i v hm h1 t1).
  assert (Hflat1 : links_flat h1 t1) by by eapply attach_links_flat.
  assert (Hh1 : height_le h1 (n + n)).
  { eapply attach_height; [exact Hspec|done|eauto|done|done]. }
  assert (Hdom : ∀ q, is_Some (h !! q) → is_Some (h1 !! q)).
  { intros q [qd Hq]. destruct (decide (q = node)) as [->|Hne].
    - destruct (attach_node _ _ _ _ _ _ _ _ Hspec) as (? & ? & _). eauto.
    - destruct (decide (q ∈ v)) as [Hin|Hout].
      + apply list_elem_of_lookup_1 in Hin as [j Hj].
        destruct (attach_siblings _ _ _ _ _ _ _ _ Hspec j q Hj)
          as (? & ? & _ & ? & _). eauto.
      + destruct (attach_frame _ _ _ _ _ _ _ _ Hspec q qd Hne Hout Hq)
          as (? & ? & _). eauto. }
  apply (finish_attach h1 t1 (n + n) fuel owner node); eauto.
Qed.

Lemma take_drop_end {A} (v : list A) x :
  take (length v) v ++ x :: drop (length v) v = v ++ [x].
Proof. by rewrite take_ge, drop_ge by lia. Qed.

Lemma lookup_beyond_end {A} (v : list A) x j :
  (S (length v) ≤ j)%nat →
  (take (length v) v ++ x :: drop (length v) v) !! j = None.
Proof.
  intros Hj. apply lookup_ge_None. rewrite take_drop_end, length_app. simpl. lia.
Qed.

Lemma index_of_end {A} (v : list A) x :
  vec_size v + 1 < 2 ^ 31 →
  i32 (u64 (vec_size (v ++ [x]) - 1)) = Z.of_nat (length v).
Proof.
  intros Hsz. unfold vec_size in *. rewrite length_app. simpl.
  replace (Z.of_nat (length v + 1) - 1) with (Z.of_nat (length v)) by lia.
  rewrite u64_small by lia. apply i32_small. lia.
Qed.

Lemma Tree_append_links_ok h t parent_ node n fuel :
  links_flat h t → height_le h n → (n + n ≤ fuel)%nat →
  can_attach h t parent_ node →
  ∃ h' t', Tree_append fuel parent_ node h t = Some (node, h', t')
           ∧ links_ok h' t'.
Proof.
  intros Hflat Hh Hfuel ([nd Hnd] & Hdet & (v & Hvec & Hsz) & Hnot).
  unfold Tree_append. destruct parent_ as [p|].
  - simpl in Hvec. destruct (h !! p) as [pd|] eqn:Hpd; [|done].
    simpl in Hvec. injection Hvec as <-.
    assert (Hpn : p ≠ node).
    { intros ->. apply (Hnot node 1%nat eq_refl). simpl.
      apply elem_of_cons. by left. }
    rewrite (modify_Some _ _ _ _ Hpd). simpl.
    rewrite lookup_insert_eq. simpl.
    rewrite (modify_Some node _ _ nd) by by rewrite lookup_insert_ne.
    simpl. rewrite (modify_Some node _ _ _ (lookup_insert_eq _ _ _)). simpl.
    rewrite insert_insert_eq, index_of_end by done.
    rewrite (insert_alter h p pd (set_children (children pd ++ [node]))) by done.
    rewrite <- (take_drop_end (children pd) node).
    destruct (attach_finish h t (Some p) node nd (length (children pd))
                (children pd)
                (set_parent (Some p)
                   (set_parent_index (Z.of_nat (length (children pd))) nd))
                t
                (<[node := set_parent (Some p)
                             (set_parent_index
                                (Z.of_nat (length (children pd))) nd)]>
                   (alter (set_children
                             (take (length (children pd)) (children pd)
                              ++ node :: drop (length (children pd))
                                           (children pd))) p h))
                n fuel) as (h' & -> & Hok); try done.
    + simpl. by rewrite Hpd.
    + intros ? [= <-]. eauto.
    + intros j c Hj Hle. by rewrite lookup_beyond_end in Hj.
    + eauto.
  - simpl in Hvec. injection Hvec as <-.
    rewrite (modify_Some _ _ _ _ Hnd). simpl.
    rewrite (modify_Some node _ _ _ (lookup_insert_eq _ _ _)). simpl.
    rewrite insert_insert_eq, index_of_end by done.
    destruct (attach_finish h t None node nd (length (roots t)) (roots t)
                (set_parent_index (Z.of_nat (length (roots t)))
                   (set_parent None nd))
                (mkTree (roots t ++ [node]))
                (<[node := set_parent_index (Z.of_nat (length (roots t)))
                             (set_parent None nd)]> h)
                n fuel) as (h' & -> & Hok); try done.
    + by rewrite take_drop_end.
    + intros j c Hj Hle. by rewrite lookup_beyond_end in Hj.
    + eauto.
Qed.

Lemma vec_insert_Some {A} (v : list A) (index : Z) x :
  0 ≤ index ≤ vec_size v →
  vec_insert index x v
  = Some (take (Z.to_nat index) v ++ x :: drop (Z.to_nat index) v).
Proof. intros H. unfold vec_insert. by rewrite bool_decide_true. Qed.

Lemma renumber_ready h t owner node v i (hm : heap) :
  links_flat h t → detached h t node → vec_of h t owner = Some v →
  (∀ q, is_Some (h !! q) → is_Some (hm !! q)) → is_Some (hm !! node) →
  NoDup (take i v ++ node :: drop i v)
  ∧ Forall (λ q, is_Some (hm !! q)) (take i v ++ node :: drop i v).
Proof.
  intros Hflat Hdet Hvec Hdom Hnode. split.
  - rewrite <- Permutation_middle, take_drop. apply NoDup_cons. split.
    + by eapply Hdet.
    + by eapply links_flat_NoDup.
  - rewrite <- Permutation_middle, take_drop. apply Forall_cons. split; [done|].
    eapply Forall_impl; [by eapply links_flat_allocated|]. eauto.
Qed.

Lemma Tree_insert_links_ok h t parent_ index node n fuel :
  links_flat h t → height_le h n → (n + n ≤ fuel)%nat →
  can_attach h t parent_ node →
  (∃ v, vec_of h t parent_ = Some v ∧ 0 ≤ index ≤ vec_size v) →
  ∃ h' t', Tree_insert fuel parent_ index node h t = Some (node, h', t')
           ∧ links_ok h' t'.
Proof.
  intros Hflat Hh Hfuel ([nd Hnd] & Hdet & (v & Hvec & Hsz) & Hnot)
    (v0 & Hvec0 & Hidx).
  rewrite Hvec in Hvec0. injection Hvec0 as <-.
  set (i := Z.to_nat index).
  assert (Hi : (i ≤ length v)%nat) by (unfold vec_size in *; lia).
  assert (Hi32 : i32 index = Z.of_nat i).
  { unfold vec_size in *. rewrite i32_small by lia. lia. }
  assert (Hlo : u64 (index + 1) = Z.of_nat (S i)).
  { unfold vec_size in *. rewrite u64_small by lia. lia. }
  set (v' := take i v ++ node :: drop i v).
  assert (Hlen' : vec_size v' = vec_size v + 1).
  { unfold v', vec_size. rewrite length_app, length_take. simpl.
    rewrite length_drop. lia. }
  unfold Tree_insert. destruct parent_ as [p|].
  - simpl in Hvec. destruct (h !! p) as [pd|] eqn:Hpd; [|done].
    simpl in Hvec. injection Hvec as <-.
    assert (Hpn : p ≠ node).
    { intros ->. apply (Hnot node 1%nat eq_refl). simpl.
      apply elem_of_cons. by left. }
    simpl. rewrite vec_insert_Some by done. simpl. fold i. fold v'.
    rewrite (modify_Some node _ _ nd) by by rewrite lookup_insert_ne.
    simpl. rewrite (modify_Some node _ _ _ (lookup_insert_eq _ _ _)). simpl.
    rewrite insert_insert_eq, Hi32, Hlo.
    rewrite lookup_insert_ne, lookup_insert_eq by done. simpl.
    rewrite (insert_alter h p pd (set_children v')) by done.
    set (upd := set_parent (Some p) (set_parent_index (Z.of_nat i) nd)).
    set (hm := <[node := upd]> (alter (set_children v') p h)).
    destruct (renumber_ready h t (Some p) node (children pd) i hm)
      as [Hnd' Hall']; [done|done|by simpl; rewrite Hpd| |
                        by unfold hm; rewrite lookup_insert_eq|].
    { intros q [qd Hq]. unfold hm.
      destruct (decide (q = node)) as [->|?];
        [rewrite lookup_insert_eq; eauto|].
      rewrite lookup_insert_ne by done.
      destruct (decide (p = q)) as [->|?].
      - rewrite lookup_alter_eq, Hq. simpl. eauto.
      - rewrite lookup_alter_ne by done. eauto. }
    destruct (renumber_from_spec v' (Z.of_nat (S i)) hm)
      as (h1 & -> & Hfr & Hren); [lia|lia|done|done|]. simpl.
    rewrite Nat2Z.id in Hfr.
    destruct (attach_finish h t (Some p) node nd i (children pd) upd t h1
                n fuel) as (h' & -> & Hok); try done.
    + simpl. by rewrite Hpd.
    + intros ? [= <-]. eauto.
    + intros j c Hj Hle. apply Hren; [done|lia].
    + eauto.
  - simpl in Hvec. injection Hvec as <-.
    rewrite (modify_Some _ _ _ _ Hnd). simpl.
    rewrite (modify_Some node _ _ _ (lookup_insert_eq _ _ _)). simpl.
    rewrite vec_insert_Some by done. simpl. fold i. fold v'.
    rewrite (modify_Some node _ _ _ (lookup_insert_eq _ _ _)). simpl.
    rewrite !insert_insert_eq, Hi32, Hlo.
    set (upd := set_parent_index (Z.of_nat i)
                  (set_depth 1 (set_parent None nd))).
    set (hm := <[node := upd]> h).
    destruct (renumber_ready h t None node (roots t) i hm)
      as [Hnd' Hall']; [done|done|done| |
                        by unfold hm; rewrite lookup_insert_eq|].
    { intros q [qd Hq]. unfold hm.
      destruct (decide (q = node)) as [->|?];
        [rewrite lookup_insert_eq; eauto|].
      rewrite lookup_insert_ne by done. eauto. }
    destruct (renumber_from_spec v' (Z.of_nat (S i)) hm)
      as (h1 & -> & Hfr & Hren); [lia|lia|done|done|]. simpl.
    rewrite Nat2Z.id in Hfr.
    destruct (attach_finish h t None node nd i (roots t) upd (mkTree v') h1
                n fuel) as (h' & -> & Hok); try done.
    + intros j c Hj Hle. apply Hren; [done|lia].
    + eauto.
Qed.

Lemma ranked_irrefl K n p : ranked K n p → p ∉ K p.
Proof.
  revert p. induction n as [|n IH]; intros p; [done|]. simpl.
  rewrite Forall_forall. intros H Hin.
  apply (IH p); [by apply H|done].
Qed.

Lemma vec_erase_Some {A} (v : list A) (j : nat) :
  (j < length v)%nat → vec_erase (Z.of_nat j) v = Some (delete j v).
Proof.
  intros H. unfold vec_erase, vec_size.
  rewrite bool_decide_true by lia. by rewrite Nat2Z.id.
Qed.

Lemma detach_ready h t owner node v j (he : heap) :
  links_flat h t → vec_of h t owner = Some v → v !! j = Some node →
  (∀ q, is_Some (h !! q) → is_Some (he !! q)) →
  NoDup (delete j v) ∧ Forall (λ q, is_Some (he !! q)) (delete j v)
  ∧ node ∉ delete j v.
Proof.
  intros Hflat Hvec Hj Hdom.
  assert (Hnd : NoDup v) by by eapply links_flat_NoDup.
  split_and!.
  - eapply sublist_NoDup; [exact Hnd|]. apply sublist_delete.
  - apply Forall_forall. intros q Hq. apply Hdom.
    apply list_elem_of_delete_inv in Hq.
    pose proof (links_flat_allocated _ _ _ _ Hflat Hvec) as Hall.
    rewrite Forall_forall in Hall. eauto.
  - intros Hin. apply list_elem_of_lookup_1 in Hin as [k Hk].
    destruct (decide (k < j)%nat).
    + rewrite list_lookup_delete_lt in Hk by done.
      pose proof (NoDup_lookup _ _ _ _ Hnd Hj Hk). lia.
    + rewrite list_lookup_delete_ge in Hk by lia.
      pose proof (NoDup_lookup _ _ _ _ Hnd Hj Hk). lia.
Qed.

(** [Tree::remove] of a node of the tree returns the node; the links are
    consistent again, and the node is still in the store, without a parent
    and no longer among the roots. *)
Lemma Tree_remove_spec h t node n fuel :
  links_flat h t → height_le h n → (n ≤ fuel)%nat →
  (∃ nd, h !! node = Some nd ∧ (parent nd = None → node ∈ roots t)) →
  ∃ h' t', Tree_remove fuel (Some node) h t = Some (Some node, h', t')
           ∧ links_ok h' t'
           ∧ (∃ nd', h' !! node = Some nd' ∧ parent nd' = None)
           ∧ (node ∉ roots t').
Proof.
  intros Hflat Hh Hfuel (nd & Hnd & Hroot).
  pose proof Hflat as (Hv & Hp & Hsz).
  assert (Hown : ∃ v j, vec_of h t (parent nd) = Some v ∧ v !! j = Some node
                        ∧ parent_index nd = Z.of_nat j).
  { destruct (parent nd) as [p|] eqn:Hpar.
    - destruct (Hp _ _ _ Hnd Hpar) as (v & Hvec & Hin).
      apply list_elem_of_lookup_1 in Hin as [j Hj].
      destruct (Hv _ _ _ _ Hvec Hj) as (nd' & Hnd' & _ & Hpi).
      exists v, j. split_and!; [done|done|congruence].
    - apply list_elem_of_lookup_1 in Hroot as [j Hj]; [|done].
      destruct (Hv None _ _ _ eq_refl Hj) as (nd' & Hnd' & _ & Hpi).
      exists (roots t), j. split_and!; [done|done|congruence]. }
  destruct Hown as (v & j & Hvec & Hj & Hpi).
  pose proof (lookup_lt_Some _ _ _ Hj) as Hjlt.
  pose proof (Hsz _ _ Hvec) as Hvsz.
  assert (Hlen' : vec_size (delete j v) = vec_size v - 1).
  { unfold vec_size. rewrite length_delete by eauto. lia. }
  unfold Tree_remove. rewrite Hnd. simpl.
  destruct (parent nd) as [p|] eqn:Hpar.
  - simpl in Hvec. destruct (h !! p) as [pd|] eqn:Hpd; [|done].
    simpl in Hvec. injection Hvec as <-. simpl.
    assert (Hpn : p ≠ node).
    { intros ->. eapply (ranked_irrefl (kids_of h) n node).
      - apply Hh. eauto.
      - rewrite (kids_of_lookup _ _ _ Hpd). by eapply list_elem_of_lookup_2. }
    rewrite Hpi, vec_erase_Some by done. simpl.
    rewrite (lookup_insert_ne _ p node) by done. rewrite Hnd. simpl.
    rewrite lookup_insert_eq. simpl. rewrite Hpi.
    set (v' := delete j (children pd)) in *.
    set (he := <[p := set_children v' pd]> h).
    assert (Hdom : ∀ q, is_Some (h !! q) → is_Some (he !! q)).
    { intros q [qd Hq]. unfold he. destruct (decide (p = q)) as [->|?].
      - rewrite lookup_insert_eq. eauto.
      - rewrite lookup_insert_ne by done. eauto. }
    destruct (detach_ready h t (Some p) node (children pd) j he)
      as (Hnd' & Hall' & Hnode'); [done|by simpl; rewrite Hpd|done|done|].
    destruct (shift_down_from_spec v' (Z.of_nat j) he)
      as (hs & -> & Hfr & Hsh);
      [unfold vec_size in *; lia|unfold vec_size in *; lia|done|done|].
    simpl.
    rewrite Nat2Z.id in Hfr.
    assert (Hns : hs !! node = Some nd).
    { rewrite Hfr.
      - unfold he. by rewrite lookup_insert_ne.
      - intros Hin. apply Hnode'. by eapply elem_of_drop_1. }
    rewrite (modify_Some _ _ _ _ Hns). simpl.
    rewrite (modify_Some node _ _ _ (lookup_insert_eq _ _ _)). simpl.
    rewrite insert_insert_eq.
    set (h1 := <[node := set_parent_index (-1) (set_parent None nd)]> hs).
    assert (Hspec : detach_spec h t (Some p) node j (children pd) h1 t).
    { apply (detach_struct h t (Some p) node j (children pd) he hs h1 t);
        try done.
      - simpl. by rewrite Hpd.
      - intros q qd Hq. unfold he. destruct (decide (p = q)) as [->|?].
        + rewrite lookup_insert_eq. eexists. split_and!; try done.
          all: by simplify_eq.
        + rewrite lookup_insert_ne by done. eauto.
      - intros q. unfold he. destruct (decide (p = q)) as [->|?]; [eauto|].
        by rewrite lookup_insert_ne.
      - simpl. unfold he. by rewrite lookup_insert_eq.
      - intros jj c Hjj Hle. apply (Hsh jj); [done|lia].
      - intros q Hq. unfold h1. by rewrite lookup_insert_ne.
      - exists nd, (set_parent_index (-1) (set_parent None nd)).
        unfold h1. rewrite lookup_insert_eq. done. }
    destruct (finish_detach h1 t n fuel node) as (h' & -> & Hok & Hafter).
    + eapply detach_links_flat; [exact Hflat| |exact Hj|exact Hspec].
      simpl. by rewrite Hpd.
    + eapply detach_height; [exact Hspec| |done]. simpl. by rewrite Hpd.
    + done.
    + eexists. unfold h1. rewrite lookup_insert_eq. done.
    + exists h', t. split_and!; try done.
      intros Hin. apply list_elem_of_lookup_1 in Hin as [i Hi].
      destruct (Hv None (roots t) i node eq_refl Hi) as (nd0 & Hnd0 & Hp0 & _).
      congruence.
  - simpl in Hvec. injection Hvec as <-. simpl.
    rewrite Hpi, vec_erase_Some by done. simpl.
    set (v' := delete j (roots t)) in *.
    destruct (detach_ready h t None node (roots t) j h)
      as (Hnd' & Hall' & Hnode'); [done..|].
    destruct (shift_down_from_spec v' (Z.of_nat j) h)
      as (hs & -> & Hfr & Hsh);
      [unfold vec_size in *; lia|unfold vec_size in *; lia|done|done|].
    simpl.
    rewrite Nat2Z.id in Hfr.
    assert (Hns : hs !! node = Some nd).
    { rewrite Hfr; [done|].
      intros Hin. apply Hnode'. by eapply elem_of_drop_1. }
    assert (Hspec : detach_spec h t None node j (roots t) hs (mkTree v')).
    { apply (detach_struct h t None node j (roots t) h hs hs (mkTree v'));
        try done.
      - intros q qd Hq. eauto.
      - intros jj c Hjj Hle. apply (Hsh jj); [done|lia].
      - by exists nd, nd. }
    destruct (finish_detach hs (mkTree v') n fuel node)
      as (h' & -> & Hok & Hafter).
    + eapply detach_links_flat; [exact Hflat| |exact Hj|exact Hspec]. done.
    + eapply detach_height; [exact Hspec|done|done].
    + done.
    + eauto.
    + by exists h', (mkTree v').
Qed.

Lemma Tree_remove_links_ok h t node n fuel :
  links_flat h t → height_le h n → (n ≤ fuel)%nat →
  (∃ nd, h !! node = Some nd ∧ (parent nd = None → node ∈ roots t)) →
  ∃ h' t', Tree_remove fuel (Some node) h t = Some (Some node, h', t')
           ∧ links_ok h' t'.
Proof.
  intros Hflat Hh Hfuel Hnode.
  destruct (Tree_remove_spec h t node n fuel Hflat Hh Hfuel Hnode)
    as (h' & t' & Hrun & Hok & _).
  by exists h', t'.
Qed.


(** A store of nodes without parent and children, under an empty tree. *)
Lemma fresh_links_ok (h : heap) :
  (∀ p nd, h !! p = Some nd → parent nd = None ∧ children nd = []) →
  links_ok h (mkTree []).
Proof.
  intros Hfresh. split.
  - intros i r Hi. simpl in Hi. by rewrite lookup_nil in Hi.
  - intros p pd i c Hpd Hi. destruct (Hfresh p pd Hpd) as [_ Hc].
    by rewrite Hc, lookup_nil in Hi.
  - intros c cd p Hcd Hpar. destruct (Hfresh c cd Hcd) as [Hp _]. congruence.
  - exists 1%nat. intros p [pd Hpd]. simpl.
    rewrite (kids_of_lookup _ _ _ Hpd).
    destruct (Hfresh p pd Hpd) as [_ ->]. constructor.
  - done.
  - intros p pd Hpd. destruct (Hfresh p pd Hpd) as [_ ->]. done.
Qed.

Lemma fresh_store_fresh p nd :
  fresh_store !! p = Some nd → parent nd = None ∧ children nd = [].
Proof.
  unfold fresh_store. intros H.
  repeat (rewrite lookup_insert in H; case_decide;
          [injection H as <-; done|]).
  by rewrite lookup_empty in H.
Qed.

(** The example model: roots 1 and 2, node 3 below root 1. *)
Lemma searched_store_lookup p nd :
  searched_store !! p = Some nd →
  (p = 1%positive ∧ kids_of searched_store p = [3%positive]
   ∧ parent nd = None ∧ parent_index nd = 0 ∧ children nd = [3%positive])
  ∨ (p = 2%positive ∧ kids_of searched_store p = []
     ∧ parent nd = None ∧ parent_index nd = 1 ∧ children nd = [])
  ∨ (p = 3%positive ∧ kids_of searched_store p = []
     ∧ parent nd = Some 1%positive ∧ parent_index nd = 0 ∧ children nd = []).
Proof.
  unfold searched_store.
  destruct (decide (p = 1%positive)) as [->|H1].
  { rewrite lookup_insert_eq. intros [= <-]. left. done. }
  rewrite lookup_insert_ne by done.
  destruct (decide (p = 2%positive)) as [->|H2].
  { rewrite lookup_insert_eq. intros [= <-]. right. left. done. }
  rewrite lookup_insert_ne by done.
  destruct (decide (p = 3%positive)) as [->|H3].
  { rewrite lookup_insert_eq. intros [= <-]. right. right. done. }
  rewrite lookup_insert_ne by done. by rewrite lookup_empty.
Qed.

Lemma searched_store_links :
  links_ok searched_store (mkTree [1; 2]%positive).
Proof.
  split.
  - intros [|[|i]] r; simpl; try done; intros [= <-];
      eexists; (split; [vm_compute; reflexivity|]); done.
  - intros p pd i c Hp Hi.
    destruct (searched_store_lookup p pd Hp)
      as [(-> & _ & _ & _ & Hk)|[(-> & _ & _ & _ & Hk)|(-> & _ & _ & _ & Hk)]];
      rewrite Hk in Hi; destruct i as [|i]; try done.
    injection Hi as <-. eexists. split; [vm_compute; reflexivity|]. done.
  - intros c cd p Hc Hpar.
    destruct (searched_store_lookup c cd Hc)
      as [(-> & _ & Hp & _)|[(-> & _ & Hp & _)|(-> & _ & Hp & _)]];
      rewrite Hp in Hpar; try done.
    injection Hpar as <-. eexists. split; [vm_compute; reflexivity|].
    simpl. left.
  - exists 2%nat. intros p [pd Hp].
    destruct (searched_store_lookup p pd Hp)
      as [(-> & _)|[(-> & _)|(-> & _)]]; vm_compute; repeat constructor.
  - vm_compute. reflexivity.
  - intros p pd Hp.
    destruct (searched_store_lookup p pd Hp)
      as [(-> & _ & _ & _ & ->)|[(-> & _ & _ & _ & ->)|(-> & _ & _ & _ & ->)]];
      vm_compute; reflexivity.
Qed.

(** A node without children that is not in the store yet can be put in it
    without breaking the links, and can then be attached anywhere. *)
Lemma links_ok_spare (h : heap) t p nd :
  links_ok h t → h !! p = None → parent nd = None → children nd = [] →
  links_ok (<[p := nd]> h) t.
Proof.
  intros Hok Hp Hpar Hkids.
  assert (Hne : ∀ q qd, h !! q = Some qd → q ≠ p) by (intros q qd Hq ->; congruence).
  assert (HK : ∀ q, kids_of h q = kids_of (<[p := nd]> h) q).
  { intros q. unfold kids_of. destruct (decide (p = q)) as [<-|Hq].
    - rewrite lookup_insert_eq, Hp. simpl. by rewrite Hkids.
    - by rewrite lookup_insert_ne. }
  split.
  - intros i r Hi. destruct (roots_ok _ _ Hok i r Hi) as (rd & Hr & ?).
    exists rd. split; [|done]. rewrite lookup_insert_ne; [done|].
    intros ->. congruence.
  - intros q qd i c Hq Hi. destruct (decide (p = q)) as [<-|Hqp].
    + rewrite lookup_insert_eq in Hq. injection Hq as <-.
      by rewrite Hkids, lookup_nil in Hi.
    + rewrite lookup_insert_ne in Hq by done.
      destruct (children_ok _ _ Hok q qd i c Hq Hi) as (cd & Hc & ?).
      exists cd. split; [|done]. rewrite lookup_insert_ne; [done|].
      intros ->. congruence.
  - intros c cd q Hc Hcp. destruct (decide (p = c)) as [<-|Hcne].
    + rewrite lookup_insert_eq in Hc. injection Hc as <-. congruence.
    + rewrite lookup_insert_ne in Hc by done.
      destruct (parents_ok _ _ Hok c cd q Hc Hcp) as (pd & Hq & ?).
      exists pd. split; [|done]. rewrite lookup_insert_ne; [done|].
      intros ->. congruence.
  - destruct (height_ok _ _ Hok) as [n Hn]. exists (S n). intros q Hq.
    destruct (decide (p = q)) as [<-|Hqp].
    + simpl. rewrite <- HK. unfold kids_of. rewrite Hp. constructor.
    + rewrite lookup_insert_ne in Hq by done.
      apply (ranked_ext (kids_of h)); [done|].
      apply (ranked_mono _ n); [lia|]. by apply Hn.
  - apply (roots_size_ok _ _ Hok).
  - intros q qd Hq. destruct (decide (p = q)) as [<-|Hqp].
    + rewrite lookup_insert_eq in Hq. injection Hq as <-. by rewrite Hkids.
    + rewrite lookup_insert_ne in Hq by done.
      by apply (children_size_ok _ _ Hok q).
Qed.

Lemma can_attach_spare (h : heap) t p nd parent_ v :
  links_ok h t → h !! p = None → children nd = [] →
  vec_of h t parent_ = Some v → vec_size v + 1 < 2 ^ 31 →
  can_attach (<[p := nd]> h) t parent_ p.
Proof.
  intros Hok Hp Hkids Hvec Hsz.
  assert (Hown : ∀ q, parent_ = Some q → q ≠ p).
  { intros q -> ->. simpl in Hvec. by rewrite Hp in Hvec. }
  split_and!.
  - rewrite lookup_insert_eq. eauto.
  - intros [q|] v' Hv'; simpl in Hv'.
    + destruct (decide (p = q)) as [<-|Hqp].
      * rewrite lookup_insert_eq in Hv'. injection Hv' as <-.
        rewrite Hkids. apply not_elem_of_nil.
      * rewrite lookup_insert_ne in Hv' by done.
        destruct (h !! q) as [qd|] eqn:Hq; [|done]. injection Hv' as <-.
        intros Hin. apply list_elem_of_lookup_1 in Hin as [i Hi].
        destruct (children_ok _ _ Hok q qd i p Hq Hi) as (cd & Hc & _).
        congruence.
    + injection Hv' as <-. intros Hin.
      apply list_elem_of_lookup_1 in Hin as [i Hi].
      destruct (roots_ok _ _ Hok i p Hi) as (rd & Hr & _). congruence.
  - exists v. split; [|done]. destruct parent_ as [q|]; [|done].
    simpl. rewrite lookup_insert_ne; [done|]. intros Heq. by apply (Hown q).
  - intros q n -> Hin. destruct n as [|n]; simpl in Hin.
    + by apply elem_of_nil in Hin.
    + assert (kids_of (<[p := nd]> h) p = []) as Hk
        by (unfold kids_of; by rewrite lookup_insert_eq).
      rewrite Hk in Hin. simpl in Hin.
      apply list_elem_of_singleton in Hin. by apply (Hown q).
Qed.

Lemma spare_store_links : links_ok spare_store (mkTree [1; 2]%positive).
Proof.
  apply links_ok_spare; [exact searched_store_links|done..].
Qed.

Lemma spare_can_attach parent_ v :
  vec_of searched_store (mkTree [1; 2]%positive) parent_ = Some v →
  vec_size v + 1 < 2 ^ 31 →
  can_attach spare_store (mkTree [1; 2]%positive) parent_ 4%positive.
Proof.
  intros Hv Hsz.
  by apply (can_attach_spare searched_store _ 4%positive _ parent_ v
              searched_store_links).
Qed.


Lemma fresh_can_attach :
  can_attach fresh_store (mkTree []) None 1%positive.
Proof.
  split_and!.
  - vm_compute. eexists. reflexivity.
  - intros [p|] v Hv; simpl in Hv.
    + destruct (fresh_store !! p) as [pd|] eqn:Hpd; [|done].
      destruct (fresh_store_fresh p pd Hpd) as [_ Hc].
      simpl in Hv. injection Hv as <-. rewrite Hc. apply not_elem_of_nil.
    + injection Hv as <-. apply not_elem_of_nil.
  - exists []. split; [done|]. vm_compute. reflexivity.
  - intros p n H. discriminate H.
Qed.

(** C1 as stated fails for a call whose node is already in the tree: after
    [append(nullptr, 1)] on the empty model the links are consistent; a
    second [append(nullptr, 1)] returns with node 1 twice among the roots
    and its [parent_index] 1, which is not its index 0 in the roots. *)
Lemma append_counterexample :
  ∃ h1 t1 h2 t2 nd,
    Tree_append 2 None 1%positive fresh_store (mkTree [])
    = Some (1%positive, h1, t1)
    ∧ links_ok h1 t1
    ∧ Tree_append 2 None 1%positive h1 t1 = Some (1%positive, h2, t2)
    ∧ roots t2 = [1; 1]%positive
    ∧ roots t2 !! 0%nat = Some 1%positive
    ∧ h2 !! 1%positive = Some nd ∧ parent_index nd = 1
    ∧ ¬ links_ok h2 t2.
Proof.
  destruct (Tree_append_links_ok fresh_store (mkTree []) None 1%positive 1 2)
    as (h1 & t1 & Hrun & Hok).
  - apply links_ok_flat. exact (fresh_links_ok fresh_store fresh_store_fresh).
  - intros p [pd Hp]. simpl. rewrite (kids_of_lookup _ _ _ Hp).
    destruct (fresh_store_fresh p pd Hp) as [_ ->]. constructor.
  - lia.
  - exact fresh_can_attach.
  - exists h1, t1.
    assert (Hc : Tree_append 2 None 1%positive fresh_store (mkTree [])
                 = Some (1%positive, h1, t1)) by exact Hrun.
    vm_compute in Hrun. injection Hrun as <- <-.
    eexists _, _, _. split; [exact Hc|]. split; [exact Hok|].
    split; [vm_compute; reflexivity|].
    split; [reflexivity|]. split; [reflexivity|].
    split; [vm_compute; reflexivity|]. split; [reflexivity|].
    intros Hbad. destruct (roots_ok _ _ Hbad 0%nat 1%positive eq_refl)
      as (nd & Hnd & _ & Hpi).
    vm_compute in Hnd. injection Hnd as <-. simpl in Hpi. discriminate.
Qed.

(** ** Binary search over the position index *)

Section Loop.
Variable h : heap.
Variable rs : list ptr.
Variables P L : nat → Z.
Variable k : nat.
Variable target : Z.

Hypothesis Hk : length rs = k.
Hypothesis Hk63 : Z.of_nat k < 2 ^ 63.
Hypothesis Hdata : ∀ m, (m < k)%nat →
  ∃ r rd, rs !! m = Some r ∧ h !! r = Some rd
          ∧ bs_position rd = P m ∧ bs_length rd = L m.
Hypothesis Hmono : ∀ m m', (m ≤ m')%nat → (m' < k)%nat → P m ≤ P m'.
Hypothesis HL : ∀ m, (m < k)%nat → 0 ≤ L m.
Hypothesis HP0 : 0 ≤ P 0%nat.
Hypothesis Hend : ∀ m, (m < k)%nat → P m + L m < 2 ^ 64.
Hypothesis Htarget : P 0%nat ≤ target.

Lemma window_end_ge m : (m < k)%nat → P m ≤ window_end P L k m.
Proof.
  intros Hm. unfold window_end. case_decide.
  - apply Hmono; lia.
  - specialize (HL m Hm). lia.
Qed.

Lemma window_end_mono m m' :
  (m ≤ m')%nat → (m' < k)%nat →
  window_end P L k m ≤ window_end P L k m'.
Proof.
  intros Hle Hlt. destruct (decide (m = m')) as [->|Hne]; [lia|].
  unfold window_end at 1. rewrite decide_True by lia.
  transitivity (P m'); [apply Hmono; lia|]. by apply window_end_ge.
Qed.

Lemma binarySearch_loop_spec fuel : ∀ lower upper mid0 point0,
  0 ≤ lower → upper < Z.of_nat k →
  (∀ m, Z.of_nat m < lower → (m < k)%nat → window_end P L k m < target) →
  (∀ m, upper < Z.of_nat m → (m < k)%nat → target < P m) →
  (lower ≤ upper
   ∨ ∃ m0 r rd, mid0 = Z.of_nat m0 ∧ loop_post P L k target m0
                ∧ rs !! m0 = Some r ∧ h !! r = Some rd
                ∧ point0 = bs_data rd) →
  (Z.to_nat (upper - lower + 1) < fuel)%nat →
  ∃ m r rd,
    binarySearch_loop fuel h rs target lower upper mid0 point0
    = Some (Z.of_nat m, bs_data rd)
    ∧ rs !! m = Some r ∧ h !! r = Some rd ∧ loop_post P L k target m.
Proof.
  induction fuel as [|fuel IH];
    intros lower upper mid0 point0 Hlo Hup Hleft Hright Hpre Hfuel; [lia|].
  cbn [binarySearch_loop]. case_bool_decide as Hrange.
  - assert (Hsum : u64 (lower + upper) = lower + upper)
      by (apply u64_small; lia).
    rewrite Hsum.
    set (m := Z.to_nat ((lower + upper) / 2)).
    assert (Hmid : (lower + upper) / 2 = Z.of_nat m).
    { unfold m. rewrite Z2Nat.id; [done|]. apply Z.div_pos; lia. }
    assert (Hmid_lo : lower ≤ Z.of_nat m).
    { rewrite <- Hmid. apply Z.div_le_lower_bound; lia. }
    assert (Hmid_up : Z.of_nat m ≤ upper).
    { rewrite <- Hmid. apply Z.div_le_upper_bound; lia. }
    assert (Hm : (m < k)%nat) by lia.
    destruct (Hdata m Hm) as (r & rd & Hr & Hrd & HPm & HLm).
    rewrite Hmid, vec_at_lookup, Hr. simpl. rewrite Hrd. simpl.
    case_bool_decide as Hlt;
      change (BinarySearchData.position (bs_data rd)) with (bs_position rd)
        in Hlt; rewrite HPm in Hlt.
    + (* go left *)
      assert (m ≠ 0%nat) by (intros Hm0; rewrite Hm0 in Hlt; lia).
      assert (Hnew : u64 (Z.of_nat m - 1) = Z.of_nat m - 1)
        by (apply u64_small; lia).
      rewrite Hnew. apply IH; try lia; try done.
      * intros m' Hm' Hm'k.
        assert (P m ≤ P m') by (apply Hmono; lia). lia.
      * left. destruct (decide (lower ≤ Z.of_nat m - 1)) as [|Hn]; [done|].
        exfalso. assert (Hw := Hleft (pred m) ltac:(lia) ltac:(lia)).
        unfold window_end in Hw. rewrite decide_True in Hw by lia.
        replace (S (pred m)) with m in Hw by lia. lia.
    + (* the upper end of the window *)
      assert (Hbound :
        (if bool_decide (u64 (vec_size rs - 1) > Z.of_nat m)
         then r' ← vec_at rs (Z.of_nat m + 1);
              rd' ← h !! r'; Some (bs_position rd')
         else Some (u64 (BinarySearchData.position (bs_data rd)
                         + BinarySearchData.length (bs_data rd))))
        = Some (window_end P L k m)).
      { unfold vec_size. rewrite Hk. rewrite u64_small by lia.
        unfold window_end. case_bool_decide as Hnext.
        - rewrite decide_True by lia.
          destruct (Hdata (S m) ltac:(lia)) as (r' & rd' & Hr' & Hrd' & HP' & _).
          replace (Z.of_nat m + 1) with (Z.of_nat (S m)) by lia.
          rewrite vec_at_lookup, Hr'. simpl. rewrite Hrd'. simpl.
          by rewrite HP'.
        - rewrite decide_False by lia. f_equal.
          fold (bs_position rd) (bs_length rd). rewrite HPm, HLm.
          apply u64_small. specialize (HL m Hm). specialize (Hend m Hm).
          assert (P 0%nat ≤ P m) by (apply Hmono; lia). lia. }
      rewrite Hbound. clear Hbound. simpl. case_bool_decide as Hgt.
      * (* go right *)
        assert (Hnew : u64 (Z.of_nat m + 1) = Z.of_nat m + 1)
          by (apply u64_small; lia).
        rewrite Hnew. apply IH; try lia; try done.
        -- intros m' Hm' Hm'k.
           assert (window_end P L k m' ≤ window_end P L k m); [|lia].
           apply window_end_mono; lia.
        -- destruct (decide (Z.of_nat m + 1 ≤ upper)) as [|Hn]; [by left|].
           right. exists m, r, rd. split_and!; try done.
           split_and!; [done|lia|]. right.
           destruct (decide (S m < k)%nat) as [Hs|Hs].
           ++ exfalso. assert (Hr2 := Hright (S m) ltac:(lia) Hs).
              unfold window_end in Hgt. rewrite decide_True in Hgt by done. lia.
           ++ unfold window_end in Hgt. rewrite decide_False in Hgt by done.
              split; lia.
      * (* found the window *)
        exists m, r, rd. split_and!; try done.
        split_and!; [done|lia|]. left. lia.
  - destruct Hpre as [|(m0 & r & rd & -> & Hpost & Hr & Hrd & ->)]; [lia|].
    exists m0, r, rd. done.
Qed.

End Loop.
(** ** The position index along the pre-order *)

Lemma indexed_from_app h l1 l2 base :
  indexed_from h (l1 ++ l2) base
  ↔ indexed_from h l1 base ∧ indexed_from h l2 (base + extent h l1).
Proof.
  revert base. induction l1 as [|p l1 IH]; intros base; simpl.
  - unfold extent. simpl. rewrite Z.add_0_r. tauto.
  - split.
    + intros (nd & Hp & Hpos & Hlen & Hrest). apply IH in Hrest as [H1 H2].
      split; [by exists nd|]. unfold extent in *. simpl. rewrite Hp. simpl.
      by rewrite Z.add_assoc.
    + intros [(nd & Hp & Hpos & Hlen & H1) H2]. exists nd.
      split_and!; try done. apply IH. split; [done|].
      unfold extent in *. simpl in H2. rewrite Hp in H2. simpl in H2.
      by rewrite Z.add_assoc in H2.
Qed.

Lemma indexed_from_extent h l base : indexed_from h l base → 0 ≤ extent h l.
Proof.
  revert base. induction l as [|p l IH]; intros base; simpl; [done|].
  intros (nd & Hp & _ & Hlen & Hrest). apply IH in Hrest.
  unfold extent in *. simpl. rewrite Hp. simpl. lia.
Qed.

Lemma indexed_from_bounds h l base x ndx :
  indexed_from h l base → x ∈ l → h !! x = Some ndx →
  base ≤ bs_position ndx
  ∧ bs_position ndx + bs_length ndx ≤ base + extent h l.
Proof.
  revert base. induction l as [|p l IH]; intros base Hl Hx Hndx.
  - by apply elem_of_nil in Hx.
  - simpl in Hl. destruct Hl as (nd & Hp & Hpos & Hlen & Hrest).
    assert (Hext : extent h (p :: l) = bs_length nd + extent h l).
    { unfold extent. simpl. by rewrite Hp. }
    assert (0 ≤ extent h l) by by eapply indexed_from_extent.
    apply elem_of_cons in Hx as [->|Hx].
    + assert (ndx = nd) as -> by congruence. lia.
    + destruct (IH _ Hrest Hx Hndx). lia.
Qed.

Lemma indexed_from_chain (h : heap) l :
  Forall (λ p, is_Some (h !! p)) l →
  Forall (λ p, 0 ≤ from_option bs_length 0 (h !! p)) l →
  (∀ i p q ndp ndq,
     l !! i = Some p → l !! S i = Some q →
     h !! p = Some ndp → h !! q = Some ndq →
     bs_position ndq = bs_position ndp + bs_length ndp) →
  ∀ base,
  (∀ p nd, l !! 0%nat = Some p → h !! p = Some nd → bs_position nd = base) →
  indexed_from h l base.
Proof.
  induction l as [|p l IH]; intros Hall Hlen Hnext base Hfirst; [done|].
  apply Forall_cons in Hall as [[nd Hp] Hall].
  apply Forall_cons in Hlen as [Hlenp Hlen].
  rewrite Hp in Hlenp. simpl in Hlenp.
  exists nd. split_and!; try done; [by eapply Hfirst|].
  apply IH; try done.
  - intros i p' q ndp ndq Hi HSi. by apply (Hnext (S i)).
  - intros q ndq Hq Hndq.
    rewrite (Hnext 0%nat p q nd ndq); try done.
    by rewrite (Hfirst p nd).
Qed.

Lemma dfs_app h n l1 l2 : dfs h n (l1 ++ l2) = dfs h n l1 ++ dfs h n l2.
Proof. unfold dfs. apply flat_map_app. Qed.

Lemma dfs_cons h n r rs :
  dfs h (S n) (r :: rs) = r :: dfs h n (kids_of h r) ++ dfs h (S n) rs.
Proof. done. Qed.

(** The sibling at index [m] of an indexed vector: its position is the base
    plus the extent of the subtrees before it, and its children are indexed
    from the end of its own length. *)
Lemma sibling_data h n rs base m r :
  indexed_from h (dfs h (S n) rs) base → rs !! m = Some r →
  ∃ rd, h !! r = Some rd
    ∧ bs_position rd = base + extent h (dfs h (S n) (take m rs))
    ∧ 0 ≤ bs_length rd
    ∧ indexed_from h (dfs h n (children rd))
        (bs_position rd + bs_length rd)
    ∧ 0 ≤ extent h (dfs h n (children rd))
    ∧ extent h (dfs h (S n) (take (S m) rs))
      = extent h (dfs h (S n) (take m rs)) + bs_length rd
        + extent h (dfs h n (children rd)).
Proof.
  intros Hidx Hm.
  rewrite <- (take_drop_middle rs m r Hm) in Hidx.
  rewrite dfs_app, dfs_cons in Hidx.
  apply indexed_from_app in Hidx as [_ Hidx]. simpl in Hidx.
  destruct Hidx as (rd & Hr & Hpos & Hlen & Hrest).
  apply indexed_from_app in Hrest as [Hkids _].
  rewrite (kids_of_lookup h r rd Hr) in Hkids.
  exists rd. split_and!; try done.
  - by rewrite Hpos.
  - by eapply indexed_from_extent.
  - rewrite (take_S_r rs m r Hm), dfs_app, extent_app.
    unfold dfs at 2. simpl. rewrite app_nil_r.
    fold (dfs h n (kids_of h r)). rewrite (kids_of_lookup h r rd Hr).
    rewrite Hr. simpl. lia.
Qed.

Lemma sibling_position_mono h n rs base m m' :
  indexed_from h (dfs h (S n) rs) base →
  (m ≤ m')%nat → (m' ≤ length rs)%nat →
  extent h (dfs h (S n) (take m rs)) ≤ extent h (dfs h (S n) (take m' rs)).
Proof.
  intros Hidx Hle. induction Hle as [|m' Hle IH]; intros Hm'; [done|].
  destruct (lookup_lt_is_Some_2 rs m' ltac:(lia)) as [r Hr].
  destruct (sibling_data h n rs base m' r Hidx Hr)
    as (rd & _ & _ & Hlen & _ & Hkids & ->).
  specialize (IH ltac:(lia)). lia.
Qed.

Lemma TreeView_binarySearch_unfold fuel h rs target :
  rs ≠ [] →
  TreeView_binarySearch (S fuel) h rs target
  = '(mid, point) ←
      binarySearch_loop (S (length rs)) h rs target
        0 (u64 (vec_size rs - 1)) 0 (BinarySearchData.mk 0 0);
    if bool_decide (BinarySearchData.position point ≤ target)
       && bool_decide (u64 (BinarySearchData.position point
                            + BinarySearchData.length point) >= target)
    then r ← vec_at rs mid; Some (mid, Some r)
    else
      r ← vec_at rs mid;
      rd ← h !! r;
      if decide (children rd = []) then Some (0, None)
      else TreeView_binarySearch fuel h (children rd) target.
Proof.
  intros Hne. destruct rs as [|r0 rs]; [done|].
  cbn [TreeView_binarySearch].
  destruct (binarySearch_loop (S (length (r0 :: rs))) h (r0 :: rs) target
              0 (u64 (vec_size (r0 :: rs) - 1)) 0 (BinarySearchData.mk 0 0))
    as [[mid point]|]; [|done].
  simpl. destruct (_ && _); [done|].
  destruct (vec_at (r0 :: rs) mid) as [r|]; [|done]. simpl.
  destruct (h !! r) as [rd|]; [|done]. simpl.
  by destruct (children rd).
Qed.
Lemma binarySearch_spec n : ∀ (h : heap) rs base target fuel,
  Forall (ranked (kids_of h) n) rs →
  indexed_from h (dfs h n rs) base →
  base + extent h (dfs h n rs) < 2 ^ 64 →
  0 ≤ base ≤ target →
  vec_size rs < 2 ^ 63 →
  Forall (λ p, vec_size (kids_of h p) < 2 ^ 63) (dfs h n rs) →
  (n < fuel)%nat →
  ∃ idx res,
    TreeView_binarySearch fuel h rs target = Some (idx, res)
    ∧ (res = None ↔ rs = [] ∨ base + extent h (dfs h n rs) < target)
    ∧ (∀ x ndx, x ∈ dfs h n rs → h !! x = Some ndx →
         bs_position ndx < target < bs_position ndx + bs_length ndx →
         res = Some x).
Proof.
  induction n as [|n IH];
    intros h rs base target fuel Hrk Hidx Hext Hbase Hsize Hsizes Hfuel.
  { destruct rs as [|r rs]; [|by apply Forall_cons in Hrk as [[] _]].
    destruct fuel as [|fuel]; [lia|]. exists 0, None.
    split_and!; [done|by split; auto|].
    intros x ndx Hx. by apply elem_of_nil in Hx. }
  destruct fuel as [|fuel]; [lia|].
  destruct (decide (rs = [])) as [->|Hne].
  { exists 0, None. split_and!; [done|by split; auto|].
    intros x ndx Hx. by apply elem_of_nil in Hx. }
  rewrite TreeView_binarySearch_unfold by done.
  set (k := length rs).
  set (P := λ m, base + extent h (dfs h (S n) (take m rs))).
  set (L := λ m,
    from_option (λ r, from_option bs_length 0 (h !! r)) 0 (rs !! m)).
  assert (Hk : (0 < k)%nat) by (unfold k; destruct rs; simpl; [done|lia]).
  assert (Hk63 : Z.of_nat k < 2 ^ 63) by done.
  assert (Hat : ∀ m r, rs !! m = Some r →
    ∃ rd, h !! r = Some rd ∧ bs_position rd = P m ∧ bs_length rd = L m
      ∧ 0 ≤ L m
      ∧ indexed_from h (dfs h n (children rd)) (P m + L m)
      ∧ 0 ≤ extent h (dfs h n (children rd))
      ∧ P (S m) = P m + L m + extent h (dfs h n (children rd))).
  { intros m r Hr.
    destruct (sibling_data h n rs base m r Hidx Hr)
      as (rd & Hrd & Hpos & Hlen & Hkids & Hkext & Hstep).
    assert (HL : L m = bs_length rd)
      by (unfold L; by rewrite Hr; simpl; rewrite Hrd).
    exists rd. rewrite HL. unfold P. rewrite Hstep, <- Hpos.
    split_and!; try done. lia. }
  assert (HPmono : ∀ m m', (m ≤ m')%nat → (m' ≤ k)%nat → P m ≤ P m').
  { intros m m' Hle Hm'. unfold P.
    assert (Hs := sibling_position_mono h n rs base m m' Hidx Hle Hm'). lia. }
  assert (HPk : P k = base + extent h (dfs h (S n) rs)).
  { unfold P, k. by rewrite firstn_all. }
  assert (HP0 : P 0%nat = base).
  { unfold P. rewrite take_0. unfold dfs, extent. simpl. lia. }
  assert (Hdata : ∀ m, (m < k)%nat →
    ∃ r rd, rs !! m = Some r ∧ h !! r = Some rd
            ∧ bs_position rd = P m ∧ bs_length rd = L m).
  { intros m Hm. destruct (lookup_lt_is_Some_2 rs m Hm) as [r Hr].
    destruct (Hat m r Hr) as (rd & ? & ? & ? & _). by exists r, rd. }
  assert (HLnn : ∀ m, (m < k)%nat → 0 ≤ L m).
  { intros m Hm. destruct (lookup_lt_is_Some_2 rs m Hm) as [r Hr].
    by destruct (Hat m r Hr) as (rd & _ & _ & _ & ? & _). }
  assert (Hend : ∀ m, (m < k)%nat → P m + L m ≤ P (S m) ∧ P (S m) < 2 ^ 64).
  { intros m Hm. destruct (lookup_lt_is_Some_2 rs m Hm) as [r Hr].
    destruct (Hat m r Hr) as (rd & _ & _ & _ & _ & _ & ? & ?).
    assert (P (S m) ≤ P k) by (apply HPmono; lia). lia. }
  destruct (binarySearch_loop_spec h rs P L k target eq_refl Hk63 Hdata
              ltac:(intros; apply HPmono; lia) HLnn ltac:(lia)
              ltac:(intros m Hm; destruct (Hend m Hm); lia) ltac:(lia)
              (S k) 0 (u64 (vec_size rs - 1)) 0 (BinarySearchData.mk 0 0))
    as (m & r & rd & Hloop & Hr & Hrd & Hm & HPm & Hwin).
  { lia. }
  { unfold vec_size. fold k. rewrite u64_small by lia. lia. }
  { intros; lia. }
  { unfold vec_size. fold k. rewrite u64_small by lia. intros; lia. }
  { left. unfold vec_size. fold k. rewrite u64_small by lia. lia. }
  { unfold vec_size. fold k. rewrite u64_small by lia. lia. }
  fold k. rewrite Hloop. clear Hloop. simpl.
  destruct (Hat m r Hr)
    as (rd' & Hrd' & Hpos & Hlen & HLm & Hkids & Hkext & Hstep).
  assert (rd' = rd) as -> by congruence. clear Hrd'.
  destruct (Hend m Hm) as [Hend1 Hend2].
  change (BinarySearchData.position (bs_data rd)) with (bs_position rd).
  change (BinarySearchData.length (bs_data rd)) with (bs_length rd).
  rewrite Hpos, Hlen, vec_at_lookup, Hr. simpl. rewrite Hrd. simpl.
  assert (HP0m : P 0%nat ≤ P m) by (apply HPmono; lia).
  rewrite (u64_small (P m + L m)) by lia.
  rewrite (bool_decide_true (P m ≤ target)) by done. simpl.
  assert (Hkr : kids_of h r = children rd) by by apply kids_of_lookup.
  assert (Hpath : ∀ x ndx, x ∈ dfs h (S n) rs → h !! x = Some ndx →
    bs_position ndx < target < bs_position ndx + bs_length ndx →
    (x = r ∧ target < P m + L m)
    ∨ (x ∈ dfs h n (children rd) ∧ P m + L m < target)).
  { intros x ndx Hx Hndx Hin.
    apply elem_of_flat_map in Hx as (rj & Hrj & Hx).
    apply list_elem_of_lookup_1 in Hrj as [j Hj].
    assert (Hjk : (j < k)%nat) by by eapply lookup_lt_Some.
    destruct (Hat j rj Hj)
      as (rdj & Hrdj & Hposj & Hlenj & HLj & Hkidsj & Hkextj & Hstepj).
    assert (Hxj : (x = rj ∧ ndx = rdj)
                  ∨ x ∈ dfs h n (children rdj)).
    { simpl in Hx. apply elem_of_cons in Hx as [->|Hx].
      - left. split; [done|congruence].
      - right. fold (dfs h n (kids_of h rj)) in Hx.
        by rewrite (kids_of_lookup h rj rdj Hrdj) in Hx. }
    assert (Hbx : P j ≤ bs_position ndx
                  ∧ bs_position ndx + bs_length ndx ≤ P (S j)).
    { destruct Hxj as [[-> ->]|Hxj]; [lia|].
      destruct (indexed_from_bounds _ _ _ _ _ Hkidsj Hxj Hndx). lia. }
    destruct (lt_eq_lt_dec j m) as [[Hlt|Heq]|Hgt].
    - assert (P (S j) ≤ P m) by (apply HPmono; lia). lia.
    - subst j. assert (rj = r) as -> by congruence.
      assert (rdj = rd) as -> by congruence.
      destruct Hxj as [[-> ->]|Hxj]; [left; split; [done|lia]|].
      right. split; [done|].
      destruct (indexed_from_bounds _ _ _ _ _ Hkids Hxj Hndx). lia.
    - assert (P (S m) ≤ P j) by (apply HPmono; lia).
      destruct Hwin as [Hwin|[Hlast _]]; [|lia].
      unfold window_end in Hwin. rewrite decide_True in Hwin by lia. lia. }
  assert (HPSk : P (S m) ≤ P k) by (apply HPmono; lia).
  case_bool_decide as Hhit; simpl.
  - exists (Z.of_nat m), (Some r). split_and!; [done| |].
    + split; [done|]. intros [?|?]; [done|lia].
    + intros x ndx Hx Hndx Hin.
      destruct (Hpath x ndx Hx Hndx Hin) as [[-> _]|[_ ?]]; [done|lia].
  - case_decide as Hleaf.
    + exists 0, None. split_and!; [done| |].
      * split; [|done]. intros _. right. rewrite <- HPk.
        rewrite Hleaf in Hstep. unfold dfs, extent in Hstep. simpl in Hstep.
        destruct Hwin as [Hwin|[Hlast _]].
        -- unfold window_end in Hwin. case_decide; lia.
        -- rewrite <- Hlast. lia.
      * intros x ndx Hx Hndx Hin.
        destruct (Hpath x ndx Hx Hndx Hin) as [[_ ?]|[Hxk _]]; [lia|].
        rewrite Hleaf in Hxk. by apply elem_of_nil in Hxk.
    + apply Forall_forall with (x := r) in Hrk as Hrkr;
        [|by eapply list_elem_of_lookup_2].
      simpl in Hrkr. rewrite Hkr in Hrkr.
      destruct (IH h (children rd) (P m + L m) target fuel)
        as (idx & res & Hres & Hnone & Hsome); try done; try lia.
      * rewrite <- Hkr.
        apply Forall_forall with (x := r) in Hsizes; [done|].
        apply elem_of_flat_map. exists r.
        split; [by eapply list_elem_of_lookup_2|]. simpl. left.
      * apply Forall_forall. intros x Hx.
        apply Forall_forall with (x := x) in Hsizes; [done|].
        apply elem_of_flat_map. exists r.
        split; [by eapply list_elem_of_lookup_2|]. simpl. right.
        fold (dfs h n (kids_of h r)). by rewrite Hkr.
      * exists idx, res. split_and!; [done| |].
        -- rewrite Hnone, <- HPk. split.
           ++ intros [?|Hlt]; [done|]. right.
              destruct Hwin as [Hwin|[Hlast _]].
              ** unfold window_end in Hwin. case_decide; lia.
              ** rewrite <- Hlast. lia.
           ++ intros [?|Hlt]; [done|]. right. lia.
        -- intros x ndx Hx Hndx Hin.
           destruct (Hpath x ndx Hx Hndx Hin) as [[_ ?]|[Hxk _]]; [lia|].
           by eapply Hsome.
Qed.
(** C4, amended: over roots that carry a well-formed position index the
    search returns a result for every target, given fuel above the height
    of the tree.  The result is absent exactly when the roots are empty or
    the target is greater than the total indexed extent.  A target strictly
    between the position of a node and the end of its length, both ends
    excluded, finds exactly that node, whether or not it has children. *)
Theorem binarySearch_well_indexed (h : heap) n rs target fuel :
  well_indexed h n rs → 0 ≤ target < 2 ^ 64 → (n < fuel)%nat →
  ∃ idx res,
    TreeView_binarySearch fuel h rs target = Some (idx, res)
    ∧ (res = None ↔ rs = [] ∨ extent h (dfs h n rs) < target)
    ∧ (∀ x ndx, x ∈ dfs h n rs → h !! x = Some ndx →
         bs_position ndx < target < bs_position ndx + bs_length ndx →
         res = Some x).
Proof.
  intros ((Hrk & _ & Hall) & Hlen & Hext & Hfirst & Hnext & Hsize & Hsizes)
    Htarget Hfuel.
  assert (Hidx : indexed_from h (dfs h n rs) 0)
    by by apply indexed_from_chain.
  destruct (binarySearch_spec n h rs 0 target fuel)
    as (idx & res & Hres & Hnone & Hsome); try done; try lia.
  by exists idx, res.
Qed.

Lemma searched_store_indexed :
  well_indexed searched_store 2 [1; 2]%positive.
Proof.
  assert (Hd : dfs searched_store 2 [1; 2]%positive = [1; 3; 2]%positive)
    by (vm_compute; reflexivity).
  unfold well_indexed. rewrite Hd. split_and!.
  - unfold is_tree. rewrite Hd. concrete.
  - apply (bool_decide_unpack _). vm_compute. exact I.
  - vm_compute. reflexivity.
  - intros p nd; simpl; intros [= <-] Hnd.
    vm_compute in Hnd. by injection Hnd as <-.
  - intros [|[|[|i]]] p q ndp ndq; simpl; try done;
      intros [= <-] Hq; try done;
      injection Hq as <-; intros Hp Hq; vm_compute in Hp, Hq;
      injection Hp as <-; by injection Hq as <-.
  - vm_compute. reflexivity.
  - apply (bool_decide_unpack _). vm_compute. exact I.
Qed.

(** The target 25 lies inside the length of node 2, which starts at 20. *)
Lemma binarySearch_well_indexed_witness :
  ∃ idx res,
    TreeView_binarySearch 3 searched_store [1; 2]%positive 25
    = Some (idx, res)
    ∧ (res = None
       ↔ [1; 2]%positive = []
         ∨ extent searched_store (dfs searched_store 2 [1; 2]%positive) < 25)
    ∧ (∀ x ndx, x ∈ dfs searched_store 2 [1; 2]%positive →
         searched_store !! x = Some ndx →
         bs_position ndx < 25 < bs_position ndx + bs_length ndx →
         res = Some x).
Proof.
  apply (binarySearch_well_indexed searched_store 2 [1; 2]%positive 25 3).
  - exact searched_store_indexed.
  - lia.
  - lia.
Defined.

(** C4 as stated fails at the left end of a node: the target 20 is the
    position of node 2, which has no children and covers 20 up to 30, yet
    the search returns node 3, the node before it in pre-order, whose length
    ends at 20.  Likewise the target 10, the position of the childless
    node 3, finds its parent 1. *)
Lemma binarySearch_counterexample :
  well_indexed searched_store 2 [1; 2]%positive
  ∧ (∃ nd2, searched_store !! 2%positive = Some nd2 ∧ children nd2 = []
       ∧ bs_position nd2 ≤ 20 < bs_position nd2 + bs_length nd2)
  ∧ TreeView_binarySearch 3 searched_store [1; 2]%positive 20
    = Some (0, Some 3%positive)
  ∧ (∃ nd3, searched_store !! 3%positive = Some nd3 ∧ children nd3 = []
       ∧ bs_position nd3 ≤ 10 < bs_position nd3 + bs_length nd3)
  ∧ TreeView_binarySearch 3 searched_store [1; 2]%positive 10
    = Some (0, Some 1%positive).
Proof.
  split; [exact searched_store_indexed|].
  split.
  { eexists. split; [vm_compute; reflexivity|]. split; [reflexivity|].
    split; vm_compute; congruence. }
  split; [vm_compute; reflexivity|].
  split.
  { eexists. split; [vm_compute; reflexivity|]. split; [reflexivity|].
    split; vm_compute; congruence. }
  vm_compute; reflexivity.
Qed.

(** ** Deleting a tree *)

Section Delete.
Variable K : ptr → list ptr.

Lemma delete_list_spec fuel n :
  (∀ p (hc : heap),
     ranked K n p →
     (∀ q, q ∈ preorder K n p → ∃ nd, hc !! q = Some nd ∧ children nd = K q) →
     NoDup (preorder K n p) →
     ∃ h', TreeNode_delete fuel p hc = Some h'
       ∧ ∀ q, h' !! q = if decide (q ∈ preorder K n p) then None else hc !! q) →
  ∀ l (hc : heap),
    Forall (ranked K n) l →
    (∀ q, q ∈ flat_map (preorder K n) l →
       ∃ nd, hc !! q = Some nd ∧ children nd = K q) →
    NoDup (flat_map (preorder K n) l) →
    ∃ h', foldl (λ acc c, h ← acc; TreeNode_delete fuel c h) (Some hc) l
          = Some h'
      ∧ ∀ q, h' !! q = if decide (q ∈ flat_map (preorder K n) l)
                        then None else hc !! q.
Proof.
  intros Hnode. induction l as [|c l IH]; intros hc Hrk Hall Hnd.
  { exists hc. split; [done|]. intros q. simpl. done. }
  apply Forall_cons in Hrk as [Hc Hrk]. simpl in Hnd, Hall.
  apply NoDup_app in Hnd as (Hnd1 & Hdisj & Hnd2).
  destruct (Hnode c hc Hc) as (h1 & Hdel & Hh1); [|done|].
  { intros q Hq. apply Hall, elem_of_app. by left. }
  destruct (IH h1 Hrk) as (h' & Hfold & Hh'); [|done|].
  { intros q Hq. rewrite Hh1, decide_False.
    - apply Hall, elem_of_app. by right.
    - intros Hq1. by apply (Hdisj q). }
  exists h'. split; [simpl; by rewrite Hdel|].
  intros q. rewrite Hh', Hh1. simpl.
  destruct (decide (q ∈ flat_map (preorder K n) l)) as [Hq|Hq].
  - rewrite decide_True; [done|]. apply elem_of_app. by right.
  - destruct (decide (q ∈ preorder K n c)) as [Hq1|Hq1].
    + rewrite decide_True; [done|]. apply elem_of_app. by left.
    + rewrite decide_False; [done|]. rewrite elem_of_app. tauto.
Qed.

Lemma TreeNode_delete_spec n : ∀ fuel p (hc : heap),
  (n ≤ fuel)%nat → ranked K n p →
  (∀ q, q ∈ preorder K n p → ∃ nd, hc !! q = Some nd ∧ children nd = K q) →
  NoDup (preorder K n p) →
  ∃ h', TreeNode_delete fuel p hc = Some h'
    ∧ ∀ q, h' !! q = if decide (q ∈ preorder K n p) then None else hc !! q.
Proof.
  induction n as [|n IH]; intros fuel p hc Hfuel Hrk Hall Hnd; [done|].
  destruct fuel as [|fuel]; [lia|].
  destruct (Hall p) as (nd & Hp & Hkids); [simpl; left|].
  simpl in Hnd. apply NoDup_cons in Hnd as [Hpn Hnd].
  destruct (delete_list_spec fuel n
              (λ c hc0, IH fuel c hc0 ltac:(lia)) (K p) hc)
    as (h1 & Hfold & Hh1); try done.
  { intros q Hq. apply Hall. simpl. by right. }
  exists (delete p h1). split.
  { simpl. rewrite Hp. simpl. rewrite Hkids, Hfold. done. }
  intros q. simpl. destruct (decide (q = p)) as [->|Hqp].
  - rewrite lookup_delete_eq, decide_True; [done|left].
  - rewrite lookup_delete_ne by done. rewrite Hh1.
    destruct (decide (q ∈ flat_map (preorder K n) (K p))) as [Hq|Hq].
    + rewrite decide_True; [done|by right].
    + rewrite decide_False; [done|]. rewrite elem_of_cons. tauto.
Qed.

End Delete.

(** The destructor of a tree returns, and frees the nodes of the tree. *)
Lemma delete_roots_tree (h : heap) n fuel rs :
  is_tree h n rs → (n ≤ fuel)%nat →
  ∃ h', delete_roots fuel rs h = Some h'
    ∧ ∀ q, h' !! q = if decide (q ∈ dfs h n rs) then None else h !! q.
Proof.
  intros (Hrk & Hnd & Hall) Hfuel. unfold delete_roots.
  apply (delete_list_spec (kids_of h) fuel n); try done.
  - intros p hc Hp Hq Hndp. by apply TreeNode_delete_spec.
  - intros q Hq. apply Forall_forall with (x := q) in Hall as [nd Hq']; [|done].
    exists nd. split; [done|]. symmetry. by apply kids_of_lookup.
Qed.
(** ** Replacing the model *)

(** [Column::sort(Sort::None)] returns on a column of the view, clears the
    sort state of a column with a comparator, and leaves every other field
    of the view and the world alone. *)
Lemma Column_sort_None sh fuel l tv w :
  (l < length (TreeView.children tv))%nat →
  ∃ cs, Column_sort sh fuel l Sort_None tv w
        = Some (TreeView.set_children cs tv, w)
    ∧ length cs = length (TreeView.children tv)
    ∧ (∀ c c', TreeView.children tv !! l = Some c → cs !! l = Some c' →
         is_Some (Column.sort_fn c) → Column.m_sort c' = Sort_None)
    ∧ (∀ i c, cs !! i = Some c →
         ∃ c0, TreeView.children tv !! i = Some c0
               ∧ Column.m_model c = Column.m_model c0).
Proof.
  intros Hl. destruct (lookup_lt_is_Some_2 _ _ Hl) as [col Hcol].
  unfold Column_sort. rewrite Hcol. simpl.
  destruct (Column.sort_fn col) as [comp|] eqn:Hfn.
  - eexists. split; [reflexivity|]. split_and!.
    + by rewrite length_insert.
    + intros c c' _. rewrite list_lookup_insert_eq by done. by intros [= <-].
    + intros i c. destruct (decide (i = l)) as [->|Hne].
      * rewrite list_lookup_insert_eq by done. intros [= <-]. by exists col.
      * rewrite list_lookup_insert_ne by done. intros Hi. by exists c.
  - exists (TreeView.children tv). split; [by destruct tv|]. split_and!.
    + done.
    + intros c c' Hc _ [f Hf]. congruence.
    + intros i c Hi. by exists c.
Qed.




(** ** Removing a node the view refers to *)

(** C6, amended: [remove] on the model of a view, for a node of the tree,
    returns the node and detaches it: the node stays in the store without a
    parent, is no longer among the roots, and the links of the model are
    consistent.  The view is not touched: its hovered node, keyboard cursor
    and selection are what they were before the call, so a reference to the
    removed node stays in the view. *)
Theorem remove_keeps_view tv w m t node :
  TreeView.m_model tv = Some m → trees w !! m = Some t →
  links_ok (nodes w) t →
  (∃ nd, nodes w !! node = Some nd ∧ (parent nd = None → node ∈ roots t)) →
  ∃ fuel0, ∀ fuel, (fuel0 ≤ fuel)%nat →
    ∃ tv' w' t',
      TreeView_model_remove fuel (Some node) tv w = Some (Some node, tv', w')
      ∧ trees w' !! m = Some t' ∧ links_ok (nodes w') t'
      ∧ (∃ nd', nodes w' !! node = Some nd' ∧ parent nd' = None)
      ∧ (node ∉ roots t')
      ∧ tv' = tv
      ∧ TreeView.m_hovered tv' = TreeView.m_hovered tv
      ∧ TreeView.m_cursor tv' = TreeView.m_cursor tv
      ∧ TreeView.m_focused tv' = TreeView.m_focused tv.
Proof.
  intros Hm Ht Hok Hnode. pose proof (links_ok_flat _ _ Hok) as Hflat.
  destruct (height_ok _ _ Hok) as [n Hn].
  exists n. intros fuel Hfuel.
  destruct (Tree_remove_spec (nodes w) t node n fuel Hflat Hn Hfuel Hnode)
    as (h' & t' & Hrun & Hok' & Hafter & Hroots).
  unfold TreeView_model_remove, TreeView_model. rewrite Hm.
  cbn -[Tree_remove]. rewrite Ht. cbn -[Tree_remove]. rewrite Hrun. simpl.
  eexists _, _, t'. split; [reflexivity|]. simpl.
  split_and!; try done. by rewrite lookup_insert_eq.
Qed.

(** Node 3, the child of root 1, is removed from the model of the view. *)
Lemma remove_keeps_view_witness :
  ∃ fuel0, ∀ fuel, (fuel0 ≤ fuel)%nat →
    ∃ tv' w' t',
      TreeView_model_remove fuel (Some 3%positive) shown_view searched_world
      = Some (Some 3%positive, tv', w')
      ∧ trees w' !! 1%positive = Some t' ∧ links_ok (nodes w') t'
      ∧ (∃ nd', nodes w' !! 3%positive = Some nd' ∧ parent nd' = None)
      ∧ (3%positive ∉ roots t')
      ∧ tv' = shown_view
      ∧ TreeView.m_hovered tv' = TreeView.m_hovered shown_view
      ∧ TreeView.m_cursor tv' = TreeView.m_cursor shown_view
      ∧ TreeView.m_focused tv' = TreeView.m_focused shown_view.
Proof.
  apply (remove_keeps_view shown_view searched_world 1%positive
           (mkTree [1; 2]%positive) 3%positive).
  - reflexivity.
  - reflexivity.
  - exact searched_store_links.
  - eexists. split; [vm_compute; reflexivity|]. simpl. discriminate.
Defined.

(** C6 as stated fails: the view hovers over node 3, which is also its
    keyboard cursor and its selection.  After [remove] has detached node 3
    (root 1 has no child left and node 3 has no parent) all three fields
    still refer to it. *)
Lemma remove_counterexample :
  ∃ tv' w' nd3,
    TreeView_model_remove 2 (Some 3%positive) shown_view searched_world
    = Some (Some 3%positive, tv', w')
    ∧ kids_of (nodes w') 1%positive = []
    ∧ dfs (nodes w') 2 [1; 2]%positive = [1; 2]%positive
    ∧ nodes w' !! 3%positive = Some nd3 ∧ parent nd3 = None
    ∧ TreeView.m_hovered tv' = Some 3%positive
    ∧ TreeView.m_cursor tv' = Some 3%positive
    ∧ TreeView.m_focused tv' = [3%positive].
Proof.
  eexists _, _, _. split; [vm_compute; reflexivity|].
  split; [vm_compute; reflexivity|]. split; [vm_compute; reflexivity|].
  split; [vm_compute; reflexivity|]. split_and!; reflexivity.
Qed.

(** ** The index of the view *)

Lemma view_frame_refl tv : view_frame tv tv.
Proof. done. Qed.

Lemma view_frame_trans tv1 tv2 tv3 :
  view_frame tv1 tv2 → view_frame tv2 tv3 → view_frame tv1 tv3.
Proof.
  intros (?&?&?&?&Hh1) (?&?&?&?&Hh2). split_and!; try congruence.
  intros i. by rewrite Hh2, Hh1.
Qed.

Lemma view_frame_sym tv1 tv2 : view_frame tv1 tv2 → view_frame tv2 tv1.
Proof.
  intros (?&?&?&?&Hh1). split_and!; try congruence. intros i. by rewrite Hh1.
Qed.

Lemma same_rows_refl h : same_rows h h.
Proof. done. Qed.

Lemma same_rows_trans h1 h2 h3 :
  same_rows h1 h2 → same_rows h2 h3 → same_rows h1 h3.
Proof. intros H1 H2 q. by rewrite H2, H1. Qed.

Lemma same_rows_sym h1 h2 : same_rows h1 h2 → same_rows h2 h1.
Proof. intros H q. by rewrite H. Qed.

Lemma same_rows_lookup (h h' : heap) q nd :
  same_rows h h' → h !! q = Some nd →
  ∃ nd', h' !! q = Some nd' ∧ row nd' = row nd.
Proof.
  intros Hs Hq. specialize (Hs q). rewrite Hq in Hs.
  destruct (h' !! q) as [nd'|]; simpl in Hs; [|done].
  exists nd'. split; [done|]. congruence.
Qed.

Lemma same_rows_kids (h h' : heap) q :
  same_rows h h' → kids_of h' q = kids_of h q.
Proof.
  intros Hs. specialize (Hs q). unfold kids_of.
  destruct (h !! q) as [nd|], (h' !! q) as [nd'|]; simpl in *; try done.
  unfold row in Hs. congruence.
Qed.

Lemma same_rows_insert (h : heap) q nd nd' :
  h !! q = Some nd → row nd' = row nd → same_rows h (<[q := nd']> h).
Proof.
  intros Hq Hrow p. destruct (decide (q = p)) as [<-|Hne].
  - rewrite lookup_insert_eq, Hq. simpl. by rewrite Hrow.
  - by rewrite lookup_insert_ne.
Qed.

Lemma same_rows_frame (h h' : heap) q nd nd' :
  h !! q = Some nd → h' !! q = Some nd' → row nd' = row nd →
  (∀ p, p ≠ q → h' !! p = h !! p) → same_rows h h'.
Proof.
  intros Hq Hq' Hrow Hfr p. destruct (decide (p = q)) as [->|Hne].
  - rewrite Hq, Hq'. simpl. by rewrite Hrow.
  - by rewrite Hfr.
Qed.

Lemma cells_ok_frame h h' tv tv' :
  same_rows h h' → view_frame tv tv' → cells_ok h tv → cells_ok h' tv'.
Proof.
  intros Hs (Hg & Hc & Hw & _) (Hcells & Hwidths & Hbound).
  split_and!; [|congruence|by rewrite Hc].
  intros p nd' Hp. specialize (Hs p). rewrite Hp in Hs.
  destruct (h !! p) as [nd|] eqn:Hnd; simpl in Hs; [|done].
  rewrite Hc, <- (Hcells p nd Hnd). unfold row in Hs. congruence.
Qed.

Lemma vec_at_Some {A} (v : list A) (i : Z) :
  0 ≤ i < Z.of_nat (length v) → is_Some (vec_at v i).
Proof.
  intros Hi. unfold vec_at. rewrite bool_decide_true by lia.
  apply lookup_lt_is_Some_2. lia.
Qed.

Lemma header_setWidth sw col : header (Column_setWidth sw col) = header col.
Proof. unfold Column_setWidth. by case_bool_decide. Qed.

Lemma header_insert_setWidth (cs : list Column.t) index col sw i :
  vec_at cs index = Some col →
  header <$> <[Z.to_nat index := Column_setWidth sw col]> cs !! i
  = header <$> cs !! i.
Proof.
  unfold vec_at. case_bool_decide; [|done]. intros Hcol.
  destruct (decide (i = Z.to_nat index)) as [->|Hne].
  - rewrite list_lookup_insert_eq by by eapply lookup_lt_Some.
    rewrite Hcol. simpl. by rewrite header_setWidth.
  - by rewrite list_lookup_insert_ne.
Qed.

Lemma set_max_cell_height_twice v v' nd :
  set_max_cell_height v (set_max_cell_height v' nd) = set_max_cell_height v nd.
Proof. done. Qed.

Lemma set_max_cell_height_same nd :
  set_max_cell_height (max_cell_height nd) nd = nd.
Proof. by destruct nd. Qed.

(** One round of the loop over the cells of [node]. *)
Lemma calculateVirtualSize_cell_spec sh node (h : heap) tv index nd d :
  h !! node = Some nd →
  0 ≤ index < Z.of_nat (length (TreeView.children tv)) →
  length (TreeView.m_column_widths tv) = length (TreeView.children tv) →
  Z.of_nat (length (TreeView.children tv)) < 2 ^ 31 →
  ∃ h' tv',
    calculateVirtualSize_cell sh node (Some (h, tv, index)) d
    = Some (h', tv', index + 1)
    ∧ h' !! node
      = Some (set_max_cell_height
                (cell_height sh (TreeView.m_grid_line_width tv)
                   (max_cell_height nd) d) nd)
    ∧ (∀ q, q ≠ node → h' !! q = h !! q)
    ∧ view_frame tv tv'.
Proof.
  intros Hnd Hindex Hwidths Hbound.
  destruct (vec_at_Some (TreeView.children tv) index Hindex) as [col Hcol].
  destruct (vec_at_Some (TreeView.m_column_widths tv) index) as [old Hold];
    [lia|].
  unfold calculateVirtualSize_cell. simpl. rewrite Hnd. simpl.
  rewrite Hcol. simpl.
  rewrite (i32_small (index + 1)) by lia.
  match goal with
  | |- context [if ?c then _ else Some tv] => destruct c
  end.
  - simpl. rewrite Hold. simpl. unfold cell_height.
    case_bool_decide; eexists _, _; (split; [reflexivity|]).
    + rewrite lookup_insert_eq. split_and!; try done.
      * intros q Hq. by rewrite lookup_insert_ne.
      * split_and!; simpl; try done; try by rewrite length_insert.
        intros i. by apply header_insert_setWidth.
    + rewrite set_max_cell_height_same. split_and!; try done.
      split_and!; simpl; try done; try by rewrite length_insert.
      intros i. by apply header_insert_setWidth.
  - simpl. unfold cell_height.
    case_bool_decide; eexists _, _; (split; [reflexivity|]).
    + rewrite lookup_insert_eq. split_and!; try done.
      intros q Hq. by rewrite lookup_insert_ne.
    + rewrite set_max_cell_height_same. done.
Qed.

Lemma calculateVirtualSize_cells_spec sh node ds :
  ∀ (h : heap) tv index nd,
  h !! node = Some nd →
  0 ≤ index →
  index + Z.of_nat (length ds) ≤ Z.of_nat (length (TreeView.children tv)) →
  length (TreeView.m_column_widths tv) = length (TreeView.children tv) →
  Z.of_nat (length (TreeView.children tv)) < 2 ^ 31 →
  ∃ h' tv',
    foldl (calculateVirtualSize_cell sh node) (Some (h, tv, index)) ds
    = Some (h', tv', index + Z.of_nat (length ds))
    ∧ h' !! node
      = Some (set_max_cell_height
                (foldl (cell_height sh (TreeView.m_grid_line_width tv))
                   (max_cell_height nd) ds) nd)
    ∧ (∀ q, q ≠ node → h' !! q = h !! q)
    ∧ view_frame tv tv'.
Proof.
  induction ds as [|d ds IH]; intros h tv index nd Hnd Hindex Hlen Hw Hb.
  { exists h, tv. simpl. rewrite Z.add_0_r, set_max_cell_height_same. done. }
  simpl in Hlen. cbn [foldl].
  destruct (calculateVirtualSize_cell_spec sh node h tv index nd d)
    as (h1 & tv1 & -> & Hnd1 & Hfr1 & Hv1); try done; [lia|].
  pose proof Hv1 as (Hg & Hc & Hw1 & _ & _).
  destruct (IH h1 tv1 (index + 1) _ Hnd1) as (h' & tv' & -> & Hnd' & Hfr & Hv);
    try lia.
  exists h', tv'. split; [f_equal; f_equal; simpl; lia|].
  split_and!.
  - rewrite Hnd', Hg. done.
  - intros q Hq. by rewrite Hfr, Hfr1.
  - by eapply view_frame_trans.
Qed.
Lemma calculateVirtualSize_visitor_spec sh node (h : heap) tv nd c cd pi so :
  h !! node = Some nd → cells_ok h tv →
  ∃ h' tv' pi' nd' bs c' cd' so',
    index_step sh (TreeView.m_grid_line_width tv) nd c cd so
    = (bs, (c', cd', so'))
    ∧ calculateVirtualSize_visitor sh node (h, (tv, (c, cd, pi, so)))
      = Some (Continue, (h', (tv', (c', cd', pi', so'))))
    ∧ h' !! node = Some nd' ∧ row nd' = row nd ∧ bs_data nd' = bs
    ∧ (∀ q, q ≠ node → h' !! q = h !! q)
    ∧ view_frame tv tv'.
Proof.
  intros Hnd (Hcells & Hwidths & Hbound).
  unfold calculateVirtualSize_visitor, index_step. rewrite Hnd.
  cbn [mbind option_bind].
  set (h0 := if bool_decide (depth nd = 1)
             then <[node := set_parent_index pi nd]> h else h).
  set (nd0 := if bool_decide (depth nd = 1)
              then set_parent_index pi nd else nd).
  set (pi0 := if bool_decide (depth nd = 1) then i32 (pi + 1) else pi).
  assert (Hnd0 : h0 !! node = Some nd0).
  { unfold h0, nd0. case_bool_decide; [by rewrite lookup_insert_eq|done]. }
  assert (Hrow0 : row nd0 = row nd) by (unfold nd0; by case_bool_decide).
  assert (Hfr0 : ∀ q, q ≠ node → h0 !! q = h !! q).
  { intros q Hq. unfold h0. case_bool_decide; [|done].
    by rewrite lookup_insert_ne. }
  replace (if bool_decide (depth nd = 1)
           then (<[node := set_parent_index pi nd]> h, i32 (pi + 1))
           else (h, pi)) with (h0, pi0)
    by (unfold h0, pi0; by case_bool_decide).
  set (ce := if bool_decide (depth nd ≤ cd) then false else c).
  set (cde := if bool_decide (depth nd ≤ cd) then -1 else cd).
  replace (if bool_decide (depth nd ≤ cd) then (false, -1) else (c, cd))
    with (ce, cde) by (unfold ce, cde; by case_bool_decide).
  clearbody h0 nd0 pi0 ce cde. rewrite Hnd0. cbn [mbind option_bind].
  pose proof Hrow0 as [= Hkids0 Hdepth0 Hcoll0 Hcols0].
  destruct ce; cbn [negb].
  - (* below a collapsed node *)
    rewrite !andb_false_r. simpl. rewrite lookup_insert_eq. simpl.
    rewrite andb_false_r.
    eexists _, tv, pi0, _, _, _, _, _.
    split; [reflexivity|]. split; [reflexivity|].
    rewrite lookup_insert_eq. split_and!; try done.
    intros q Hq. rewrite lookup_insert_ne by done. by apply Hfr0.
  - rewrite bool_decide_true
      by (unfold vec_size; rewrite Hcols0; f_equal; by eapply Hcells).
    destruct (calculateVirtualSize_cells_spec sh node (columns nd0)
                (<[node := set_max_cell_height
                             (TreeView.m_grid_line_width tv) nd0]> h0)
                tv 0 _ (lookup_insert_eq _ _ _))
      as (h2 & tv2 & Hcells2 & Hnd2 & Hfr2 & Hv2); try done.
    { rewrite Hcols0, (Hcells node nd Hnd). lia. }
    rewrite Hcells2. simpl. rewrite Hnd2. simpl.
    rewrite lookup_insert_eq. simpl. rewrite !andb_true_r, Hcoll0, Hdepth0.
    unfold row_height. rewrite <- Hcols0.
    destruct (is_collapsed nd); eexists _, _, pi0, _, _, _, _, _;
      (split; [reflexivity|]); (split; [reflexivity|]);
      rewrite lookup_insert_eq; (split_and!; try done).
    all: try (intros q Hq; rewrite lookup_insert_ne by done;
              rewrite Hfr2 by done; rewrite lookup_insert_ne by done;
              by apply Hfr0).
    all: destruct Hv2 as (?&?&?&?&?); split_and!; done.
Qed.
Lemma index_step_row sh g nd nd' c cd so :
  row nd' = row nd →
  index_step sh g nd' c cd so = index_step sh g nd c cd so.
Proof.
  intros [= _ Hdepth Hcoll Hcols]. unfold index_step.
  by rewrite Hdepth, Hcoll, Hcols.
Qed.

(** On a node that is not in the store the visitor runs into a null or
    dangling pointer. *)
Lemma calculateVirtualSize_visitor_None sh node (h : heap) x :
  h !! node = None → calculateVirtualSize_visitor sh node (h, x) = None.
Proof.
  intros Hnd. destruct x as (tv & [[[c cd] pi] so]).
  unfold calculateVirtualSize_visitor. by rewrite Hnd.
Qed.

(** The visitor as the traversal lemmas want it: it keeps the rows and the
    cell counts, goes on to the children, and leaves the node in place. *)
Lemma calculateVirtualSize_visitor_shape sh (h0 : heap) p
    (s : heap * (TreeView.t * (bool * Z * Z * Z))) t s' :
  same_rows h0 s.1 ∧ cells_ok s.1 s.2.1 →
  calculateVirtualSize_visitor sh p s = Some (t, s') →
  (same_rows h0 s'.1 ∧ cells_ok s'.1 s'.2.1) ∧ t ≠ Break
  ∧ (∃ nd, s'.1 !! p = Some nd ∧ children nd = kids_of h0 p)
  ∧ (t = Next → kids_of h0 p = []).
Proof.
  destruct s as (h & tv & [[[c cd] pi] so]). cbn [fst snd].
  intros [Hrows Hcells] Hfn.
  destruct (h !! p) as [nd|] eqn:Hnd;
    [|by rewrite calculateVirtualSize_visitor_None in Hfn].
  destruct (calculateVirtualSize_visitor_spec sh p h tv nd c cd pi so Hnd Hcells)
    as (h' & tv' & pi' & nd' & bs & c' & cd' & so' & _ & Hrun & Hnd' & Hrow
        & _ & Hfr & Hv).
  rewrite Hrun in Hfn. injection Hfn as <- <-. simpl.
  assert (Hs : same_rows h h') by by eapply same_rows_frame.
  split_and!; try done.
  - by eapply same_rows_trans.
  - by eapply cells_ok_frame.
  - exists nd'. split; [done|].
    rewrite <- (same_rows_kids h0 h p Hrows), (kids_of_lookup h p nd Hnd).
    unfold row in Hrow. congruence.
Qed.

(** Two runs over the same nodes, from stores with the same rows and with
    the same locals, return and leave the same index. *)
Lemma calculateVirtualSize_visit_all sh l :
  ∀ (h1 h2 : heap) tv1 tv2 c cd pi1 pi2 so,
  cells_ok h1 tv1 → same_rows h1 h2 → view_frame tv1 tv2 →
  Forall (λ q, is_Some (h1 !! q)) l →
  ∃ h1' tv1' x1 h2' tv2' x2,
    visit_all (calculateVirtualSize_visitor sh) l
      (h1, (tv1, (c, cd, pi1, so))) = Some (h1', (tv1', x1))
    ∧ visit_all (calculateVirtualSize_visitor sh) l
        (h2, (tv2, (c, cd, pi2, so))) = Some (h2', (tv2', x2))
    ∧ same_rows h1 h1' ∧ same_rows h2 h2'
    ∧ view_frame tv1 tv1' ∧ view_frame tv2 tv2'
    ∧ (∀ q, q ∉ l → h1' !! q = h1 !! q)
    ∧ (∀ q, q ∉ l → h2' !! q = h2 !! q)
    ∧ (∀ q, q ∈ l → bs_data <$> h1' !! q = bs_data <$> h2' !! q).
Proof.
  induction l as [|p l IH];
    intros h1 h2 tv1 tv2 c cd pi1 pi2 so Hcells Hrows Hv Hall.
  { eexists _, _, _, _, _, _. split; [reflexivity|].
    split; [reflexivity|]. split_and!; try done.
    intros q Hq. by apply elem_of_nil in Hq. }
  apply Forall_cons in Hall as [[nd1 Hnd1] Hall].
  destruct (same_rows_lookup h1 h2 p nd1 Hrows Hnd1) as (nd2 & Hnd2 & Hrow2).
  assert (Hcells2 : cells_ok h2 tv2) by by eapply cells_ok_frame.
  destruct (calculateVirtualSize_visitor_spec sh p h1 tv1 nd1 c cd pi1 so
              Hnd1 Hcells)
    as (h1a & tv1a & pi1a & nd1a & bs1 & c1 & cd1 & so1 & Hstep1 & Hrun1
        & Hnd1a & Hrow1a & Hbs1 & Hfr1 & Hv1).
  destruct (calculateVirtualSize_visitor_spec sh p h2 tv2 nd2 c cd pi2 so
              Hnd2 Hcells2)
    as (h2a & tv2a & pi2a & nd2a & bs2 & c2 & cd2 & so2 & Hstep2 & Hrun2
        & Hnd2a & Hrow2a & Hbs2 & Hfr2 & Hv2).
  assert (Hg : TreeView.m_grid_line_width tv2 = TreeView.m_grid_line_width tv1)
    by by destruct Hv.
  rewrite Hg, (index_step_row sh _ nd1 nd2) in Hstep2 by done.
  rewrite Hstep1 in Hstep2. injection Hstep2 as <- <- <- <-.
  assert (Hs1 : same_rows h1 h1a) by by eapply same_rows_frame.
  assert (Hs2 : same_rows h2 h2a) by by eapply same_rows_frame.
  destruct (IH h1a h2a tv1a tv2a c1 cd1 pi1a pi2a so1)
    as (h1' & tv1' & x1 & h2' & tv2' & x2 & Hall1 & Hall2 & Hs1' & Hs2'
        & Hv1' & Hv2' & Hout1 & Hout2 & Hbs).
  { by eapply cells_ok_frame. }
  { eapply same_rows_trans; [|exact Hs2].
    eapply same_rows_trans; [|exact Hrows]. by apply same_rows_sym. }
  { eapply view_frame_trans; [|exact Hv2].
    eapply view_frame_trans; [|exact Hv]. by apply view_frame_sym. }
  { eapply Forall_impl; [exact Hall|]. intros q [qd Hq]. simpl.
    destruct (same_rows_lookup h1 h1a q qd Hs1 Hq) as (qd' & -> & _). eauto. }
  exists h1', tv1', x1, h2', tv2', x2. cbn [visit_all].
  rewrite Hrun1, Hrun2. simpl. split_and!; try done.
  - by eapply same_rows_trans.
  - by eapply same_rows_trans.
  - by eapply view_frame_trans.
  - by eapply view_frame_trans.
  - intros q Hq. apply not_elem_of_cons in Hq as [Hqp Hq].
    by rewrite Hout1, Hfr1.
  - intros q Hq. apply not_elem_of_cons in Hq as [Hqp Hq].
    by rewrite Hout2, Hfr2.
  - intros q Hq. destruct (decide (q ∈ l)) as [Hin|Hout]; [by apply Hbs|].
    apply elem_of_cons in Hq as [->|Hq]; [|done].
    rewrite Hout1, Hout2, Hnd1a, Hnd2a by done. simpl. congruence.
Qed.
(** [calculateVirtualSize] on a tree returns; run from two states with the
    same rows it leaves the same index on the nodes of the tree, and it
    leaves the other nodes alone. *)
Lemma calculateVirtualSize_agree sh fuel n tv1 w1 tv2 w2 m t :
  TreeView.m_model tv1 = Some m →
  trees w1 !! m = Some t → trees w2 !! m = Some t →
  Forall (ranked (kids_of (nodes w1)) n) (roots t) →
  Forall (λ q, is_Some (nodes w1 !! q)) (dfs (nodes w1) n (roots t)) →
  (n ≤ fuel)%nat →
  cells_ok (nodes w1) tv1 →
  same_rows (nodes w1) (nodes w2) → view_frame tv1 tv2 →
  ∃ tv1' h1' tv2' h2',
    TreeView_calculateVirtualSize sh fuel tv1 w1
    = Some (tv1', set_nodes h1' w1)
    ∧ TreeView_calculateVirtualSize sh fuel tv2 w2
      = Some (tv2', set_nodes h2' w2)
    ∧ same_rows (nodes w1) h1' ∧ same_rows (nodes w2) h2'
    ∧ view_frame tv1 tv1' ∧ view_frame tv2 tv2'
    ∧ (∀ q, q ∉ dfs (nodes w1) n (roots t) → h1' !! q = nodes w1 !! q)
    ∧ (∀ q, q ∉ dfs (nodes w1) n (roots t) → h2' !! q = nodes w2 !! q)
    ∧ (∀ q, q ∈ dfs (nodes w1) n (roots t) →
         bs_data <$> h1' !! q = bs_data <$> h2' !! q).
Proof.
  intros Hm Ht1 Ht2 Hrk Hall Hfuel Hcells Hrows Hv.
  pose proof Hv as (Hg & Hc & Hw & Hm2 & Hhd).
  unfold TreeView_calculateVirtualSize. simpl.
  rewrite Hm2, Hm. simpl. rewrite Ht1, Ht2. simpl.
  rewrite !(Tree_forEachNode_fold (calculateVirtualSize_visitor sh)
              (kids_of (nodes w1))
              (λ s, same_rows (nodes w1) s.1 ∧ cells_ok s.1 s.2.1)
              (calculateVirtualSize_visitor_shape sh (nodes w1))
              n fuel (roots t)); try done.
  2:{ split; [done|]. simpl. eapply cells_ok_frame; [exact Hrows| |exact Hcells].
      split_and!; done. }
  destruct (calculateVirtualSize_visit_all sh (dfs (nodes w1) n (roots t))
              (nodes w1) (nodes w2)
              (TreeView.set_m_virtual_size (TreeView.m_children_size tv1) tv1)
              (TreeView.set_m_virtual_size (TreeView.m_children_size tv2) tv2)
              false (-1) 0 0 0)
    as (h1' & tv1' & x1 & h2' & tv2' & x2 & Hrun1 & Hrun2 & Hs1 & Hs2
        & Hv1 & Hv2 & Hout1 & Hout2 & Hbs); try done.
  unfold dfs in Hrun1, Hrun2. rewrite Hrun1, Hrun2. simpl.
  eexists _, h1', _, h2'. split; [reflexivity|]. split; [reflexivity|].
  split_and!; done.
Qed.

Lemma view_frame_propagate tv : view_frame tv (propagate_size_changed tv).
Proof.
  unfold propagate_size_changed.
  by destruct (TreeView.m_mode tv), (TreeView.parent_size_changed tv).
Qed.

(** C8, amended: take a view of a tree in which every node has one cell for
    each column header, and a node of the store that has children and is
    expanded.  The index recompute, [collapse] of the node, [expand] of the
    node and a second recompute all return (the fuel covers the height of
    the tree); the node is collapsed in between; and after the second
    recompute every node has the position and length the first recompute
    gave it.  The size hints of the cells are the same function [sh] in
    both recomputes. *)
Theorem collapse_expand_round_trip sh fuel n tv w m t node nd :
  TreeView.m_model tv = Some m → trees w !! m = Some t →
  is_tree (nodes w) n (roots t) → (n ≤ fuel)%nat →
  cells_ok (nodes w) tv →
  nodes w !! node = Some nd → children nd ≠ [] → is_collapsed nd = false →
  ∃ tv1 w1 tv2 w2 tv3 w3 tv4 w4,
    TreeView_calculateVirtualSize sh fuel tv w = Some (tv1, w1)
    ∧ TreeView_collapse (Some node) tv1 w1 = Some (tv2, w2)
    ∧ TreeView_expand (Some node) tv2 w2 = Some (tv3, w3)
    ∧ TreeView_calculateVirtualSize sh fuel tv3 w3 = Some (tv4, w4)
    ∧ (∃ nd2, nodes w2 !! node = Some nd2 ∧ is_collapsed nd2 = true)
    ∧ ∀ p, bs_data <$> nodes w4 !! p = bs_data <$> nodes w1 !! p.
Proof.
  intros Hm Ht (Hrk & _ & Hall) Hfuel Hcells Hnd Hkids Hexp.
  destruct (calculateVirtualSize_agree sh fuel n tv w tv w m t)
    as (tv1 & h1 & _ & _ & Hrun1 & _ & Hs1 & _ & Hv1 & _);
    try done.
  destruct (same_rows_lookup _ _ _ _ Hs1 Hnd) as (nd1 & Hnd1 & Hrow1).
  pose proof Hrow1 as [= Hkids1 Hdepth1 Hcoll1 Hcols1].
  set (nd2 := set_is_collapsed true nd1).
  set (nd3 := set_is_collapsed false nd2).
  set (tv2 := propagate_size_changed
                (notify Update
                   (TreeView.set_m_virtual_size_changed true
                      (notify (NodeCollapsed node) tv1)))).
  set (tv3 := propagate_size_changed
                (notify Update
                   (TreeView.set_m_virtual_size_changed true
                      (notify (NodeExpanded node) tv2)))).
  set (w1 := set_nodes h1 w).
  set (w2 := set_nodes (<[node := nd2]> h1) w1).
  set (w3 := set_nodes (<[node := nd3]> (<[node := nd2]> h1)) w2).
  assert (Hcol : TreeView_collapse (Some node) tv1 w1 = Some (tv2, w2)).
  { unfold TreeView_collapse. simpl. rewrite Hnd1. simpl.
    destruct (children nd1) eqn:E; [congruence|done]. }
  assert (Hexpand : TreeView_expand (Some node) tv2 w2 = Some (tv3, w3)).
  { unfold TreeView_expand. simpl. rewrite lookup_insert_eq. simpl.
    destruct (children nd1) eqn:E; [congruence|done]. }
  assert (Hv3 : view_frame tv tv3).
  { eapply view_frame_trans; [exact Hv1|].
    apply (view_frame_trans _ tv2).
    - unfold tv2. eapply view_frame_trans; [|apply view_frame_propagate].
      done.
    - unfold tv3. eapply view_frame_trans; [|apply view_frame_propagate].
      done. }
  assert (Hh3 : nodes w3 = <[node := nd3]> h1).
  { simpl. by rewrite insert_insert_eq. }
  assert (Hs3 : same_rows (nodes w) (nodes w3)).
  { rewrite Hh3. eapply same_rows_trans; [exact Hs1|].
    eapply same_rows_insert; [exact Hnd1|].
    unfold row. simpl. by rewrite Hcoll1, Hexp. }
  destruct (calculateVirtualSize_agree sh fuel n tv w tv3 w3 m t)
    as (tv1' & h1' & tv4 & h4 & Hrun1' & Hrun4 & _ & _ & _ & _ & _ & Hout4
        & Hbs); try done.
  rewrite Hrun1 in Hrun1'. injection Hrun1' as <- <-.
  exists tv1, w1, tv2, w2, tv3, w3, tv4, (set_nodes h4 w3).
  split_and!; try done.
  { exists nd2. split; [apply lookup_insert_eq|done]. }
  intros p. simpl.
  destruct (decide (p ∈ dfs (nodes w) n (roots t))) as [Hin|Hout];
    [symmetry; by apply Hbs|].
  rewrite Hout4, Hh3 by done.
  destruct (decide (p = node)) as [->|Hne].
  - by rewrite lookup_insert_eq, Hnd1.
  - by rewrite lookup_insert_ne.
Qed.

Lemma searched_store_cells : cells_ok searched_store shown_view.
Proof.
  split_and!; [|done|done].
  intros p nd. unfold searched_store.
  destruct (decide (p = 1%positive)) as [->|H1].
  { rewrite lookup_insert_eq. by intros [= <-]. }
  rewrite lookup_insert_ne by done.
  destruct (decide (p = 2%positive)) as [->|H2].
  { rewrite lookup_insert_eq. by intros [= <-]. }
  rewrite lookup_insert_ne by done.
  destruct (decide (p = 3%positive)) as [->|H3].
  { rewrite lookup_insert_eq. by intros [= <-]. }
  rewrite lookup_insert_ne by done. by rewrite lookup_empty.
Qed.

(** Root 1 of the example model, which has the child 3 and is expanded. *)
Lemma collapse_expand_round_trip_witness :
  ∃ tv1 w1 tv2 w2 tv3 w3 tv4 w4,
    TreeView_calculateVirtualSize flat_sizeHint 2 shown_view searched_world
    = Some (tv1, w1)
    ∧ TreeView_collapse (Some 1%positive) tv1 w1 = Some (tv2, w2)
    ∧ TreeView_expand (Some 1%positive) tv2 w2 = Some (tv3, w3)
    ∧ TreeView_calculateVirtualSize flat_sizeHint 2 tv3 w3 = Some (tv4, w4)
    ∧ (∃ nd2, nodes w2 !! 1%positive = Some nd2 ∧ is_collapsed nd2 = true)
    ∧ ∀ p, bs_data <$> nodes w4 !! p = bs_data <$> nodes w1 !! p.
Proof.
  eapply (collapse_expand_round_trip flat_sizeHint 2 2 shown_view
            searched_world 1%positive (mkTree [1; 2]%positive) 1%positive).
  - reflexivity.
  - reflexivity.
  - apply searched_store_indexed.
  - lia.
  - exact searched_store_cells.
  - vm_compute. reflexivity.
  - simpl. discriminate.
  - reflexivity.
Defined.

(** C8 as stated fails for a node that is collapsed to begin with: root 1
    is collapsed, so the first recompute gives its child 3 the length 0 and
    root 2 the position 11.  [collapse] and [expand] of root 1 leave it
    expanded, and the second recompute gives node 3 the length 11 and
    root 2 the position 22. *)
Lemma collapse_expand_counterexample :
  ∃ tv1 w1 tv2 w2 tv3 w3 tv4 w4 nd1 b2 b3 b2' b3',
    collapsed_world.(nodes) !! 1%positive = Some nd1
    ∧ children nd1 ≠ []
    ∧ TreeView_calculateVirtualSize flat_sizeHint 2 shown_view collapsed_world
      = Some (tv1, w1)
    ∧ TreeView_collapse (Some 1%positive) tv1 w1 = Some (tv2, w2)
    ∧ TreeView_expand (Some 1%positive) tv2 w2 = Some (tv3, w3)
    ∧ TreeView_calculateVirtualSize flat_sizeHint 2 tv3 w3 = Some (tv4, w4)
    ∧ bs_data <$> nodes w1 !! 2%positive = Some b2
    ∧ bs_data <$> nodes w1 !! 3%positive = Some b3
    ∧ bs_data <$> nodes w4 !! 2%positive = Some b2'
    ∧ bs_data <$> nodes w4 !! 3%positive = Some b3'
    ∧ b2 = BinarySearchData.mk 11 11 ∧ b3 = BinarySearchData.mk 11 0
    ∧ b2' = BinarySearchData.mk 22 11 ∧ b3' = BinarySearchData.mk 11 11.
Proof.
  eexists _, _, _, _, _, _, _, _, _, _, _, _, _.
  split; [vm_compute; reflexivity|]. split; [simpl; discriminate|].
  split; [vm_compute; reflexivity|]. split; [vm_compute; reflexivity|].
  split; [vm_compute; reflexivity|]. split; [vm_compute; reflexivity|].
  split; [vm_compute; reflexivity|]. split; [vm_compute; reflexivity|].
  split; [vm_compute; reflexivity|]. split; [vm_compute; reflexivity|].
  split_and!; reflexivity.
Qed.

(** ** Sorting a vector *)

Section Comparator.
Variable comp : ptr → ptr → bool.

Lemma linear_insert_fst val prefix calls :
  (linear_insert comp val prefix calls).1
  = (linear_insert comp val prefix 0).1.
Proof.
  revert calls. generalize 0%nat.
  induction prefix as [|next rest IH]; intros c0 calls; simpl; [done|].
  destruct (comp val next); [|done].
  specialize (IH (S c0) (S calls)).
  destruct (linear_insert comp val rest (S calls)) as [r c],
    (linear_insert comp val rest (S c0)) as [r0 c1]. simpl in *. by f_equal.
Qed.

Lemma linear_insert_calls val prefix calls :
  (calls ≤ (linear_insert comp val prefix calls).2)%nat.
Proof.
  revert calls. induction prefix as [|next rest IH]; intros calls; simpl;
    [done|].
  destruct (comp val next); simpl; [|lia].
  specialize (IH (S calls)).
  destruct (linear_insert comp val rest (S calls)) as [r c]. simpl in *. lia.
Qed.

Lemma linear_insert_perm val prefix calls :
  (linear_insert comp val prefix calls).1 ≡ₚ val :: prefix.
Proof.
  revert calls. induction prefix as [|next rest IH]; intros calls; simpl;
    [done|].
  destruct (comp val next); [|done].
  specialize (IH (S calls)).
  destruct (linear_insert comp val rest (S calls)) as [r c]. simpl in *.
  rewrite IH. apply perm_swap.
Qed.

Lemma insertion_sort_fst prefix v calls :
  (insertion_sort comp prefix v calls).1
  = (insertion_sort comp prefix v 0).1.
Proof.
  revert prefix calls. generalize 0%nat.
  induction v as [|val v IH]; intros c0 prefix calls; simpl; [done|].
  pose proof (linear_insert_fst val prefix calls) as H1.
  pose proof (linear_insert_fst val prefix c0) as H2.
  destruct (linear_insert comp val prefix calls) as [p1 c1],
    (linear_insert comp val prefix c0) as [p2 c2]. simpl in *.
  rewrite H1, <- H2. apply IH.
Qed.

Lemma insertion_sort_calls prefix v calls :
  (calls ≤ (insertion_sort comp prefix v calls).2)%nat.
Proof.
  revert prefix calls. induction v as [|val v IH]; intros prefix calls; simpl;
    [done|].
  pose proof (linear_insert_calls val prefix calls) as H1.
  destruct (linear_insert comp val prefix calls) as [p1 c1]. simpl in *.
  specialize (IH p1 c1). lia.
Qed.

Lemma insertion_sort_perm prefix v calls :
  (insertion_sort comp prefix v calls).1 ≡ₚ prefix ++ v.
Proof.
  revert prefix calls. induction v as [|val v IH]; intros prefix calls; simpl.
  - by rewrite app_nil_r, <- Permutation_rev.
  - pose proof (linear_insert_perm val prefix calls) as H1.
    destruct (linear_insert comp val prefix calls) as [p1 c1]. simpl in *.
    rewrite IH, H1. simpl. apply Permutation_middle.
Qed.

Lemma std_sort_fst v calls : (std_sort comp v calls).1 = (std_sort comp v 0).1.
Proof. apply insertion_sort_fst. Qed.

Lemma std_sort_calls v calls : (calls ≤ (std_sort comp v calls).2)%nat.
Proof. apply insertion_sort_calls. Qed.

Lemma std_sort_calls_lt v calls :
  (2 ≤ length v)%nat → (calls < (std_sort comp v calls).2)%nat.
Proof.
  destruct v as [|a [|b v]]; simpl; try lia. intros _.
  unfold std_sort. simpl.
  pose proof (insertion_sort_calls
                (if comp b a then [a; b] else [b; a]) v (S calls)) as H1.
  destruct (comp b a); simpl in *; lia.
Qed.

Lemma std_sort_perm v calls : (std_sort comp v calls).1 ≡ₚ v.
Proof. apply insertion_sort_perm. Qed.

Lemma std_sort_reverse_fst v calls :
  (std_sort_reverse comp v calls).1 = (std_sort_reverse comp v 0).1.
Proof.
  unfold std_sort_reverse. pose proof (std_sort_fst (rev v) calls) as H1.
  destruct (std_sort comp (rev v) calls) as [r c],
    (std_sort comp (rev v) 0) as [r0 c0]. simpl in *. by rewrite H1.
Qed.

Lemma std_sort_reverse_calls v calls :
  (calls ≤ (std_sort_reverse comp v calls).2)%nat.
Proof.
  unfold std_sort_reverse. pose proof (std_sort_calls (rev v) calls) as H1.
  by destruct (std_sort comp (rev v) calls) as [r c].
Qed.

Lemma std_sort_reverse_perm v calls :
  (std_sort_reverse comp v calls).1 ≡ₚ v.
Proof.
  unfold std_sort_reverse. pose proof (std_sort_perm (rev v) calls) as H1.
  destruct (std_sort comp (rev v) calls) as [r c]. simpl in *.
  by rewrite <- Permutation_rev, H1, <- Permutation_rev.
Qed.

Hypothesis comp_order : strict_total comp.

Lemma sort_le_trans x y z :
  sort_le comp x y → sort_le comp y z → sort_le comp x z.
Proof.
  destruct comp_order as (Hirr & Htr & Htot). unfold sort_le.
  intros Hxy Hyz. destruct (comp z x) eqn:Hzx; [|done].
  destruct (decide (x = y)) as [->|Hne]; [congruence|].
  destruct (Htot x y Hne) as [H|H]; [|congruence].
  rewrite (Htr z x y Hzx H) in Hyz. done.
Qed.

Lemma sort_le_antisym x y : sort_le comp x y → sort_le comp y x → x = y.
Proof.
  destruct comp_order as (Hirr & Htr & Htot). unfold sort_le.
  intros Hxy Hyx. destruct (decide (x = y)) as [|Hne]; [done|].
  destruct (Htot x y Hne); congruence.
Qed.

Lemma sort_le_asym x y : comp x y = true → sort_le comp x y.
Proof.
  destruct comp_order as (Hirr & Htr & Htot). unfold sort_le.
  intros Hxy. destruct (comp y x) eqn:Hyx; [|done].
  pose proof (Htr x y x Hxy Hyx) as Hxx. by rewrite Hirr in Hxx.
Qed.

Lemma sorted_unique l1 l2 :
  sorted_forwards comp l1 → sorted_forwards comp l2 → l1 ≡ₚ l2 → l1 = l2.
Proof.
  apply StronglySorted_unique_strong.
  intros x y _ _. apply sort_le_antisym.
Qed.

Lemma StronglySorted_rev (R : relation ptr) l :
  StronglySorted (flip R) l → StronglySorted R (rev l).
Proof.
  induction 1 as [|x l Hl IH Hx]; simpl; [constructor|].
  apply StronglySorted_app_2; [|done|repeat constructor].
  intros y z Hy Hz. apply list_elem_of_singleton in Hz as ->.
  rewrite Forall_forall in Hx. apply Hx.
  by apply list_elem_of_In, in_rev, list_elem_of_In in Hy.
Qed.

Lemma linear_insert_sorted val prefix calls :
  StronglySorted (flip (sort_le comp)) prefix →
  StronglySorted (flip (sort_le comp)) (linear_insert comp val prefix calls).1.
Proof.
  revert calls. induction prefix as [|next rest IH]; intros calls Hs; simpl.
  { repeat constructor. }
  apply StronglySorted_cons in Hs as [Hnext Hrest].
  destruct (comp val next) eqn:Hc.
  - specialize (IH (S calls) Hrest).
    pose proof (linear_insert_perm val rest (S calls)) as Hp.
    destruct (linear_insert comp val rest (S calls)) as [r c]. simpl in *.
    apply StronglySorted_cons. split; [|done].
    rewrite Hp. apply Forall_cons. split; [|done].
    by apply sort_le_asym.
  - apply StronglySorted_cons. split.
    + apply Forall_cons. split; [done|].
      eapply Forall_impl; [exact Hnext|]. intros y Hy. simpl in *.
      unfold flip in *. by eapply sort_le_trans.
    + by apply StronglySorted_cons.
Qed.

Lemma insertion_sort_sorted prefix v calls :
  StronglySorted (flip (sort_le comp)) prefix →
  sorted_forwards comp (insertion_sort comp prefix v calls).1.
Proof.
  revert prefix calls. induction v as [|val v IH]; intros prefix calls Hs;
    simpl.
  - by apply StronglySorted_rev.
  - pose proof (linear_insert_sorted val prefix calls Hs) as H1.
    destruct (linear_insert comp val prefix calls) as [p1 c1]. simpl in *.
    by apply IH.
Qed.

Lemma std_sort_sorted v calls : sorted_forwards comp (std_sort comp v calls).1.
Proof. apply insertion_sort_sorted. constructor. Qed.

Lemma std_sort_reverse_sorted v calls :
  sorted_backwards comp (std_sort_reverse comp v calls).1.
Proof.
  unfold std_sort_reverse, sorted_backwards.
  pose proof (std_sort_sorted (rev v) calls) as H1.
  destruct (std_sort comp (rev v) calls) as [r c]. simpl in *.
  by rewrite rev_involutive.
Qed.

(** Sorting forwards a vector that is sorted backwards reverses it. *)
Lemma std_sort_backwards v calls :
  sorted_backwards comp v → (std_sort comp v calls).1 = rev v.
Proof.
  intros Hv. apply sorted_unique; [apply std_sort_sorted|done|].
  by rewrite std_sort_perm, <- Permutation_rev.
Qed.

Lemma std_sort_idem v c1 c2 :
  (std_sort comp (std_sort comp v c1).1 c2).1 = (std_sort comp v c1).1.
Proof.
  apply sorted_unique; [apply std_sort_sorted..|apply std_sort_perm].
Qed.

Lemma std_sort_reverse_idem v c1 c2 :
  (std_sort_reverse comp (std_sort_reverse comp v c1).1 c2).1
  = (std_sort_reverse comp v c1).1.
Proof.
  set (a := (std_sort_reverse comp (std_sort_reverse comp v c1).1 c2).1).
  set (b := (std_sort_reverse comp v c1).1).
  assert (Hrev : rev a = rev b).
  { apply sorted_unique.
    - apply std_sort_reverse_sorted.
    - apply std_sort_reverse_sorted.
    - unfold a. by rewrite <- !Permutation_rev, std_sort_reverse_perm. }
  by rewrite <- (rev_involutive a), Hrev, rev_involutive.
Qed.

End Comparator.
(** ** A sorting pass over the model *)

Lemma for_range_renumber {B} (f : TreeNode → B) (v : list ptr) n :
  (∀ i nd, f (set_parent_index i nd) = f nd) →
  ∀ lo (h : heap),
    Z.of_nat n = vec_size v - lo → 0 ≤ lo →
    Forall (λ q, is_Some (h !! q)) v →
    ∃ h', for_range n lo
            (λ i h, c ← vec_at v i; modify c (set_parent_index (i32 i)) h) h
          = Some h'
      ∧ ∀ q, f <$> h' !! q = f <$> h !! q.
Proof.
  intros Hf. unfold vec_size.
  induction n as [|n IH]; intros lo h Hn Hlo Hall; [by exists h|].
  destruct (vec_at_Some v lo) as [c Hc]; [lia|].
  assert (Hcal : is_Some (h !! c)).
  { rewrite Forall_forall in Hall. apply Hall. unfold vec_at in Hc.
    case_bool_decide; [|done]. by eapply list_elem_of_lookup_2. }
  destruct Hcal as [cd Hcd].
  destruct (IH (lo + 1) (<[c := set_parent_index (i32 lo) cd]> h))
    as (h' & Hrun & Hkeep); [lia|lia|by apply allocated_insert|].
  exists h'. split.
  { simpl. rewrite Hc. simpl. rewrite (modify_Some _ _ _ _ Hcd). simpl.
    exact Hrun. }
  intros q. rewrite Hkeep. destruct (decide (c = q)) as [<-|Hne].
  - rewrite lookup_insert_eq, Hcd. simpl. by rewrite Hf.
  - by rewrite lookup_insert_ne.
Qed.

Lemma renumber_from_keeps {B} (f : TreeNode → B) (v : list ptr) (h : heap) :
  (∀ i nd, f (set_parent_index i nd) = f nd) →
  Forall (λ q, is_Some (h !! q)) v →
  ∃ h', renumber_from 0 v h = Some h' ∧ ∀ q, f <$> h' !! q = f <$> h !! q.
Proof.
  intros Hf Hall. unfold renumber_from.
  apply for_range_renumber; try done. unfold vec_size. lia.
Qed.

Lemma preorder_elem_perm K K' n :
  (∀ p, K' p ≡ₚ K p) →
  ∀ p q, q ∈ preorder K' n p ↔ q ∈ preorder K n p.
Proof.
  intros HK. induction n as [|n IH]; intros p q; simpl; [done|].
  rewrite !elem_of_cons, !elem_of_flat_map.
  split; (intros [?|(c & Hc & Hq)]; [by left|]; right; exists c).
  - rewrite <- HK. split; [done|]. by apply IH.
  - rewrite HK. split; [done|]. by apply IH.
Qed.

Lemma dfs_elem_perm K K' n rs rs' q :
  (∀ p, K' p ≡ₚ K p) → rs' ≡ₚ rs →
  q ∈ flat_map (preorder K' n) rs' ↔ q ∈ flat_map (preorder K n) rs.
Proof.
  intros HK Hrs. rewrite !elem_of_flat_map.
  split; intros (c & Hc & Hq); exists c.
  - rewrite <- Hrs. split; [done|]. by apply (preorder_elem_perm K K').
  - rewrite Hrs. split; [done|]. by apply (preorder_elem_perm K K').
Qed.

Lemma ranked_perm K K' n p :
  (∀ q, K' q ≡ₚ K q) → ranked K n p → ranked K' n p.
Proof.
  intros HK. apply ranked_sub. intros q c Hc. by rewrite <- HK.
Qed.

Section SortPass.
Variable sorter : list ptr → nat → list ptr * nat.
Variable sortf : list ptr → list ptr.
Hypothesis sorter_list : ∀ l c, (sorter l c).1 = sortf l.
Hypothesis sorter_calls : ∀ l c, (c ≤ (sorter l c).2)%nat.
Hypothesis sortf_perm : ∀ l, sortf l ≡ₚ l.
Hypothesis sortf_idem : ∀ l, sortf (sortf l) = sortf l.

Lemma sortf_nil : sortf [] = [].
Proof. apply Permutation_nil. symmetry. apply sortf_perm. Qed.

Lemma sortf_nil_inv l : sortf l = [] → l = [].
Proof. intros H. apply Permutation_nil. by rewrite <- (sortf_perm l), H. Qed.

(** The visitor of [Column::sort] on a node whose children are in the
    store. *)
Lemma sort_visitor_spec p (h : heap) c nd :
  h !! p = Some nd → Forall (λ q, is_Some (h !! q)) (children nd) →
  ∃ t h' c' nd',
    sort_visitor sorter p (h, c) = Some (t, (h', c'))
    ∧ t ≠ Break ∧ (t = Next → children nd = [])
    ∧ (c ≤ c')%nat
    ∧ h' !! p = Some nd' ∧ children nd' = sortf (children nd)
    ∧ columns nd' = columns nd
    ∧ (∀ q, q ≠ p →
         children <$> h' !! q = children <$> h !! q
         ∧ columns <$> h' !! q = columns <$> h !! q).
Proof.
  intros Hnd Hall. unfold sort_visitor. rewrite Hnd. simpl.
  destruct (children nd) as [|k ks] eqn:Hkids.
  { exists Next, h, c, nd. rewrite Hkids, sortf_nil. split_and!; done. }
  pose proof (sorter_list (k :: ks) c) as Hlist.
  pose proof (sorter_calls (k :: ks) c) as Hcalls.
  destruct (sorter (k :: ks) c) as [kids' c']. simpl in Hlist, Hcalls.
  subst kids'.
  destruct (renumber_from_keeps (λ nd, (children nd, columns nd))
              (sortf (k :: ks))
              (<[p := set_children (sortf (k :: ks)) nd]> h))
    as (h' & -> & Hkeep); [done| |].
  { apply allocated_insert. by rewrite sortf_perm. }
  simpl. pose proof (Hkeep p) as Hp. rewrite lookup_insert_eq in Hp.
  destruct (h' !! p) as [nd'|] eqn:Hnd'; [|done]. simpl in Hp.
  injection Hp as Hc1 Hc2.
  exists Continue, h', c', nd'. split_and!; try done.
  intros q Hq. specialize (Hkeep q). rewrite lookup_insert_ne in Hkeep by done.
  destruct (h' !! q), (h !! q); simpl in *; try done.
  split; congruence.
Qed.

Variable h0 : heap.
Hypothesis h0_closed : closed h0.

Lemma sort_progress_refl : sort_progress sortf h0 h0.
Proof. intros q. split; [done|by left]. Qed.

Lemma sort_progress_lookup (h : heap) p nd :
  sort_progress sortf h0 h → h !! p = Some nd →
  ∃ nd0, h0 !! p = Some nd0 ∧ columns nd = columns nd0
    ∧ sortf (children nd) = sortf (children nd0)
    ∧ children nd ≡ₚ children nd0.
Proof.
  intros Hprog Hnd. destruct (Hprog p) as [Hcols Hkids].
  rewrite Hnd in Hcols, Hkids.
  destruct (h0 !! p) as [nd0|]; [|done]. simpl in *.
  exists nd0. injection Hcols as Hcols. split_and!; [done|done| |].
  - destruct Hkids as [[= ->]|[= ->]]; [done|apply sortf_idem].
  - destruct Hkids as [[= ->]|[= ->]]; [done|apply sortf_perm].
Qed.

Lemma sort_progress_allocated (h : heap) q :
  sort_progress sortf h0 h → is_Some (h0 !! q) → is_Some (h !! q).
Proof.
  intros Hprog [nd0 Hq]. destruct (Hprog q) as [Hcols _].
  rewrite Hq in Hcols. by destruct (h !! q).
Qed.

Lemma sort_progress_children (h : heap) p nd :
  sort_progress sortf h0 h → h !! p = Some nd →
  Forall (λ q, is_Some (h !! q)) (children nd).
Proof.
  intros Hprog Hnd.
  destruct (sort_progress_lookup h p nd Hprog Hnd) as (nd0 & Hnd0 & _ & _ & Hp).
  apply Forall_forall. intros q Hq. rewrite Hp in Hq.
  eapply sort_progress_allocated; [done|]. by eapply h0_closed.
Qed.

(** One visit keeps the progress, and leaves the visited node sorted. *)
Lemma sort_visitor_progress p (h : heap) c nd :
  sort_progress sortf h0 h → h !! p = Some nd →
  ∃ t h' c',
    sort_visitor sorter p (h, c) = Some (t, (h', c'))
    ∧ t ≠ Break ∧ (t = Next → kids_of h0 p = [])
    ∧ (c ≤ c')%nat
    ∧ sort_progress sortf h0 h'
    ∧ children <$> h' !! p = Some (sortf (kids_of h0 p))
    ∧ (∀ q, q ≠ p → children <$> h' !! q = children <$> h !! q).
Proof.
  intros Hprog Hnd.
  destruct (sort_progress_lookup h p nd Hprog Hnd)
    as (nd0 & Hnd0 & Hcols0 & Hsort0 & Hperm0).
  destruct (sort_visitor_spec p h c nd Hnd)
    as (t & h' & c' & nd' & Hrun & Ht & Hnext & Hc & Hnd' & Hkids' & Hcols'
        & Hfr); [by eapply sort_progress_children|].
  rewrite (kids_of_lookup h0 p nd0 Hnd0).
  exists t, h', c'. split_and!; try done.
  - intros Hn. apply Permutation_nil. rewrite <- Hperm0. by rewrite Hnext.
  - intros q. destruct (decide (q = p)) as [->|Hne].
    + rewrite Hnd', Hnd0. simpl. split; [congruence|].
      right. congruence.
    + destruct (Hfr q Hne) as [-> ->]. apply Hprog.
  - rewrite Hnd'. simpl. congruence.
  - intros q Hq. by destruct (Hfr q Hq).
Qed.

Lemma sort_visit_all l : ∀ (h : heap) c,
  sort_progress sortf h0 h → Forall (λ q, is_Some (h0 !! q)) l →
  ∃ h' c',
    visit_all (sort_visitor sorter) l (h, c) = Some (h', c')
    ∧ (c ≤ c')%nat
    ∧ sort_progress sortf h0 h'
    ∧ (∀ q, q ∈ l → children <$> h' !! q = Some (sortf (kids_of h0 q)))
    ∧ (∀ q, q ∉ l → children <$> h' !! q = children <$> h !! q).
Proof.
  induction l as [|p l IH]; intros h c Hprog Hall.
  { exists h, c. split_and!; try done. intros q Hq. by apply elem_of_nil in Hq. }
  apply Forall_cons in Hall as [Hp Hall].
  destruct (sort_progress_allocated h p Hprog Hp) as [nd Hnd].
  destruct (sort_visitor_progress p h c nd Hprog Hnd)
    as (t & h1 & c1 & Hrun & _ & _ & Hc1 & Hprog1 & Hsorted & Hfr).
  destruct (IH h1 c1 Hprog1 Hall)
    as (h' & c' & Hall' & Hc' & Hprog' & Hin & Hout).
  exists h', c'. cbn [visit_all]. rewrite Hrun. simpl.
  split_and!; try done; [lia| |].
  - intros q Hq. destruct (decide (q ∈ l)) as [Hl|Hl]; [by apply Hin|].
    apply elem_of_cons in Hq as [->|Hq]; [|done]. by rewrite Hout.
  - intros q Hq. apply not_elem_of_cons in Hq as [Hqp Hq].
    by rewrite Hout, Hfr.
Qed.

(** The visitor as the traversal lemmas want it. *)
Lemma sort_visitor_shape p (s : heap * nat) t s' :
  sort_progress sortf h0 s.1 →
  sort_visitor sorter p s = Some (t, s') →
  sort_progress sortf h0 s'.1 ∧ t ≠ Break
  ∧ (∃ nd, s'.1 !! p = Some nd ∧ children nd = sortf (kids_of h0 p))
  ∧ (t = Next → sortf (kids_of h0 p) = []).
Proof.
  destruct s as [h c]. cbn [fst]. intros Hprog Hfn.
  destruct (h !! p) as [nd|] eqn:Hnd;
    [|by unfold sort_visitor in Hfn; rewrite Hnd in Hfn].
  destruct (sort_visitor_progress p h c nd Hprog Hnd)
    as (t1 & h1 & c1 & Hrun & Ht & Hnext & _ & Hprog1 & Hsorted & _).
  rewrite Hrun in Hfn. injection Hfn as <- <-. simpl.
  split_and!; try done.
  - destruct (h1 !! p) as [nd1|]; [|done]. exists nd1.
    split; [done|]. by injection Hsorted.
  - intros Hn. rewrite (Hnext Hn). apply sortf_nil.
Qed.

Lemma sort_progress_kids (h : heap) p :
  sort_progress sortf h0 h → kids_of h p ≡ₚ kids_of h0 p.
Proof.
  intros Hprog. destruct (Hprog p) as [_ Hkids]. unfold kids_of.
  destruct (h !! p) as [nd|], (h0 !! p) as [nd0|]; simpl in *;
    try by destruct Hkids.
  destruct Hkids as [[= ->]|[= ->]]; [done|apply sortf_perm].
Qed.

(** The reordering of [Column::sort] on a tree: it returns, the roots and
    the children of every node of the tree are sorted, and the store still
    holds a tree of the same height. *)
Lemma sort_model_spec fuel n m ts c t :
  ts !! m = Some t →
  Forall (ranked (kids_of h0) n) (roots t) →
  Forall (λ q, is_Some (h0 !! q)) (dfs h0 n (roots t)) →
  (n ≤ fuel)%nat →
  ∃ h' c',
    sort_model fuel sorter m (mkWorld h0 ts c)
    = Some (mkWorld h' (<[m := mkTree (sortf (roots t))]> ts) c')
    ∧ ((sorter (roots t) c).2 ≤ c')%nat
    ∧ sort_progress sortf h0 h'
    ∧ (∀ q, q ∈ dfs h0 n (roots t) →
         children <$> h' !! q = Some (sortf (kids_of h0 q)))
    ∧ (∀ q, q ∉ dfs h0 n (roots t) →
         children <$> h' !! q = children <$> h0 !! q)
    ∧ Forall (ranked (kids_of h') n) (sortf (roots t))
    ∧ Forall (λ q, is_Some (h' !! q)) (dfs h' n (sortf (roots t))).
Proof.
  intros Ht Hrk Hall Hfuel. unfold sort_model. simpl. rewrite Ht. simpl.
  pose proof (sorter_list (roots t) c) as Hlist.
  pose proof (sorter_calls (roots t) c) as Hcalls.
  destruct (sorter (roots t) c) as [rs c1]. simpl in Hlist, Hcalls. subst rs.
  cbn [fst snd].
  set (K := λ p, sortf (kids_of h0 p)).
  assert (HK : ∀ p, K p ≡ₚ kids_of h0 p) by (intros p; apply sortf_perm).
  assert (HrkK : Forall (ranked K n) (sortf (roots t))).
  { rewrite sortf_perm. eapply Forall_impl; [exact Hrk|].
    intros p. by apply ranked_perm. }
  rewrite (Tree_forEachNode_fold (sort_visitor sorter) K
             (λ s, sort_progress sortf h0 s.1) sort_visitor_shape
             n fuel (sortf (roots t)) (h0, c1) Hfuel HrkK sort_progress_refl).
  destruct (sort_visit_all (flat_map (preorder K n) (sortf (roots t))) h0 c1)
    as (h' & c' & -> & Hc' & Hprog & Hin & Hout); [apply sort_progress_refl| |].
  { apply Forall_forall. intros q Hq. rewrite Forall_forall in Hall.
    apply Hall. by apply (dfs_elem_perm (kids_of h0) K n (roots t)) in Hq. }
  simpl. exists h', c'. split; [done|].
  assert (Hk' : ∀ p, kids_of h' p ≡ₚ kids_of h0 p)
    by (intros p; by apply sort_progress_kids).
  split_and!; try done.
  - intros q Hq. apply Hin.
    by apply (dfs_elem_perm (kids_of h0) K n (roots t)).
  - intros q Hq. apply Hout. intros Hq'. apply Hq.
    by apply (dfs_elem_perm (kids_of h0) K n (roots t)) in Hq'.
  - rewrite sortf_perm. eapply Forall_impl; [exact Hrk|].
    intros p. by apply ranked_perm.
  - apply Forall_forall. intros q Hq.
    eapply sort_progress_allocated; [done|].
    rewrite Forall_forall in Hall. apply Hall.
    by apply (dfs_elem_perm (kids_of h0) (kids_of h') n (roots t)) in Hq.
Qed.

End SortPass.
(** ** Sorting from the header *)

Lemma cells_ok_progress sortf (h0 h : heap) tv :
  sort_progress sortf h0 h → cells_ok h0 tv → cells_ok h tv.
Proof.
  intros Hprog (Hcells & Hw & Hb). split_and!; try done.
  intros p nd Hp. destruct (Hprog p) as [Hcols _]. rewrite Hp in Hcols.
  destruct (h0 !! p) as [nd0|] eqn:Hp0; [|done].
  injection Hcols as ->. by eapply Hcells.
Qed.

(** [TreeView::sizeHint] with the index out of date: the header is measured
    if need be, and the index is rebuilt. *)
Lemma TreeView_sizeHint_spec sh fuel n tv w m t :
  TreeView.m_model tv = Some m → trees w !! m = Some t →
  Forall (ranked (kids_of (nodes w)) n) (roots t) →
  Forall (λ q, is_Some (nodes w !! q)) (dfs (nodes w) n (roots t)) →
  (n ≤ fuel)%nat → cells_ok (nodes w) tv →
  TreeView.m_virtual_size_changed tv = true →
  ∃ tv' h',
    TreeView_sizeHint sh fuel tv w = Some (tv', set_nodes h' w)
    ∧ same_rows (nodes w) h' ∧ view_frame tv tv'.
Proof.
  intros Hm Ht Hrk Hall Hfuel Hcells Hchanged. unfold TreeView_sizeHint.
  match goal with
  | |- context [if TreeView.m_virtual_size_changed ?x then _ else _] =>
      set (tvp := x)
  end.
  assert (Hvp : view_frame tv tvp).
  { unfold tvp. destruct (TreeView.m_size_changed tv); [|done].
    destruct Hcells as (_ & Hw & _).
    split_and!; simpl; try done. by rewrite !length_map. }
  assert (Hcp : TreeView.m_virtual_size_changed tvp = true).
  { unfold tvp. by destruct (TreeView.m_size_changed tv). }
  rewrite Hcp.
  assert (Hmp : TreeView.m_model tvp = Some m).
  { destruct Hvp as (_ & _ & _ & -> & _). done. }
  destruct (calculateVirtualSize_agree sh fuel n tvp w tvp w m t)
    as (tv' & h' & _ & _ & Hrun & _ & Hs & _ & Hv & _); try done.
  { eapply cells_ok_frame; [|exact Hvp|exact Hcells]. done. }
  exists tv', h'. split_and!; try done. by eapply view_frame_trans.
Qed.

(** [Column::sort] with [Sort::Ascending] or [Sort::Descending] on a header
    with the strict total order [comp], over a tree.  The direction is taken
    from the sort state of the header, not from the argument. *)
Lemma Column_sort_spec sh fuel n ci sort tv w m t col comp :
  TreeView.children tv !! ci = Some col →
  Column.sort_fn col = Some comp → Column.m_model col = Some m →
  sort ≠ Sort_None →
  TreeView.m_model tv = Some m → trees w !! m = Some t →
  Forall (ranked (kids_of (nodes w)) n) (roots t) →
  Forall (λ q, is_Some (nodes w !! q)) (dfs (nodes w) n (roots t)) →
  closed (nodes w) → cells_ok (nodes w) tv → (n ≤ fuel)%nat →
  strict_total comp →
  ∃ tv' w' sortf,
    Column_sort sh fuel ci sort tv w = Some (tv', w')
    ∧ sortf = (if bool_decide (Column.m_sort col = Ascending)
               then λ l, (std_sort_reverse comp l 0).1
               else λ l, (std_sort comp l 0).1)
    ∧ trees w' = <[m := mkTree (sortf (roots t))]> (trees w)
    ∧ (∀ q, q ∈ dfs (nodes w) n (roots t) →
         children <$> nodes w' !! q = Some (sortf (kids_of (nodes w) q)))
    ∧ (∀ q, q ∉ dfs (nodes w) n (roots t) →
         children <$> nodes w' !! q = children <$> nodes w !! q)
    ∧ view_frame tv tv'
    ∧ ((if bool_decide (Column.m_sort col = Ascending)
        then (std_sort_reverse comp (roots t) (sort_fn_calls w)).2
        else (std_sort comp (roots t) (sort_fn_calls w)).2)
       ≤ sort_fn_calls w')%nat.
Proof.
  intros Hcol Hfn Hcm Hsort Hm Ht Hrk Hall Hclosed Hcells Hfuel Hcomp.
  destruct w as [h0 ts c]. simpl in *.
  unfold Column_sort. rewrite Hcol. simpl. rewrite Hfn, Hcm. simpl.
  set (sorter := if bool_decide (Column_isSorted col = Ascending)
                 then std_sort_reverse comp else std_sort comp).
  set (sortf := if bool_decide (Column.m_sort col = Ascending)
                then λ l, (std_sort_reverse comp l 0).1
                else λ l, (std_sort comp l 0).1).
  assert (Hmodel : ∃ h1 c1,
    (if bool_decide (Column_isSorted col = Ascending)
     then sort_model fuel (std_sort_reverse comp) m (mkWorld h0 ts c)
     else sort_model fuel (std_sort comp) m (mkWorld h0 ts c))
    = Some (mkWorld h1 (<[m := mkTree (sortf (roots t))]> ts) c1)
    ∧ ((sorter (roots t) c).2 ≤ c1)%nat
    ∧ sort_progress sortf h0 h1
    ∧ (∀ q, q ∈ dfs h0 n (roots t) →
         children <$> h1 !! q = Some (sortf (kids_of h0 q)))
    ∧ (∀ q, q ∉ dfs h0 n (roots t) →
         children <$> h1 !! q = children <$> h0 !! q)
    ∧ Forall (ranked (kids_of h1) n) (sortf (roots t))
    ∧ Forall (λ q, is_Some (h1 !! q)) (dfs h1 n (sortf (roots t)))).
  { unfold sorter, sortf, Column_isSorted. case_bool_decide.
    - apply (sort_model_spec (std_sort_reverse comp)
               (λ l, (std_sort_reverse comp l 0).1)); try done.
      + intros l c0. apply std_sort_reverse_fst.
      + intros l c0. apply std_sort_reverse_calls.
      + intros l. apply std_sort_reverse_perm.
      + intros l. by apply std_sort_reverse_idem.
    - apply (sort_model_spec (std_sort comp)
               (λ l, (std_sort comp l 0).1)); try done.
      + intros l c0. apply std_sort_fst.
      + intros l c0. apply std_sort_calls.
      + intros l. apply std_sort_perm.
      + intros l. by apply std_sort_idem. }
  destruct Hmodel as (h1 & c1 & Hrun & Hc1 & Hprog & Hin & Hout & Hrk1 & Hall1).
  destruct (TreeView_sizeHint_spec sh fuel n
              (TreeView.set_m_virtual_size_changed true tv)
              (mkWorld h1 (<[m := mkTree (sortf (roots t))]> ts) c1)
              m (mkTree (sortf (roots t))))
    as (tv' & h' & Hsz & Hs & Hv);
    [done|simpl; apply lookup_insert_eq|done|done|done
    |by eapply cells_ok_progress|done|].
  simpl in Hs.
  assert (Hkids' : ∀ q, children <$> h' !! q = children <$> h1 !! q).
  { intros q. pose proof (Hs q) as Hsq.
    destruct (h' !! q), (h1 !! q); simpl in *; unfold row in *; congruence. }
  assert (Hcalls : ((if bool_decide (Column.m_sort col = Ascending)
                     then (std_sort_reverse comp (roots t) c).2
                     else (std_sort comp (roots t) c).2) ≤ c1)%nat).
  { unfold sorter, Column_isSorted in Hc1. by case_bool_decide. }
  assert (Hframe : view_frame tv (notify Update tv')).
  { destruct Hv as (?&?&?&?&?). split_and!; done. }
  destruct sort; [done| |]; rewrite Hrun; simpl; rewrite Hsz; simpl;
    eexists _, _, sortf; (split; [reflexivity|]); (split; [reflexivity|]);
    simpl;
    (split_and!;
     [done
     |intros q Hq; rewrite Hkids'; by apply Hin
     |intros q Hq; rewrite Hkids'; by apply Hout
     |done|done]).
Qed.
Lemma closed_decide (h : heap) :
  map_Forall (λ _ nd, Forall (λ c, is_Some (h !! c)) (children nd)) h →
  closed h.
Proof.
  intros Hh p nd c Hp Hc. specialize (Hh p nd Hp). simpl in Hh.
  rewrite Forall_forall in Hh. by apply Hh.
Qed.

Lemma cells_ok_decide (h : heap) tv :
  map_Forall (λ _ nd, length (columns nd) = length (TreeView.children tv)) h →
  length (TreeView.m_column_widths tv) = length (TreeView.children tv) →
  Z.of_nat (length (TreeView.children tv)) < 2 ^ 31 →
  cells_ok h tv.
Proof. intros Hh Hw Hb. by split_and!. Qed.




(** ** Traversals that stop early *)

Section FoldUntil.
Context {X : Type}.
Implicit Types (s : heap * X) (l : list ptr).

Lemma visit_until_app (fn : visitor X) l1 l2 s :
  visit_until fn (l1 ++ l2) s =
  match visit_until fn l1 s with
  | Some (true, s1) => Some (true, s1)
  | Some (false, s1) => visit_until fn l2 s1
  | None => None
  end.
Proof.
  revert s. induction l1 as [|p l1 IH]; intros s; simpl; [done|].
  destruct (fn p s) as [[t s1]|]; simpl; [|done].
  destruct t; try apply IH. done.
Qed.

Variable fn : visitor X.
Variable K : ptr → list ptr.
Variable I : heap * X → Prop.
Variable D : ptr → Prop.

(** On the nodes of [D] the visitor keeps [I]; where it answers [Continue]
    the visited node has the children [K] says, and it answers [Next] on
    childless nodes only. *)
Hypothesis fn_shape : ∀ p s t s',
  D p → I s → fn p s = Some (t, s') →
  I s' ∧ (t = Continue → ∃ nd, s'.1 !! p = Some nd ∧ children nd = K p)
  ∧ (t = Next → K p = []).

Lemma descend_children_until rec n l :
  (∀ ee c s, ranked K n c → Forall D (preorder K n c) → I s →
     stops_like I (rec ee c s) (visit_until fn (preorder K n c) s)) →
  ∀ last ee s,
    Forall (ranked K n) l → Forall D (flat_map (preorder K n) l) →
    ee ≠ Break → I s →
    stops_like I (descend_children rec l last ee s)
               (visit_until fn (flat_map (preorder K n) l) s).
Proof.
  intros Hrec. induction l as [|c l IH]; intros last ee s Hl HD Hee HI.
  - simpl. exists last, ee. split_and!; [done| |done].
    split; [done|]. intros [=].
  - apply Forall_cons in Hl as [Hc Hl]. simpl in HD.
    apply Forall_app in HD as [HDc HDl]. simpl.
    rewrite visit_until_app.
    specialize (Hrec ee c s Hc HDc HI). unfold stops_like in Hrec.
    destruct (visit_until fn (preorder K n c) s) as [[b s1]|]; simpl.
    + destruct Hrec as (last1 & t1 & -> & Ht1 & HI1). simpl.
      destruct b.
      * rewrite (proj2 Ht1 eq_refl). simpl.
        exists last1, Break. done.
      * assert (t1 ≠ Break) as Hne.
        { intros E. by apply Ht1 in E. }
        specialize (IH last1 t1 s1 Hl HDl Hne HI1).
        by destruct t1.
    + by rewrite Hrec.
Qed.

Lemma Tree_descend_until n : ∀ fuel ee p s,
  (n ≤ fuel)%nat → ranked K n p → Forall D (preorder K n p) → I s →
  stops_like I (Tree_descend fuel ee p (Some fn) s)
             (visit_until fn (preorder K n p) s).
Proof.
  induction n as [|n IH]; intros fuel ee p s Hfuel Hr HD HI; [done|].
  destruct fuel as [|fuel]; [lia|].
  rewrite Tree_descend_unfold. simpl in Hr. cbn [preorder visit_until].
  cbn [preorder] in HD. apply Forall_cons in HD as [HDp HD].
  destruct (fn p s) as [[t1 s1]|] eqn:Efn; simpl; [|done].
  destruct (fn_shape _ _ _ _ HDp HI Efn) as (HI1 & Hcont & Hnext).
  destruct t1.
  - destruct Hcont as (nd & Hnd & Hkids); [done|].
    rewrite Hnd. simpl. rewrite Hkids.
    destruct (decide (K p = [])) as [E|E].
    + rewrite E. simpl. exists (Some p), Continue. done.
    + apply descend_children_until; [|done..].
      intros ee' c s' Hc HDc Hs'. apply IH; [lia|done..].
  - rewrite Hnext by done. simpl. exists (Some p), Next. done.
  - exists (Some p), Break. done.
Qed.

Lemma forEachNode_loop_until n fuel l : ∀ ee s,
  (n ≤ fuel)%nat → Forall (ranked K n) l →
  Forall D (flat_map (preorder K n) l) → I s →
  forEachNode_loop fuel l fn ee s
  = snd <$> visit_until fn (flat_map (preorder K n) l) s.
Proof.
  induction l as [|c l IH]; intros ee s Hfuel Hl HD HI; [done|].
  apply Forall_cons in Hl as [Hc Hl]. simpl in HD.
  apply Forall_app in HD as [HDc HDl]. simpl. rewrite visit_until_app.
  pose proof (Tree_descend_until n fuel ee c s Hfuel Hc HDc HI) as Hd.
  unfold stops_like in Hd.
  destruct (visit_until fn (preorder K n c) s) as [[b s1]|]; simpl.
  - destruct Hd as (last1 & t1 & -> & Ht1 & HI1). simpl.
    destruct b.
    + by rewrite (proj2 Ht1 eq_refl).
    + rewrite <- (IH t1 s1) by done.
      destruct t1; try done. by destruct Ht1 as [Hb _]; specialize (Hb eq_refl).
  - by rewrite Hd.
Qed.

(** On a store of bounded height, [forEachNode] calls a visitor that keeps
    the shape on the nodes in pre-order, up to the first [Break]. *)
Lemma Tree_forEachNode_until n fuel l s :
  (n ≤ fuel)%nat → Forall (ranked K n) l →
  Forall D (flat_map (preorder K n) l) → I s →
  Tree_forEachNode fuel l fn s
  = snd <$> visit_until fn (flat_map (preorder K n) l) s.
Proof. apply forEachNode_loop_until. Qed.

End FoldUntil.

(** A visitor that only reads the store and answers [Continue] or [Break]
    meets the conditions of [Tree_forEachNode_until] on allocated nodes. *)
Lemma read_only_until {X} (fn : visitor X) (h : heap) n fuel l (x : X) :
  (∀ p x t s', fn p (h, x) = Some (t, s') → s'.1 = h ∧ t ≠ Next) →
  (n ≤ fuel)%nat → Forall (ranked (kids_of h) n) l →
  Forall (λ p, is_Some (h !! p)) (flat_map (preorder (kids_of h) n) l) →
  Tree_forEachNode fuel l fn (h, x)
  = snd <$> visit_until fn (flat_map (preorder (kids_of h) n) l) (h, x).
Proof.
  intros Hfn Hfuel Hl Hal.
  apply (Tree_forEachNode_until fn (kids_of h) (λ s, s.1 = h)
           (λ p, is_Some (h !! p))); try done.
  intros p [h1 x1] t s' [nd Hnd] Hh Hrun. simpl in Hh. subst h1.
  destruct (Hfn _ _ _ _ Hrun) as [Hs' Ht]. split; [done|]. split; [|done].
  intros _. exists nd. rewrite Hs'. split; [done|].
  unfold kids_of. by rewrite Hnd.
Qed.

Lemma get_visit_until index (h : heap) l : ∀ k,
  0 ≤ k ≤ index → index < 2 ^ 64 →
  ∃ b i,
    visit_until
      (λ node '(h, (i, result)),
         if bool_decide (i = index) then Some (Break, (h, (i, Some node)))
         else Some (Continue, (h, (u64 (i + 1), result))))
      l (h, (k, None))
    = Some (b, (h, (i, l !! Z.to_nat (index - k)))).
Proof.
  induction l as [|p l IH]; intros k Hk Hidx; simpl.
  - eauto.
  - case_bool_decide as E; simpl.
    + subst k. replace (index - index) with 0 by lia. simpl. eauto.
    + assert (u64 (k + 1) = k + 1) as ->.
      { unfold u64. apply Z.mod_small. lia. }
      destruct (IH (k + 1)) as (b & i & ->); [lia|done|].
      exists b, i. do 3 f_equal.
      replace (Z.to_nat (index - k)) with (S (Z.to_nat (index - (k + 1))))
        by lia.
      done.
Qed.

(** X1.  [Tree::get(index)] returns the node at position [index] of the
    depth-first pre-order of the tree, and the null pointer when the tree
    has no more than [index] nodes. *)
Theorem Tree_get_preorder fuel n index (h : heap) (t : Tree) :
  Forall (ranked (kids_of h) n) (roots t) →
  Forall (λ p, is_Some (h !! p)) (dfs h n (roots t)) →
  (n ≤ fuel)%nat →
  0 ≤ index < 2 ^ 64 →
  Tree_get fuel index h t = Some (dfs h n (roots t) !! Z.to_nat index).
Proof.
  intros Hr Hal Hfuel Hidx. unfold Tree_get.
  rewrite (read_only_until _ h n fuel); [|clear; intros p [i r] t s'|done..].
  - destruct (get_visit_until index h (dfs h n (roots t)) 0)
      as (b & i & Hrun); [lia|lia|].
    unfold dfs in *. rewrite Hrun. simpl. by rewrite Z.sub_0_r.
  - case_bool_decide; intros [= <- <-]; done.
Qed.

Lemma Tree_get_preorder_witness :
  Tree_get 2 1 searched_store (mkTree [1%positive; 2%positive])
  = Some (dfs searched_store 2 [1%positive; 2%positive] !! Z.to_nat 1).
Proof.
  apply Tree_get_preorder; concrete; lia.
Defined.

(** X2.  [Tree::remove(index)] with an index at or past the number of nodes
    returns the null pointer and leaves the nodes and the tree as they
    were. *)
Theorem Tree_remove_at_out_of_range fuel n index (h : heap) (t : Tree) :
  Forall (ranked (kids_of h) n) (roots t) →
  Forall (λ p, is_Some (h !! p)) (dfs h n (roots t)) →
  (n ≤ fuel)%nat →
  index < 2 ^ 64 →
  Z.of_nat (length (dfs h n (roots t))) ≤ index →
  Tree_remove_at fuel index h t = Some (None, h, t).
Proof.
  intros Hr Hal Hfuel Hidx Hlen. unfold Tree_remove_at, Tree_get.
  rewrite (read_only_until _ h n fuel); [|clear; intros p [i r] t s'|done..].
  - destruct (get_visit_until index h (dfs h n (roots t)) 0)
      as (b & i & Hrun); [lia|lia|].
    unfold dfs in *. rewrite Hrun. simpl. rewrite Z.sub_0_r.
    rewrite lookup_ge_None_2 by lia. done.
  - case_bool_decide; intros [= <- <-]; done.
Qed.

Lemma Tree_remove_at_out_of_range_witness :
  Tree_remove_at 2 3 searched_store (mkTree [1%positive; 2%positive])
  = Some (None, searched_store, mkTree [1%positive; 2%positive]).
Proof.
  apply (Tree_remove_at_out_of_range 2 2); concrete; try lia.
  vm_compute. congruence.
Defined.

Lemma find_visit_until (predicate : heap → ptr → bool) (h : heap) l :
  ∃ b,
    visit_until
      (λ node '(h, result),
         if predicate h node then Some (Break, (h, Some node))
         else Some (Continue, (h, result)))
      l (h, None)
    = Some (b, (h, List.find (predicate h) l)).
Proof.
  induction l as [|p l [b IH]]; simpl; [eauto|].
  destruct (predicate h p); simpl; eauto.
Qed.

(** X3.  [Tree::find(predicate)] returns the first node of the depth-first
    pre-order on which the predicate holds, and the null pointer when it
    holds on none. *)
Theorem Tree_find_first fuel n (predicate : heap → ptr → bool) (h : heap)
    (t : Tree) :
  Forall (ranked (kids_of h) n) (roots t) →
  Forall (λ p, is_Some (h !! p)) (dfs h n (roots t)) →
  (n ≤ fuel)%nat →
  Tree_find fuel predicate h t
  = Some (List.find (predicate h) (dfs h n (roots t))).
Proof.
  intros Hr Hal Hfuel. unfold Tree_find.
  rewrite (read_only_until _ h n fuel); [|clear; intros p r t s'|done..].
  - destruct (find_visit_until predicate h (dfs h n (roots t))) as [b Hrun].
    unfold dfs in *. by rewrite Hrun.
  - destruct (predicate h p); intros [= <- <-]; done.
Qed.

Lemma Tree_find_first_witness :
  Tree_find 2 (λ h p, bool_decide (kids_of h p = [])) searched_store
    (mkTree [1%positive; 2%positive])
  = Some (List.find (λ p, bool_decide (kids_of searched_store p = []))
            (dfs searched_store 2 [1%positive; 2%positive])).
Proof.
  apply (Tree_find_first 2 2 (λ h p, bool_decide (kids_of h p = [])));
    concrete; lia.
Defined.

Lemma forEachDrawable_visit_until {A} (action : Drawable → A → A)
    (h : heap) l : ∀ a,
  Forall (λ p, is_Some (h !! p)) l →
  ∃ b,
    visit_until (forEachDrawable_visitor action) l (h, a)
    = Some (b, (h, foldl (λ a cell, action cell a) a
                     (cells_of h (before_collapsed h l)))).
Proof.
  induction l as [|p l IH]; intros a Hal; simpl; [eauto|].
  apply Forall_cons in Hal as [[nd Hnd] Hal].
  rewrite Hnd. simpl. destruct (is_collapsed nd) eqn:E; simpl; [eauto|].
  destruct (IH (foldl (λ a cell, action cell a) a (columns nd)) Hal)
    as [b ->].
  exists b. do 3 f_equal. unfold cells_of. simpl. rewrite Hnd. simpl.
  by rewrite foldl_app.
Qed.

(** X4.  [TreeView::forEachDrawable] hands the action the cells of the
    nodes in pre-order, row by row, and stops for good at the first
    collapsed node: neither its cells nor those of any later node, inside
    or outside its subtree, are visited. *)
Theorem forEachDrawable_stops_at_collapsed {A} fuel n
    (action : Drawable → A → A) (a : A) (h : heap) (t : Tree) :
  Forall (ranked (kids_of h) n) (roots t) →
  Forall (λ p, is_Some (h !! p)) (dfs h n (roots t)) →
  (n ≤ fuel)%nat →
  TreeView_forEachDrawable_cells fuel action a h t
  = Some (foldl (λ a cell, action cell a) a
            (cells_of h (before_collapsed h (dfs h n (roots t))))).
Proof.
  intros Hr Hal Hfuel. unfold TreeView_forEachDrawable_cells.
  rewrite (read_only_until _ h n fuel); [|clear; intros p a t s'|done..].
  - destruct (forEachDrawable_visit_until action h (dfs h n (roots t)) a Hal)
      as [b Hrun].
    unfold dfs in *. by rewrite Hrun.
  - unfold forEachDrawable_visitor.
    destruct (h !! p) as [nd|]; simpl; [|done].
    destruct (is_collapsed nd); intros [= <- <-]; done.
Qed.

Lemma forEachDrawable_stops_at_collapsed_witness :
  TreeView_forEachDrawable_cells 2 cons []
    (alter (set_is_collapsed true) 3%positive searched_store)
    (mkTree [1%positive; 2%positive])
  = Some (foldl (λ a cell, cell :: a) []
            (cells_of (alter (set_is_collapsed true) 3%positive searched_store)
               (before_collapsed
                  (alter (set_is_collapsed true) 3%positive searched_store)
                  (dfs (alter (set_is_collapsed true) 3%positive
                          searched_store) 2 [1%positive; 2%positive])))).
Proof.
  apply (forEachDrawable_stops_at_collapsed 2 2 cons); concrete; lia.
Defined.

(** ** Emptying a model *)





(** ** What the mutations do to the vectors *)

Lemma finish_attach_same h1 t1 n fuel parent_ node :
  links_flat h1 t1 → height_le h1 n → (n ≤ fuel)%nat →
  is_Some (h1 !! node) → (∀ p, parent_ = Some p → is_Some (h1 !! p)) →
  ∃ h', (h ← Tree__updateDepth fuel parent_ node h1;
         '(_, h) ← Tree__updateBSData fuel h t1;
         Some (node, h, t1)) = Some (node, h', t1)
        ∧ same_links h1 h'.
Proof.
  intros Hflat Hh Hfuel Hnode Hpar.
  destruct (updateDepth_same_links h1 t1 n fuel parent_ node)
    as (h2 & -> & Hs2); [done..|]. simpl.
  destruct (updateBSData_same_links h2 t1 n fuel) as (total & h3 & -> & Hs3);
    [by eapply links_flat_same_links|by eapply height_same_links|done|].
  simpl. exists h3. split; [done|]. by eapply same_links_trans.
Qed.

Lemma finish_detach_same h1 t1 n fuel node :
  links_flat h1 t1 → height_le h1 n → (n ≤ fuel)%nat →
  (∃ nd, h1 !! node = Some nd ∧ parent nd = None) →
  ∃ h', ('(_, h) ← Tree__updateBSData fuel h1 t1;
         nd ← h !! node;
         h ← Tree__updateDepth fuel (parent nd) node h;
         Some (Some node, h, t1)) = Some (Some node, h', t1)
        ∧ same_links h1 h'.
Proof.
  intros Hflat Hh Hfuel (nd & Hnd & Hpar).
  destruct (updateBSData_same_links h1 t1 n fuel) as (total & h2 & -> & Hs2);
    [done..|]. simpl.
  destruct (same_links_lookup _ _ _ _ Hs2 Hnd) as (nd2 & Hnd2 & Hl).
  rewrite Hnd2. simpl. unfold links in Hl.
  replace (parent nd2) with (@None ptr) by congruence.
  destruct (updateDepth_same_links h2 t1 n fuel None node)
    as (h3 & -> & Hs3);
    [by eapply links_flat_same_links|by eapply height_same_links|done
    |eauto|done|].
  simpl. exists h3. split; [done|]. by eapply same_links_trans.
Qed.

(** An attachment whose writes are followed by the renumbering [hm] to
    [h1] and by the two recomputations: the links are those of [h1], which
    holds [node] at index [i] of its owner. *)
Lemma attach_finish_spec h t owner node nd i v upd t1 h1 n fuel :
  links_flat h t → height_le h n → (n + n ≤ fuel)%nat →
  detached h t node → vec_of h t owner = Some v →
  (i ≤ length v)%nat → vec_size v + 1 < 2 ^ 31 → h !! node = Some nd →
  (∀ p m, owner = Some p → p ∉ preorder (kids_of h) m node) →
  (∀ p, owner = Some p → is_Some (h !! p)) →
  parent upd = owner → parent_index upd = Z.of_nat i →
  children upd = children nd →
  (match owner with
   | None => t1 = mkTree (take i v ++ node :: drop i v)
   | Some _ => t1 = t
   end) →
  let hm := <[node := upd]>
              (match owner with
               | None => h
               | Some p =>
                   alter (set_children (take i v ++ node :: drop i v)) p h
               end) in
  (∀ q, q ∉ drop (S i) (take i v ++ node :: drop i v) → h1 !! q = hm !! q) →
  (∀ j c, (take i v ++ node :: drop i v) !! j = Some c → (S i ≤ j)%nat →
     ∃ cd, hm !! c = Some cd
       ∧ h1 !! c = Some (set_parent_index (Z.of_nat j) cd)) →
  ∃ h', (h ← Tree__updateDepth fuel owner node h1;
         '(_, h) ← Tree__updateBSData fuel h t1;
         Some (node, h, t1)) = Some (node, h', t1)
        ∧ attach_spec h t owner node i v h1 t1
        ∧ same_links h1 h'
        ∧ links_flat h1 t1
        ∧ height_le h1 (n + n).
Proof.
  intros Hflat Hh Hfuel Hdet Hvec Hi Hsz Hnd Hnot Hown Hu1 Hu2 Hu3 Ht1 hm
    Hfr Hidx.
  assert (Hpn : ∀ p, owner = Some p → p ≠ node).
  { intros p Hp ->. apply (Hnot node 1%nat Hp). simpl.
    apply elem_of_cons. by left. }
  destruct (attach_writes h t owner node nd i v upd t1)
    as (M1 & M2 & M3 & M4 & M5); [done..|]. fold hm in M1, M2, M3, M4.
  assert (Hspec : attach_spec h t owner node i v h1 t1)
    by by eapply (attach_struct h t owner node i v hm h1 t1).
  assert (Hflat1 : links_flat h1 t1) by by eapply attach_links_flat.
  assert (Hh1 : height_le h1 (n + n)).
  { eapply attach_height; [exact Hspec|done|eauto|done|done]. }
  assert (Hdom : ∀ q, is_Some (h !! q) → is_Some (h1 !! q)).
  { intros q [qd Hq]. destruct (decide (q = node)) as [->|Hne].
    - destruct (attach_node _ _ _ _ _ _ _ _ Hspec) as (? & ? & _). eauto.
    - destruct (decide (q ∈ v)) as [Hin|Hout].
      + apply list_elem_of_lookup_1 in Hin as [j Hj].
        destruct (attach_siblings _ _ _ _ _ _ _ _ Hspec j q Hj)
          as (? & ? & _ & ? & _). eauto.
      + destruct (attach_frame _ _ _ _ _ _ _ _ Hspec q qd Hne Hout Hq)
          as (? & ? & _). eauto. }
  destruct (finish_attach_same h1 t1 (n + n) fuel owner node)
    as (h' & Hrun & Hs); eauto.
  exists h'. done.
Qed.

(** [Tree::append] returns; the links it leaves are those of a store that
    holds [node] at the end of the vector of its new parent. *)
Lemma Tree_append_shape h t parent_ node n fuel :
  links_flat h t → height_le h n → (n + n ≤ fuel)%nat →
  can_attach h t parent_ node →
  ∃ v h1 h' t', vec_of h t parent_ = Some v
    ∧ Tree_append fuel parent_ node h t = Some (node, h', t')
    ∧ attach_spec h t parent_ node (length v) v h1 t'
    ∧ same_links h1 h'
    ∧ links_flat h1 t'
    ∧ height_le h1 (n + n).
Proof.
  intros Hflat Hh Hfuel ([nd Hnd] & Hdet & (v & Hvec & Hsz) & Hnot).
  unfold Tree_append. destruct parent_ as [p|].
  - simpl in Hvec. destruct (h !! p) as [pd|] eqn:Hpd; [|done].
    simpl in Hvec. injection Hvec as <-.
    assert (Hpn : p ≠ node).
    { intros ->. apply (Hnot node 1%nat eq_refl). simpl.
      apply elem_of_cons. by left. }
    rewrite (modify_Some _ _ _ _ Hpd). simpl.
    rewrite lookup_insert_eq. simpl.
    rewrite (modify_Some node _ _ nd) by by rewrite lookup_insert_ne.
    simpl. rewrite (modify_Some node _ _ _ (lookup_insert_eq _ _ _)). simpl.
    rewrite insert_insert_eq, index_of_end by done.
    rewrite (insert_alter h p pd (set_children (children pd ++ [node]))) by done.
    rewrite <- (take_drop_end (children pd) node).
    destruct (attach_finish_spec h t (Some p) node nd (length (children pd))
                (children pd)
                (set_parent (Some p)
                   (set_parent_index (Z.of_nat (length (children pd))) nd))
                t
                (<[node := set_parent (Some p)
                             (set_parent_index
                                (Z.of_nat (length (children pd))) nd)]>
                   (alter (set_children
                             (take (length (children pd)) (children pd)
                              ++ node :: drop (length (children pd))
                                           (children pd))) p h))
                n fuel) as (h' & -> & Hspec & Hs & Hflat1 & Hh1); try done.
    + simpl. by rewrite Hpd.
    + intros ? [= <-]. eauto.
    + intros j c Hj Hle. by rewrite lookup_beyond_end in Hj.
    + eexists (children pd), _, h', t. by rewrite Hpd.
  - simpl in Hvec. injection Hvec as <-.
    rewrite (modify_Some _ _ _ _ Hnd). simpl.
    rewrite (modify_Some node _ _ _ (lookup_insert_eq _ _ _)). simpl.
    rewrite insert_insert_eq, index_of_end by done.
    destruct (attach_finish_spec h t None node nd (length (roots t)) (roots t)
                (set_parent_index (Z.of_nat (length (roots t)))
                   (set_parent None nd))
                (mkTree (roots t ++ [node]))
                (<[node := set_parent_index (Z.of_nat (length (roots t)))
                             (set_parent None nd)]> h)
                n fuel) as (h' & -> & Hspec & Hs & Hflat1 & Hh1); try done.
    + by rewrite take_drop_end.
    + intros j c Hj Hle. by rewrite lookup_beyond_end in Hj.
    + by eexists (roots t), _, h', _.
Qed.

(** The same for [Tree::insert], with [node] at the given index. *)
Lemma Tree_insert_shape h t parent_ index node n fuel v :
  links_flat h t → height_le h n → (n + n ≤ fuel)%nat →
  can_attach h t parent_ node →
  vec_of h t parent_ = Some v → 0 ≤ index ≤ vec_size v →
  ∃ h1 h' t',
    Tree_insert fuel parent_ index node h t = Some (node, h', t')
    ∧ attach_spec h t parent_ node (Z.to_nat index) v h1 t'
    ∧ same_links h1 h'
    ∧ links_flat h1 t'
    ∧ height_le h1 (n + n).
Proof.
  intros Hflat Hh Hfuel ([nd Hnd] & Hdet & (v0 & Hvec0 & Hsz) & Hnot)
    Hvec Hidx.
  rewrite Hvec in Hvec0. injection Hvec0 as <-.
  set (i := Z.to_nat index).
  assert (Hi : (i ≤ length v)%nat) by (unfold vec_size in *; lia).
  assert (Hi32 : i32 index = Z.of_nat i).
  { unfold vec_size in *. rewrite i32_small by lia. lia. }
  assert (Hlo : u64 (index + 1) = Z.of_nat (S i)).
  { unfold vec_size in *. rewrite u64_small by lia. lia. }
  set (v' := take i v ++ node :: drop i v).
  assert (Hlen' : vec_size v' = vec_size v + 1).
  { unfold v', vec_size. rewrite length_app, length_take. simpl.
    rewrite length_drop. lia. }
  unfold Tree_insert. destruct parent_ as [p|].
  - simpl in Hvec. destruct (h !! p) as [pd|] eqn:Hpd; [|done].
    simpl in Hvec. injection Hvec as <-.
    assert (Hpn : p ≠ node).
    { intros ->. apply (Hnot node 1%nat eq_refl). simpl.
      apply elem_of_cons. by left. }
    simpl. rewrite vec_insert_Some by done. simpl. fold i. fold v'.
    rewrite (modify_Some node _ _ nd) by by rewrite lookup_insert_ne.
    simpl. rewrite (modify_Some node _ _ _ (lookup_insert_eq _ _ _)). simpl.
    rewrite insert_insert_eq, Hi32, Hlo.
    rewrite lookup_insert_ne, lookup_insert_eq by done. simpl.
    rewrite (insert_alter h p pd (set_children v')) by done.
    set (upd := set_parent (Some p) (set_parent_index (Z.of_nat i) nd)).
    set (hm := <[node := upd]> (alter (set_children v') p h)).
    destruct (renumber_ready h t (Some p) node (children pd) i hm)
      as [Hnd' Hall']; [done|done|by simpl; rewrite Hpd| |
                        by unfold hm; rewrite lookup_insert_eq|].
    { intros q [qd Hq]. unfold hm.
      destruct (decide (q = node)) as [->|?];
        [rewrite lookup_insert_eq; eauto|].
      rewrite lookup_insert_ne by done.
      destruct (decide (p = q)) as [->|?].
      - rewrite lookup_alter_eq, Hq. simpl. eauto.
      - rewrite lookup_alter_ne by done. eauto. }
    destruct (renumber_from_spec v' (Z.of_nat (S i)) hm)
      as (h1 & -> & Hfr & Hren); [lia|lia|done|done|]. simpl.
    rewrite Nat2Z.id in Hfr.
    destruct (attach_finish_spec h t (Some p) node nd i (children pd) upd t h1
                n fuel) as (h' & -> & Hspec & Hs & Hflat1 & Hh1); try done.
    + simpl. by rewrite Hpd.
    + intros ? [= <-]. eauto.
    + intros j c Hj Hle. apply Hren; [done|lia].
    + by exists h1, h', t.
  - simpl in Hvec. injection Hvec as <-.
    rewrite (modify_Some _ _ _ _ Hnd). simpl.
    rewrite (modify_Some node _ _ _ (lookup_insert_eq _ _ _)). simpl.
    rewrite vec_insert_Some by done. simpl. fold i. fold v'.
    rewrite (modify_Some node _ _ _ (lookup_insert_eq _ _ _)). simpl.
    rewrite !insert_insert_eq, Hi32, Hlo.
    set (upd := set_parent_index (Z.of_nat i)
                  (set_depth 1 (set_parent None nd))).
    set (hm := <[node := upd]> h).
    destruct (renumber_ready h t None node (roots t) i hm)
      as [Hnd' Hall']; [done|done|done| |
                        by unfold hm; rewrite lookup_insert_eq|].
    { intros q [qd Hq]. unfold hm.
      destruct (decide (q = node)) as [->|?];
        [rewrite lookup_insert_eq; eauto|].
      rewrite lookup_insert_ne by done. eauto. }
    destruct (renumber_from_spec v' (Z.of_nat (S i)) hm)
      as (h1 & -> & Hfr & Hren); [lia|lia|done|done|]. simpl.
    rewrite Nat2Z.id in Hfr.
    destruct (attach_finish_spec h t None node nd i (roots t) upd (mkTree v')
                h1 n fuel) as (h' & -> & Hspec & Hs & Hflat1 & Hh1);
      try done.
    + intros j c Hj Hle. apply Hren; [done|lia].
    + by exists h1, h', (mkTree v').
Qed.

(** The same for [Tree::remove]: [node] leaves the vector that held it. *)
Lemma Tree_remove_shape h t node nd n fuel :
  links_flat h t → height_le h n → (n ≤ fuel)%nat →
  h !! node = Some nd → (parent nd = None → node ∈ roots t) →
  ∃ v j h1 h' t',
    vec_of h t (parent nd) = Some v ∧ v !! j = Some node
    ∧ Tree_remove fuel (Some node) h t = Some (Some node, h', t')
    ∧ detach_spec h t (parent nd) node j v h1 t'
    ∧ same_links h1 h'.
Proof.
  intros Hflat Hh Hfuel Hnd Hroot.
  pose proof Hflat as (Hv & Hp & Hsz).
  assert (Hown : ∃ v j, vec_of h t (parent nd) = Some v ∧ v !! j = Some node
                        ∧ parent_index nd = Z.of_nat j).
  { destruct (parent nd) as [p|] eqn:Hpar.
    - destruct (Hp _ _ _ Hnd Hpar) as (v & Hvec & Hin).
      apply list_elem_of_lookup_1 in Hin as [j Hj].
      destruct (Hv _ _ _ _ Hvec Hj) as (nd' & Hnd' & _ & Hpi).
      exists v, j. split_and!; [done|done|congruence].
    - apply list_elem_of_lookup_1 in Hroot as [j Hj]; [|done].
      destruct (Hv None _ _ _ eq_refl Hj) as (nd' & Hnd' & _ & Hpi).
      exists (roots t), j. split_and!; [done|done|congruence]. }
  destruct Hown as (v & j & Hvec & Hj & Hpi).
  pose proof (lookup_lt_Some _ _ _ Hj) as Hjlt.
  pose proof (Hsz _ _ Hvec) as Hvsz.
  assert (Hlen' : vec_size (delete j v) = vec_size v - 1).
  { unfold vec_size. rewrite length_delete by eauto. lia. }
  exists v, j.
  unfold Tree_remove. rewrite Hnd. simpl.
  destruct (parent nd) as [p|] eqn:Hpar.
  - simpl in Hvec. destruct (h !! p) as [pd|] eqn:Hpd; [|done].
    simpl in Hvec. injection Hvec as <-. simpl.
    assert (Hpn : p ≠ node).
    { intros ->. eapply (ranked_irrefl (kids_of h) n node).
      - apply Hh. eauto.
      - rewrite (kids_of_lookup _ _ _ Hpd). by eapply list_elem_of_lookup_2. }
    rewrite Hpi, vec_erase_Some by done. simpl.
    rewrite (lookup_insert_ne _ p node) by done. rewrite Hnd. simpl.
    rewrite lookup_insert_eq. simpl. rewrite Hpi.
    set (v' := delete j (children pd)) in *.
    set (he := <[p := set_children v' pd]> h).
    assert (Hdom : ∀ q, is_Some (h !! q) → is_Some (he !! q)).
    { intros q [qd Hq]. unfold he. destruct (decide (p = q)) as [->|?].
      - rewrite lookup_insert_eq. eauto.
      - rewrite lookup_insert_ne by done. eauto. }
    destruct (detach_ready h t (Some p) node (children pd) j he)
      as (Hnd' & Hall' & Hnode'); [done|by simpl; rewrite Hpd|done|done|].
    destruct (shift_down_from_spec v' (Z.of_nat j) he)
      as (hs & -> & Hfr & Hsh);
      [unfold vec_size in *; lia|unfold vec_size in *; lia|done|done|].
    simpl.
    rewrite Nat2Z.id in Hfr.
    assert (Hns : hs !! node = Some nd).
    { rewrite Hfr.
      - unfold he. by rewrite lookup_insert_ne.
      - intros Hin. apply Hnode'. by eapply elem_of_drop_1. }
    rewrite (modify_Some _ _ _ _ Hns). simpl.
    rewrite (modify_Some node _ _ _ (lookup_insert_eq _ _ _)). simpl.
    rewrite insert_insert_eq.
    set (h1 := <[node := set_parent_index (-1) (set_parent None nd)]> hs).
    assert (Hspec : detach_spec h t (Some p) node j (children pd) h1 t).
    { apply (detach_struct h t (Some p) node j (children pd) he hs h1 t);
        try done.
      - simpl. by rewrite Hpd.
      - intros q qd Hq. unfold he. destruct (decide (p = q)) as [->|?].
        + rewrite lookup_insert_eq. eexists. split_and!; try done.
          all: by simplify_eq.
        + rewrite lookup_insert_ne by done. eauto.
      - intros q. unfold he. destruct (decide (p = q)) as [->|?]; [eauto|].
        by rewrite lookup_insert_ne.
      - simpl. unfold he. by rewrite lookup_insert_eq.
      - intros jj c Hjj Hle. apply (Hsh jj); [done|lia].
      - intros q Hq. unfold h1. by rewrite lookup_insert_ne.
      - exists nd, (set_parent_index (-1) (set_parent None nd)).
        unfold h1. rewrite lookup_insert_eq. done. }
    destruct (finish_detach_same h1 t n fuel node) as (h' & -> & Hs).
    + eapply detach_links_flat; [exact Hflat| |exact Hj|exact Hspec].
      simpl. by rewrite Hpd.
    + eapply detach_height; [exact Hspec| |done]. simpl. by rewrite Hpd.
    + done.
    + eexists. unfold h1. rewrite lookup_insert_eq. done.
    + exists h1, h', t. split_and!; try done. simpl. by rewrite Hpd.
  - simpl in Hvec. injection Hvec as <-. simpl.
    rewrite Hpi, vec_erase_Some by done. simpl.
    set (v' := delete j (roots t)) in *.
    destruct (detach_ready h t None node (roots t) j h)
      as (Hnd' & Hall' & Hnode'); [done..|].
    destruct (shift_down_from_spec v' (Z.of_nat j) h)
      as (hs & -> & Hfr & Hsh);
      [unfold vec_size in *; lia|unfold vec_size in *; lia|done|done|].
    simpl.
    rewrite Nat2Z.id in Hfr.
    assert (Hns : hs !! node = Some nd).
    { rewrite Hfr; [done|].
      intros Hin. apply Hnode'. by eapply elem_of_drop_1. }
    assert (Hspec : detach_spec h t None node j (roots t) hs (mkTree v')).
    { apply (detach_struct h t None node j (roots t) h hs hs (mkTree v'));
        try done.
      - intros q qd Hq. eauto.
      - intros jj c Hjj Hle. apply (Hsh jj); [done|lia].
      - by exists nd, nd. }
    destruct (finish_detach_same hs (mkTree v') n fuel node)
      as (h' & -> & Hs).
    + eapply detach_links_flat; [exact Hflat| |exact Hj|exact Hspec]. done.
    + eapply detach_height; [exact Hspec|done|done].
    + done.
    + eauto.
    + by exists hs, h', (mkTree v').
Qed.

Lemma attach_result h t owner node i v h1 t1 h' :
  attach_spec h t owner node i v h1 t1 → same_links h1 h' →
  vec_of h' t1 owner = Some (take i v ++ node :: drop i v)
  ∧ (∀ o, o ≠ owner → vec_of h' t1 o = vec_of h t o)
  ∧ ∃ nd', h' !! node = Some nd' ∧ parent nd' = owner
           ∧ parent_index nd' = Z.of_nat i.
Proof.
  intros [A1 A2 (nd1 & Hnd1 & Hp1 & Hi1) _ _ _] Hs. split_and!.
  - by rewrite (same_links_vec h1 h').
  - intros o Ho. rewrite (same_links_vec h1 h') by done. by apply A2.
  - destruct (same_links_lookup _ _ _ _ Hs Hnd1) as (nd' & Hnd' & Hl).
    unfold links in Hl. exists nd'. split_and!; congruence.
Qed.

(** X7.  [Tree::append] on consistent links, with a node that exists and is
    attached nowhere and a parent that is not below it, returns the node;
    the node is then the last element of the vector of its new parent (the
    roots for a null parent), with its parent link and [parent_index] set
    accordingly, and every other vector is as it was. *)
Theorem Tree_append_at_end h t parent_ node v :
  links_ok h t → can_attach h t parent_ node →
  vec_of h t parent_ = Some v →
  ∃ fuel0, ∀ fuel, (fuel0 ≤ fuel)%nat →
    ∃ h' t', Tree_append fuel parent_ node h t = Some (node, h', t')
      ∧ vec_of h' t' parent_ = Some (v ++ [node])
      ∧ (∀ o, o ≠ parent_ → vec_of h' t' o = vec_of h t o)
      ∧ ∃ nd', h' !! node = Some nd' ∧ parent nd' = parent_
               ∧ parent_index nd' = vec_size v.
Proof.
  intros Hok Hpre Hvec. pose proof (links_ok_flat _ _ Hok) as Hflat.
  destruct (height_ok _ _ Hok) as [n Hn].
  exists (n + n)%nat. intros fuel Hfuel.
  destruct (Tree_append_shape h t parent_ node n fuel Hflat Hn Hfuel Hpre)
    as (v0 & h1 & h' & t' & Hvec0 & Hrun & Hspec & Hs & _).
  rewrite Hvec in Hvec0. injection Hvec0 as <-.
  destruct (attach_result _ _ _ _ _ _ _ _ _ Hspec Hs) as (R1 & R2 & R3).
  exists h', t'. rewrite take_drop_end in R1. done.
Qed.

(** Node 4 is appended below root 1 of the example model, after node 3;
    the roots 1, 2 stay as they are. *)
Lemma Tree_append_at_end_witness :
  ∃ fuel0, ∀ fuel, (fuel0 ≤ fuel)%nat →
    ∃ h' t', Tree_append fuel (Some 1%positive) 4%positive spare_store
               (mkTree [1; 2]%positive)
             = Some (4%positive, h', t')
      ∧ vec_of h' t' (Some 1%positive) = Some ([3%positive] ++ [4%positive])
      ∧ (∀ o, o ≠ Some 1%positive →
           vec_of h' t' o = vec_of spare_store (mkTree [1; 2]%positive) o)
      ∧ ∃ nd', h' !! 4%positive = Some nd' ∧ parent nd' = Some 1%positive
               ∧ parent_index nd' = vec_size [3%positive].
Proof.
  apply (Tree_append_at_end spare_store (mkTree [1; 2]%positive)
           (Some 1%positive) 4%positive [3%positive]).
  - exact spare_store_links.
  - apply (spare_can_attach (Some 1%positive) [3%positive]);
      [reflexivity|vm_compute; reflexivity].
  - reflexivity.
Defined.

(** X8.  [Tree::insert] under the same conditions, with an index within the
    vector, returns the node; the node is then at that index of the vector
    of its new parent, between the elements that were before the index and
    those that were at or after it, and every other vector is as it was. *)
Theorem Tree_insert_at_index h t parent_ index node v :
  links_ok h t → can_attach h t parent_ node →
  vec_of h t parent_ = Some v → 0 ≤ index ≤ vec_size v →
  ∃ fuel0, ∀ fuel, (fuel0 ≤ fuel)%nat →
    ∃ h' t', Tree_insert fuel parent_ index node h t = Some (node, h', t')
      ∧ vec_of h' t' parent_
        = Some (take (Z.to_nat index) v ++ node :: drop (Z.to_nat index) v)
      ∧ (∀ o, o ≠ parent_ → vec_of h' t' o = vec_of h t o)
      ∧ ∃ nd', h' !! node = Some nd' ∧ parent nd' = parent_
               ∧ parent_index nd' = index.
Proof.
  intros Hok Hpre Hvec Hidx. pose proof (links_ok_flat _ _ Hok) as Hflat.
  destruct (height_ok _ _ Hok) as [n Hn].
  exists (n + n)%nat. intros fuel Hfuel.
  destruct (Tree_insert_shape h t parent_ index node n fuel v
              Hflat Hn Hfuel Hpre Hvec Hidx)
    as (h1 & h' & t' & Hrun & Hspec & Hs & _).
  destruct (attach_result _ _ _ _ _ _ _ _ _ Hspec Hs)
    as (R1 & R2 & nd' & Hnd' & Hp' & Hi').
  exists h', t'. split_and!; try done.
  exists nd'. split_and!; try done. lia.
Qed.

(** Node 4 is inserted at index 1 of the roots 1, 2 of the example model:
    root 1 stays before it and root 2 moves behind it. *)
Lemma Tree_insert_at_index_witness :
  ∃ fuel0, ∀ fuel, (fuel0 ≤ fuel)%nat →
    ∃ h' t', Tree_insert fuel None 1 4%positive spare_store
               (mkTree [1; 2]%positive)
             = Some (4%positive, h', t')
      ∧ vec_of h' t' None
        = Some (take (Z.to_nat 1) [1; 2]%positive
                ++ 4%positive :: drop (Z.to_nat 1) [1; 2]%positive)
      ∧ (∀ o, o ≠ None →
           vec_of h' t' o = vec_of spare_store (mkTree [1; 2]%positive) o)
      ∧ ∃ nd', h' !! 4%positive = Some nd' ∧ parent nd' = None
               ∧ parent_index nd' = 1.
Proof.
  apply (Tree_insert_at_index spare_store (mkTree [1; 2]%positive) None 1
           4%positive [1; 2]%positive).
  - exact spare_store_links.
  - apply (spare_can_attach None [1; 2]%positive);
      [reflexivity|vm_compute; reflexivity].
  - reflexivity.
  - vm_compute. split; congruence.
Defined.

Lemma detach_result h t owner node j v h1 t1 h' :
  detach_spec h t owner node j v h1 t1 → same_links h1 h' →
  v !! j = Some node →
  vec_of h' t1 owner = Some (take j v ++ drop (S j) v)
  ∧ (∀ o, o ≠ owner → vec_of h' t1 o = vec_of h t o)
  ∧ ∃ nd', h' !! node = Some nd' ∧ parent nd' = None.
Proof.
  intros [D1 D2 (nd1 & Hnd1 & Hp1) _ _ _] Hs Hj. split_and!.
  - rewrite (same_links_vec h1 h') by done. rewrite D1.
    by rewrite delete_take_drop.
  - intros o Ho. rewrite (same_links_vec h1 h') by done. by apply D2.
  - destruct (same_links_lookup _ _ _ _ Hs Hnd1) as (nd' & Hnd' & Hl).
    unfold links in Hl. exists nd'. split_and!; congruence.
Qed.

(** X9.  [Tree::remove] of a node of a tree with consistent links returns
    the node; the vector that held it (the children of its parent, or the
    roots) is then the same vector without it, every other vector,
    among them the children of the node itself, is as it was, and the node
    has no parent. *)
Theorem Tree_remove_from_vector h t node nd v :
  links_ok h t → h !! node = Some nd →
  (parent nd = None → node ∈ roots t) →
  vec_of h t (parent nd) = Some v →
  ∃ fuel0, ∀ fuel, (fuel0 ≤ fuel)%nat →
    ∃ h' t' v1 v2,
      Tree_remove fuel (Some node) h t = Some (Some node, h', t')
      ∧ v = v1 ++ node :: v2
      ∧ vec_of h' t' (parent nd) = Some (v1 ++ v2)
      ∧ (∀ o, o ≠ parent nd → vec_of h' t' o = vec_of h t o)
      ∧ ∃ nd', h' !! node = Some nd' ∧ parent nd' = None.
Proof.
  intros Hok Hnd Hroot Hvec. pose proof (links_ok_flat _ _ Hok) as Hflat.
  destruct (height_ok _ _ Hok) as [n Hn].
  exists n. intros fuel Hfuel.
  destruct (Tree_remove_shape h t node nd n fuel Hflat Hn Hfuel Hnd Hroot)
    as (v0 & j & h1 & h' & t' & Hvec0 & Hj & Hrun & Hspec & Hs).
  rewrite Hvec in Hvec0. injection Hvec0 as <-.
  destruct (detach_result _ _ _ _ _ _ _ _ _ Hspec Hs Hj) as (R1 & R2 & R3).
  exists h', t', (take j v), (drop (S j) v). split_and!; try done.
  by rewrite take_drop_middle.
Qed.

Lemma Tree_remove_from_vector_witness :
  ∃ fuel0, ∀ fuel, (fuel0 ≤ fuel)%nat →
    ∃ h' t' v1 v2,
      Tree_remove fuel (Some 3%positive) searched_store
        (mkTree [1; 2]%positive)
      = Some (Some 3%positive, h', t')
      ∧ [3%positive] = v1 ++ 3%positive :: v2
      ∧ vec_of h' t' (Some 1%positive) = Some (v1 ++ v2)
      ∧ (∀ o, o ≠ Some 1%positive →
           vec_of h' t' o = vec_of searched_store (mkTree [1; 2]%positive) o)
      ∧ ∃ nd', h' !! 3%positive = Some nd' ∧ parent nd' = None.
Proof.
  apply (Tree_remove_from_vector searched_store (mkTree [1; 2]%positive)
           3%positive
           (mkTreeNode [1%positive] None (Some 1%positive) 0 [] false 0 2
              (BinarySearchData.mk 10 10))
           [3%positive]).
  - exact searched_store_links.
  - reflexivity.
  - simpl. congruence.
  - reflexivity.
Defined.

(** X10.  Appending a node and removing it again restores the vectors: on
    consistent links, [append(parent, node)] followed by [remove(node)]
    returns, and the roots and the children of every node are then what
    they were before the two calls. *)
Theorem append_remove_round_trip h t parent_ node :
  links_ok h t → can_attach h t parent_ node →
  ∃ fuel0, ∀ fuel, (fuel0 ≤ fuel)%nat →
    ∃ h1 t1 h2 t2,
      Tree_append fuel parent_ node h t = Some (node, h1, t1)
      ∧ Tree_remove fuel (Some node) h1 t1 = Some (Some node, h2, t2)
      ∧ ∀ o, vec_of h2 t2 o = vec_of h t o.
Proof.
  intros Hok Hpre. pose proof (links_ok_flat _ _ Hok) as Hflat.
  destruct (height_ok _ _ Hok) as [n Hn].
  exists (n + n)%nat. intros fuel Hfuel.
  destruct (Tree_append_shape h t parent_ node n fuel Hflat Hn Hfuel Hpre)
    as (v & ha & h1 & t1 & Hvec & Hrun & Hspec & Hs & Hflata & Hha).
  destruct (attach_result _ _ _ _ _ _ _ _ _ Hspec Hs)
    as (R1 & R2 & nd1 & Hnd1 & Hp1 & Hi1).
  rewrite take_drop_end in R1.
  assert (Hflat1 : links_flat h1 t1) by by eapply links_flat_same_links.
  assert (Hh1 : height_le h1 (n + n)).
  { exact (height_same_links ha h1 (n + n) Hs Hha). }
  assert (Hroot1 : parent nd1 = None → node ∈ roots t1).
  { intros Hnone. rewrite Hp1 in Hnone. rewrite Hnone in R1. simpl in R1.
    assert (roots t1 = v ++ [node]) as -> by congruence. apply elem_of_app. right. by apply list_elem_of_singleton. }
  destruct (Tree_remove_shape h1 t1 node nd1 (n + n) fuel
              Hflat1 Hh1 Hfuel Hnd1 Hroot1)
    as (v2 & j & hb & h2 & t2 & Hvec2 & Hj & Hrun2 & Hspec2 & Hs2).
  rewrite Hp1, R1 in Hvec2. injection Hvec2 as <-.
  destruct (detach_result _ _ _ _ _ _ _ _ _ Hspec2 Hs2 Hj) as (Q1 & Q2 & _).
  assert (Hjv : j = length v).
  { assert (NoDup (v ++ [node])) as Hnd.
    { eapply (links_flat_NoDup h1 t1 parent_); [done|]. done. }
    apply (NoDup_lookup (v ++ [node]) j (length v) node Hnd Hj).
    by rewrite list_lookup_middle. }
  subst j. rewrite take_app_length in Q1.
  rewrite drop_ge, app_nil_r in Q1 by (rewrite length_app; simpl; lia).
  exists h1, t1, h2, t2. split_and!; try done.
  intros o. destruct (decide (o = parent_)) as [->|Ho].
  - rewrite Hp1 in Q1. by rewrite Q1, Hvec.
  - rewrite Hp1 in Q2. rewrite Q2 by done. by apply R2.
Qed.

(** Node 4 is appended below root 1 of the example model and removed
    again: the children of root 1 are 3 again and the roots 1, 2. *)
Lemma append_remove_round_trip_witness :
  ∃ fuel0, ∀ fuel, (fuel0 ≤ fuel)%nat →
    ∃ h1 t1 h2 t2,
      Tree_append fuel (Some 1%positive) 4%positive spare_store
        (mkTree [1; 2]%positive)
      = Some (4%positive, h1, t1)
      ∧ Tree_remove fuel (Some 4%positive) h1 t1
        = Some (Some 4%positive, h2, t2)
      ∧ ∀ o, vec_of h2 t2 o = vec_of spare_store (mkTree [1; 2]%positive) o.
Proof.
  apply (append_remove_round_trip spare_store (mkTree [1; 2]%positive)
           (Some 1%positive) 4%positive).
  - exact spare_store_links.
  - apply (spare_can_attach (Some 1%positive) [3%positive]);
      [reflexivity|vm_compute; reflexivity].
Defined.

(** ** Collapsing and expanding whole subtrees *)

Lemma flagged_idem b nd : flagged b (flagged b nd) = flagged b nd.
Proof. unfold flagged. by destruct nd as [? ? ? ? [|c k] ? ? ? ?]. Qed.

Lemma flagged_children b nd : children (flagged b nd) = children nd.
Proof. unfold flagged. by destruct (children nd) eqn:E. Qed.

Lemma collapseOrExpand_visitor_spec b p (h : heap) nd :
  h !! p = Some nd →
  collapseOrExpand_visitor b p (h, tt)
  = Some (Continue, (<[p := flagged b nd]> h, tt)).
Proof.
  intros Hp. unfold collapseOrExpand_visitor, flagged. rewrite Hp. simpl.
  destruct (children nd); [|done]. by rewrite insert_id.
Qed.

Lemma collapseOrExpand_visit_all b l : ∀ h : heap,
  Forall (λ p, is_Some (h !! p)) l →
  ∃ h', visit_all (collapseOrExpand_visitor b) l (h, tt) = Some (h', tt)
    ∧ ∀ q, h' !! q = if decide (q ∈ l) then flagged b <$> h !! q
                     else h !! q.
Proof.
  induction l as [|p l IH]; intros h Hal.
  - exists h. split; [done|]. intros q. rewrite decide_False; [done|].
    apply not_elem_of_nil.
  - apply Forall_cons in Hal as [[nd Hnd] Hal]. cbn [visit_all].
    rewrite (collapseOrExpand_visitor_spec b p h nd Hnd). simpl.
    destruct (IH (<[p := flagged b nd]> h)) as (h' & -> & Hh').
    { eapply Forall_impl; [exact Hal|]. intros q [qd Hq]. simpl.
      destruct (decide (p = q)) as [->|?].
      - rewrite lookup_insert_eq. eauto.
      - rewrite lookup_insert_ne by done. eauto. }
    exists h'. split; [done|]. intros q. rewrite Hh'.
    destruct (decide (q = p)) as [->|Hne].
    + rewrite lookup_insert_eq, Hnd. simpl.
      rewrite (decide_True (P := p ∈ p :: l)) by (apply elem_of_cons; auto).
      destruct (decide (p ∈ l)); [|done]. by rewrite flagged_idem.
    + rewrite lookup_insert_ne by done.
      destruct (decide (q ∈ l)) as [Hin|Hout].
      * by rewrite decide_True by (apply elem_of_cons; auto).
      * rewrite decide_False; [done|]. by apply not_elem_of_cons.
Qed.

Lemma collapseOrExpand_visitor_shape b (h0 : heap) p (s : heap * unit) t s' :
  same_shape h0 s.1 →
  collapseOrExpand_visitor b p s = Some (t, s') →
  same_shape h0 s'.1 ∧ t ≠ Break
  ∧ (∃ nd, s'.1 !! p = Some nd ∧ children nd = kids_of h0 p)
  ∧ (t = Next → kids_of h0 p = []).
Proof.
  destruct s as [h []]. intros Hs Hrun. simpl in Hs.
  destruct (h !! p) as [nd|] eqn:Hp.
  2: { unfold collapseOrExpand_visitor in Hrun. by rewrite Hp in Hrun. }
  rewrite (collapseOrExpand_visitor_spec b p h nd Hp) in Hrun.
  injection Hrun as <- <-. simpl. split_and!; try done.
  - intros q. rewrite <- (Hs q). unfold kids_of.
    destruct (decide (p = q)) as [<-|?].
    + rewrite lookup_insert_eq, Hp. simpl. apply flagged_children.
    + by rewrite lookup_insert_ne.
  - exists (flagged b nd). rewrite lookup_insert_eq. split; [done|].
    rewrite flagged_children, <- (Hs p). unfold kids_of. by rewrite Hp.
Qed.

Lemma collapseOrExpandAll_loop_fold b (h0 : heap) n fuel l : ∀ ee s,
  (n ≤ fuel)%nat → Forall (ranked (kids_of h0) n) l → same_shape h0 s.1 →
  collapseOrExpandAll_loop fuel b l ee s
  = visit_all (collapseOrExpand_visitor b)
      (flat_map (preorder (kids_of h0) n) l) s.
Proof.
  induction l as [|c l IH]; intros ee s Hfuel Hl HI; [done|].
  apply Forall_cons in Hl as [Hc Hl]. simpl. rewrite visit_all_app.
  pose proof (Tree_descend_fold (collapseOrExpand_visitor b) (kids_of h0)
                (λ s, same_shape h0 s.1)
                (λ p s t s', collapseOrExpand_visitor_shape b h0 p s t s')
                n fuel ee c s Hfuel Hc HI) as Hd.
  unfold folds_to in Hd.
  destruct (visit_all (collapseOrExpand_visitor b)
              (preorder (kids_of h0) n c) s) as [s1|]; simpl.
  - destruct Hd as (last1 & t1 & -> & Ht1 & HI1). simpl. by apply IH.
  - by rewrite Hd.
Qed.

(** X11.  [TreeView::collapseOrExpandAll(b)] (that is, [collapseAll] for
    [true] and [expandAll] for [false]) sets the collapse flag of every node
    of the model that has children to [b]; the nodes without children, the
    nodes outside the model and all other fields stay as they were, and the
    index is marked for a rebuild. *)
Theorem collapseOrExpandAll_flags fuel n b tv w m t :
  TreeView.m_model tv = Some m →
  trees w !! m = Some t →
  Forall (ranked (kids_of (nodes w)) n) (roots t) →
  Forall (λ p, is_Some (nodes w !! p)) (dfs (nodes w) n (roots t)) →
  (n ≤ fuel)%nat →
  ∃ tv' w',
    TreeView_collapseOrExpandAll fuel b tv w = Some (tv', w')
    ∧ (∀ q, nodes w' !! q
            = if decide (q ∈ dfs (nodes w) n (roots t))
              then flagged b <$> nodes w !! q else nodes w !! q)
    ∧ trees w' = trees w
    ∧ TreeView.m_virtual_size_changed tv' = true.
Proof.
  intros Hm Ht Hr Hal Hfuel. unfold TreeView_collapseOrExpandAll.
  rewrite Hm. simpl. rewrite Ht. simpl.
  rewrite (collapseOrExpandAll_loop_fold b (nodes w) n fuel) by done.
  destruct (collapseOrExpand_visit_all b _ (nodes w) Hal) as (h' & Hrun & Hh').
  unfold dfs in *. rewrite Hrun. simpl.
  eexists _, _. split; [reflexivity|]. split_and!; try done.
  unfold propagate_size_changed. simpl.
  by destruct (TreeView.m_mode tv), (TreeView.parent_size_changed tv).
Qed.

Lemma collapseOrExpandAll_flags_witness :
  ∃ tv' w',
    TreeView_collapseOrExpandAll 2 true shown_view searched_world
    = Some (tv', w')
    ∧ (∀ q, nodes w' !! q
            = if decide (q ∈ dfs (nodes searched_world) 2 [1; 2]%positive)
              then flagged true <$> nodes searched_world !! q
              else nodes searched_world !! q)
    ∧ trees w' = trees searched_world
    ∧ TreeView.m_virtual_size_changed tv' = true.
Proof.
  apply (collapseOrExpandAll_flags 2 2 true shown_view searched_world
           1%positive (mkTree [1; 2]%positive)); concrete; lia.
Defined.

(** X12.  [TreeView::collapseOrExpandRecursively(node, b)] (that is,
    [collapseRecursively] and [expandRecursively]) sets the collapse flag
    of every node with children in the subtree of [node], [node] included,
    to [b] and leaves every other node as it was; with a null node it does
    nothing. *)
Theorem collapseOrExpandRecursively_flags fuel n b node tv w m t :
  TreeView.m_model tv = Some m →
  trees w !! m = Some t →
  ranked (kids_of (nodes w)) n node →
  Forall (λ p, is_Some (nodes w !! p))
    (preorder (kids_of (nodes w)) n node) →
  (n ≤ fuel)%nat →
  TreeView_collapseOrExpandRecursively fuel None b tv w = Some (tv, w)
  ∧ ∃ tv' w',
      TreeView_collapseOrExpandRecursively fuel (Some node) b tv w
      = Some (tv', w')
      ∧ (∀ q, nodes w' !! q
              = if decide (q ∈ preorder (kids_of (nodes w)) n node)
                then flagged b <$> nodes w !! q else nodes w !! q)
      ∧ trees w' = trees w
      ∧ TreeView.m_virtual_size_changed tv' = true.
Proof.
  intros Hm Ht Hr Hal Hfuel. split; [done|].
  unfold TreeView_collapseOrExpandRecursively.
  rewrite Hm. simpl. rewrite Ht. simpl.
  pose proof (Tree_descend_fold (collapseOrExpand_visitor b)
                (kids_of (nodes w)) (λ s, same_shape (nodes w) s.1)
                (λ p s t s',
                   collapseOrExpand_visitor_shape b (nodes w) p s t s')
                n fuel Continue node (nodes w, tt) Hfuel Hr) as Hd.
  destruct (collapseOrExpand_visit_all b _ (nodes w) Hal) as (h' & Hrun & Hh').
  rewrite Hrun in Hd. destruct Hd as (last1 & t1 & -> & _); [done|]. simpl.
  eexists _, _. split; [reflexivity|]. split_and!; try done.
  unfold propagate_size_changed. simpl.
  by destruct (TreeView.m_mode tv), (TreeView.parent_size_changed tv).
Qed.

Lemma collapseOrExpandRecursively_flags_witness :
  TreeView_collapseOrExpandRecursively 2 None true shown_view searched_world
  = Some (shown_view, searched_world)
  ∧ ∃ tv' w',
      TreeView_collapseOrExpandRecursively 2 (Some 1%positive) true
        shown_view searched_world
      = Some (tv', w')
      ∧ (∀ q, nodes w' !! q
              = if decide (q ∈ preorder (kids_of (nodes searched_world)) 2
                                 1%positive)
                then flagged true <$> nodes searched_world !! q
                else nodes searched_world !! q)
      ∧ trees w' = trees searched_world
      ∧ TreeView.m_virtual_size_changed tv' = true.
Proof.
  apply (collapseOrExpandRecursively_flags 2 2 true 1%positive shown_view
           searched_world 1%positive (mkTree [1; 2]%positive));
    [reflexivity|reflexivity|simpl; concrete|concrete|lia].
Defined.

(** ** The node after a subtree *)

Lemma flat_map_middle {A B} (f : A → list B) (l : list A) j x :
  l !! j = Some x →
  flat_map f l = flat_map f (take j l) ++ f x ++ flat_map f (drop (S j) l).
Proof.
  intros Hj. rewrite <- (take_drop_middle l j x Hj) at 1.
  rewrite flat_map_app. done.
Qed.

Lemma head_flat_map_drop (f : ptr → list ptr) (l : list ptr) j :
  (∀ y, y ∈ l → head (f y) = Some y) →
  head (flat_map f (drop (S j) l)) = l !! S j.
Proof.
  intros Hf. destruct (l !! S j) as [y|] eqn:E.
  - rewrite (drop_S l y (S j) E). simpl.
    pose proof (Hf y (list_elem_of_lookup_2 _ _ _ E)) as Hy.
    destruct (f y); simpl in *; [done|]. done.
  - rewrite drop_ge; [done|]. by apply lookup_ge_None.
Qed.

Lemma head_preorder K n p : ranked K n p → head (preorder K n p) = Some p.
Proof. destruct n; [done|]. done. Qed.

(** The sibling step shared by the two branches of [findNextNode]. *)
Lemma next_sibling_step (v : list ptr) (j : nat) n K rest :
  vec_size v < 2 ^ 31 → (j < length v)%nat →
  Forall (ranked K n) v →
  (if bool_decide (i32 (vec_size v) - 1 > Z.of_nat j)
   then Some <$> vec_at v (Z.of_nat j + 1)
   else Some rest)
  = Some (match v !! S j with Some y => Some y | None => rest end)
  ∧ head (flat_map (preorder K n) (drop (S j) v)) = v !! S j.
Proof.
  intros Hsz Hj Hr. split.
  - unfold vec_size in *. rewrite i32_small by lia.
    case_bool_decide as Hgt.
    + replace (Z.of_nat j + 1) with (Z.of_nat (S j)) by lia.
      rewrite vec_at_lookup.
      destruct (lookup_lt_is_Some_2 v (S j)) as [y ->]; [lia|]. done.
    + rewrite lookup_ge_None_2 by lia. done.
  - apply head_flat_map_drop. intros y Hy. apply head_preorder.
    rewrite Forall_forall in Hr. by apply Hr.
Qed.

Lemma findNextNode_spec (h : heap) (t : Tree) n :
  links_flat h t →
  Forall (ranked (kids_of h) n) (roots t) →
  (∀ r nd, r ∈ roots t → h !! r = Some nd → depth nd = 1) →
  ∀ k fuel node, below_roots h t k node → (k < fuel)%nat →
    ∃ m pre post,
      ranked (kids_of h) m node
      ∧ dfs h n (roots t) = pre ++ preorder (kids_of h) m node ++ post
      ∧ TreeView_findNextNode fuel h t node = Some (head post).
Proof.
  intros Hflat Hr Hdepth. pose proof Hflat as (Hv & Hp & Hsz).
  induction k as [|k IH]; intros fuel node Hk Hfuel;
    (destruct fuel as [|fuel]; [lia|]).
  - simpl in Hk. apply list_elem_of_lookup_1 in Hk as [j Hj].
    destruct (Hv None (roots t) j node eq_refl Hj) as (nd & Hnd & Hpar & Hpi).
    pose proof (lookup_lt_Some _ _ _ Hj) as Hjlt.
    destruct (next_sibling_step (roots t) j n (kids_of h) None)
      as [Hstep Hhead]; [by apply (Hsz None)|done|done|].
    exists n, (flat_map (preorder (kids_of h) n) (take j (roots t))),
      (flat_map (preorder (kids_of h) n) (drop (S j) (roots t))).
    split_and!.
    + rewrite Forall_forall in Hr. apply Hr. by eapply list_elem_of_lookup_2.
    + unfold dfs. by apply flat_map_middle.
    + simpl. rewrite Hnd. simpl. rewrite Hpar.
      rewrite (bool_decide_true (depth nd = 1)).
      2: { eapply Hdepth; [|done]. by eapply list_elem_of_lookup_2. }
      rewrite Hpi, Hstep, Hhead. by destruct (roots t !! S j).
  - simpl in Hk. destruct Hk as (nd & p & Hnd & Hpar & Hk).
    destruct (IH fuel p Hk) as (m & pre & post & Hrp & Hdfs & Hrun); [lia|].
    destruct (Hp node nd p Hnd Hpar) as (v & Hvec & Hin).
    simpl in Hvec. destruct (h !! p) as [pd|] eqn:Hpd; [|done].
    simpl in Hvec. injection Hvec as <-.
    apply list_elem_of_lookup_1 in Hin as [j Hj].
    destruct (Hv (Some p) (children pd) j node) as (nd' & Hnd' & _ & Hpi);
      [by simpl; rewrite Hpd|done|].
    assert (nd' = nd) as -> by congruence.
    pose proof (lookup_lt_Some _ _ _ Hj) as Hjlt.
    destruct m as [|m]; [done|]. simpl in Hrp.
    rewrite (kids_of_lookup _ _ _ Hpd) in Hrp.
    destruct (next_sibling_step (children pd) j m (kids_of h) (head post))
      as [Hstep Hhead]; [|done|done|].
    { apply (Hsz (Some p)). simpl. by rewrite Hpd. }
    exists m,
      (pre ++ p :: flat_map (preorder (kids_of h) m) (take j (children pd))),
      (flat_map (preorder (kids_of h) m) (drop (S j) (children pd)) ++ post).
    split_and!.
    + rewrite Forall_forall in Hrp. apply Hrp.
      by eapply list_elem_of_lookup_2.
    + rewrite Hdfs. simpl. rewrite (kids_of_lookup _ _ _ Hpd).
      rewrite (flat_map_middle _ (children pd) j node Hj).
      by rewrite <- !app_assoc.
    + cbn [TreeView_findNextNode]. rewrite Hnd. simpl. rewrite Hpar, Hpd.
      simpl. rewrite Hpi.
      destruct (bool_decide (i32 (vec_size (children pd)) - 1 > Z.of_nat j))
        eqn:Hb.
      * rewrite Hstep. f_equal.
        destruct (children pd !! S j) as [y|] eqn:Hy.
        -- destruct (flat_map (preorder (kids_of h) m)
                       (drop (S j) (children pd))); simpl in *; congruence.
        -- exfalso. apply lookup_ge_None in Hy.
           apply bool_decide_eq_true in Hb. unfold vec_size in Hb.
           assert (Hs := Hsz (Some p) (children pd)). simpl in Hs.
           rewrite Hpd in Hs. specialize (Hs eq_refl).
           unfold vec_size in Hs. rewrite i32_small in Hb by lia. lia.
      * rewrite Hrun. f_equal. injection Hstep as Hstep.
        destruct (children pd !! S j) as [y|] eqn:Hy.
        -- exfalso. apply lookup_lt_Some in Hy.
           apply bool_decide_eq_false in Hb. unfold vec_size in Hb.
           assert (Hs := Hsz (Some p) (children pd)). simpl in Hs.
           rewrite Hpd in Hs. specialize (Hs eq_refl).
           unfold vec_size in Hs. rewrite i32_small in Hb by lia. lia.
        -- rewrite drop_ge by by apply lookup_ge_None. done.
Qed.

(** X13.  On consistent links, with roots of depth 1, [findNextNode] on a
    node of the tree returns the node that follows the subtree of the node
    in the depth-first pre-order of the tree, and the null pointer when the
    subtree is at the end of it. *)
Theorem findNextNode_after_subtree (h : heap) (t : Tree) n k fuel node :
  links_ok h t →
  Forall (ranked (kids_of h) n) (roots t) →
  (∀ r nd, r ∈ roots t → h !! r = Some nd → depth nd = 1) →
  below_roots h t k node →
  (k < fuel)%nat →
  ∃ m pre post,
    ranked (kids_of h) m node
    ∧ dfs h n (roots t) = pre ++ preorder (kids_of h) m node ++ post
    ∧ TreeView_findNextNode fuel h t node = Some (head post).
Proof.
  intros Hok Hr Hdepth Hk Hfuel.
  by apply (findNextNode_spec h t n (links_ok_flat _ _ Hok) Hr Hdepth k).
Qed.

Lemma findNextNode_after_subtree_witness :
  ∃ m pre post,
    ranked (kids_of searched_store) m 3%positive
    ∧ dfs searched_store 2 [1; 2]%positive
      = pre ++ preorder (kids_of searched_store) m 3%positive ++ post
    ∧ TreeView_findNextNode 2 searched_store (mkTree [1; 2]%positive)
        3%positive
      = Some (head post).
Proof.
  apply (findNextNode_after_subtree searched_store (mkTree [1; 2]%positive)
           2 1 2 3%positive).
  - exact searched_store_links.
  - concrete.
  - intros r nd Hr Hnd.
    destruct (searched_store_lookup r nd Hnd)
      as [(-> & ? & ? & ? & ?)|[(-> & ? & ? & ? & ?)|(-> & ? & ? & ? & ?)]].
    + vm_compute in Hnd. by injection Hnd as <-.
    + vm_compute in Hnd. by injection Hnd as <-.
    + simpl in Hr. apply elem_of_cons in Hr as [?|Hr]; [done|].
      apply elem_of_cons in Hr as [?|Hr]; [done|]. by apply elem_of_nil in Hr.
  - simpl. eexists _, 1%positive. split_and!; [reflexivity|reflexivity|].
    apply elem_of_cons. by left.
  - lia.
Defined.

(** ** The index [calculateVirtualSize] builds *)

Lemma row_height_bounds sh g ds :
  0 ≤ g < 2 ^ 31 → 0 ≤ row_height sh g ds < 2 ^ 31.
Proof.
  intros Hg. unfold row_height.
  assert (H : ∀ m, 0 ≤ m < 2 ^ 31 →
            0 ≤ foldl (cell_height sh g) m ds < 2 ^ 31); [|by apply H].
  induction ds as [|d ds IH]; intros m Hm; simpl; [done|].
  apply IH. unfold cell_height. case_bool_decide; [|done].
  unfold i32 in *.
  pose proof (Z.mod_pos_bound (Size.h (sh d) + g + 2 ^ 31) (2 ^ 32)). lia.
Qed.

Lemma index_step_exact sh g nd c cd so bs c' cd' so' :
  index_step sh g nd c cd so = (bs, (c', cd', so')) →
  0 ≤ g < 2 ^ 31 → 0 ≤ so → so + 2 ^ 31 < 2 ^ 64 →
  BinarySearchData.position bs = so
  ∧ 0 ≤ BinarySearchData.length bs < 2 ^ 31
  ∧ so' = so + BinarySearchData.length bs.
Proof.
  intros Hstep Hg Hso Hroom. unfold index_step in Hstep.
  pose proof (row_height_bounds sh g (columns nd) Hg) as Hrh.
  destruct (bool_decide (depth nd ≤ cd)); simpl in Hstep.
  - rewrite !u64_small in Hstep by (rewrite ?u64_small; lia).
    destruct (is_collapsed nd); simpl in Hstep; injection Hstep as <- _ _ <-;
      simpl; lia.
  - destruct c; simpl in Hstep.
    + rewrite andb_false_r in Hstep. injection Hstep as <- _ _ <-. simpl. lia.
    + rewrite !u64_small in Hstep by (rewrite ?u64_small; lia).
      destruct (is_collapsed nd); simpl in Hstep;
        injection Hstep as <- _ _ <-; simpl; lia.
Qed.

Lemma indexed_from_frame (h h' : heap) l base :
  (∀ q, q ∈ l → h' !! q = h !! q) →
  indexed_from h l base → indexed_from h' l base.
Proof.
  revert base. induction l as [|p l IH]; intros base Hfr; simpl; [done|].
  intros (nd & Hp & Hpos & Hlen & Hrest). exists nd. split_and!; try done.
  - rewrite Hfr; [done|]. apply elem_of_cons. by left.
  - apply IH; [|done]. intros q Hq. apply Hfr. apply elem_of_cons. by right.
Qed.

(** Over distinct nodes, with room below 2^64 for a row of every node, the
    visitor leaves an index without wrap-around. *)
Lemma calculateVirtualSize_visit_all_indexed sh l :
  NoDup l →
  ∀ (h : heap) tv c cd pi so,
  cells_ok h tv → Forall (λ q, is_Some (h !! q)) l →
  0 ≤ TreeView.m_grid_line_width tv < 2 ^ 31 →
  0 ≤ so → so + Z.of_nat (length l) * 2 ^ 31 < 2 ^ 64 →
  ∃ h' tv' x so',
    visit_all (calculateVirtualSize_visitor sh) l (h, (tv, (c, cd, pi, so)))
    = Some (h', (tv', (x, so')))
    ∧ same_rows h h' ∧ view_frame tv tv'
    ∧ (∀ q, q ∉ l → h' !! q = h !! q)
    ∧ indexed_from h' l so
    ∧ so' = so + extent h' l
    ∧ extent h' l ≤ Z.of_nat (length l) * 2 ^ 31.
Proof.
  induction 1 as [|p l Hp Hnd IH];
    intros h tv c cd pi so Hcells Hall Hg Hso Hroom.
  { eexists h, tv, _, so. split; [reflexivity|]. split_and!; try done.
    all: unfold extent; simpl; lia. }
  apply Forall_cons in Hall as [[nd Hndp] Hall].
  destruct (calculateVirtualSize_visitor_spec sh p h tv nd c cd pi so
              Hndp Hcells)
    as (h1 & tv1 & pi1 & nd1 & bs & c1 & cd1 & so1 & Hstep & Hrun
        & Hnd1 & Hrow1 & Hbs1 & Hfr1 & Hv1).
  simpl length in Hroom.
  destruct (index_step_exact _ _ _ _ _ _ _ _ _ _ Hstep Hg Hso)
    as (Hpos & Hlen & Hso1); [lia|].
  assert (Hrows1 : same_rows h h1) by by eapply same_rows_frame.
  assert (Hcells1 : cells_ok h1 tv1) by by eapply cells_ok_frame.
  assert (Hall1 : Forall (λ q, is_Some (h1 !! q)) l).
  { eapply Forall_impl; [exact Hall|]. intros q [qd Hq]. simpl.
    destruct (same_rows_lookup _ _ _ _ Hrows1 Hq) as (? & ? & _). eauto. }
  destruct (IH h1 tv1 c1 cd1 pi1 so1 Hcells1 Hall1)
    as (h' & tv' & x & so' & Hrest & Hrows' & Hv' & Hfr' & Hidx & Hso'
        & Hext).
  { destruct Hv1 as (-> & _). done. }
  { lia. }
  { lia. }
  cbn [visit_all]. rewrite Hrun. simpl. rewrite Hrest.
  assert (Hp' : h' !! p = Some nd1) by (rewrite Hfr' by done; done).
  assert (Hextp : extent h' (p :: l) = bs_length nd1 + extent h' l).
  { unfold extent. simpl. by rewrite Hp'. }
  assert (Hl1 : bs_length nd1 = BinarySearchData.length bs).
  { unfold bs_length. by rewrite Hbs1. }
  eexists h', tv', x, so'. split; [reflexivity|]. split_and!.
  - by eapply same_rows_trans.
  - by eapply view_frame_trans.
  - intros q Hq. apply not_elem_of_cons in Hq as [Hq1 Hq2].
    rewrite Hfr' by done. by apply Hfr1.
  - simpl. exists nd1. split_and!; try done.
    + unfold bs_position. by rewrite Hbs1.
    + lia.
    + rewrite Hl1, <- Hso1. done.
  - rewrite Hp'. simpl. lia.
  - rewrite Hp'. simpl. lia.
Qed.

Lemma dfs_vectors_short (h : heap) n rs :
  Forall (ranked (kids_of h) n) rs →
  (length rs ≤ length (dfs h n rs))%nat
  ∧ Forall (λ p, (length (kids_of h p) ≤ length (dfs h n rs))%nat)
      (dfs h n rs).
Proof.
  revert rs. induction n as [|n IH]; intros rs Hr.
  { destruct rs as [|r rs]; [by split|].
    by apply Forall_cons in Hr as [[] _]. }
  induction rs as [|r rs IHrs]; [by split|].
  apply Forall_cons in Hr as [Hr1 Hr]. simpl in Hr1.
  destruct (IH _ Hr1) as [Hk1 Hk2]. destruct (IHrs Hr) as [Hs1 Hs2].
  rewrite dfs_cons. simpl length. rewrite length_app. split; [lia|].
  apply Forall_cons. split; [lia|]. apply Forall_app. split.
  - eapply Forall_impl; [exact Hk2|]. simpl. intros; lia.
  - eapply Forall_impl; [exact Hs2|]. simpl. intros; lia.
Qed.

(** [calculateVirtualSize] on a tree with room for its rows. *)
Lemma calculateVirtualSize_index_spec sh fuel n tv w m t :
  TreeView.m_model tv = Some m →
  trees w !! m = Some t →
  is_tree (nodes w) n (roots t) →
  (n ≤ fuel)%nat →
  cells_ok (nodes w) tv →
  0 ≤ TreeView.m_grid_line_width tv < 2 ^ 31 →
  Z.of_nat (length (dfs (nodes w) n (roots t))) < 2 ^ 33 →
  ∃ tv' h',
    TreeView_calculateVirtualSize sh fuel tv w = Some (tv', set_nodes h' w)
    ∧ indexed_from h' (dfs (nodes w) n (roots t)) 0
    ∧ extent h' (dfs (nodes w) n (roots t)) < 2 ^ 64
    ∧ same_rows (nodes w) h'
    ∧ TreeView.m_virtual_size_changed tv' = false.
Proof.
  intros Hm Ht (Hrk & Hnd & Hall) Hfuel Hcells Hg Hcount.
  unfold TreeView_calculateVirtualSize. simpl.
  rewrite Hm. simpl. rewrite Ht. simpl.
  rewrite (Tree_forEachNode_fold (calculateVirtualSize_visitor sh)
             (kids_of (nodes w))
             (λ s, same_rows (nodes w) s.1 ∧ cells_ok s.1 s.2.1)
             (calculateVirtualSize_visitor_shape sh (nodes w))
             n fuel (roots t)); try done.
  destruct (calculateVirtualSize_visit_all_indexed sh
              (dfs (nodes w) n (roots t)) Hnd (nodes w)
              (TreeView.set_m_virtual_size (TreeView.m_children_size tv) tv)
              false (-1) 0 0)
    as (h' & tv' & x & so' & Hrun & Hrows & Hv & Hfr & Hidx & Hso' & Hext);
    try done; try lia.
  unfold dfs in Hrun. rewrite Hrun. simpl.
  eexists _, h'. split; [reflexivity|]. split_and!; try done.
  fold (dfs (nodes w) n (roots t)) in *. lia.
Qed.

(** X14.  On a tree of fewer than 2^33 nodes, with every node holding one
    cell for each column and a grid line width that is not negative,
    [calculateVirtualSize] returns and leaves a position index without
    wrap-around: the first node of the pre-order has position 0, every next
    node the position of the node before plus its length, and no length is
    negative.  The rows of the nodes (children, depth, collapse flag and
    cells) are untouched, and the index is no longer marked as stale. *)
Theorem calculateVirtualSize_indexed sh fuel n tv w m t :
  TreeView.m_model tv = Some m →
  trees w !! m = Some t →
  is_tree (nodes w) n (roots t) →
  (n ≤ fuel)%nat →
  cells_ok (nodes w) tv →
  0 ≤ TreeView.m_grid_line_width tv < 2 ^ 31 →
  Z.of_nat (length (dfs (nodes w) n (roots t))) < 2 ^ 33 →
  ∃ tv' h',
    TreeView_calculateVirtualSize sh fuel tv w = Some (tv', set_nodes h' w)
    ∧ indexed_from h' (dfs (nodes w) n (roots t)) 0
    ∧ extent h' (dfs (nodes w) n (roots t)) < 2 ^ 64
    ∧ same_rows (nodes w) h'
    ∧ TreeView.m_virtual_size_changed tv' = false.
Proof.
  intros Hm Ht Htree Hfuel Hcells Hg Hcount.
  by apply (calculateVirtualSize_index_spec sh fuel n tv w m t).
Qed.

Lemma calculateVirtualSize_indexed_witness :
  ∃ tv' h',
    TreeView_calculateVirtualSize flat_sizeHint 2 shown_view searched_world
    = Some (tv', set_nodes h' searched_world)
    ∧ indexed_from h' (dfs (nodes searched_world) 2 [1; 2]%positive) 0
    ∧ extent h' (dfs (nodes searched_world) 2 [1; 2]%positive) < 2 ^ 64
    ∧ same_rows (nodes searched_world) h'
    ∧ TreeView.m_virtual_size_changed tv' = false.
Proof.
  apply (calculateVirtualSize_indexed flat_sizeHint 2 2 shown_view
           searched_world 1%positive (mkTree [1; 2]%positive)).
  - reflexivity.
  - reflexivity.
  - apply searched_store_indexed.
  - lia.
  - exact searched_store_cells.
  - vm_compute. split; congruence.
  - vm_compute. reflexivity.
Defined.

(** X15.  The index [calculateVirtualSize] builds is one the binary search
    works on: under the conditions of X14, after the call the search over
    the roots returns for every target; it finds no node exactly when the
    model is empty or the target lies beyond the total height of the rows,
    and a target strictly inside the row of a node finds that node. *)
Theorem calculateVirtualSize_then_binarySearch sh fuel n tv w m t target :
  TreeView.m_model tv = Some m →
  trees w !! m = Some t →
  is_tree (nodes w) n (roots t) →
  (n < fuel)%nat →
  cells_ok (nodes w) tv →
  0 ≤ TreeView.m_grid_line_width tv < 2 ^ 31 →
  Z.of_nat (length (dfs (nodes w) n (roots t))) < 2 ^ 33 →
  0 ≤ target →
  ∃ tv' w' idx res,
    TreeView_calculateVirtualSize sh fuel tv w = Some (tv', w')
    ∧ TreeView_binarySearch fuel (nodes w') (roots t) target
      = Some (idx, res)
    ∧ (res = None
       ↔ roots t = []
         ∨ extent (nodes w') (dfs (nodes w') n (roots t)) < target)
    ∧ (∀ x ndx, x ∈ dfs (nodes w') n (roots t) →
         nodes w' !! x = Some ndx →
         bs_position ndx < target < bs_position ndx + bs_length ndx →
         res = Some x).
Proof.
  intros Hm Ht Htree Hfuel Hcells Hg Hcount Htarget.
  destruct (calculateVirtualSize_index_spec sh fuel n tv w m t)
    as (tv' & h' & Hrun & Hidx & Hext & Hrows & _); try done; try lia.
  destruct Htree as (Hrk & Hnd & Hall).
  assert (Hshape : same_shape (nodes w) h').
  { intros q. by apply same_rows_kids. }
  assert (Hdfs : dfs h' n (roots t) = dfs (nodes w) n (roots t))
    by by apply same_shape_dfs.
  assert (Hrk' : Forall (ranked (kids_of h') n) (roots t)).
  { eapply Forall_impl; [exact Hrk|]. intros q. apply ranked_ext.
    intros p. symmetry. apply Hshape. }
  destruct (dfs_vectors_short h' n (roots t) Hrk') as [Hs1 Hs2].
  rewrite Hdfs in Hs1, Hs2.
  destruct (binarySearch_spec n h' (roots t) 0 target fuel)
    as (idx & res & Hres & Hnone & Hsome); try done; try lia.
  - by rewrite Hdfs.
  - rewrite Hdfs. lia.
  - unfold vec_size. lia.
  - rewrite Hdfs. eapply Forall_impl; [exact Hs2|]. simpl. intros q Hq.
    unfold vec_size. lia.
  - exists tv', (set_nodes h' w), idx, res. simpl. split_and!; try done.
Qed.

Lemma calculateVirtualSize_then_binarySearch_witness :
  ∃ tv' w' idx res,
    TreeView_calculateVirtualSize flat_sizeHint 3 shown_view searched_world
    = Some (tv', w')
    ∧ TreeView_binarySearch 3 (nodes w') [1; 2]%positive 15
      = Some (idx, res)
    ∧ (res = None
       ↔ [1; 2]%positive = []
         ∨ extent (nodes w') (dfs (nodes w') 2 [1; 2]%positive) < 15)
    ∧ (∀ x ndx, x ∈ dfs (nodes w') 2 [1; 2]%positive →
         nodes w' !! x = Some ndx →
         bs_position ndx < 15 < bs_position ndx + bs_length ndx →
         res = Some x).
Proof.
  apply (calculateVirtualSize_then_binarySearch flat_sizeHint 3 2 shown_view
           searched_world 1%positive (mkTree [1; 2]%positive) 15).
  - reflexivity.
  - reflexivity.
  - apply searched_store_indexed.
  - lia.
  - exact searched_store_cells.
  - vm_compute. split; congruence.
  - vm_compute. reflexivity.
  - lia.
Defined.

(** ** The selection *)

Lemma ArrayList_find_Some l x i :
  ArrayList_find l x = Some i →
  l !! i = Some x ∧ ∀ j y, (j < i)%nat → l !! j = Some y → y ≠ x.
Proof.
  revert i. induction l as [|y l IH]; intros i; simpl; [done|].
  case_decide as E.
  - intros [= <-]. subst y. split; [done|]. intros; lia.
  - destruct (ArrayList_find l x) as [k|]; simpl; [|done].
    intros [= <-]. destruct (IH k eq_refl) as [Hk Hlt]. split; [done|].
    intros [|j] z Hj; simpl; [by intros [= <-]|].
    apply Hlt. lia.
Qed.

Lemma ArrayList_find_None l x : ArrayList_find l x = None ↔ x ∉ l.
Proof.
  induction l as [|y l IH]; simpl.
  - split; [intros _; apply not_elem_of_nil|done].
  - case_decide as E.
    + subst y. split; [done|]. intros H. exfalso. apply H.
      apply elem_of_cons. by left.
    + rewrite not_elem_of_cons. destruct (ArrayList_find l x); simpl.
      * split; [done|]. intros [_ H]. by apply IH in H.
      * split; [|done]. intros _. split; [done|]. by apply IH.
Qed.

Lemma ArrayList_find_end l x :
  x ∉ l → ArrayList_find (l ++ [x]) x = Some (length l).
Proof.
  induction l as [|y l IH]; simpl; intros Hx.
  - by rewrite decide_True.
  - apply not_elem_of_cons in Hx as [Hne Hx].
    rewrite decide_False by done. by rewrite IH.
Qed.

Lemma notify_all_cursor (f : ptr → Event) l : ∀ tv,
  TreeView.m_cursor (foldl (λ tv node, notify (f node) tv) tv l)
  = TreeView.m_cursor tv.
Proof. induction l as [|p l IH]; intros tv; simpl; [done|]. by rewrite IH. Qed.

Lemma deselectAll_focused tv :
  TreeView.m_focused (TreeView_deselectAll tv) = []
  ∧ TreeView.m_cursor (TreeView_deselectAll tv) = TreeView.m_cursor tv.
Proof.
  unfold TreeView_deselectAll.
  destruct (TreeView.m_focused tv) as [|n0 l0] eqn:E; [done|]. simpl.
  split; [done|]. unfold TreeView_notifyOnDeselected. simpl.
  apply (notify_all_cursor NodeDeselected).
Qed.

Lemma select_single_state (node : ptr) (tv : TreeView.t) :
  ∃ tv', TreeView_select node tv = Some tv'
    ∧ TreeView.m_focused tv' = [node]
    ∧ TreeView.m_cursor tv' = Some node.
Proof.
  unfold TreeView_select, ArrayList_contains.
  destruct (ArrayList_find (TreeView.m_focused tv) node) as [i|] eqn:E.
  - rewrite bool_decide_true by eauto. simpl.
    eexists. split; [reflexivity|]. simpl.
    match goal with
    | |- context [TreeView_deselectAll ?x] =>
        destruct (deselectAll_focused x) as [-> _]
    end.
    done.
  - rewrite bool_decide_false by (by intros [? ?]). simpl.
    eexists. split; [reflexivity|]. simpl.
    destruct (deselectAll_focused tv) as [-> _]. done.
Qed.

(** X16.  [TreeView::select] on a node returns, whatever was selected
    before, and leaves exactly that node selected, with the keyboard cursor
    on it. *)
Theorem select_single (node : ptr) (tv : TreeView.t) :
  ∃ tv', TreeView_select node tv = Some tv'
    ∧ TreeView.m_focused tv' = [node]
    ∧ TreeView.m_cursor tv' = Some node.
Proof. apply select_single_state. Qed.

Lemma multiselect_spec (node : ptr) (tv : TreeView.t) :
  NoDup (TreeView.m_focused tv) →
  NoDup (TreeView.m_focused (TreeView_multiselect node tv))
  ∧ (node ∈ TreeView.m_focused (TreeView_multiselect node tv)
     ↔ node ∉ TreeView.m_focused tv)
  ∧ (∀ n, n ≠ node →
       n ∈ TreeView.m_focused (TreeView_multiselect node tv)
       ↔ n ∈ TreeView.m_focused tv).
Proof.
  intros Hnd. unfold TreeView_multiselect, ArrayList_erase, ArrayList_append.
  destruct (ArrayList_find (TreeView.m_focused tv) node) as [i|] eqn:E; simpl.
  - destruct (ArrayList_find_Some _ _ _ E) as [Hi _].
    pose proof (take_drop_middle _ _ _ Hi) as Hsplit.
    rewrite <- Hsplit in Hnd. apply NoDup_app in Hnd as (Hn1 & Hn2 & Hn3).
    apply NoDup_cons in Hn3 as [Hn3 Hn4].
    rewrite delete_take_drop. split_and!.
    + apply NoDup_app. split_and!; [done| |done].
      intros x Hx Hx'. apply (Hn2 x Hx). apply elem_of_cons. by right.
    + split.
      * intros Hin. exfalso. apply elem_of_app in Hin as [Hin|Hin]; [|done].
        apply (Hn2 node Hin). apply elem_of_cons. by left.
      * intros Hout. exfalso. apply Hout. by eapply list_elem_of_lookup_2.
    + intros n Hne. rewrite <- Hsplit at 3.
      rewrite !elem_of_app, elem_of_cons.
      split; [intros [?|?]; auto|intros [?|[?|?]]; auto; done].
  - apply ArrayList_find_None in E. split_and!.
    + apply NoDup_app. split_and!; [done| |apply NoDup_singleton].
      intros x Hx Hx'. apply list_elem_of_singleton in Hx'. by subst.
    + split; [done|]. intros _. apply elem_of_app. right.
      by apply list_elem_of_singleton.
    + intros n Hne. rewrite elem_of_app, list_elem_of_singleton.
      split; [intros [?|?]; done|auto].
Qed.

(** X17.  [TreeView::multiselect] toggles a node: on a selection without
    duplicates the node is selected afterwards exactly when it was not
    before, the other nodes stay as they were, selected or not, and the
    selection is still without duplicates. *)
Theorem multiselect_toggles (node : ptr) (tv : TreeView.t) :
  NoDup (TreeView.m_focused tv) →
  NoDup (TreeView.m_focused (TreeView_multiselect node tv))
  ∧ (node ∈ TreeView.m_focused (TreeView_multiselect node tv)
     ↔ node ∉ TreeView.m_focused tv)
  ∧ (∀ n, n ≠ node →
       n ∈ TreeView.m_focused (TreeView_multiselect node tv)
       ↔ n ∈ TreeView.m_focused tv).
Proof. apply multiselect_spec. Qed.

Lemma multiselect_toggles_witness :
  NoDup (TreeView.m_focused (TreeView_multiselect 3%positive shown_view))
  ∧ (3%positive ∈ TreeView.m_focused (TreeView_multiselect 3%positive
                                         shown_view)
     ↔ 3%positive ∉ TreeView.m_focused shown_view)
  ∧ (∀ n, n ≠ 3%positive →
       n ∈ TreeView.m_focused (TreeView_multiselect 3%positive shown_view)
       ↔ n ∈ TreeView.m_focused shown_view).
Proof.
  apply (multiselect_toggles 3%positive shown_view).
  apply (bool_decide_unpack _). vm_compute. exact I.
Defined.

(** X18.  Calling [TreeView::multiselect] twice on a node that is not
    selected restores the selection: the same nodes in the same order. *)
Theorem multiselect_twice (node : ptr) (tv : TreeView.t) :
  node ∉ TreeView.m_focused tv →
  TreeView.m_focused (TreeView_multiselect node (TreeView_multiselect node tv))
  = TreeView.m_focused tv.
Proof.
  intros Hout. unfold TreeView_multiselect at 2.
  rewrite (proj2 (ArrayList_find_None _ _) Hout).
  unfold TreeView_multiselect, ArrayList_append. simpl.
  rewrite (ArrayList_find_end _ _ Hout). simpl.
  unfold ArrayList_erase. rewrite delete_take_drop.
  rewrite take_app_length. rewrite drop_ge by (rewrite length_app; simpl; lia).
  by rewrite app_nil_r.
Qed.

Lemma multiselect_twice_witness :
  TreeView.m_focused
    (TreeView_multiselect 2%positive (TreeView_multiselect 2%positive
                                        shown_view))
  = TreeView.m_focused shown_view.
Proof.
  apply (multiselect_twice 2%positive shown_view).
  apply (bool_decide_unpack _). vm_compute. exact I.
Defined.

(** X19.  The selection never holds a node twice: each of [select],
    [multiselect], [forceMultiselect], [deselect] and [deselectAll], called
    on a selection without duplicates, returns and leaves a selection
    without duplicates. *)
Theorem selection_keeps_NoDup (c : selection_call) (tv : TreeView.t) :
  NoDup (TreeView.m_focused tv) →
  ∃ tv', selection_run c tv = Some tv' ∧ NoDup (TreeView.m_focused tv').
Proof.
  intros Hnd. destruct c as [node|node|node|node|]; simpl.
  - destruct (select_single_state node tv) as (tv' & -> & Hf & _).
    exists tv'. split; [done|]. rewrite Hf. apply NoDup_singleton.
  - eexists. split; [reflexivity|].
    by destruct (multiselect_spec node tv Hnd) as [? _].
  - eexists. split; [reflexivity|].
    unfold TreeView_forceMultiselect, ArrayList_append.
    destruct (ArrayList_find (TreeView.m_focused tv) node) eqn:E; [done|].
    simpl. apply ArrayList_find_None in E.
    apply NoDup_app. split_and!; [done| |apply NoDup_singleton].
    intros x Hx Hx'. apply list_elem_of_singleton in Hx'. by subst.
  - eexists. split; [reflexivity|].
    unfold TreeView_deselect, ArrayList_erase.
    destruct (ArrayList_find (TreeView.m_focused tv) node) eqn:E; [|done].
    simpl. eapply sublist_NoDup; [exact Hnd|]. apply sublist_delete.
  - eexists. split; [reflexivity|].
    destruct (deselectAll_focused tv) as [-> _]. apply NoDup_nil_2.
Qed.

Lemma selection_keeps_NoDup_witness :
  ∃ tv', selection_run (ForceMultiselect 2%positive) shown_view = Some tv'
         ∧ NoDup (TreeView.m_focused tv').
Proof.
  apply (selection_keeps_NoDup (ForceMultiselect 2%positive) shown_view).
  apply (bool_decide_unpack _). vm_compute. exact I.
Defined.

(** ** Selecting a range *)

Lemma forceMultiselect_focused node tv x :
  x ∈ TreeView.m_focused (TreeView_forceMultiselect node tv)
  ↔ x ∈ TreeView.m_focused tv ∨ x = node.
Proof.
  unfold TreeView_forceMultiselect, ArrayList_append.
  destruct (ArrayList_find (TreeView.m_focused tv) node) as [i|] eqn:E; simpl.
  - destruct (ArrayList_find_Some _ _ _ E) as [Hi _].
    apply list_elem_of_lookup_2 in Hi.
    split; [auto|]. intros [?| ->]; done.
  - by rewrite elem_of_app, list_elem_of_singleton.
Qed.

Lemma rangeSelect_visitor_inside focused event_node p (h : heap) tv b0 b :
  rangeSelect_visitor focused event_node p (h, (tv, Some b0, Some b))
  = Some (if bool_decide (p = b) then Break else Continue,
          (h, (TreeView_forceMultiselect p tv, Some b0, Some b))).
Proof.
  unfold rangeSelect_visitor. destruct (decide (p = b)) as [->|Hne].
  - by rewrite !bool_decide_true.
  - rewrite !bool_decide_false by congruence. done.
Qed.

Lemma rangeSelect_visitor_before focused event_node p (h : heap) tv :
  p ≠ focused → p ≠ event_node →
  rangeSelect_visitor focused event_node p (h, (tv, None, None))
  = Some (Continue, (h, (tv, None, None))).
Proof.
  intros Hf He. unfold rangeSelect_visitor.
  by rewrite !bool_decide_false.
Qed.

(** Once [begin] is set, every node up to [end] is added. *)
Lemma rangeSelect_inside focused event_node (h : heap) b0 b l : ∀ tv rest,
  b ∉ l →
  ∃ tv',
    visit_until (rangeSelect_visitor focused event_node) (l ++ b :: rest)
      (h, (tv, Some b0, Some b))
    = Some (true, (h, (tv', Some b0, Some b)))
    ∧ ∀ x, x ∈ TreeView.m_focused tv'
           ↔ x ∈ TreeView.m_focused tv ∨ x ∈ l ++ [b].
Proof.
  induction l as [|p l IH]; intros tv rest Hb; cbn [app visit_until];
    rewrite rangeSelect_visitor_inside.
  - rewrite bool_decide_true by done. simpl. eexists. split; [reflexivity|].
    intros x. rewrite forceMultiselect_focused, list_elem_of_singleton. done.
  - apply not_elem_of_cons in Hb as [Hne Hb].
    rewrite bool_decide_false by congruence. simpl.
    destruct (IH (TreeView_forceMultiselect p tv) rest Hb) as (tv' & -> & H').
    exists tv'. split; [done|]. intros x.
    rewrite H', forceMultiselect_focused, elem_of_cons. tauto.
Qed.

(** Before [begin] is set, the nodes other than the two ends are passed. *)
Lemma rangeSelect_before focused event_node (h : heap) tv l rest :
  focused ∉ l → event_node ∉ l →
  visit_until (rangeSelect_visitor focused event_node) (l ++ rest)
    (h, (tv, None, None))
  = visit_until (rangeSelect_visitor focused event_node) rest
      (h, (tv, None, None)).
Proof.
  induction l as [|p l IH]; intros Hf He; [done|].
  apply not_elem_of_cons in Hf as [Hf1 Hf].
  apply not_elem_of_cons in He as [He1 He].
  cbn [app visit_until].
  rewrite rangeSelect_visitor_before by congruence. simpl. by apply IH.
Qed.

Lemma rangeSelect_spec fuel n (h : heap) (t : Tree) tv e f pre a mid b post :
  TreeView.m_event_node tv = Some e →
  head (TreeView.m_focused tv) = Some f →
  is_tree h n (roots t) →
  (n ≤ fuel)%nat →
  dfs h n (roots t) = pre ++ a :: mid ++ b :: post →
  (a = e ∧ b = f) ∨ (a = f ∧ b = e) →
  ∃ tv',
    TreeView_rangeSelect fuel h t tv = Some tv'
    ∧ ∀ x, x ∈ TreeView.m_focused tv'
           ↔ x ∈ TreeView.m_focused tv ∨ x ∈ a :: mid ++ [b].
Proof.
  intros He Hf (Hrk & Hnd & Hall) Hfuel Hdfs Hends.
  rewrite Hdfs in Hnd.
  apply NoDup_app in Hnd as (_ & Hpre & Hnd).
  apply NoDup_cons in Hnd as [Ha Hnd].
  apply NoDup_app in Hnd as (_ & Hmid & _).
  assert (Hab : a ≠ b).
  { intros ->. apply Ha. apply elem_of_app. right. apply elem_of_cons. by left. }
  assert (Hbmid : b ∉ mid).
  { intros Hin. apply (Hmid b Hin). apply elem_of_cons. by left. }
  assert (Hapre : a ∉ pre).
  { intros Hin. apply (Hpre a Hin). apply elem_of_cons. by left. }
  assert (Hbpre : b ∉ pre).
  { intros Hin. apply (Hpre b Hin). apply elem_of_cons. right.
    apply elem_of_app. right. apply elem_of_cons. by left. }
  unfold TreeView_rangeSelect. rewrite He. simpl. rewrite Hf. simpl.
  rewrite bool_decide_false by (destruct Hends as [[-> ->]|[-> ->]]; congruence).
  rewrite (read_only_until _ h n fuel); try done.
  2: { clear. intros p [[tv b0] e0] t s'. unfold rangeSelect_visitor.
       destruct b0; repeat case_bool_decide; intros [= <- <-]; done. }
  fold (dfs h n (roots t)). rewrite Hdfs.
  rewrite rangeSelect_before
    by (destruct Hends as [[-> ->]|[-> ->]]; done).
  cbn [visit_until].
  assert (Hstep : ∃ b0,
    rangeSelect_visitor f e a (h, (tv, None, None))
    = Some (Continue, (h, (TreeView_forceMultiselect a tv, Some b0, Some b)))).
  { unfold rangeSelect_visitor.
    destruct Hends as [[-> ->]|[-> ->]].
    - rewrite bool_decide_true by done. eauto.
    - rewrite bool_decide_false by done. rewrite bool_decide_true by done.
      eauto. }
  destruct Hstep as [b0 ->]. simpl.
  destruct (rangeSelect_inside f e h b0 b mid (TreeView_forceMultiselect a tv)
              post Hbmid) as (tv' & -> & Hin).
  simpl. exists tv'. split; [done|]. intros x.
  rewrite Hin, forceMultiselect_focused, elem_of_cons. tauto.
Qed.



(** ** Asking for the size twice *)

Lemma calculateVirtualSize_cell_size_changed sh node acc d h tv i :
  calculateVirtualSize_cell sh node acc d = Some (h, tv, i) →
  (∀ h0 tv0 i0, acc = Some (h0, tv0, i0) →
     TreeView.m_size_changed tv0 = false) →
  TreeView.m_size_changed tv = false.
Proof.
  intros Hrun Hacc. destruct acc as [[[h0 tv0] i0]|]; [|done].
  specialize (Hacc h0 tv0 i0 eq_refl).
  unfold calculateVirtualSize_cell in Hrun. simpl in Hrun.
  destruct (h0 !! node) as [nd|]; [|done]. simpl in Hrun.
  destruct (vec_at (TreeView.children tv0) i0) as [col|]; [|done].
  simpl in Hrun.
  destruct ((TreeView.m_auto_size_columns tv0
             || bool_decide (TreeView.m_mode tv0 = Unroll))
            && _) in Hrun.
  - simpl in Hrun.
    destruct (vec_at _ i0) as [old|] in Hrun; [|done]. simpl in Hrun.
    by injection Hrun as _ <- _.
  - simpl in Hrun. by injection Hrun as _ <- _.
Qed.

Lemma calculateVirtualSize_cells_size_changed sh node ds : ∀ acc h tv i,
  foldl (calculateVirtualSize_cell sh node) acc ds = Some (h, tv, i) →
  (∀ h0 tv0 i0, acc = Some (h0, tv0, i0) →
     TreeView.m_size_changed tv0 = false) →
  TreeView.m_size_changed tv = false.
Proof.
  induction ds as [|d ds IH]; intros acc h tv i Hrun Hacc; simpl in Hrun.
  - by eapply Hacc.
  - eapply IH; [exact Hrun|]. intros h1 tv1 i1 Hstep.
    by eapply calculateVirtualSize_cell_size_changed.
Qed.

Lemma calculateVirtualSize_visitor_size_changed sh p
    (s : heap * (TreeView.t * (bool * Z * Z * Z))) t s' :
  TreeView.m_size_changed s.2.1 = false →
  calculateVirtualSize_visitor sh p s = Some (t, s') →
  TreeView.m_size_changed s'.2.1 = false.
Proof.
  destruct s as (h & tv & [[[c cd] pi] so]). cbn [fst snd].
  intros Hf Hrun. unfold calculateVirtualSize_visitor in Hrun.
  destruct (h !! p) as [nd|]; [|done]. cbn [mbind option_bind] in Hrun.
  destruct (bool_decide (depth nd = 1)), (bool_decide (depth nd ≤ cd)), c;
    cbn [negb] in Hrun.
  all: repeat match type of Hrun with
       | context [foldl ?f ?acc ?ds] =>
           let Hfold := fresh "Hfold" in
           destruct (foldl f acc ds)
             as [[[? ?] ?]|] eqn:Hfold;
           [apply calculateVirtualSize_cells_size_changed in Hfold;
            [|by intros ??? [= <- <- <-]]
           |done];
           simpl in Hrun
       | context [@lookup _ _ _ _ ?k ?m] =>
           destruct (@lookup _ _ _ _ k m) eqn:?; simpl in Hrun; [|done]
       | context [bool_decide ?P] =>
           destruct (bool_decide P); simpl in Hrun; [|done]
       | context [is_collapsed ?x] =>
           destruct (is_collapsed x); simpl in Hrun
       end.
  all: by injection Hrun as _ <-.
Qed.

Lemma calculateVirtualSize_flags sh fuel n tv w m t tv' w' :
  TreeView.m_model tv = Some m → trees w !! m = Some t →
  Forall (ranked (kids_of (nodes w)) n) (roots t) →
  (n ≤ fuel)%nat → cells_ok (nodes w) tv →
  TreeView.m_size_changed tv = false →
  TreeView_calculateVirtualSize sh fuel tv w = Some (tv', w') →
  TreeView.m_size_changed tv' = false
  ∧ TreeView.m_virtual_size_changed tv' = false.
Proof.
  intros Hm Ht Hrk Hfuel Hcells Hf. unfold TreeView_calculateVirtualSize.
  simpl. rewrite Hm. simpl. rewrite Ht. simpl.
  rewrite (Tree_forEachNode_fold (calculateVirtualSize_visitor sh)
             (kids_of (nodes w))
             (λ s, same_rows (nodes w) s.1 ∧ cells_ok s.1 s.2.1)
             (calculateVirtualSize_visitor_shape sh (nodes w))
             n fuel (roots t)); try done.
  destruct (visit_all _ _ _) as [[h1 [tv1 x1]]|] eqn:Hrun; [|done].
  simpl. intros [= <- <-]. simpl. split; [|done].
  apply (visit_all_invariant (calculateVirtualSize_visitor sh)
           (λ s, TreeView.m_size_changed s.2.1 = false)) in Hrun; [done| |done].
  intros p s t0 s' Hs Hstep.
  by eapply calculateVirtualSize_visitor_size_changed.
Qed.

(** X21.  [TreeView::sizeHint] caches its work: on a view whose model is a
    tree with one cell for each column in every node, the call returns,
    and a second call right after it changes neither the view nor the
    nodes. *)
Theorem sizeHint_twice sh fuel n tv w m t :
  TreeView.m_model tv = Some m →
  trees w !! m = Some t →
  Forall (ranked (kids_of (nodes w)) n) (roots t) →
  Forall (λ q, is_Some (nodes w !! q)) (dfs (nodes w) n (roots t)) →
  (n ≤ fuel)%nat →
  cells_ok (nodes w) tv →
  ∃ tv' w',
    TreeView_sizeHint sh fuel tv w = Some (tv', w')
    ∧ TreeView_sizeHint sh fuel tv' w' = Some (tv', w').
Proof.
  intros Hm Ht Hrk Hall Hfuel Hcells.
  assert (Hidle : ∀ tv1 w1,
    TreeView.m_size_changed tv1 = false →
    TreeView.m_virtual_size_changed tv1 = false →
    TreeView_sizeHint sh fuel tv1 w1 = Some (tv1, w1)).
  { intros tv1 w1 H1 H2. unfold TreeView_sizeHint. by rewrite H1, H2. }
  unfold TreeView_sizeHint at 1.
  match goal with
  | |- context [if TreeView.m_virtual_size_changed ?x then _ else _] =>
      set (tvp := x)
  end.
  assert (Hvp : view_frame tv tvp).
  { unfold tvp. destruct (TreeView.m_size_changed tv); [|done].
    destruct Hcells as (_ & Hw & _).
    split_and!; simpl; try done. by rewrite !length_map. }
  assert (Hfp : TreeView.m_size_changed tvp = false).
  { unfold tvp. by destruct (TreeView.m_size_changed tv) eqn:E. }
  assert (Hmp : TreeView.m_model tvp = Some m).
  { destruct Hvp as (_ & _ & _ & -> & _). done. }
  assert (Hcp : cells_ok (nodes w) tvp).
  { eapply cells_ok_frame; [|exact Hvp|exact Hcells]. done. }
  destruct (TreeView.m_virtual_size_changed tvp) eqn:Hchanged.
  - destruct (calculateVirtualSize_agree sh fuel n tvp w tvp w m t)
      as (tv' & h' & _ & _ & Hrun & _); try done.
    destruct (calculateVirtualSize_flags sh fuel n tvp w m t _ _
                Hmp Ht Hrk Hfuel Hcp Hfp Hrun) as [H1 H2].
    exists tv', (set_nodes h' w). split; [done|]. by apply Hidle.
  - exists tvp, w. split; [done|]. by apply Hidle.
Qed.

Lemma sizeHint_twice_witness :
  ∃ tv' w',
    TreeView_sizeHint flat_sizeHint 2
      (TreeView.set_m_virtual_size_changed true shown_view) searched_world
    = Some (tv', w')
    ∧ TreeView_sizeHint flat_sizeHint 2 tv' w' = Some (tv', w').
Proof.
  apply (sizeHint_twice flat_sizeHint 2 2
           (TreeView.set_m_virtual_size_changed true shown_view)
           searched_world 1%positive (mkTree [1; 2]%positive)).
  - reflexivity.
  - reflexivity.
  - concrete.
  - concrete.
  - lia.
  - exact searched_store_cells.
Defined.

(** ** What [descend] returns *)

Lemma scan_app f l1 l2 last :
  scan f (l1 ++ l2) last
  = if (scan f l1 last).2 then scan f l1 last
    else scan f l2 (scan f l1 last).1.
Proof.
  revert last. induction l1 as [|x l1 IH]; intros last; simpl; [done|].
  destruct (f x); [done|]. apply IH.
Qed.

Lemma focus_visitor_spec (h : heap) p nd :
  h !! p = Some nd →
  focus_visitor p (h, tt)
  = Some (if collapsed_in h p then Break else Continue, (h, tt)).
Proof.
  intros Hp. unfold focus_visitor, collapsed_in. rewrite Hp. simpl.
  by destruct (is_collapsed nd).
Qed.

Lemma descend_children_scan (h : heap) rec n l :
  (∀ ee c last, ranked (kids_of h) n c →
     Forall (λ q, is_Some (h !! q)) (preorder (kids_of h) n c) →
     rec ee c (h, tt)
     = Some ((scan (collapsed_in h) (preorder (kids_of h) n c) last).1,
             if (scan (collapsed_in h) (preorder (kids_of h) n c) last).2
             then Break else Continue, (h, tt))) →
  ∀ last ee,
    Forall (ranked (kids_of h) n) l →
    Forall (λ q, is_Some (h !! q)) (flat_map (preorder (kids_of h) n) l) →
    l ≠ [] →
    descend_children rec l last ee (h, tt)
    = Some ((scan (collapsed_in h) (flat_map (preorder (kids_of h) n) l)
               last).1,
            if (scan (collapsed_in h) (flat_map (preorder (kids_of h) n) l)
                  last).2
            then Break else Continue, (h, tt)).
Proof.
  intros Hrec. induction l as [|c l IH]; intros last ee Hl Hal Hne; [done|].
  apply Forall_cons in Hl as [Hc Hl]. simpl in Hal.
  apply Forall_app in Hal as [Halc Hal]. simpl.
  rewrite (Hrec ee c last Hc Halc). simpl. rewrite scan_app.
  destruct (scan (collapsed_in h) (preorder (kids_of h) n c) last)
    as [r b] eqn:E.
  simpl. destruct b; [done|].
  destruct l as [|c' l]; [done|].
  by rewrite (IH r Continue Hl Hal).
Qed.

Lemma scan_first f x l last :
  scan f (x :: l) last = if f x then (Some x, true) else scan f l (Some x).
Proof. done. Qed.

Lemma scan_nonempty f l a b : l ≠ [] → scan f l a = scan f l b.
Proof. destruct l as [|x l]; [done|]. intros _. simpl. by destruct (f x). Qed.

Lemma flat_map_preorder_nonempty K n l :
  l ≠ [] → Forall (ranked K n) l → flat_map (preorder K n) l ≠ [].
Proof.
  destruct l as [|c l]; [done|]. intros _ Hr.
  apply Forall_cons in Hr as [Hc _]. destruct n; [done|]. done.
Qed.

Lemma Tree_descend_scan (h : heap) n : ∀ fuel ee p last,
  (n ≤ fuel)%nat → ranked (kids_of h) n p →
  Forall (λ q, is_Some (h !! q)) (preorder (kids_of h) n p) →
  Tree_descend fuel ee p (Some focus_visitor) (h, tt)
  = Some ((scan (collapsed_in h) (preorder (kids_of h) n p) last).1,
          if (scan (collapsed_in h) (preorder (kids_of h) n p) last).2
          then Break else Continue, (h, tt)).
Proof.
  induction n as [|n IH]; intros fuel ee p last Hfuel Hr Hal; [done|].
  destruct fuel as [|fuel]; [lia|].
  rewrite Tree_descend_unfold. simpl in Hr.
  cbn [preorder] in *. apply Forall_cons in Hal as [[nd Hnd] Hal].
  rewrite (focus_visitor_spec h p nd Hnd). rewrite scan_first.
  destruct (collapsed_in h p); simpl; [done|].
  rewrite Hnd. simpl. rewrite <- (kids_of_lookup h p nd Hnd).
  destruct (decide (kids_of h p = [])) as [E|E].
  - rewrite E. done.
  - rewrite (descend_children_scan h _ n (kids_of h p)); try done.
    + rewrite (scan_nonempty _ _ None (Some p)); [done|].
      by apply flat_map_preorder_nonempty.
    + intros ee' c last' Hc Halc. apply IH; [lia|done|done].
Qed.

(** X22.  [Tree::descend] returns the last node it visited.  With the
    visitor of the UP key, which stops at a collapsed node, called on a
    node of a tree, that is the first collapsed node of the subtree in
    depth-first pre-order and, when no node of the subtree is collapsed,
    the last node of that pre-order; [early_exit] is left at [Break] in
    the first case and at [Continue] in the second, and nothing is
    written. *)
Theorem descend_returns_last_visited (h : heap) n fuel ee root :
  (n ≤ fuel)%nat →
  ranked (kids_of h) n root →
  Forall (λ q, is_Some (h !! q)) (preorder (kids_of h) n root) →
  Tree_descend fuel ee root (Some focus_visitor) (h, tt)
  = Some (match List.find (collapsed_in h) (preorder (kids_of h) n root) with
          | Some x => (Some x, Break, (h, tt))
          | None => (last (preorder (kids_of h) n root), Continue, (h, tt))
          end).
Proof.
  intros Hfuel Hr Hal.
  rewrite (Tree_descend_scan h n fuel ee root None Hfuel Hr Hal). f_equal.
  generalize (preorder (kids_of h) n root). intros l.
  assert (H : ∀ last0,
    (scan (collapsed_in h) l last0).1
    = match List.find (collapsed_in h) l with
      | Some x => Some x
      | None => from_option Some last0 (last l)
      end
    ∧ (scan (collapsed_in h) l last0).2
      = match List.find (collapsed_in h) l with
        | Some _ => true
        | None => false
        end).
  { induction l as [|x l IH]; intros last0; simpl; [done|].
    destruct (collapsed_in h x); simpl; [done|].
    destruct (IH (Some x)) as [-> ->]. split; [|done].
    destruct (List.find (collapsed_in h) l); [done|].
    rewrite last_cons. by destruct (last l). }
  destruct (H None) as [H1 H2]. rewrite H1, H2.
  destruct (List.find (collapsed_in h) l); [done|].
  by destruct (last l).
Qed.

Lemma descend_returns_last_visited_witness :
  Tree_descend 2 Continue 1%positive (Some focus_visitor)
    (searched_store, tt)
  = Some (match List.find (collapsed_in searched_store)
                  (preorder (kids_of searched_store) 2 1%positive) with
          | Some x => (Some x, Break, (searched_store, tt))
          | None => (last (preorder (kids_of searched_store) 2 1%positive),
                     Continue, (searched_store, tt))
          end).
Proof.
  apply (descend_returns_last_visited searched_store 2 2 Continue 1%positive);
    [lia|simpl; concrete|concrete].
Defined.

(** ** The fallback vector of core/intrinsics.hpp *)

Lemma land_top_bit d :
  Z.land d 128 = if Z.testbit d 7 then 128 else 0.
Proof.
  apply Z.bits_inj'. intros m Hm. rewrite Z.land_spec.
  change 128 with (2 ^ 7). rewrite Z.pow2_bits_eqb by lia.
  destruct (Z.eqb_spec 7 m) as [<-|Hne].
  - rewrite andb_true_r. destruct (Z.testbit d 7).
    + by rewrite Z.pow2_bits_true.
    + by rewrite Z.bits_0.
  - rewrite andb_false_r. destruct (Z.testbit d 7).
    + by rewrite Z.pow2_bits_false.
    + by rewrite Z.bits_0.
Qed.

(** The loop of [mask], from any byte [m]: every round drops the lowest bit
    of [m] and puts the top bit of the lane at bit 7. *)
Lemma Vector_mask_loop (l : list Z) : ∀ m,
  0 ≤ m < 256 → (length l ≤ 8)%nat →
  foldl (λ m d, u8 (Z.shiftr m 1 + Z.land d 128)) m l
  = m / 2 ^ Z.of_nat (length l)
    + 2 ^ (8 - Z.of_nat (length l))
      * foldr (λ d acc, Z.b2z (Z.testbit d 7) + 2 * acc) 0 l.
Proof.
  induction l as [|d l IH]; intros m Hm Hlen.
  - simpl. rewrite Z.div_1_r. lia.
  - cbn [foldl foldr]. simpl length in *.
    set (t := Z.b2z (Z.testbit d 7)).
    set (k := Z.of_nat (length l)).
    assert (Ht : 0 ≤ t ≤ 1) by (unfold t; destruct (Z.testbit d 7); simpl; lia).
    assert (Hk : 0 ≤ k ≤ 7) by lia.
    assert (Hstep : u8 (Z.shiftr m 1 + Z.land d 128) = m / 2 + 128 * t).
    { rewrite land_top_bit, Z.shiftr_div_pow2 by lia.
      change (2 ^ 1) with 2.
      assert (0 ≤ m / 2 < 128).
      { split; [apply Z.div_pos; lia|apply Z.div_lt_upper_bound; lia]. }
      unfold u8, t. rewrite Z.mod_small; destruct (Z.testbit d 7); simpl; lia. }
    rewrite Hstep.
    assert (0 ≤ m / 2 < 128).
    { split; [apply Z.div_pos; lia|apply Z.div_lt_upper_bound; lia]. }
    rewrite IH by lia. fold k.
    replace (Z.of_nat (S (length l))) with (k + 1) by lia.
    assert (Hpow : 128 = 2 ^ (7 - k) * 2 ^ k).
    { rewrite <- Z.pow_add_r by lia. by replace (7 - k + k) with 7 by lia. }
    assert (Hdiv : (m / 2 + 128 * t) / 2 ^ k
                   = m / 2 ^ (k + 1) + t * 2 ^ (7 - k)).
    { rewrite Hpow.
      replace (m / 2 + 2 ^ (7 - k) * 2 ^ k * t)
        with (m / 2 + t * 2 ^ (7 - k) * 2 ^ k) by lia.
      rewrite Z.div_add by lia.
      rewrite Z.div_div by lia.
      rewrite Z.pow_add_r by lia. change (2 ^ 1) with 2.
      by rewrite (Z.mul_comm (2 ^ k) 2). }
    rewrite Hdiv.
    replace (8 - (k + 1)) with (7 - k) by lia.
    replace (2 ^ (8 - k)) with (2 * 2 ^ (7 - k)).
    2: { rewrite <- Z.pow_succ_r by lia. f_equal. lia. }
    ring.
Qed.

(** The loop of [mask] moves the top bit of lane [i] to bit [i]. *)
Lemma Vector_mask_sum (v : Vector) :
  length v = 8%nat →
  Vector_mask v = foldr (λ d acc, Z.b2z (Z.testbit d 7) + 2 * acc) 0 v.
Proof.
  intros Hlen. unfold Vector_mask.
  rewrite Vector_mask_loop by lia. rewrite Hlen.
  change (Z.of_nat 8) with 8. change (8 - 8) with 0.
  rewrite Z.pow_0_r. change (0 / 2 ^ 8) with 0. lia.
Qed.

Lemma bits_sum_range (l : list bool) :
  0 ≤ foldr (λ b acc, Z.b2z b + 2 * acc) 0 l < 2 ^ Z.of_nat (length l).
Proof.
  induction l as [|b l IH]; simpl length; simpl foldr; [done|].
  rewrite Nat2Z.inj_succ, Z.pow_succ_r by lia. destruct b; simpl Z.b2z; lia.
Qed.

Lemma bits_sum_testbit (l : list bool) : ∀ i b,
  l !! i = Some b →
  Z.testbit (foldr (λ b acc, Z.b2z b + 2 * acc) 0 l) (Z.of_nat i) = b.
Proof.
  induction l as [|c l IH]; intros i b Hi; [done|]. simpl foldr.
  destruct i as [|i].
  - injection Hi as ->. simpl Z.of_nat. rewrite Z.add_comm.
    by rewrite Z.testbit_0_r.
  - simpl in Hi. rewrite Nat2Z.inj_succ, Z.add_comm.
    rewrite Z.testbit_succ_r by lia. by apply IH.
Qed.

Lemma foldr_fmap_bits {A} (f : A → bool) (l : list A) :
  foldr (λ d acc, Z.b2z (f d) + 2 * acc) 0 l
  = foldr (λ b acc, Z.b2z b + 2 * acc) 0 (f <$> l).
Proof. induction l as [|d l IH]; simpl; [done|]. by rewrite IH. Qed.

(** X23.  [Vector<u8, 8>::mask] collects the top bits of the lanes: on a
    vector of eight lanes the result is a byte whose bit [i] is bit 7 of
    lane [i]. *)
Theorem Vector_mask_bits (v : Vector) :
  length v = 8%nat →
  0 ≤ Vector_mask v < 256
  ∧ ∀ i d, v !! i = Some d →
      Z.testbit (Vector_mask v) (Z.of_nat i) = Z.testbit d 7.
Proof.
  intros Hlen. rewrite (Vector_mask_sum v Hlen), foldr_fmap_bits. split.
  - pose proof (bits_sum_range ((λ d, Z.testbit d 7) <$> v)) as H.
    rewrite length_fmap, Hlen in H. exact H.
  - intros i d Hi. apply bits_sum_testbit.
    rewrite list_lookup_fmap. by rewrite Hi.
Qed.

Lemma Vector_mask_bits_witness :
  0 ≤ Vector_mask (Vector_broadcast 200) < 256
  ∧ ∀ i d, Vector_broadcast 200 !! i = Some d →
      Z.testbit (Vector_mask (Vector_broadcast 200)) (Z.of_nat i)
      = Z.testbit d 7.
Proof. apply Vector_mask_bits. reflexivity. Defined.

(** The mask of a lane-wise comparison. *)
Lemma Vector_mask_compare (f : Z → Z → bool) (lhs rhs : Vector) :
  length lhs = 8%nat → length rhs = 8%nat →
  Vector_mask (zip_with (λ x y, if f x y then 255 else 0) lhs rhs)
  = lanes_where f lhs rhs.
Proof.
  intros Hl Hr. rewrite Vector_mask_sum
    by (rewrite length_zip_with; lia).
  unfold lanes_where. clear Hl Hr. revert rhs.
  induction lhs as [|x lhs IH]; intros [|y rhs]; simpl; try done.
  rewrite IH. by destruct (f x y).
Qed.

Lemma zip_with_ext_bool {A} (f g : Z → Z → bool) (k : bool → A) lhs rhs :
  (∀ x y, f x y = g x y) →
  zip_with (λ x y, k (f x y)) lhs rhs = zip_with (λ x y, k (g x y)) lhs rhs.
Proof.
  intros H. revert rhs. induction lhs as [|x lhs IH]; intros [|y rhs];
    simpl; try done. by rewrite H, IH.
Qed.

Lemma lanes_where_testbit f lhs rhs i x y :
  lhs !! i = Some x → rhs !! i = Some y →
  Z.testbit (lanes_where f lhs rhs) (Z.of_nat i) = f x y.
Proof.
  intros Hx Hy. unfold lanes_where. apply bits_sum_testbit.
  by rewrite lookup_zip_with, Hx, Hy.
Qed.

(** X24.  The comparison operators of [Vector<u8, 8>] answer lane by lane:
    bit [i] of [lhs == rhs] is set exactly when lane [i] of the two vectors
    holds the same byte, and likewise for [!=], [<] and [>] with the bytes
    compared as unsigned numbers. *)
Theorem Vector_compare_bits (lhs rhs : Vector) i x y :
  length lhs = 8%nat → length rhs = 8%nat →
  lhs !! i = Some x → rhs !! i = Some y →
  Z.testbit (Vector_eq lhs rhs) (Z.of_nat i) = bool_decide (x = y)
  ∧ Z.testbit (Vector_ne lhs rhs) (Z.of_nat i) = bool_decide (x ≠ y)
  ∧ Z.testbit (Vector_lt lhs rhs) (Z.of_nat i) = bool_decide (x < y)
  ∧ Z.testbit (Vector_gt lhs rhs) (Z.of_nat i) = bool_decide (x > y).
Proof.
  intros Hl Hr Hx Hy.
  unfold Vector_eq, Vector_ne, Vector_lt, Vector_gt, Vector_equal,
    Vector_notEqual, Vector_lessThan, Vector_greaterThan.
  rewrite (Vector_mask_compare (λ x y, bool_decide (x = y))),
    (Vector_mask_compare (λ x y, bool_decide (x ≠ y))),
    (Vector_mask_compare (λ x y, bool_decide (x < y))),
    (Vector_mask_compare (λ x y, bool_decide (x > y))) by done.
  by rewrite !(lanes_where_testbit _ lhs rhs i x y).
Qed.

Lemma Vector_compare_bits_witness :
  Z.testbit (Vector_eq (Vector_broadcast 3) (Vector_broadcast 200))
    (Z.of_nat 2) = bool_decide (3 = 200)
  ∧ Z.testbit (Vector_ne (Vector_broadcast 3) (Vector_broadcast 200))
      (Z.of_nat 2) = bool_decide (3 ≠ 200)
  ∧ Z.testbit (Vector_lt (Vector_broadcast 3) (Vector_broadcast 200))
      (Z.of_nat 2) = bool_decide (3 < 200)
  ∧ Z.testbit (Vector_gt (Vector_broadcast 3) (Vector_broadcast 200))
      (Z.of_nat 2) = bool_decide (3 > 200).
Proof. by apply Vector_compare_bits. Defined.

Lemma lanes_where_split f g k lhs rhs :
  length lhs = length rhs →
  (∀ x y, Z.b2z (f x y) + Z.b2z (g x y) + Z.b2z (k x y) = 1) →
  lanes_where f lhs rhs + lanes_where g lhs rhs + lanes_where k lhs rhs
  = 2 ^ Z.of_nat (length lhs) - 1.
Proof.
  intros Hlen H. unfold lanes_where. revert rhs Hlen.
  induction lhs as [|x lhs IH]; intros [|y rhs] Hlen; simpl in *; try done.
  injection Hlen as Hlen. specialize (IH rhs Hlen).
  rewrite Nat2Z.inj_succ, Z.pow_succ_r by lia. specialize (H x y). lia.
Qed.

(** X25.  The masks of the comparison operators of [Vector<u8, 8>] fit
    together: [lhs != rhs] is the complement of [lhs == rhs] within a byte,
    [lhs < rhs] is [rhs > lhs], and every lane is counted in exactly one of
    [<], [==] and [>], so that the three masks add up to 255. *)
Theorem Vector_compare_complete (lhs rhs : Vector) :
  length lhs = 8%nat → length rhs = 8%nat →
  Vector_ne lhs rhs = 255 - Vector_eq lhs rhs
  ∧ Vector_lt lhs rhs = Vector_gt rhs lhs
  ∧ Vector_lt lhs rhs + Vector_eq lhs rhs + Vector_gt lhs rhs = 255.
Proof.
  intros Hl Hr.
  unfold Vector_eq, Vector_ne, Vector_lt, Vector_gt, Vector_equal,
    Vector_notEqual, Vector_lessThan, Vector_greaterThan.
  rewrite (Vector_mask_compare (λ x y, bool_decide (x = y))),
    (Vector_mask_compare (λ x y, bool_decide (x ≠ y))),
    (Vector_mask_compare (λ x y, bool_decide (x < y)) lhs rhs),
    (Vector_mask_compare (λ x y, bool_decide (x > y)) lhs rhs),
    (Vector_mask_compare (λ x y, bool_decide (x > y)) rhs lhs) by done.
  split_and!.
  - pose proof (lanes_where_split (λ x y, bool_decide (x = y))
                  (λ x y, bool_decide (x ≠ y)) (λ _ _, false) lhs rhs) as H.
    rewrite Hl in H.
    assert (lanes_where (λ _ _, false) lhs rhs = 0) as H0.
    { unfold lanes_where. clear. revert rhs.
      induction lhs as [|x lhs IH]; intros [|y rhs]; simpl; try done.
      rewrite IH. done. }
    rewrite H0 in H. change (2 ^ Z.of_nat 8 - 1) with 255 in H.
    rewrite <- H; [lia|lia|].
    intros x y. repeat case_bool_decide; simpl; lia.
  - unfold lanes_where. f_equal. clear. revert rhs.
    induction lhs as [|x lhs IH]; intros [|y rhs]; simpl; try done.
    rewrite IH. f_equal. apply bool_decide_ext. lia.
  - pose proof (lanes_where_split (λ x y, bool_decide (x < y))
                  (λ x y, bool_decide (x = y)) (λ x y, bool_decide (x > y))
                  lhs rhs) as H.
    rewrite Hl in H. change (2 ^ Z.of_nat 8 - 1) with 255 in H.
    apply H; [lia|].
    intros x y. repeat case_bool_decide; simpl; lia.
Qed.

Lemma Vector_compare_complete_witness :
  Vector_ne (Vector_broadcast 3) (Vector_broadcast 200)
  = 255 - Vector_eq (Vector_broadcast 3) (Vector_broadcast 200)
  ∧ Vector_lt (Vector_broadcast 3) (Vector_broadcast 200)
    = Vector_gt (Vector_broadcast 200) (Vector_broadcast 3)
  ∧ Vector_lt (Vector_broadcast 3) (Vector_broadcast 200)
    + Vector_eq (Vector_broadcast 3) (Vector_broadcast 200)
    + Vector_gt (Vector_broadcast 3) (Vector_broadcast 200) = 255.
Proof. by apply Vector_compare_complete. Defined.

(** ** Rows below a collapsed node *)

Lemma index_step_hidden sh g nd cd so :
  cd < depth nd →
  index_step sh g nd true cd so
  = (BinarySearchData.mk so 0, (true, cd, so)).
Proof.
  intros Hd. unfold index_step.
  rewrite bool_decide_false by lia. simpl. by rewrite andb_false_r.
Qed.

Lemma index_step_shown sh g nd c cd so :
  (c = false ∧ cd = -1) ∨ (c = true ∧ depth nd ≤ cd) →
  index_step sh g nd c cd so
  = (BinarySearchData.mk so (u64 (row_height sh g (columns nd))),
     (is_collapsed nd, (if is_collapsed nd then depth nd else -1),
      u64 (so + u64 (row_height sh g (columns nd))))).
Proof.
  intros Hs. unfold index_step.
  assert ((if bool_decide (depth nd ≤ cd) then (false, -1) else (c, cd))
          = (false, -1)) as ->.
  { destruct Hs as [[-> ->]|[-> Hle]].
    - by case_bool_decide.
    - by rewrite bool_decide_true. }
  simpl. rewrite andb_true_r. by destruct (is_collapsed nd).
Qed.

Lemma row_length_ok_frame sh g (h0 h h' : heap) l bs :
  (∀ q, q ∈ l → h' !! q = h !! q) →
  Forall2 (row_length_ok sh g h0 h) l bs →
  Forall2 (row_length_ok sh g h0 h') l bs.
Proof.
  intros Hfr H. induction H as [|p b l bs Hp Hl IH]; [constructor|].
  constructor.
  - destruct Hp as (nd & nd' & H0 & H1 & H2). exists nd, nd'.
    split_and!; try done. rewrite Hfr; [done|]. apply elem_of_cons. by left.
  - apply IH. intros q Hq. apply Hfr. apply elem_of_cons. by right.
Qed.

(** The visitor on one node, reached in a state that fits its level. *)
Lemma calculateVirtualSize_visit_node sh (h0 : heap) g x nd0 d hid
    (h : heap) tv c cd pi so :
  h0 !! x = Some nd0 → depth nd0 = d →
  same_rows h0 h → cells_ok h tv → TreeView.m_grid_line_width tv = g →
  collapse_state hid d c cd →
  ∃ h1 tv1 pi1 so1 c1 cd1,
    calculateVirtualSize_visitor sh x (h, (tv, (c, cd, pi, so)))
    = Some (Continue, (h1, (tv1, (c1, cd1, pi1, so1))))
    ∧ same_rows h h1 ∧ view_frame tv tv1
    ∧ (∀ q, q ≠ x → h1 !! q = h !! q)
    ∧ row_length_ok sh g h0 h1 x hid
    ∧ (if hid then c1 = c ∧ cd1 = cd
       else c1 = is_collapsed nd0
            ∧ cd1 = if is_collapsed nd0 then d else -1).
Proof.
  intros H0 Hd Hrows Hcells Hg Hstate.
  destruct (same_rows_lookup _ _ _ _ Hrows H0) as (nd & Hnd & Hrow).
  destruct (calculateVirtualSize_visitor_spec sh x h tv nd c cd pi so
              Hnd Hcells)
    as (h1 & tv1 & pi1 & nd1 & bs & c1 & cd1 & so1 & Hstep & Hrun
        & Hnd1 & Hrow1 & Hbs1 & Hfr1 & Hv1).
  rewrite Hg, (index_step_row sh g nd0 nd) in Hstep by done.
  exists h1, tv1, pi1, so1, c1, cd1. split; [done|]. split_and!; try done.
  - by eapply (same_rows_frame h h1 x nd nd1).
  - exists nd0, nd1. split_and!; try done. unfold bs_length. rewrite Hbs1.
    unfold collapse_state in Hstate. destruct hid.
    + destruct Hstate as [-> Hlt].
      rewrite index_step_hidden in Hstep by lia. by injection Hstep as <- _ _ _.
    + rewrite index_step_shown in Hstep by (rewrite Hd; done).
      by injection Hstep as <- _ _ _.
  - unfold collapse_state in Hstate. destruct hid.
    + destruct Hstate as [-> Hlt].
      rewrite index_step_hidden in Hstep by lia.
      by injection Hstep as _ <- <- _.
    + rewrite index_step_shown in Hstep by (rewrite Hd; done).
      injection Hstep as _ <- <- _. by rewrite Hd.
Qed.

Lemma flat_map_preorder_cons K n x l :
  flat_map (preorder K (S n)) (x :: l)
  = x :: flat_map (preorder K n) (K x) ++ flat_map (preorder K (S n)) l.
Proof. done. Qed.

Lemma flat_map_hidden_cons h n hid x l :
  flat_map (hidden_in h (S n) hid) (x :: l)
  = hid :: flat_map (hidden_in h n (hid || collapsed_in h x)) (kids_of h x)
    ++ flat_map (hidden_in h (S n) hid) l.
Proof. done. Qed.

(** The visitor along the subtrees of sibling nodes at depth [d]. *)
Lemma calculateVirtualSize_visit_hidden sh (h0 : heap) g n :
  ∀ l d hid (h : heap) tv c cd pi so,
  Forall (ranked (kids_of h0) n) l →
  NoDup (flat_map (preorder (kids_of h0) n) l) →
  Forall (depths_from h0 n d) l →
  same_rows h0 h → cells_ok h tv → TreeView.m_grid_line_width tv = g →
  collapse_state hid d c cd →
  ∃ h' tv' c' cd' pi' so',
    visit_all (calculateVirtualSize_visitor sh)
      (flat_map (preorder (kids_of h0) n) l) (h, (tv, (c, cd, pi, so)))
    = Some (h', (tv', (c', cd', pi', so')))
    ∧ same_rows h h' ∧ view_frame tv tv'
    ∧ (∀ q, q ∉ flat_map (preorder (kids_of h0) n) l → h' !! q = h !! q)
    ∧ (if hid then c' = c ∧ cd' = cd else collapse_state false d c' cd')
    ∧ Forall2 (row_length_ok sh g h0 h')
        (flat_map (preorder (kids_of h0) n) l)
        (flat_map (hidden_in h0 n hid) l).
Proof.
  induction n as [|n IHn].
  { intros l d hid h tv c cd pi so Hr.
    destruct l as [|x l]; [|by apply Forall_cons in Hr as [[] _]].
    intros _ _ Hrows Hcells Hg Hstate. simpl.
    eexists h, tv, c, cd, pi, so. split; [reflexivity|].
    split_and!; try done; try constructor.
    all: unfold collapse_state in *; by destruct hid. }
  induction l as [|x l IHl];
    intros d hid h tv c cd pi so Hr Hnd Hdep Hrows Hcells Hg Hstate.
  { simpl. eexists h, tv, c, cd, pi, so. split; [reflexivity|].
    split_and!; try done; try constructor.
    all: unfold collapse_state in *; by destruct hid. }
  apply Forall_cons in Hr as [Hrx Hr]. simpl in Hrx.
  apply Forall_cons in Hdep as [Hdx Hdep].
  destruct Hdx as [(nd0 & H0 & Hd) Hdx].
  simpl in Hdx.
  rewrite flat_map_preorder_cons in Hnd |- *. rewrite flat_map_hidden_cons.
  apply NoDup_cons in Hnd as [Hx Hnd].
  apply not_elem_of_app in Hx as [Hxk Hxl].
  apply NoDup_app in Hnd as (Hndk & Hdisj & Hndl).
  (* the node itself *)
  destruct (calculateVirtualSize_visit_node sh h0 g x nd0 d hid h tv c cd pi
              so H0 Hd Hrows Hcells Hg Hstate)
    as (h1 & tv1 & pi1 & so1 & c1 & cd1 & Hrun1 & Hs1 & Hv1 & Hfr1 & Hlen1
        & Hst1).
  assert (Hrows1 : same_rows h0 h1)
    by exact (same_rows_trans _ _ _ Hrows Hs1).
  assert (Hcells1 : cells_ok h1 tv1)
    by exact (cells_ok_frame _ _ _ _ Hs1 Hv1 Hcells).
  assert (Hg1 : TreeView.m_grid_line_width tv1 = g).
  { destruct Hv1 as (-> & _). done. }
  assert (Hcoll : collapsed_in h0 x = is_collapsed nd0).
  { unfold collapsed_in. by rewrite H0. }
  (* its children, one level down *)
  destruct (IHn (kids_of h0 x) (d + 1) (hid || collapsed_in h0 x) h1 tv1
              c1 cd1 pi1 so1 Hrx Hndk Hdx Hrows1 Hcells1 Hg1)
    as (h2 & tv2 & c2 & cd2 & pi2 & so2 & Hrun2 & Hs2 & Hv2 & Hfr2 & Hst2
        & Hlen2).
  { unfold collapse_state in *. rewrite Hcoll. destruct hid; simpl.
    - destruct Hstate as [-> Hlt]. destruct Hst1 as [-> ->]. split; [done|lia].
    - destruct Hst1 as [-> ->]. destruct (is_collapsed nd0); [split; [done|lia]|].
      by left. }
  assert (Hrows2 : same_rows h0 h2)
    by exact (same_rows_trans _ _ _ Hrows1 Hs2).
  assert (Hcells2 : cells_ok h2 tv2)
    by exact (cells_ok_frame _ _ _ _ Hs2 Hv2 Hcells1).
  assert (Hg2 : TreeView.m_grid_line_width tv2 = g).
  { destruct Hv2 as (-> & _). done. }
  assert (Hstate2 : collapse_state hid d c2 cd2).
  { unfold collapse_state in *. rewrite Hcoll in Hst2. destruct hid; simpl in *.
    - destruct Hst2 as [-> ->]. destruct Hst1 as [-> ->]. done.
    - destruct Hst1 as [-> ->].
      destruct (is_collapsed nd0); simpl in Hst2.
      + destruct Hst2 as [-> ->]. right. split; [done|lia].
      + destruct Hst2 as [[-> ->]|[-> Hle]]; [by left|right; split; [done|lia]]. }
  (* the siblings that follow *)
  destruct (IHl d hid h2 tv2 c2 cd2 pi2 so2 Hr Hndl Hdep Hrows2 Hcells2 Hg2
              Hstate2)
    as (h3 & tv3 & c3 & cd3 & pi3 & so3 & Hrun3 & Hs3 & Hv3 & Hfr3 & Hst3
        & Hlen3).
  exists h3, tv3, c3, cd3, pi3, so3. split.
  { cbn [visit_all]. rewrite Hrun1. simpl. rewrite visit_all_app, Hrun2.
    simpl. exact Hrun3. }
  split_and!.
  - exact (same_rows_trans _ _ _ (same_rows_trans _ _ _ Hs1 Hs2) Hs3).
  - exact (view_frame_trans _ _ _ (view_frame_trans _ _ _ Hv1 Hv2) Hv3).
  - intros q Hq. apply not_elem_of_cons in Hq as [Hq1 Hq].
    apply not_elem_of_app in Hq as [Hq2 Hq3].
    rewrite Hfr3, Hfr2, Hfr1 by done. done.
  - unfold collapse_state in *. destruct hid; [|done].
    destruct Hst3 as [-> ->]. destruct Hstate2 as [-> _].
    destruct Hstate as [-> _].
    split; [done|]. rewrite Hcoll in Hst2. simpl in Hst2.
    destruct Hst2 as [_ ->]. by destruct Hst1 as [_ ->].
  - constructor.
    + destruct Hlen1 as (nd & nd1 & Ha & Hb & Hc). exists nd, nd1.
      split_and!; try done.
      rewrite Hfr3, Hfr2 by done. done.
    + apply Forall2_app; [|done].
      eapply row_length_ok_frame; [|exact Hlen2].
      intros q Hq. apply Hfr3. intros Hq'. by apply (Hdisj q).
Qed.

Lemma calculateVirtualSize_hidden_spec sh fuel n tv w m t :
  TreeView.m_model tv = Some m →
  trees w !! m = Some t →
  is_tree (nodes w) n (roots t) →
  (n ≤ fuel)%nat →
  cells_ok (nodes w) tv →
  Forall (depths_from (nodes w) n 1) (roots t) →
  ∃ tv' h',
    TreeView_calculateVirtualSize sh fuel tv w = Some (tv', set_nodes h' w)
    ∧ Forall2
        (row_length_ok sh (TreeView.m_grid_line_width tv) (nodes w) h')
        (dfs (nodes w) n (roots t))
        (flat_map (hidden_in (nodes w) n false) (roots t)).
Proof.
  intros Hm Ht (Hrk & Hnd & Hall) Hfuel Hcells Hdep.
  unfold TreeView_calculateVirtualSize. simpl.
  rewrite Hm. simpl. rewrite Ht. simpl.
  rewrite (Tree_forEachNode_fold (calculateVirtualSize_visitor sh)
             (kids_of (nodes w))
             (λ s, same_rows (nodes w) s.1 ∧ cells_ok s.1 s.2.1)
             (calculateVirtualSize_visitor_shape sh (nodes w))
             n fuel (roots t)); try done.
  destruct (calculateVirtualSize_visit_hidden sh (nodes w)
              (TreeView.m_grid_line_width tv) n (roots t) 1 false (nodes w)
              (TreeView.set_m_virtual_size (TreeView.m_children_size tv) tv)
              false (-1) 0 0)
    as (h' & tv' & c' & cd' & pi' & so' & Hrun & Hrows & Hv & Hfr & _ & Hlen);
    try done.
  { by left. }
  rewrite Hrun. simpl. eexists _, h'. split; [reflexivity|]. done.
Qed.

(** X26.  [calculateVirtualSize] hides what lies below a collapsed node: on
    a tree with roots at depth 1 and every child one level below its
    parent, with one cell for each column in every node, the call returns,
    and then every node with a collapsed node among its ancestors has
    length 0, and every other node has the height of its row as its
    length. *)
Theorem calculateVirtualSize_hides_collapsed sh fuel n tv w m t :
  TreeView.m_model tv = Some m →
  trees w !! m = Some t →
  is_tree (nodes w) n (roots t) →
  (n ≤ fuel)%nat →
  cells_ok (nodes w) tv →
  Forall (depths_from (nodes w) n 1) (roots t) →
  ∃ tv' h',
    TreeView_calculateVirtualSize sh fuel tv w = Some (tv', set_nodes h' w)
    ∧ Forall2
        (row_length_ok sh (TreeView.m_grid_line_width tv) (nodes w) h')
        (dfs (nodes w) n (roots t))
        (flat_map (hidden_in (nodes w) n false) (roots t)).
Proof. apply calculateVirtualSize_hidden_spec. Qed.

Lemma calculateVirtualSize_hides_collapsed_witness :
  ∃ tv' h',
    TreeView_calculateVirtualSize flat_sizeHint 2 shown_view collapsed_world
    = Some (tv', set_nodes h' collapsed_world)
    ∧ Forall2
        (row_length_ok flat_sizeHint (TreeView.m_grid_line_width shown_view)
           (nodes collapsed_world) h')
        (dfs (nodes collapsed_world) 2 [1; 2]%positive)
        (flat_map (hidden_in (nodes collapsed_world) 2 false)
           [1; 2]%positive).
Proof.
  apply (calculateVirtualSize_hides_collapsed flat_sizeHint 2 2 shown_view
           collapsed_world 1%positive (mkTree [1; 2]%positive)).
  - reflexivity.
  - reflexivity.
  - concrete.
  - lia.
  - apply cells_ok_decide; [|reflexivity|reflexivity].
    apply (bool_decide_unpack _). vm_compute. exact I.
  - simpl. repeat constructor; try (eexists; split; reflexivity).
Defined.

(** ** Collapsing everything, then measuring *)

Lemma collapseOrExpandAll_spec fuel n b tv w m t :
  TreeView.m_model tv = Some m →
  trees w !! m = Some t →
  Forall (ranked (kids_of (nodes w)) n) (roots t) →
  Forall (λ p, is_Some (nodes w !! p)) (dfs (nodes w) n (roots t)) →
  (n ≤ fuel)%nat →
  ∃ h',
    TreeView_collapseOrExpandAll fuel b tv w
    = Some (propagate_size_changed
              (notify Update (TreeView.set_m_virtual_size_changed true tv)),
            set_nodes h' w)
    ∧ ∀ q, h' !! q
           = if decide (q ∈ dfs (nodes w) n (roots t))
             then flagged b <$> nodes w !! q else nodes w !! q.
Proof.
  intros Hm Ht Hr Hal Hfuel. unfold TreeView_collapseOrExpandAll.
  rewrite Hm. simpl. rewrite Ht. simpl.
  rewrite (collapseOrExpandAll_loop_fold b (nodes w) n fuel) by done.
  destruct (collapseOrExpand_visit_all b _ (nodes w) Hal) as (h' & Hrun & Hh').
  unfold dfs in *. rewrite Hrun. simpl. by exists h'.
Qed.

Lemma hidden_in_length (h : heap) n : ∀ hid p,
  length (hidden_in h n hid p) = length (preorder (kids_of h) n p).
Proof.
  induction n as [|n IH]; intros hid p; simpl; [done|]. f_equal.
  induction (kids_of h p) as [|c l IHl]; simpl; [done|].
  by rewrite !length_app, IH, IHl.
Qed.

Lemma hidden_in_true (h : heap) n : ∀ p,
  Forall (λ b, b = true) (hidden_in h n true p).
Proof.
  induction n as [|n IH]; intros p; simpl; [constructor|].
  constructor; [done|].
  induction (kids_of h p) as [|c l IHl]; simpl; [constructor|].
  apply Forall_app. split; [apply IH|apply IHl].
Qed.

Lemma Forall2_flat_map_inv {A B C} (P : B → C → Prop) (f : A → list B)
    (g : A → list C) (l : list A) x :
  (∀ y, length (f y) = length (g y)) →
  Forall2 P (flat_map f l) (flat_map g l) → x ∈ l →
  Forall2 P (f x) (g x).
Proof.
  intros Hlen. induction l as [|y l IH]; simpl; intros H Hx.
  - by apply elem_of_nil in Hx.
  - destruct (Forall2_app_inv P _ _ _ _ (Hlen y) H) as [H1 H2].
    apply elem_of_cons in Hx as [->|Hx]; [done|]. by apply IH.
Qed.

Lemma Forall2_all_true {A} (P : A → bool → Prop) l bs x :
  Forall2 P l bs → Forall (λ b, b = true) bs → x ∈ l → P x true.
Proof.
  intros H. induction H as [|a b l bs Hab Hl IH]; intros Hbs Hx.
  - by apply elem_of_nil in Hx.
  - apply Forall_cons in Hbs as [-> Hbs].
    apply elem_of_cons in Hx as [->|Hx]; [done|]. by apply IH.
Qed.

Lemma flagged_row b nd :
  depth (flagged b nd) = depth nd ∧ columns (flagged b nd) = columns nd
  ∧ children (flagged b nd) = children nd.
Proof. unfold flagged. by destruct nd as [? ? ? ? [|c k] ? ? ? ?]. Qed.

Lemma depths_from_ext (h h' : heap) n : ∀ d p,
  (∀ q, kids_of h' q = kids_of h q) →
  (∀ q nd, h !! q = Some nd →
     ∃ nd', h' !! q = Some nd' ∧ depth nd' = depth nd) →
  depths_from h n d p → depths_from h' n d p.
Proof.
  induction n as [|n IH]; intros d p Hk Hd; simpl; [done|].
  intros [(nd & Hp & Hdp) Hkids]. split.
  - destruct (Hd p nd Hp) as (nd' & Hp' & Hd'). exists nd'. split; [done|lia].
  - rewrite Hk. eapply Forall_impl; [exact Hkids|]. intros c. by apply IH.
Qed.

(** X27.  After [collapseAll] and a new [calculateVirtualSize], only the
    roots take up room: on a tree with roots at depth 1 and every child one
    level below its parent, with one cell for each column in every node,
    the two calls return, and then every root has the height of its row as
    its length and every other node of the tree has length 0. *)
Theorem collapseAll_shows_roots sh fuel n tv w m t :
  TreeView.m_model tv = Some m →
  trees w !! m = Some t →
  is_tree (nodes w) n (roots t) →
  (n ≤ fuel)%nat →
  cells_ok (nodes w) tv →
  Forall (depths_from (nodes w) n 1) (roots t) →
  ∃ tv1 w1 tv2 w2,
    TreeView_collapseAll fuel tv w = Some (tv1, w1)
    ∧ TreeView_calculateVirtualSize sh fuel tv1 w1 = Some (tv2, w2)
    ∧ ∀ q nd, q ∈ dfs (nodes w) n (roots t) → nodes w !! q = Some nd →
        ∃ nd2, nodes w2 !! q = Some nd2
          ∧ bs_length nd2
            = if decide (q ∈ roots t)
              then u64 (row_height sh (TreeView.m_grid_line_width tv)
                          (columns nd))
              else 0.
Proof.
  intros Hm Ht (Hrk & Hnd & Hall) Hfuel Hcells Hdep.
  destruct (collapseOrExpandAll_spec fuel n true tv w m t Hm Ht Hrk Hall Hfuel)
    as (h1 & Hrun1 & Hh1).
  set (tv1 := propagate_size_changed
                (notify Update (TreeView.set_m_virtual_size_changed true tv)))
    in *.
  set (w1 := set_nodes h1 w).
  assert (Hlook : ∀ q nd, nodes w !! q = Some nd →
            ∃ nd1, h1 !! q = Some nd1 ∧ depth nd1 = depth nd
                   ∧ columns nd1 = columns nd ∧ children nd1 = children nd
                   ∧ (q ∈ dfs (nodes w) n (roots t) → nd1 = flagged true nd)).
  { intros q nd Hq. rewrite Hh1, Hq. case_decide.
    - exists (flagged true nd). destruct (flagged_row true nd) as (? & ? & ?).
      by split_and!.
    - exists nd. by split_and!. }
  assert (Hback : ∀ q nd1, h1 !! q = Some nd1 →
            ∃ nd, nodes w !! q = Some nd ∧ columns nd1 = columns nd).
  { intros q nd1. rewrite Hh1. case_decide.
    - destruct (nodes w !! q) as [nd|]; simpl; [|done]. intros [= <-].
      exists nd. split; [done|]. by destruct (flagged_row true nd) as (? & ? & ?).
    - intros Hq. by exists nd1. }
  assert (Hkids : ∀ q, kids_of h1 q = kids_of (nodes w) q).
  { intros q. unfold kids_of. rewrite Hh1. case_decide; [|done].
    destruct (nodes w !! q) as [nd|]; simpl; [|done].
    by destruct (flagged_row true nd) as (? & ? & ?). }
  assert (Hdfs : dfs h1 n (roots t) = dfs (nodes w) n (roots t)).
  { apply same_shape_dfs. intros q. apply Hkids. }
  assert (Htv1 : TreeView.m_model tv1 = Some m
                 ∧ TreeView.children tv1 = TreeView.children tv
                 ∧ TreeView.m_column_widths tv1 = TreeView.m_column_widths tv
                 ∧ TreeView.m_grid_line_width tv1
                   = TreeView.m_grid_line_width tv).
  { unfold tv1, propagate_size_changed. simpl.
    by destruct (TreeView.m_mode tv), (TreeView.parent_size_changed tv). }
  destruct Htv1 as (Hm1 & Hc1 & Hw1 & Hg1).
  destruct (calculateVirtualSize_hidden_spec sh fuel n tv1 w1 m t)
    as (tv2 & h2 & Hrun2 & Hlen); try done.
  { split_and!.
    - eapply Forall_impl; [exact Hrk|]. intros q. apply ranked_ext.
      intros p. symmetry. apply Hkids.
    - simpl. by rewrite Hdfs.
    - simpl. rewrite Hdfs. eapply Forall_impl; [exact Hall|].
      intros q [nd Hq]. simpl. destruct (Hlook q nd Hq) as (nd1 & -> & _).
      eauto. }
  { destruct Hcells as (Hcols & Hwid & Hbound). split_and!.
    - simpl. intros q nd1 Hq. destruct (Hback q nd1 Hq) as (nd & Hq0 & ->).
      rewrite Hc1. by eapply Hcols.
    - by rewrite Hw1, Hc1.
    - by rewrite Hc1. }
  { simpl. eapply Forall_impl; [exact Hdep|]. intros q.
    apply depths_from_ext; [done|].
    intros p nd Hp. destruct (Hlook p nd Hp) as (nd1 & ? & ? & _). eauto. }
  exists tv1, w1, tv2, (set_nodes h2 w1). split; [exact Hrun1|].
  split; [exact Hrun2|].
  intros q nd Hq Hqnd. simpl in Hlen. rewrite Hg1 in Hlen.
  apply elem_of_flat_map in Hq as (r & Hr & Hqr).
  unfold dfs in Hlen.
  pose proof (Forall2_flat_map_inv _ _ _ _ r
                (λ y, eq_sym (hidden_in_length h1 n false y)) Hlen Hr) as Hseg.
  destruct n as [|n]; [by apply elem_of_nil in Hqr|]. simpl in Hseg, Hqr.
  apply Forall2_cons in Hseg as [Hroot Hdesc].
  assert (Hin_dfs : ∀ x, x ∈ preorder (kids_of (nodes w)) (S n) r →
            x ∈ dfs (nodes w) (S n) (roots t)).
  { intros x Hx. apply elem_of_flat_map. eauto. }
  destruct (decide (q ∈ roots t)) as [Hqroot|Hqroot].
  - (* a root: the first node of a segment of its own *)
    pose proof (Forall2_flat_map_inv _ _ _ _ q
                  (λ y, eq_sym (hidden_in_length h1 (S n) false y)) Hlen
                  Hqroot) as Hseg'.
    simpl in Hseg'. apply Forall2_cons in Hseg' as [Hq' _].
    destruct Hq' as (nd1 & nd2 & Hq1 & Hq2 & Hbs).
    exists nd2. split; [done|]. rewrite Hbs.
    destruct (Hlook q nd Hqnd) as (nd1' & Hq1' & _ & Hcol & _).
    simpl in Hq1. rewrite Hq1' in Hq1. injection Hq1 as <-. by rewrite Hcol.
  - (* below a root, which is collapsed after [collapseAll] *)
    apply elem_of_cons in Hqr as [->|Hqr]; [done|].
    assert (Hrkids : kids_of (nodes w) r ≠ []).
    { intros E. rewrite E in Hqr. by apply elem_of_nil in Hqr. }
    assert (Hrc : collapsed_in h1 r = true).
    { assert (is_Some (nodes w !! r)) as [rd Hrd].
      { rewrite Forall_forall in Hall. apply Hall. apply Hin_dfs.
        apply elem_of_cons. by left. }
      destruct (Hlook r rd Hrd) as (rd1 & Hr1 & _ & _ & _ & Hfl).
      unfold collapsed_in. rewrite Hr1. simpl. rewrite Hfl.
      2: { apply Hin_dfs. apply elem_of_cons. by left. }
      unfold flagged. rewrite (kids_of_lookup _ _ _ Hrd) in Hrkids.
      by destruct (children rd). }
    rewrite Hrc in Hdesc. simpl in Hdesc.
    assert (Htrue : Forall (λ b, b = true)
              (flat_map (hidden_in h1 n true) (kids_of h1 r))).
    { clear. induction (kids_of h1 r) as [|c l IH]; simpl; [constructor|].
      apply Forall_app. split; [apply hidden_in_true|apply IH]. }
    assert (Hq1 : q ∈ flat_map (preorder (kids_of h1) n) (kids_of h1 r)).
    { rewrite Hkids.
      rewrite (flat_map_ext _ (preorder (kids_of (nodes w)) n)); [done|].
      intros c. apply preorder_ext. apply Hkids. }
    destruct (Forall2_all_true _ _ _ q Hdesc Htrue Hq1)
      as (nd1 & nd2 & _ & Hq2 & Hbs).
    exists nd2. done.
Qed.

Lemma collapseAll_shows_roots_witness :
  ∃ tv1 w1 tv2 w2,
    TreeView_collapseAll 2 shown_view searched_world = Some (tv1, w1)
    ∧ TreeView_calculateVirtualSize flat_sizeHint 2 tv1 w1 = Some (tv2, w2)
    ∧ ∀ q nd, q ∈ dfs (nodes searched_world) 2 [1; 2]%positive →
        nodes searched_world !! q = Some nd →
        ∃ nd2, nodes w2 !! q = Some nd2
          ∧ bs_length nd2
            = if decide (q ∈ [1; 2]%positive)
              then u64 (row_height flat_sizeHint
                          (TreeView.m_grid_line_width shown_view)
                          (columns nd))
              else 0.
Proof.
  apply (collapseAll_shows_roots flat_sizeHint 2 2 shown_view searched_world
           1%positive (mkTree [1; 2]%positive)).
  - reflexivity.
  - reflexivity.
  - apply searched_store_indexed.
  - lia.
  - exact searched_store_cells.
  - simpl. repeat constructor; try (eexists; split; reflexivity).
Defined.
